(* ===== verification/_CoqProject ===== *)
-Q . S2P
Prelude.v
Text.v
VectorClock.v
Sha256.v
GearTable.v
Chunker.v
Resync.v
MerkleTree.v
FileEntry.v
CrdtStore.v
EntryCodec.v
Fs.v
FileStore.v
SyncEngine.v
Frames.v
Messages.v
Network.v
Socket.v
Node.v
Cli.v
Faults.v
Cut.v
Transport.v
Replica.v
Gossip.v
Meeting.v
Cluster.v
Tests.v
