(* ===== verification/Prelude.v ===== *)
(** * P2P sync engine: verification library

    The program ([src/]) is a peer-to-peer file synchroniser.  A node chunks the
    files it is given by content, stores every chunk once under its hash, keeps one
    metadata entry per path with a vector clock, saves the entries in a text
    journal, and exchanges entries and chunks with a peer over one TCP connection.
    This library translates all of it into executable definitions and proves what
    the parts promise.

    ** The parts, from the bottom up

    - [Prelude]: bytes, machine integers, the outcomes of C++ code (return, throw,
      undefined behaviour), the state monad, generic lemmas and tactics.
    - [Text]: what the program uses of [std::string], the string streams,
      [std::stoi] and [std::stoull], and the order of [std::map].
    - [VectorClock] ([vector_clock.*]): [increment], [merge], [compare],
      [to_string] on 64-bit counters.
    - [Sha256] ([sha256.*]): the streaming context, the compression function, the
      padding, [combine], [to_hex].
    - [GearTable], [Chunker] ([rolling_hash.hpp], [chunker_gear_table.inc],
      [chunker.*]): the rolling hash and both loops of [Chunker::chunk].
    - [Resync]: where the chunks of a file and of its edited copy meet again.
    - [MerkleTree] ([merkle_tree.*]): construction and the pruned comparison.
    - [FileEntry] ([file_entry.hpp]), [CrdtStore] ([crdt_store.*]): the entries, the
      local changes and the merge of a remote entry.
    - [EntryCodec] ([entry_codec.*]): digests, clocks and entries as text, both ways.
    - [Fs]: the file system as a map from path names to contents with a set of
      directories, and the operations of [std::filesystem] and the file streams.
    - [FileStore] ([file_store.*]): the chunks on disk, reassembly, materialization.
    - [SyncEngine] ([sync_engine.*]): one node's engine; its state [World] is the
      object, the disk and the standard output.
    - [Frames] ([network.cpp] from [send_all] to [recv_frame]): frames over a
      connection [Conn], an oracle for how TCP cuts the bytes up and how much each
      [send] takes.
    - [Messages] ([network.cpp]): manifests, requests and chunk data as bytes, both ways.
    - [Network] ([network.cpp], [network.hpp]): [run_sync_session]; its
      state [Peer] is a world and a connection.
    - [Socket] ([network.cpp] down to [accept_once]): [TcpSocket], its two ways to
      come about, moves, assignment and destructor, over a table of descriptors and
      an oracle for which system calls fail.
    - [Node] ([node.*]): a node, with the life of the socket of a session.
    - [Cli] ([main.cpp]): the command line, dispatch, everything printed, exit codes.
    - [Transport]: two sessions side by side over channels of bounded capacity, as a
      step relation on what is left of their scripts of sends and receives.
    - [Replica]: the abstract specification of a node (a map from paths to versions;
      operations, restarts and crashes) and the proof that the engine with its
      journal, chunks and disk implements it.
    - [Faults]: sessions whose peer may send anything and stop anywhere.
    - [Cut]: sessions with a sound peer that is lost at some byte.
    - [Gossip]: any number of stores that are edited and merged in any order.
    - [Meeting]: how a session between two nodes that may be cut off or killed ends, in
      terms of their replicas.
    - [Cluster]: any number of nodes with their disks, as a step relation whose steps
      are the operations of [SyncEngine], sessions of [Network] that may be cut or
      killed, and restarts; and its specification by the replicas of [Replica].
    - [Tests] ([test_chunker.cpp], [test_crdt.cpp], [test_merkle.cpp]): the program's own
      test programs, with the Mersenne twister behind the test data.

    An operation is one definition, composed as in the code: a C++ member function
    that changes its object is a function to the new state, one that can throw or
    reaches the disk is a [stateM].  An exception keeps the state reached, as in C++.

    ** What the theorems show

    - Data structures: [compare] decides the causal order and [merge] is its
      join; the streaming hash is the fold of the compression function over
      the padded message; chunking loses nothing, respects its size bounds, and
      leaves the chunks before an edit and those behind the next place whose content forces
      a boundary ([edit_is_local]); comparing two trees gives exactly
      the changed leaves at a logarithmic cost; merging causally ordered versions is
      independent of order and repetition, and a conflict keeps both versions.
    - Formats: an entry's line, a digest, a manifest, a request and a frame are read
      back as they were written, exactly under stated conditions on names; parsing
      never does anything undefined except where [chunk_data_safe_iff] says.
    - The engine: [engine_ok] holds after every operation, also one that threw;
      ingesting works end to end; a restart restores the engine; and the
      refinement [node_implements_replica] adds crashes in the middle of an ingest.
    - Two nodes: [sync_two_nodes] (any segmentation, any partial sends: both stores
      are the merge, every adopted file has the peer's bytes),
      [listen_and_sync_processes] (the same for two processes started from the shell),
      [session_alternates] and [sessions_complete_iff] (the sessions cannot block
      each other unless both frames of a round exceed what the sockets buffer).
    - Many nodes: [strong_eventual_consistency] (who has heard the same versions
      holds the same entries) and [gossip_converges], for the stores alone;
      [cluster_implements_replicas] (nodes that edit, restart, crash and meet keep standing for
      the replicas of the specification, and a whole session merges them), [files_converge]
      (nodes that heard of the same versions have the same bytes of every path),
      [informed_changes_converge] (no conflict ever arises if who changes a path has heard of
      its versions) and [tours_converge] (two rounds of whole meetings bring everyone up to date).
    - A hostile or dying peer: [session_atomic] (store and, as long as the received paths are
      plain, journal are the old ones or merged with one whole manifest); [session_cut] (when a sound peer is lost, the
      disk is as it was or everything is done).
    - Processes: a run of [main] ends with 0, or with 1 and a message or the usage text, except
      that the networked commands can end by undefined behaviour or by the signal of
      a broken connection ([main_outcome]); options and words are told apart, [add] and a later [list] agree through the disk, sockets never
      leak on any path.
    - The program's tests: [own_tests_pass] runs two of them; [chunker_test_outcome] says what the third
      proves and on what it depends.
    - Flaws, stated as theorems about the code as it is: [hash_is_not_fips_180_4],
      [concurrent_edits_never_converge], [conflict_fork_overwrites],
      [received_chunk_not_verified], [chunk_data_safe_iff], [line_roundtrip_iff],
      [absolute_path_escapes], [removed_content_stays], [broken_connection_kills],
      [unwritable_journal_unnoticed], [forced_cuts_shift],
      [torn_journal_loses_entries], [flag_taken_as_value].

    ** Fuel and bounds

    Loops that are not structural take fuel, chosen in the definition and shown to be
    enough: [dec_loop] one more than the binary length of the number;
    [chunk_loop] one more than the length of the buffer ([chunk_loop_terminates]);
    [pad_loop] 64 turns ([finish_pads_to_56]); [send_loop], [recv_loop] and
    [receive_loop] one more than the bytes that are left, each turn that goes on
    taking one ([send_loop_moved], [recv_loop_moved], [receive_loop_UB]);
    [build_recursive] the number of chunks.  Machine integers
    wrap: 32-bit words in [Sha256], 64-bit counters and sizes, the 32-bit frame
    length, the 16-bit port; [static_cast<int>] of a count is [MerkleTree.to_int].
    The [int] counters of a session's statistics are integers, which no frame can take
    out of the range of an [int] ([counters_fit]).

    ** Not modelled

    - The operating system below its calls: [getaddrinfo] is a parameter, socket
      options have no effect, [htons] and the address structures are left out, and
      the failures of system calls are an oracle; a [recv] with nothing to read returns
      a disconnect or a failure ([Network]) or waits ([Transport]).  [SIGPIPE] has its default
      effect; the sessions of [Transport] do not fail.  Writing to the standard streams
      always succeeds and is not buffered.  A [TcpSocket] made from a descriptor number
      appears only as the result of [connect_to] and [accept_once], its only uses.
    - Symbolic links, permissions, full disks, the resolution of [.] and [..], and
      concurrent processes on one data directory.  Writing one file is
      one step; what a process killed in the middle of it leaves is the subject of
      [torn_journal_loses_entries] only, so the processes of [Cluster] are killed between
      the writes of whole files and not while they save the journal.  Opening a directory for reading is a
      failure to open.
    - Memory exhaustion, and hash collisions, which are hypotheses where they matter.
    - [what()] of the exceptions of the standard library, a parameter of [main].
    - The algorithm of [std::uniform_int_distribution], which the C++ standard leaves
      open, a parameter of [test_chunker].
    - The build files and the README, which hold no program logic. *)
From Stdlib Require Export NArith ZArith Lia Ascii.
From stdpp Require Export base tactics strings gmap sorting numbers.
From stdpp Require Export list.

#[global] Set Default Goal Selector "!".

(** ** Bytes and C++ strings

    [uint8_t] and [char] are [ascii]: eight bits, with decidable equality and
    countability from stdpp.  A [std::vector<uint8_t>] and a [std::string] are
    both lists of bytes, so that the conversions the program makes between the
    two ([std::string(payload.begin(), payload.end())]) are the identity. *)
Abbreviation byte := ascii (only parsing).
Abbreviation bytes := (list ascii) (only parsing).

(** A readable literal: [str "abc"] is the C++ literal ["abc"]. *)
Definition str (s : string) : bytes := String.list_ascii_of_string s.

Definition byte_val (b : byte) : N := N_of_ascii b.
(** [static_cast<uint8_t>]: the low eight bits. *)
Definition byte_of (n : N) : byte := ascii_of_N (n `mod` 256).

(** ** Machine-width unsigned integers: an [N] below [2^w], with the wrap-around
    of the C++ operators written out by [wrap]. *)
Definition wrap (w n : N) : N := n `mod` 2 ^ w.
Abbreviation u32 := (wrap 32).
Abbreviation u64 := (wrap 64).

(** ** Outcomes of C++ code

    [Ok] is a normal return, [Throw] an exception, [UB] an execution whose
    behaviour the C++ standard leaves undefined (an out-of-range read).  [sigpipe] is no
    exception of C++ but the end of the process: the signal of a write to a
    connection that the peer has closed, which the program does not handle; like an exception it
    ends everything that is running, but nothing catches it. *)
Inductive exn : Type :=
| invalid_argument
| out_of_range
| filesystem_error
| runtime_error (msg : bytes)
| sigpipe.

Inductive outcome (A : Type) : Type :=
| Ok (a : A)
| Throw (e : exn)
| UB.
Arguments Ok {A} a.
Arguments Throw {A} e.
Arguments UB {A}.

#[export] Instance exn_eq_dec : EqDecision exn.
Proof. solve_decision. Defined.
#[export] Instance outcome_eq_dec `{EqDecision A} : EqDecision (outcome A).
Proof. solve_decision. Defined.

#[export] Instance outcome_ret : MRet outcome := λ A a, Ok a.
#[export] Instance outcome_bind : MBind outcome := λ A B f m,
  match m with Ok a => f a | Throw e => Throw e | UB => UB end.

(** The code returns or throws an exception: it does nothing undefined, and the process is not
    killed. *)
Definition behaves {A} (o : outcome A) : Prop :=
  match o with Ok _ => True | Throw e => e ≠ sigpipe | UB => False end.

Lemma behaves_not_UB {A} (o : outcome A) : behaves o → o ≠ UB.
Proof. by intros H ->. Qed.

(** A computation over a state: an exception keeps the state reached when it
    was thrown, as the C++ object keeps the changes already made to it. *)
Definition stateM (S A : Type) : Type := S → outcome A * S.
#[export] Instance stateM_ret {S} : MRet (stateM S) := λ A a s, (Ok a, s).
#[export] Instance stateM_bind {S} : MBind (stateM S) := λ A B f m s,
  match m s with
  | (Ok a, s') => f a s'
  | (Throw e, s') => (Throw e, s')
  | (UB, s') => (UB, s')
  end.
Definition get_state {S} : stateM S S := λ s, (Ok s, s).
Definition modify {S} (f : S → S) : stateM S unit := λ s, (Ok tt, f s).
Definition lift {S A} (o : outcome A) : stateM S A := λ s, (o, s).

Declare Scope sync_scope.
Delimit Scope sync_scope with sync.
Notation "'let!' x := m 'in' k" := (mbind (λ x, k) m)
  (at level 10, x name, m at level 100, k at level 200) : sync_scope.
Notation "m ;! k" := (mbind (λ _, k) m)
  (at level 100, right associativity) : sync_scope.
Open Scope sync_scope.

(** [for (const auto& x : xs) body(x);] *)
Fixpoint for_each {S A} (xs : list A) (body : A → stateM S unit) : stateM S unit :=
  match xs with
  | [] => mret tt
  | x :: xs => body x ;! for_each xs body
  end.

Fixpoint map_outcome {A B} (f : A → outcome B) (xs : list A) : outcome (list B) :=
  match xs with
  | [] => Ok []
  | x :: xs => let! y := f x in let! ys := map_outcome f xs in Ok (y :: ys)
  end.

(** ** Lemmas on bytes *)
Lemma byte_val_lt b : (byte_val b < 256)%N.
Proof. apply N_ascii_bounded. Qed.

Lemma byte_of_val b : byte_of (byte_val b) = b.
Proof.
  unfold byte_of. rewrite N.mod_small by apply byte_val_lt. apply ascii_N_embedding.
Qed.

Lemma byte_val_of n : byte_val (byte_of n) = (n `mod` 256)%N.
Proof. apply N_ascii_embedding. apply N.mod_lt. lia. Qed.

Lemma byte_val_of_small n : (n < 256)%N → byte_val (byte_of n) = n.
Proof. intros ?. rewrite byte_val_of. by apply N.mod_small. Qed.

#[export] Instance byte_val_inj : Inj (=) (=) byte_val.
Proof. intros a b H. rewrite <- (byte_of_val a), H. apply byte_of_val. Qed.

(** ** Lemmas on machine integers *)
Lemma wrap_lt w n : (wrap w n < 2 ^ w)%N.
Proof. apply N.mod_lt. apply N.pow_nonzero. lia. Qed.

Lemma wrap_small w n : (n < 2 ^ w)%N → wrap w n = n.
Proof. apply N.mod_small. Qed.

Lemma wrap_wrap w n : wrap w (wrap w n) = wrap w n.
Proof. apply wrap_small, wrap_lt. Qed.

Lemma wrap_add_l w a b : wrap w (wrap w a + b) = wrap w (a + b).
Proof. apply N.Div0.add_mod_idemp_l. Qed.

(** A proposition is decided through an equivalent one. *)
Definition dec_iff (P Q : Prop) (H : P ↔ Q) (d : Decision Q) : Decision P :=
  match d with left q => left (proj2 H q) | right n => right (λ p, n (proj1 H p)) end.

(** Proves a closed decidable statement by running its decision procedure. *)
Ltac by_decide := refine (bool_decide_unpack _ _); vm_compute; exact I.

Create HintDb sync.
Create Rewrite HintDb sync.
#[export] Hint Resolve byte_val_lt wrap_lt : sync.
#[export] Hint Rewrite byte_of_val wrap_wrap : sync.

(** ** Lemmas on outcomes and loops *)
Lemma map_outcome_length {A B} (f : A → outcome B) xs ys : map_outcome f xs = Ok ys → length ys = length xs.
Proof.
  revert ys. induction xs as [|x xs IH]; intros ys; simpl; [by intros [= <-]|].
  destruct (f x); simpl; [|done|done]. destruct (map_outcome f xs) as [zs| |]; simpl; [|done|done].
  intros [= <-]. simpl. by rewrite (IH zs).
Qed.

Lemma map_outcome_ok {A B} (f : A → outcome B) xs ys :
  Forall2 (λ x y, f x = Ok y) xs ys → map_outcome f xs = Ok ys.
Proof. induction 1 as [|x y xs ys Hx _ IH]; simpl; [done|]. by rewrite Hx; simpl; rewrite IH. Qed.

Lemma bind_ok {S A B} (m : stateM S A) (k : A → stateM S B) s a s' :
  m s = (Ok a, s') → mbind k m s = k a s'.
Proof. unfold mbind, stateM_bind. by intros ->. Qed.

Lemma for_each_app {S A} (xs ys : list A) (body : A → stateM S unit) s s' :
  for_each xs body s = (Ok tt, s') →
  for_each (xs ++ ys) body s = for_each ys body s'.
Proof.
  revert s. induction xs as [|x xs IH]; intros s; simpl; [by intros [= ->]|].
  unfold mbind, stateM_bind. destruct (body x s) as [[[]| |] s1]; naive_solver.
Qed.

(** A loop body that returns normally and preserves an invariant does so for
    the whole loop. *)
Lemma for_each_inv {S A} (xs : list A) (body : A → stateM S unit) (P : S → Prop) s :
  (∀ x s, x ∈ xs → P s → ∃ s', body x s = (Ok tt, s') ∧ P s') →
  P s → ∃ s', for_each xs body s = (Ok tt, s') ∧ P s'.
Proof.
  revert s. induction xs as [|x xs IH]; intros s Hb Hs; simpl; [by eexists|].
  destruct (Hb x s) as (s1 & Hx & Hs1); [set_solver|done|].
  unfold mbind, stateM_bind. rewrite Hx.
  apply IH; [|done]. intros y t Hy. apply Hb. set_solver.
Qed.

(** ** Lemmas on lists *)
Lemma take_prefix_drop {A} (p l : list A) : p `prefix_of` l → l = p ++ drop (length p) l.
Proof. intros [k ->]. by rewrite drop_app_length. Qed.

(** ** Big-endian numbers *)
Definition be_step (a : N) (b : byte) : N := a * 256 + byte_val b.
Definition be_val (l : bytes) : N := foldl be_step 0%N l.

Lemma land_255 n : N.land n 0xff = (n `mod` 256)%N.
Proof. change 0xff%N with (N.ones 8). by rewrite N.land_ones. Qed.

Lemma byte_of_mod n : byte_of (n `mod` 256) = byte_of n.
Proof. unfold byte_of. by rewrite N.Div0.mod_mod. Qed.

(** Reversing a list that ends in a run of [z] after a marker other than [z]
    determines what precedes the marker. *)
Lemma replicate_marker_inj {A} (z x : A) i j k l :
  x ≠ z → replicate i z ++ x :: k = replicate j z ++ x :: l → k = l.
Proof.
  intros Hx. revert j. induction i as [|i IH]; intros [|j]; simpl; intros [=]; try done.
  by apply (IH j).
Qed.

Lemma marker_replicate_inj {A} (z x : A) i j k l :
  x ≠ z → k ++ [x] ++ replicate i z = l ++ [x] ++ replicate j z → k = l.
Proof.
  intros Hx H. apply (f_equal reverse) in H.
  rewrite !reverse_app, !reverse_replicate, <- !app_assoc in H.
  apply replicate_marker_inj in H; [|done]. by apply (inj reverse).
Qed.

Lemma filter_Forall {A} (P : A → Prop) `{∀ x, Decision (P x)} (l : list A) :
  Forall P l → filter P l = l.
Proof. induction 1 as [|x l Hx _ IH]; [done|]. by rewrite filter_cons_True, IH. Qed.

Lemma alter_present `{Countable T} {A} (f : A → A) (m : gmap T A) k x :
  m !! k = Some x → alter f k m = <[k := f x]> m.
Proof.
  intros Hm. apply map_eq. intros j. rewrite lookup_alter, lookup_insert. case_decide; [|done].
  subst. by rewrite Hm.
Qed.
