(* ===== verification/Text.v ===== *)
(** * Text: the string operations of the C++ standard library the program uses

    [std::getline], [find], [find_last_of], decimal and hexadecimal output,
    [std::stoull] and [std::stoi], and the iteration order of
    [std::map<std::string, T>].  Strings are lists of bytes ([Prelude]). *)
From S2P Require Import Prelude.

(** ** [std::getline] *)

(** One call on a stream holding [s]: [None] when the stream is exhausted,
    otherwise the characters before the delimiter and what is left after it. *)
Fixpoint getline (d : byte) (s : bytes) : option (bytes * bytes) :=
  match s with
  | [] => None
  | c :: s' =>
      if decide (c = d) then Some ([], s')
      else match getline d s' with
           | None => Some ([c], [])
           | Some (x, r) => Some (c :: x, r)
           end
  end.

(** [while (std::getline(in, x, d)) out.push_back(x);] *)
Fixpoint getlines (d : byte) (s : bytes) : list bytes :=
  match s with
  | [] => []
  | c :: s' =>
      if decide (c = d) then [] :: getlines d s'
      else match getlines d s' with
           | [] => [[c]]
           | x :: xs => (c :: x) :: xs
           end
  end.

(** The loop of calls is what [getlines] computes. *)
Lemma getlines_getline d s :
  getlines d s = match getline d s with
                 | None => []
                 | Some (x, r) => x :: getlines d r
                 end.
Proof.
  induction s as [|c s IH]; simpl; [done|]. case_decide; [done|].
  rewrite IH. destruct (getline d s) as [[x r]|]; done.
Qed.

Lemma getline_delim d x s : d ∉ x → getline d (x ++ d :: s) = Some (x, s).
Proof.
  induction x as [|c x IH]; simpl; intros Hx.
  - by rewrite decide_True.
  - rewrite decide_False by set_solver. by rewrite IH by set_solver.
Qed.

Lemma getline_last d x : d ∉ x → x ≠ [] → getline d x = Some (x, []).
Proof.
  induction x as [|c x IH]; simpl; intros Hx ?; [done|].
  rewrite decide_False by set_solver.
  destruct x as [|c' x]; [done|]. by rewrite IH by set_solver.
Qed.

Lemma getlines_delim d x s : d ∉ x → getlines d (x ++ d :: s) = x :: getlines d s.
Proof. intros. by rewrite getlines_getline, getline_delim. Qed.

Lemma getlines_last d x : d ∉ x → x ≠ [] → getlines d x = [x].
Proof. intros. by rewrite getlines_getline, getline_last. Qed.

Lemma getline_shorter d s x r : getline d s = Some (x, r) → length r < length s.
Proof.
  revert x. induction s as [|c s IH]; intros x; cbn [getline]; [done|]. case_decide; [intros [= _ <-]; cbn; lia|].
  destruct (getline d s) as [[y r']|]; [|intros [= _ <-]; cbn; lia]. intros [= _ <-]. specialize (IH y eq_refl). cbn. lia.
Qed.

(** A line that is not empty takes two bytes, the last one perhaps a single one. *)
Lemma getlines_count d s :
  let n := length (filter (λ l, l ≠ []) (getlines d s)) in
  2 * n ≤ S (length s) ∧ (head (getlines d s) = Some [] → 2 * n ≤ length s).
Proof.
  induction s as [|c s [IH1 IH2]]; cbn [getlines length head]; [split; [cbn; lia|done]|].
  case_decide as Hc.
  - cbn [head]. rewrite filter_cons_False by tauto. cbv zeta in *. split; intros; lia.
  - destruct (getlines d s) as [|x xs] eqn:E; cbn [head] in *.
    + rewrite filter_cons_True by done. cbn in *. split; [lia|done].
    + rewrite filter_cons_True by done. destruct (decide (x = [])) as [->|Hx].
      * rewrite filter_cons_False in IH1, IH2 by tauto. specialize (IH2 eq_refl). cbn [length]. split; [lia|done].
      * rewrite filter_cons_True in IH1 by done. cbn [length] in *. split; [lia|done].
Qed.

(** Writing every line followed by the delimiter and reading back. *)
Definition unlines (d : byte) (xs : list bytes) : bytes := concat (map (λ x, x ++ [d]) xs).

Lemma unlines_cons d x xs : unlines d (x :: xs) = x ++ d :: unlines d xs.
Proof. unfold unlines. simpl. by rewrite <- app_assoc. Qed.

Lemma getlines_unlines d xs :
  Forall (λ x, d ∉ x) xs → getlines d (unlines d xs) = xs.
Proof.
  induction 1 as [|x xs Hx _ IH]; [done|].
  by rewrite unlines_cons, getlines_delim, IH.
Qed.

(** [if (i) oss << sep; oss << x;] over a list: elements separated by [sep]. *)
Fixpoint join (sep : byte) (xs : list bytes) : bytes :=
  match xs with
  | [] => []
  | [x] => x
  | x :: xs => x ++ sep :: join sep xs
  end.

Lemma join_cons d x y xs : join d (x :: y :: xs) = x ++ d :: join d (y :: xs).
Proof. done. Qed.

Lemma getlines_join d xs :
  Forall (λ x, d ∉ x ∧ x ≠ []) xs → getlines d (join d xs) = xs.
Proof.
  induction 1 as [|x xs [Hx Hne] Hxs IH]; [done|].
  destruct xs as [|y xs]; [by apply getlines_last|].
  by rewrite join_cons, getlines_delim, IH.
Qed.

Lemma join_not_elem_of d c xs : c ≠ d → Forall (λ x, c ∉ x) xs → c ∉ join d xs.
Proof.
  intros Hcd. induction 1 as [|x xs Hx Hxs IH]; [set_solver|].
  destruct xs as [|y xs]; [done|]. rewrite join_cons. set_solver.
Qed.

Lemma join_nil_inv d xs : Forall (λ x, x ≠ []) xs → join d xs = [] → xs = [].
Proof.
  intros Hxs Hj. destruct xs as [|x [|y xs]]; [done| |].
  - simpl in Hj. subst. by inversion Hxs.
  - rewrite join_cons in Hj. by apply app_nil in Hj as [_ ?].
Qed.

(** ** [find] and [find_last_of] of one character, and [substr] *)

Fixpoint find_first (d : byte) (s : bytes) : option nat :=
  match s with
  | [] => None
  | c :: s => if decide (c = d) then Some 0 else S <$> find_first d s
  end.

Fixpoint find_last_of (d : byte) (s : bytes) : option nat :=
  match s with
  | [] => None
  | c :: s =>
      match find_last_of d s with
      | Some i => Some (S i)
      | None => if decide (c = d) then Some 0 else None
      end
  end.

(** [s.substr(0, n)] and [s.substr(n)] for [n <= s.size()]. *)
Definition substr_to (n : nat) (s : bytes) : bytes := take n s.
Definition substr_from (n : nat) (s : bytes) : bytes := drop n s.

Lemma find_first_delim d x s : d ∉ x → find_first d (x ++ d :: s) = Some (length x).
Proof.
  induction x as [|c x IH]; simpl; intros Hx; [by rewrite decide_True|].
  rewrite decide_False by set_solver. by rewrite IH by set_solver.
Qed.

Lemma substr_from_delim d x s : substr_from (S (length x)) (x ++ d :: s) = s.
Proof. induction x; [done|]. exact IHx. Qed.

Lemma substr_to_delim d x s : substr_to (length x) (x ++ d :: s) = x.
Proof. apply take_app_length. Qed.

Lemma find_first_None d s : find_first d s = None ↔ d ∉ s.
Proof.
  induction s as [|c s IH]; simpl; [set_solver|].
  case_decide; [set_solver|]. rewrite fmap_None, IH. set_solver.
Qed.

Lemma find_last_of_None d s : find_last_of d s = None ↔ d ∉ s.
Proof.
  induction s as [|c s IH]; simpl; [set_solver|].
  destruct (find_last_of d s); [|case_decide]; set_solver.
Qed.

Lemma find_last_of_Some d s i :
  find_last_of d s = Some i →
  s !! i = Some d ∧ d ∉ drop (S i) s.
Proof.
  revert i. induction s as [|c s IH]; simpl; [done|]. intros i.
  destruct (find_last_of d s) as [j|] eqn:Hj.
  - intros [= <-]. by apply IH.
  - case_decide; [|done]. intros [= <-]. subst. split; [done|].
    rewrite drop_0. by apply find_last_of_None.
Qed.

(** The index found is the one that splits the string at its last [d]. *)
Lemma find_last_of_delim d x s : d ∉ s → find_last_of d (x ++ d :: s) = Some (length x).
Proof.
  intros Hs. induction x as [|c x IH]; simpl; [|by rewrite IH].
  apply find_last_of_None in Hs as ->. by rewrite decide_True.
Qed.

(** ** Numbers in text *)

Definition hex_digit_val (c : byte) : option N :=
  let v := byte_val c in
  if (48 <=? v)%N && (v <=? 57)%N then Some (v - 48)%N
  else if (97 <=? v)%N && (v <=? 102)%N then Some (v - 87)%N
  else if (65 <=? v)%N && (v <=? 70)%N then Some (v - 55)%N
  else None.

Definition digit_val (base : N) (c : byte) : option N :=
  match hex_digit_val c with
  | Some d => if (d <? base)%N then Some d else None
  | None => None
  end.

(** Decimal output of an unsigned integer, [oss << n]: the digits are produced
    from the right; one more than the binary length of [n] is enough fuel. *)
Definition dec_char (d : N) : byte := byte_of (48 + d).
Fixpoint dec_loop (fuel : nat) (n : N) (acc : bytes) : bytes :=
  match fuel with
  | 0 => acc
  | S fuel =>
      let acc := dec_char (n `mod` 10) :: acc in
      if (n / 10 =? 0)%N then acc else dec_loop fuel (n / 10) acc
  end.
Definition to_dec (n : N) : bytes := dec_loop (S (N.to_nat (N.log2 n))) n [].

(** [std::hex << std::setw(2) << std::setfill('0')] of a byte. *)
Definition hex_char (d : N) : byte := byte_of (if (d <? 10)%N then 48 + d else 87 + d).
Definition hex_of_byte (b : byte) : bytes :=
  [hex_char (byte_val b / 16); hex_char (byte_val b `mod` 16)].

(** [isspace] in the C locale: space and the controls 9 to 13. *)
Definition is_space (c : byte) : bool :=
  (byte_val c =? 32)%N || ((9 <=? byte_val c)%N && (byte_val c <=? 13)%N).
Fixpoint skip_space (s : bytes) : bytes :=
  match s with
  | c :: s' => if is_space c then skip_space s' else s
  | [] => []
  end.

(** The longest prefix of digits, read as a number on top of [acc]. *)
Fixpoint scan_digits (base acc : N) (s : bytes) : N :=
  match s with
  | c :: s =>
      match digit_val base c with
      | Some d => scan_digits base (acc * base + d) s
      | None => acc
      end
  | [] => acc
  end.

Definition has_digit (base : N) (s : bytes) : bool :=
  match s with
  | c :: _ => match digit_val base c with Some _ => true | None => false end
  | [] => false
  end.

Definition scan_sign (s : bytes) : bool * bytes :=
  match s with
  | "-"%char :: s => (true, s)
  | "+"%char :: s => (false, s)
  | _ => (false, s)
  end.

(** [strtol] and [strtoull] in base 16 accept one optional [0x] prefix, which
    counts only when a digit follows it. *)
Definition skip_0x (base : N) (s : bytes) : bytes :=
  match s with
  | "0"%char :: x :: r =>
      if (base =? 16)%N && (bool_decide (x = "x"%char) || bool_decide (x = "X"%char))
         && has_digit base r
      then r else s
  | _ => s
  end.

(** The common part of [strtol] and [strtoull]: sign and magnitude, [None] when
    no conversion can be made. *)
Definition strto (base : N) (s : bytes) : option (bool * N) :=
  let '(neg, s) := scan_sign (skip_space s) in
  let s := skip_0x base s in
  if has_digit base s then Some (neg, scan_digits base 0 s) else None.

(** [std::stoull(s)]: a minus sign negates modulo [2^64]. *)
Definition stoull (s : bytes) : outcome N :=
  match strto 10 s with
  | None => Throw invalid_argument
  | Some (neg, m) =>
      if (2 ^ 64 <=? m)%N then Throw out_of_range
      else Ok (if neg then u64 (2 ^ 64 - m) else m)
  end.

(** [std::stoi(s, nullptr, base)]. *)
Definition stoi (base : N) (s : bytes) : outcome Z :=
  match strto base s with
  | None => Throw invalid_argument
  | Some (neg, m) =>
      let v := if neg then (- Z.of_N m)%Z else Z.of_N m in
      if (- 2 ^ 31 <=? v)%Z && (v <? 2 ^ 31)%Z then Ok v else Throw out_of_range
  end.

(** [static_cast<uint8_t>] of an [int]. *)
Definition byte_of_int (z : Z) : byte := byte_of (Z.to_N (z `mod` 256)).

Definition is_dec (c : byte) : Prop := (48 ≤ byte_val c ≤ 57)%N.
Definition is_hex (c : byte) : Prop := is_Some (hex_digit_val c).

Lemma dec_char_val d : (d < 10)%N → byte_val (dec_char d) = (48 + d)%N.
Proof. intros. apply byte_val_of_small. lia. Qed.

Lemma digit_val_dec_char d : (d < 10)%N → digit_val 10 (dec_char d) = Some d.
Proof.
  intros Hd. unfold digit_val, hex_digit_val. rewrite dec_char_val by done.
  rewrite (proj2 (N.leb_le 48 _)), (proj2 (N.leb_le _ 57)) by lia. simpl.
  rewrite (proj2 (N.ltb_lt _ _)) by lia. f_equal. lia.
Qed.

Lemma is_dec_dec_char d : (d < 10)%N → is_dec (dec_char d).
Proof. intros. unfold is_dec. rewrite dec_char_val by done. lia. Qed.

Lemma dec_loop_acc fuel n acc : dec_loop fuel n acc = dec_loop fuel n [] ++ acc.
Proof.
  revert n acc. induction fuel as [|fuel IH]; intros n acc; simpl; [done|].
  case_match; [done|]. rewrite IH. rewrite (IH _ [_]). by rewrite <- app_assoc.
Qed.

(** The digits of [n] are those of [n / 10] followed by [n mod 10]. *)
Lemma dec_loop_step fuel n :
  dec_loop (S fuel) n [] =
    (if (n / 10 =? 0)%N then [] else dec_loop fuel (n / 10) []) ++ [dec_char (n `mod` 10)].
Proof. simpl. case_match; [done|]. apply dec_loop_acc. Qed.

Lemma dec_loop_digits fuel n : Forall is_dec (dec_loop fuel n []).
Proof.
  revert n. induction fuel as [|fuel IH]; intros n; [constructor|].
  rewrite dec_loop_step. apply Forall_app; split.
  - case_match; [constructor|apply IH].
  - constructor; [|constructor]. apply is_dec_dec_char, N.mod_lt. lia.
Qed.

Lemma is_dec_digit c : is_dec c → is_Some (digit_val 10 c).
Proof.
  intros Hc. unfold is_dec in Hc. unfold digit_val, hex_digit_val.
  rewrite (proj2 (N.leb_le _ _)) by lia. rewrite (proj2 (N.leb_le _ _)) by lia. simpl.
  rewrite (proj2 (N.ltb_lt _ _)) by lia. eauto.
Qed.

(** Digits are consumed; a single digit appended multiplies by ten. *)
Lemma scan_digits_app base a x s :
  Forall (λ c, is_Some (digit_val base c)) x →
  scan_digits base a (x ++ s) = scan_digits base (scan_digits base a x) s.
Proof.
  intros Hx. revert a. induction Hx as [|c x [d Hd] _ IH]; intros a; simpl; [done|].
  rewrite Hd. apply IH.
Qed.

Lemma scan_digits_stop base a s : has_digit base s = false → scan_digits base a s = a.
Proof. destruct s as [|c s]; simpl; [done|]. by case_match. Qed.

Lemma dec_loop_value fuel n :
  (n < 10 ^ N.of_nat fuel)%N → scan_digits 10 0 (dec_loop fuel n []) = n.
Proof.
  revert n. induction fuel as [|fuel IH]; intros n Hn; [simpl in *; lia|].
  rewrite dec_loop_step.
  pose proof (N.div_mod n 10 ltac:(lia)) as Hdm.
  assert (n `mod` 10 < 10)%N as Hm by (apply N.mod_lt; lia).
  rewrite scan_digits_app.
  - simpl. rewrite digit_val_dec_char by done.
    case_match eqn:E.
    + apply N.eqb_eq in E. cbn [scan_digits]. lia.
    + rewrite IH; [lia|]. rewrite Nat2N.inj_succ, N.pow_succ_r' in Hn.
      apply N.Div0.div_lt_upper_bound. lia.
  - case_match; [constructor|].
    eapply Forall_impl; [apply dec_loop_digits|exact is_dec_digit].
Qed.

Lemma to_dec_value n : scan_digits 10 0 (to_dec n) = n.
Proof.
  apply dec_loop_value. rewrite Nat2N.inj_succ, N2Nat.id.
  destruct (decide (n = 0%N)) as [->|]; [done|].
  pose proof (N.log2_spec n ltac:(lia)) as [_ Hlt].
  eapply N.lt_le_trans; [apply Hlt|]. apply N.pow_le_mono_l. lia.
Qed.

Lemma to_dec_digits n : Forall is_dec (to_dec n).
Proof. apply dec_loop_digits. Qed.

Lemma to_dec_not_nil n : to_dec n ≠ [].
Proof. unfold to_dec. rewrite dec_loop_step. by intros [_ ?]%app_nil. Qed.

Lemma to_dec_not_elem c n : ¬ is_dec c → c ∉ to_dec n.
Proof. intros Hc Hin. apply Hc. pose proof (to_dec_digits n) as H. rewrite Forall_forall in H. by apply H. Qed.

(** A decimal digit is neither a space nor a sign, so [strto] starts on it. *)
Lemma scan_sign_dec c s : is_dec c → scan_sign (skip_space (c :: s)) = (false, c :: s).
Proof.
  intros [H1 H2]. destruct c as [[] [] [] [] [] [] [] []];
    solve [reflexivity | exfalso; (apply H1 || apply H2); reflexivity].
Qed.

Lemma strto_digits x s :
  Forall is_dec x → x ≠ [] → has_digit 10 s = false →
  strto 10 (x ++ s) = Some (false, scan_digits 10 0 x).
Proof.
  intros Hx Hne Hs. unfold strto.
  assert (scan_sign (skip_space (x ++ s)) = (false, x ++ s)) as ->.
  { destruct x as [|c x]; [done|]. inversion_clear Hx. by apply scan_sign_dec. }
  assert (skip_0x 10 (x ++ s) = x ++ s) as ->.
  { unfold skip_0x. by repeat case_match. }
  assert (has_digit 10 (x ++ s) = true) as ->.
  { destruct x as [|c x]; [done|]. inversion_clear Hx as [|? ? Hc _].
    apply is_dec_digit in Hc as [d Hd]. simpl. by rewrite Hd. }
  rewrite scan_digits_app by (eapply Forall_impl; [done|exact is_dec_digit]).
  by rewrite scan_digits_stop.
Qed.

(** [std::stoull] reads back what [oss << n] wrote. *)
Lemma stoull_to_dec n : (n < 2 ^ 64)%N → stoull (to_dec n) = Ok n.
Proof.
  intros Hn. unfold stoull.
  rewrite <- (app_nil_r (to_dec n)), strto_digits;
    [|apply to_dec_digits|apply to_dec_not_nil|done].
  rewrite to_dec_value. by rewrite (proj2 (N.leb_gt _ _)) by lia.
Qed.

(** [std::stoi(_, nullptr, 16)] reads back the two digits of a byte. *)
Lemma stoi_hex_of_byte b : stoi 16 (hex_of_byte b) = Ok (Z.of_N (byte_val b)).
Proof. destruct b as [[] [] [] [] [] [] [] []]; vm_compute; reflexivity. Qed.

Lemma byte_of_int_val b : byte_of_int (Z.of_N (byte_val b)) = b.
Proof.
  unfold byte_of_int. pose proof (byte_val_lt b).
  rewrite Z.mod_small by lia. rewrite N2Z.id. apply byte_of_val.
Qed.

Lemma hex_of_byte_hex b : Forall is_hex (hex_of_byte b).
Proof. destruct b as [[] [] [] [] [] [] [] []]; repeat constructor; by eexists. Qed.

Lemma not_hex_not_elem c x : ¬ is_hex c → Forall is_hex x → c ∉ x.
Proof. intros Hc Hx Hin. rewrite Forall_forall in Hx. auto. Qed.

(** ** The iteration order of [std::map<std::string, T>]

    [std::string::compare] is the lexicographic order on unsigned bytes. *)
Fixpoint bytes_leb (x y : bytes) : bool :=
  match x, y with
  | [], _ => true
  | _ :: _, [] => false
  | a :: x, b :: y =>
      match (byte_val a ?= byte_val b)%N with
      | Lt => true
      | Eq => bytes_leb x y
      | Gt => false
      end
  end.

Definition key_le {A} (p q : bytes * A) : Prop := bytes_leb p.1 q.1 = true.
#[export] Instance key_le_dec {A} (p q : bytes * A) : Decision (key_le p q).
Proof. unfold key_le. apply _. Defined.

Lemma bytes_leb_total x y : bytes_leb x y = true ∨ bytes_leb y x = true.
Proof.
  revert y. induction x as [|a x IH]; intros [|b y]; simpl; eauto.
  rewrite (N.compare_antisym (byte_val b)). destruct (_ ?= _)%N; simpl; eauto.
Qed.

Lemma bytes_leb_trans x y z :
  bytes_leb x y = true → bytes_leb y z = true → bytes_leb x z = true.
Proof.
  revert y z. induction x as [|a x IH]; intros [|b y] [|c z]; simpl; try done.
  destruct (N.compare_spec (byte_val a) (byte_val b)),
    (N.compare_spec (byte_val b) (byte_val c)),
    (N.compare_spec (byte_val a) (byte_val c)); try done; try lia; eauto.
Qed.

Lemma bytes_leb_antisym x y : bytes_leb x y = true → bytes_leb y x = true → x = y.
Proof.
  revert y. induction x as [|a x IH]; intros [|b y]; simpl; try done.
  rewrite (N.compare_antisym (byte_val a)).
  destruct (N.compare_spec (byte_val a) (byte_val b)) as [->%byte_val_inj| |]; simpl; try done.
  intros. f_equal. auto.
Qed.

#[export] Instance key_le_total {A} : Total (@key_le A).
Proof. intros p q. apply bytes_leb_total. Qed.
#[export] Instance key_le_trans {A} : Transitive (@key_le A).
Proof. intros p q r. apply bytes_leb_trans. Qed.

(** [for (const auto& [k, v] : m)] visits this list. *)
Definition map_listing {A} (m : gmap bytes A) : list (bytes * A) :=
  merge_sort key_le (map_to_list m).

Section map_listing.
Context {A : Type}.
Implicit Types (m : gmap bytes A) (k : bytes) (v : A).

Lemma map_listing_perm m : map_listing m ≡ₚ map_to_list m.
Proof. apply merge_sort_Permutation. Qed.

Lemma elem_of_map_listing m k v : (k, v) ∈ map_listing m ↔ m !! k = Some v.
Proof. by rewrite map_listing_perm, elem_of_map_to_list. Qed.

Lemma map_listing_NoDup m : NoDup (map_listing m).*1.
Proof. rewrite map_listing_perm. apply NoDup_fst_map_to_list. Qed.

Lemma map_listing_sorted m : StronglySorted key_le (map_listing m).
Proof. apply StronglySorted_merge_sort; apply _. Qed.

Lemma list_to_map_listing m : list_to_map (map_listing m) = m.
Proof.
  rewrite <- (list_to_map_to_list m) at 2.
  apply list_to_map_proper; [apply map_listing_NoDup|apply map_listing_perm].
Qed.
End map_listing.

(** Maps that are related key by key are listed side by side. *)
Lemma map_listing_keys {A B : Type} (m1 : gmap bytes A) (m2 : gmap bytes B) :
  (∀ k, is_Some (m1 !! k) ↔ is_Some (m2 !! k)) → (map_listing m1).*1 = (map_listing m2).*1.
Proof.
  intros Hm.
  assert (∀ C (m : gmap bytes C), StronglySorted (λ x y, bytes_leb x y = true) (map_listing m).*1) as Hs.
  { intros C m. pose proof (map_listing_sorted m) as H. induction H as [|x l _ IH Hx]; [constructor|].
    csimpl. constructor; [done|]. by apply Forall_fmap. }
  assert (∀ C (m : gmap bytes C) k, k ∈ (map_listing m).*1 ↔ is_Some (m !! k)) as Hk.
  { intros C m k. rewrite list_elem_of_fmap. split.
    - intros ([k' v] & -> & H%elem_of_map_listing). by exists v.
    - intros [v H]. exists (k, v). by rewrite elem_of_map_listing. }
  eapply StronglySorted_unique_strong; [|apply Hs|apply Hs|].
  - intros x y _ _. apply bytes_leb_antisym.
  - apply NoDup_Permutation; [apply map_listing_NoDup..|]. intros k. by rewrite !Hk.
Qed.

Lemma map_listing_Forall2 {A B : Type} (R : A → B → Prop) (m1 : gmap bytes A) (m2 : gmap bytes B) :
  (∀ k, option_Forall2 R (m1 !! k) (m2 !! k)) →
  Forall2 (λ x y, x.1 = y.1 ∧ R x.2 y.2) (map_listing m1) (map_listing m2).
Proof.
  intros Hm. assert ((map_listing m1).*1 = (map_listing m2).*1) as Hk.
  { apply map_listing_keys. intros k. destruct (Hm k); split; intros [? ?]; done. }
  apply Forall2_same_length_lookup. split.
  { apply (f_equal length) in Hk. by rewrite !length_fmap in Hk. }
  intros i [k a] [k' b] Ha Hb. assert (k = k') as <-.
  { apply (f_equal (.!! i)) in Hk. rewrite !list_lookup_fmap, Ha, Hb in Hk. by injection Hk. }
  split; [done|]. cbn. apply list_elem_of_lookup_2, elem_of_map_listing in Ha, Hb.
  specialize (Hm k). rewrite Ha, Hb in Hm. by inversion Hm.
Qed.
