(* ===== verification/VectorClock.v ===== *)
(** * VectorClock: the per-node logical clocks of [vector_clock.cpp]

    The clock, its operations, and the laws the rest of the program relies on:
    [compare] decides the happened-before order, [merge] is its least upper
    bound, [increment] moves strictly up (as long as the 64-bit counter does not
    wrap).  [CausalClock] states those laws as an interface. *)
From S2P Require Import Prelude Text.

(** [enum class ClockOrder] *)
Inductive ClockOrder := EQUAL | BEFORE | AFTER | CONCURRENT.
#[export] Instance ClockOrder_eq_dec : EqDecision ClockOrder.
Proof. solve_decision. Defined.

(** [class VectorClock]: one [uint64_t] counter per node id. *)
Record VectorClock := mkClock { counters_ : gmap bytes N }.
#[export] Instance VectorClock_eq_dec : EqDecision VectorClock.
Proof. solve_decision. Defined.

(** [VectorClock c;] *)
Definition empty_clock : VectorClock := mkClock ∅.

Definition get (c : VectorClock) (node_id : bytes) : N :=
  match counters_ c !! node_id with
  | None => 0
  | Some v => v
  end.

Definition set (c : VectorClock) (node_id : bytes) (value : N) : VectorClock :=
  mkClock (<[node_id := value]> (counters_ c)).

(** [counters_[node_id] += 1;]: [operator[]] starts a missing counter at 0, and
    the sum is taken modulo [2^64]. *)
Definition increment (c : VectorClock) (node_id : bytes) : VectorClock :=
  mkClock (<[node_id := u64 (get c node_id + 1)]> (counters_ c)).

(** The body of the loop of [merge]. *)
Definition merge_step (c : VectorClock) (p : bytes * N) : VectorClock :=
  let '(node, val) := p in
  match counters_ c !! node with
  | None => set c node val
  | Some v => if (v <? val)%N then set c node val else c
  end.

Definition merge (c other : VectorClock) : VectorClock :=
  foldl merge_step c (map_listing (counters_ other)).

(** [std::map<std::string, bool> seen]: the node ids of either clock. *)
Definition seen_step {A : Type} (seen : gmap bytes bool) (p : bytes * A) : gmap bytes bool :=
  <[p.1 := true]> seen.
Definition seen (a b : VectorClock) : gmap bytes bool :=
  foldl seen_step (foldl seen_step ∅ (map_listing (counters_ a)))
    (map_listing (counters_ b)).

(** The body of the loop of [compare], on the flags [a_less] and [b_less]. *)
Definition compare_step (a b : VectorClock) (flags : bool * bool) (p : bytes * bool)
    : bool * bool :=
  let '(a_less, b_less) := flags in
  let av := get a p.1 in
  let bv := get b p.1 in
  (if (av <? bv)%N then true else a_less, if (bv <? av)%N then true else b_less).

Definition compare (a b : VectorClock) : ClockOrder :=
  let '(a_less, b_less) :=
    foldl (compare_step a b) (false, false) (map_listing (seen a b)) in
  if negb a_less && negb b_less then EQUAL
  else if a_less && negb b_less then BEFORE
  else if b_less && negb a_less then AFTER
  else CONCURRENT.

(** [entries()], in iteration order. *)
Definition entries (c : VectorClock) : list (bytes * N) := map_listing (counters_ c).

(** One [n:v] item of the printed clock, and the printed clock. *)
Definition clock_item (p : bytes * N) : bytes := p.1 ++ str ":" ++ to_dec p.2.
Fixpoint print_items (first : bool) (l : list (bytes * N)) : bytes :=
  match l with
  | [] => []
  | p :: l => (if first then [] else str ", ") ++ clock_item p ++ print_items false l
  end.
Definition to_string (c : VectorClock) : bytes :=
  str "{" ++ print_items true (entries c) ++ str "}".

(** ** The happened-before order *)

Implicit Types (a b c : VectorClock) (n : bytes).

Definition vc_le (a b : VectorClock) : Prop := ∀ n, (get a n ≤ get b n)%N.
#[export] Instance VectorClock_sqsubseteq : SqSubsetEq VectorClock := vc_le.
(** Two clocks with the same counters, a missing counter being 0. *)
#[export] Instance VectorClock_equiv : Equiv VectorClock := λ a b, ∀ n, get a n = get b n.

(** A clock whose counters fit in a [uint64_t]. *)
Definition wf_clock (c : VectorClock) : Prop := map_Forall (λ _ v, (v < 2 ^ 64)%N) (counters_ c).

(** What the happened-before test reports, as a case analysis. *)
Inductive order_spec (le ge : Prop) : ClockOrder → Prop :=
| order_equal : le → ge → order_spec le ge EQUAL
| order_before : le → ¬ ge → order_spec le ge BEFORE
| order_after : ¬ le → ge → order_spec le ge AFTER
| order_concurrent : ¬ le → ¬ ge → order_spec le ge CONCURRENT.

(** What a clock promises to the CRDT store. *)
Class CausalClock (T : Type) `{SqSubsetEq T} := {
  clock_compare : T → T → ClockOrder;
  clock_merge : T → T → T;
  clock_preorder :: PreOrder (⊑@{T});
  clock_compare_spec : ∀ a b : T, order_spec (a ⊑ b) (b ⊑ a) (clock_compare a b);
  clock_merge_lub : ∀ a b c : T, clock_merge a b ⊑ c ↔ a ⊑ c ∧ b ⊑ c;
}.

(** ** The order is a preorder, and equality of clocks is its kernel *)

#[export] Instance vc_equiv_equivalence : Equivalence (≡@{VectorClock}).
Proof. split; [by intros a n|by intros a b H n|intros a b c H1 H2 n; by rewrite H1]. Qed.

#[export] Instance vc_le_preorder : PreOrder (⊑@{VectorClock}).
Proof. split; [by intros a n|]. intros a b c H1 H2 n. etrans; [apply H1|apply H2]. Qed.

#[export] Instance vc_le_antisymm : AntiSymm (≡) (⊑@{VectorClock}).
Proof. intros a b H1 H2 n. specialize (H1 n). specialize (H2 n). lia. Qed.

#[export] Instance vc_le_proper : Proper ((≡) ==> (≡) ==> iff) (⊑@{VectorClock}).
Proof. intros a a' Ha b b' Hb. split; intros H n; specialize (H n); specialize (Ha n); specialize (Hb n); lia. Qed.

#[export] Instance get_proper : Proper ((≡) ==> (=) ==> (=)) get.
Proof. by intros a b Hab n _ <-. Qed.

Lemma get_set c n v n' : get (set c n v) n' = if decide (n = n') then v else get c n'.
Proof. unfold get, set; simpl. rewrite lookup_insert. by case_decide. Qed.

Lemma get_increment c n n' :
  get (increment c n) n' = if decide (n = n') then u64 (get c n + 1) else get c n'.
Proof. apply get_set. Qed.

(** ** [merge] is the componentwise maximum *)

Arguments merge_step : simpl never.

Lemma counters_merge_step c n v k :
  counters_ (merge_step c (n, v)) !! k =
    if decide (n = k) then Some (N.max v (default 0%N (counters_ c !! k))) else counters_ c !! k.
Proof.
  unfold merge_step. destruct (counters_ c !! n) as [u|] eqn:Hu.
  - destruct (N.ltb_spec u v); simpl; rewrite ?lookup_insert; case_decide; subst;
      rewrite ?Hu; simpl; f_equal; lia.
  - simpl. rewrite lookup_insert. case_decide; subst; rewrite ?Hu; simpl; f_equal. lia.
Qed.

Lemma counters_merge_fold l c k :
  NoDup l.*1 →
  counters_ (foldl merge_step c l) !! k =
    union_with (λ v u, Some (N.max v u)) ((list_to_map l : gmap _ _) !! k) (counters_ c !! k).
Proof.
  revert c. induction l as [|[n v] l IH]; intros c; simpl; [by intros; destruct (_ !! _)|].
  intros [Hn Hl]%NoDup_cons. rewrite IH by done. rewrite counters_merge_step, lookup_insert.
  case_decide; subst; [|done].
  rewrite (not_elem_of_list_to_map_1 l k) by done.
  destruct (counters_ c !! k); simpl; f_equal; lia.
Qed.

(** The loop of [merge] computes the union of the two maps, keeping the larger
    counter of a node that is in both. *)
Lemma counters_merge c other :
  counters_ (merge c other) =
    union_with (λ v u, Some (N.max v u)) (counters_ c) (counters_ other).
Proof.
  apply map_eq. intros k. unfold merge.
  rewrite counters_merge_fold by apply map_listing_NoDup.
  rewrite list_to_map_listing, lookup_union_with.
  destruct (counters_ c !! k), (counters_ other !! k); simpl; f_equal; lia.
Qed.

Lemma get_merge c other n : get (merge c other) n = N.max (get c n) (get other n).
Proof.
  unfold get. rewrite counters_merge, lookup_union_with.
  destruct (counters_ c !! n), (counters_ other !! n); simpl; lia.
Qed.

#[export] Instance merge_proper : Proper ((≡) ==> (≡) ==> (≡)) merge.
Proof. intros a a' Ha b b' Hb n. by rewrite !get_merge, Ha, Hb. Qed.

Lemma clock_eq a b : counters_ a = counters_ b → a = b.
Proof. destruct a, b; simpl. congruence. Qed.

Lemma merge_comm a b : merge a b = merge b a.
Proof.
  apply clock_eq, map_eq. intros k. rewrite !counters_merge, !lookup_union_with.
  destruct (counters_ a !! k), (counters_ b !! k); simpl; f_equal; lia.
Qed.

Lemma merge_assoc a b c : merge (merge a b) c = merge a (merge b c).
Proof.
  apply clock_eq, map_eq. intros k. rewrite !counters_merge, !lookup_union_with.
  destruct (counters_ a !! k), (counters_ b !! k), (counters_ c !! k); simpl; f_equal; lia.
Qed.

Lemma merge_idemp a : merge a a = a.
Proof.
  apply clock_eq, map_eq. intros k. rewrite !counters_merge, !lookup_union_with.
  destruct (counters_ a !! k); simpl; f_equal; lia.
Qed.

Lemma merge_lub a b c : merge a b ⊑ c ↔ a ⊑ c ∧ b ⊑ c.
Proof.
  split.
  - intros H. split; intros n; specialize (H n); rewrite get_merge in H; lia.
  - intros [H1 H2] n. specialize (H1 n). specialize (H2 n). rewrite get_merge. lia.
Qed.

(** ** [compare] decides the order *)

Lemma lookup_seen_fold {A : Type} (l : list (bytes * A)) (s : gmap bytes bool) k :
  is_Some (foldl seen_step s l !! k) ↔ k ∈ l.*1 ∨ is_Some (s !! k).
Proof.
  revert s. induction l as [|[n v] l IH]; intros s; simpl; [set_solver|].
  rewrite IH. unfold seen_step; simpl. rewrite lookup_insert_is_Some'.
  set_solver.
Qed.

Lemma elem_of_seen a b k :
  k ∈ (map_listing (seen a b)).*1 ↔ is_Some (counters_ a !! k) ∨ is_Some (counters_ b !! k).
Proof.
  assert (∀ A (m : gmap bytes A), k ∈ (map_listing m).*1 ↔ is_Some (m !! k)) as Hm.
  { intros A m. rewrite map_listing_perm. setoid_rewrite list_elem_of_fmap. split.
    - intros ([k' v] & -> & Hin%elem_of_map_to_list). by eexists.
    - intros [v Hv]. exists (k, v). by rewrite elem_of_map_to_list. }
  rewrite Hm. unfold seen. rewrite !lookup_seen_fold, !Hm.
  rewrite lookup_empty, is_Some_alt. naive_solver.
Qed.

Lemma compare_fold a b l fa fb :
  foldl (compare_step a b) (fa, fb) l =
    (fa || existsb (λ p : bytes * bool, get a p.1 <? get b p.1)%N l,
     fb || existsb (λ p : bytes * bool, get b p.1 <? get a p.1)%N l).
Proof.
  revert fa fb. induction l as [|p l IH]; intros fa fb; simpl; [by rewrite !orb_false_r|].
  rewrite IH. f_equal; [destruct (get a p.1 <? get b p.1)%N|destruct (get b p.1 <? get a p.1)%N];
    by rewrite ?orb_true_r, ?orb_false_r.
Qed.

(** A flag that stays down means the other clock dominates. *)
Lemma seen_flag a b c d :
  (∀ n, is_Some (counters_ c !! n) → is_Some (counters_ a !! n) ∨ is_Some (counters_ b !! n)) →
  existsb (λ p : bytes * bool, get d p.1 <? get c p.1)%N (map_listing (seen a b)) = false
  ↔ c ⊑ d.
Proof.
  intros Hc. rewrite <- not_true_iff_false, existsb_exists. split.
  - intros Hn n. destruct (N.ltb_spec (get d n) (get c n)) as [Hlt|]; [|done].
    destruct Hn. assert (is_Some (counters_ c !! n)) as Hs.
    { unfold get in Hlt at 2. destruct (counters_ c !! n); [done|lia]. }
    apply Hc, elem_of_seen, list_elem_of_fmap in Hs as ([n' v] & -> & Hin).
    exists (n', v). split; [by apply list_elem_of_In|]. by apply N.ltb_lt.
  - intros Hle ([n v] & _ & Hlt%N.ltb_lt). specialize (Hle n). simpl in *. lia.
Qed.

Lemma compare_spec a b : order_spec (a ⊑ b) (b ⊑ a) (compare a b).
Proof.
  unfold compare. rewrite compare_fold. simpl.
  pose proof (seen_flag a b b a ltac:(naive_solver)) as Ha.
  pose proof (seen_flag a b a b ltac:(naive_solver)) as Hb.
  destruct (existsb _ (map_listing (seen a b))), (existsb _ _); simpl;
    constructor; naive_solver.
Qed.

#[export] Instance VectorClock_causal : CausalClock VectorClock := {|
  clock_compare := compare;
  clock_merge := merge;
  clock_compare_spec := compare_spec;
  clock_merge_lub := merge_lub;
|}.


(** ** What follows from the interface alone *)
Section CausalClockFacts.
Context {T : Type} `{CausalClock T}.
Implicit Types x y z : T.

Lemma clock_merge_l x y : x ⊑ clock_merge x y.
Proof. by apply (clock_merge_lub x y (clock_merge x y)). Qed.
Lemma clock_merge_r x y : y ⊑ clock_merge x y.
Proof. by apply (clock_merge_lub x y (clock_merge x y)). Qed.
Lemma clock_merge_swap x y : clock_merge x y ⊑ clock_merge y x.
Proof. apply clock_merge_lub. split; [apply clock_merge_r|apply clock_merge_l]. Qed.
Lemma clock_merge_absorb x y : y ⊑ x → clock_merge x y ⊑ x.
Proof. intros. by apply clock_merge_lub. Qed.

(** A clock that has absorbed another is never below it, nor concurrent. *)
Lemma clock_compare_dominates x y :
  y ⊑ x → clock_compare x y = EQUAL ∨ clock_compare x y = AFTER.
Proof. intros Hle. destruct (clock_compare_spec x y); auto; contradiction. Qed.

Lemma clock_compare_refl x : clock_compare x x = EQUAL.
Proof. destruct (clock_compare_spec x x) as [| | |Hn]; try done; by destruct Hn. Qed.

(** Two clocks that absorb each other become equal. *)
Lemma clock_compare_mutual x y : clock_compare (clock_merge x y) (clock_merge y x) = EQUAL.
Proof.
  destruct (clock_compare_spec (clock_merge x y) (clock_merge y x)) as [|? Hn|Hn|Hn]; try done;
    destruct Hn; apply clock_merge_swap.
Qed.
End CausalClockFacts.

Lemma merge_l a b : a ⊑ merge a b.
Proof. exact (clock_merge_l a b). Qed.
Lemma merge_r a b : b ⊑ merge a b.
Proof. exact (clock_merge_r a b). Qed.
Lemma merge_absorb a b : b ⊑ a → merge a b ⊑ a.
Proof. exact (clock_merge_absorb a b). Qed.
Lemma compare_dominates a b : b ⊑ a → compare a b = EQUAL ∨ compare a b = AFTER.
Proof. exact (clock_compare_dominates a b). Qed.
Lemma compare_refl a : compare a a = EQUAL.
Proof. exact (clock_compare_refl a). Qed.
Lemma compare_mutual a b : compare (merge a b) (merge b a) = EQUAL.
Proof. exact (clock_compare_mutual a b). Qed.
#[export] Hint Resolve merge_l merge_r merge_absorb : sync.

Lemma not_vc_le a b : ¬ a ⊑ b → ∃ n, (get b n < get a n)%N.
Proof.
  rewrite <- (seen_flag a b a b) by naive_solver.
  rewrite not_false_iff_true, existsb_exists. intros ([n v] & _ & H%N.ltb_lt). by exists n.
Qed.

Lemma vc_le_not a b n : (get b n < get a n)%N → ¬ a ⊑ b.
Proof. intros H Hle. specialize (Hle n). lia. Qed.
#[export] Hint Resolve vc_le_not : sync.

Lemma vc_equiv_le a b : a ≡ b ↔ a ⊑ b ∧ b ⊑ a.
Proof. split; [intros ->; done|intros [H1 H2]; by apply (anti_symm (⊑))]. Qed.

#[export] Instance compare_proper : Proper ((≡) ==> (≡) ==> (=)) compare.
Proof.
  intros a a' Ha b b' Hb.
  destruct (compare_spec a b), (compare_spec a' b'); try done; exfalso; rewrite <- Ha, <- Hb in *; done.
Qed.

Lemma compare_equal a b : compare a b = EQUAL ↔ a ≡ b.
Proof. rewrite vc_equiv_le. destruct (compare_spec a b); naive_solver. Qed.
Lemma compare_before a b : compare a b = BEFORE ↔ a ⊑ b ∧ ¬ b ⊑ a.
Proof. destruct (compare_spec a b); naive_solver. Qed.
Lemma compare_after a b : compare a b = AFTER ↔ ¬ a ⊑ b ∧ b ⊑ a.
Proof. destruct (compare_spec a b); naive_solver. Qed.
Lemma compare_concurrent a b : compare a b = CONCURRENT ↔ ¬ a ⊑ b ∧ ¬ b ⊑ a.
Proof. destruct (compare_spec a b); naive_solver. Qed.

Lemma not_vc_le_iff a b : ¬ a ⊑ b ↔ ∃ n, (get b n < get a n)%N.
Proof. split; [apply not_vc_le|intros [n Hn]; eauto with sync]. Qed.

Lemma increment_above c n : (get c n + 1 < 2 ^ 64)%N → c ⊑ increment c n ∧ ¬ increment c n ⊑ c.
Proof.
  intros Hn. split.
  - intros n'. rewrite get_increment. case_decide; [subst; rewrite wrap_small by done; lia|done].
  - apply (vc_le_not _ _ n). rewrite get_increment, decide_True, wrap_small by done. lia.
Qed.

Lemma wf_clock_lt c n : wf_clock c → (get c n < 2 ^ 64)%N.
Proof.
  intros Hc. unfold get. destruct (counters_ c !! n) eqn:E; [by apply (Hc n)|done].
Qed.

Lemma wf_empty_clock : wf_clock empty_clock.
Proof. apply map_Forall_empty. Qed.
Lemma wf_set c n v : wf_clock c → (v < 2 ^ 64)%N → wf_clock (set c n v).
Proof. intros. by apply map_Forall_insert_2. Qed.
Lemma wf_increment c n : wf_clock c → wf_clock (increment c n).
Proof. intros. apply wf_set; [done|apply wrap_lt]. Qed.
Lemma wf_merge a b : wf_clock a → wf_clock b → wf_clock (merge a b).
Proof.
  intros Ha Hb k v. rewrite counters_merge, lookup_union_with.
  pose proof (Ha k) as Hak. pose proof (Hb k) as Hbk.
  destruct (counters_ a !! k), (counters_ b !! k); simpl; intros [= <-]; auto.
  specialize (Hak _ eq_refl). specialize (Hbk _ eq_refl). simpl in *. lia.
Qed.
#[export] Hint Resolve wf_empty_clock wf_set wf_increment wf_merge : sync.

(** ** Properties *)

(** C17: [VectorClock::compare] answers exactly the happened-before question: it
    returns EQUAL iff every counter agrees, BEFORE (AFTER) iff the first clock is
    below (above) the second in every component and strictly in one, and
    CONCURRENT iff each clock is strictly ahead somewhere. *)
Theorem compare_decides_causality a b :
  (compare a b = EQUAL ↔ ∀ n, get a n = get b n) ∧
  (compare a b = BEFORE ↔ (∀ n, get a n ≤ get b n)%N ∧ ∃ n, (get a n < get b n)%N) ∧
  (compare a b = AFTER ↔ (∀ n, get b n ≤ get a n)%N ∧ ∃ n, (get b n < get a n)%N) ∧
  (compare a b = CONCURRENT ↔ (∃ n, (get a n < get b n)%N) ∧ ∃ n, (get b n < get a n)%N).
Proof.
  rewrite compare_equal, compare_before, compare_after, compare_concurrent, !not_vc_le_iff.
  unfold sqsubseteq, VectorClock_sqsubseteq, vc_le. naive_solver.
Qed.

(** C31: [VectorClock::merge] is the join of the clock order: each counter
    becomes the maximum of the two, the operation is commutative, associative
    and idempotent on the stored maps, and the result is the least clock that
    both arguments happened before. *)
Theorem merge_is_join a b c :
  (∀ n, get (merge a b) n = N.max (get a n) (get b n)) ∧
  merge a b = merge b a ∧ merge (merge a b) c = merge a (merge b c) ∧ merge a a = a ∧
  (merge a b ⊑ c ↔ a ⊑ c ∧ b ⊑ c).
Proof.
  eauto using get_merge, merge_comm, merge_assoc, merge_idemp, merge_lub.
Qed.

(** [VectorClock::increment] bumps one counter and leaves the others alone;
    the new version is causally after the old one unless the 64-bit counter was
    at its maximum, where it wraps to 0 and the new version is causally before
    the old one. *)
Theorem increment_order c n :
  (get c n < 2 ^ 64)%N →
  (∀ n', n' ≠ n → get (increment c n) n' = get c n') ∧
  get (increment c n) n = u64 (get c n + 1) ∧
  compare c (increment c n) = if (get c n + 1 <? 2 ^ 64)%N then BEFORE else AFTER.
Proof.
  intros Hlt. split_and!.
  - intros n' Hne. by rewrite get_increment, decide_False.
  - by rewrite get_increment, decide_True.
  - destruct (N.ltb_spec (get c n + 1) (2 ^ 64)); [by apply compare_before, increment_above|].
    assert (u64 (get c n + 1) = 0%N) as Hz.
    { replace (get c n + 1)%N with (2 ^ 64)%N by lia. done. }
    apply compare_after. split.
    + apply (vc_le_not _ _ n). rewrite get_increment, decide_True, Hz by done. lia.
    + intros n'. rewrite get_increment. case_decide; [subst; rewrite Hz|]; lia.
Qed.

Lemma increment_order_witness :
  compare (mkClock {[ str "A" := 3%N ]}) (increment (mkClock {[ str "A" := 3%N ]}) (str "A")) = BEFORE ∧
  compare (mkClock {[ str "A" := 18446744073709551615%N ]})
    (increment (mkClock {[ str "A" := 18446744073709551615%N ]}) (str "A")) = AFTER.
Proof.
  split.
  - destruct (increment_order (mkClock {[ str "A" := 3%N ]}) (str "A")) as (_ & _ & ->);
      reflexivity.
  - destruct (increment_order (mkClock {[ str "A" := 18446744073709551615%N ]}) (str "A"))
      as (_ & _ & ->); reflexivity.
Defined.
