(* ===== verification/Sha256.v ===== *)
(** * Sha256: the hash of [sha256.cpp]

    The streaming context ([Sha256Ctx]) is modelled with its 64-byte buffer,
    whose initial contents are unspecified in the code and therefore an argument
    here.  The streaming computation is proved equal to folding the compression
    function over the blocks of a padded message; the padding the code produces
    is compared with the one of FIPS 180-4. *)
From S2P Require Import Prelude Text.

(** [using Digest = std::array<uint8_t, 32>]: a list of bytes; that every digest
    the program makes has 32 of them is [hash_length] below. *)
Abbreviation Digest := (list ascii) (only parsing).

(** ** [uint32_t] arithmetic *)
Definition add32 (a b : N) : N := u32 (a + b).
Definition not32 (a : N) : N := N.lxor a 0xffffffff.
Definition rotr (x n : N) : N := N.lor (N.shiftr x n) (u32 (N.shiftl x (32 - n))).

Declare Scope word32_scope.
Infix "⊞" := add32 (at level 50, left associativity) : word32_scope.
Infix "⊕" := N.lxor (at level 50, left associativity) : word32_scope.
Infix "⊓w" := N.land (at level 40, left associativity) : word32_scope.
Local Open Scope word32_scope.

Definition K : list N := [
   0x428A2F98; 0x71374491; 0xB5C0FBCF; 0xE9B5DBA5; 0x3956C25B; 0x59F111F1; 0x923F82A4; 0xAB1C5ED5;
   0xD807AA98; 0x12835B01; 0x243185BE; 0x550C7DC3; 0x72BE5D74; 0x80DEB1FE; 0x9BDC06A7; 0xC19BF174;
   0xE49B69C1; 0xEFBE4786; 0x0FC19DC6; 0x240CA1CC; 0x2DE92C6F; 0x4A7484AA; 0x5CB0A9DC; 0x76F988DA;
   0x983E5152; 0xA831C66D; 0xB00327C8; 0xBF597FC7; 0xC6E00BF3; 0xD5A79147; 0x06CA6351; 0x14292967;
   0x27B70A85; 0x2E1B2138; 0x4D2C6DFC; 0x53380D13; 0x650A7354; 0x766A0ABB; 0x81C2C92E; 0x92722C85;
   0xA2BFE8A1; 0xA81A664B; 0xC24B8B70; 0xC76C51A3; 0xD192E819; 0xD6990624; 0xF40E3585; 0x106AA070;
   0x19A4C116; 0x1E376C08; 0x2748774C; 0x34B0BCB5; 0x391C0CB3; 0x4ED8AA4A; 0x5B9CCA4F; 0x682E6FF3;
   0x748F82EE; 0x78A5636F; 0x84C87814; 0x8CC70208; 0x90BEFFFA; 0xA4506CEB; 0xBEF9A3F7; 0xC67178F2
]%N.

(** The initial value of [Sha256Ctx::h]. *)
Definition h_init : list N := [
   0x6A09E667; 0xBB67AE85; 0x3C6EF372; 0xA54FF53A;
   0x510E527F; 0x9B05688C; 0x1F83D9AB; 0x5BE0CD19
]%N.

(** ** The compression function, [Sha256Ctx::process_block] *)

(** Array reads: every index the code uses is in range. *)
Definition word (w : list N) (i : nat) : N := default 0%N (w !! i).
Definition byte_at (p : bytes) (i : nat) : N := default 0%N (byte_val <$> p !! i).

Definition load_word (p : bytes) (i : nat) : N :=
  N.lor (N.lor (N.lor (N.shiftl (byte_at p (i * 4)) 24) (N.shiftl (byte_at p (i * 4 + 1)) 16))
    (N.shiftl (byte_at p (i * 4 + 2)) 8)) (byte_at p (i * 4 + 3)).

(** [w[i]] for [i >= 16], from the [i] words already computed. *)
Definition schedule_word (w : list N) (i : nat) : N :=
  let s0 := (rotr (word w (i - 15)) 7 ⊕ rotr (word w (i - 15)) 18 ⊕ N.shiftr (word w (i - 15)) 3) in
  let s1 := (rotr (word w (i - 2)) 17 ⊕ rotr (word w (i - 2)) 19 ⊕ N.shiftr (word w (i - 2)) 10) in
  (word w (i - 16) ⊞ s0 ⊞ word w (i - 7) ⊞ s1).

Definition schedule (p : bytes) : list N :=
  foldl (λ w i, w ++ [schedule_word w i]) (map (load_word p) (seq 0 16)) (seq 16 48).

(** The eight working variables, and one of the 64 rounds. *)
Record regs := mkRegs { ra : N; rb : N; rc : N; rd : N; re : N; rf : N; rg : N; rh : N }.

Definition round (w : list N) (r : regs) (i : nat) : regs :=
  let '(mkRegs a b c d e f g hh) := r in
  let S1 := (rotr e 6 ⊕ rotr e 11 ⊕ rotr e 25) in
  let ch := ((e ⊓w f) ⊕ (not32 e ⊓w g)) in
  let temp1 := (hh ⊞ S1 ⊞ ch ⊞ word K i ⊞ word w i) in
  let S0 := (rotr a 2 ⊕ rotr a 13 ⊕ rotr a 22) in
  let maj := ((a ⊓w b) ⊕ (a ⊓w c) ⊕ (b ⊓w c)) in
  let temp2 := (S0 ⊞ maj) in
  mkRegs (temp1 ⊞ temp2) a b c (d ⊞ temp1) e f g.

Definition process_block (h : list N) (p : bytes) : list N :=
  let w := schedule p in
  let r := foldl (round w)
    (mkRegs (word h 0) (word h 1) (word h 2) (word h 3)
            (word h 4) (word h 5) (word h 6) (word h 7)) (seq 0 64) in
  [(word h 0 ⊞ ra r); (word h 1 ⊞ rb r); (word h 2 ⊞ rc r); (word h 3 ⊞ rd r);
   (word h 4 ⊞ re r); (word h 5 ⊞ rf r); (word h 6 ⊞ rg r); (word h 7 ⊞ rh r)].

(** ** The streaming context *)
Record Sha256Ctx := mkCtx {
  h_ : list N;      (* [h], eight words *)
  bit_len : N;
  buffer : bytes;
  buf_len : nat;
}.

(** [Sha256Ctx ctx;] with [junk] in the uninitialised buffer. *)
Definition new_ctx (junk : bytes) : Sha256Ctx := mkCtx h_init 0 junk 0.

(** [std::memcpy(buf + at, src, src.size())]. *)
Definition memcpy (buf : bytes) (at_ : nat) (src : bytes) : bytes :=
  take at_ buf ++ src ++ drop (at_ + length src) buf.

(** The [while (len > 0)] loop of [update]; each turn consumes a byte, so
    [length data] turns are enough. *)
Fixpoint update_loop (fuel : nat) (c : Sha256Ctx) (data : bytes) : Sha256Ctx :=
  match fuel, data with
  | 0, _ | _, [] => c
  | S fuel, _ =>
      let take_ := length data `min` (64 - buf_len c) in
      let buf := memcpy (buffer c) (buf_len c) (take take_ data) in
      let len := buf_len c + take_ in
      let c' :=
        if decide (len = 64)
        then mkCtx (process_block (h_ c) buf) (bit_len c) buf 0
        else mkCtx (h_ c) (bit_len c) buf len in
      update_loop fuel c' (drop take_ data)
  end.

Definition update (c : Sha256Ctx) (data : bytes) : Sha256Ctx :=
  update_loop (length data)
    (mkCtx (h_ c) (u64 (bit_len c + u64 (N.of_nat (length data) * 8))) (buffer c) (buf_len c)) data.

(** [while (buf_len != 56) update(&zero, 1);]: at most 63 turns. *)
Fixpoint pad_loop (fuel : nat) (c : Sha256Ctx) : Sha256Ctx :=
  match fuel with
  | 0 => c
  | S fuel => if decide (buf_len c = 56) then c else pad_loop fuel (update c [byte_of 0])
  end.

(** [for (int i = 7; i >= 0; --i) { len_bytes[i] = bl & 0xff; bl >>= 8; }] *)
Fixpoint len_loop (k : nat) (bl : N) (acc : bytes) : bytes :=
  match k with
  | 0 => acc
  | S k => len_loop k (N.shiftr bl 8) (byte_of (N.land bl 0xff) :: acc)
  end.

Definition out_word (x : N) : bytes :=
  [byte_of (N.land (N.shiftr x 24) 0xff); byte_of (N.land (N.shiftr x 16) 0xff);
   byte_of (N.land (N.shiftr x 8) 0xff); byte_of (N.land x 0xff)].

Definition finish (c : Sha256Ctx) : Digest :=
  let c := update c [byte_of 0x80] in
  let c := pad_loop 64 c in
  let len_bytes := len_loop 8 (bit_len c) [] in
  let buf := memcpy (buffer c) 56 len_bytes in
  let out := process_block (h_ c) buf in
  concat (map (λ i, out_word (word out i)) (seq 0 8)).

(** [hash(data, len)], with the stack garbage the buffer starts from. *)
Definition hash_from (junk data : bytes) : Digest := finish (update (new_ctx junk) data).

(** The three overloads of [hash] read the same bytes; a fixed junk is chosen
    for the executable version ([hash_from_junk] shows it does not matter). *)
Definition hash (data : bytes) : Digest := hash_from (replicate 64 zero) data.

(** [parent = SHA256(left || right)], through a 64-byte stack buffer. *)
Definition combine (left right : Digest) : Digest :=
  let buf := memcpy (memcpy (replicate 64 zero) 0 left) 32 right in hash buf.

Definition to_hex (d : Digest) : bytes := concat (map hex_of_byte d).

(** ** The streaming computation is a fold over blocks *)

(** The compression function over the first [n] blocks of [s]. *)
Fixpoint compress_blocks (n : nat) (hs : list N) (s : bytes) : list N :=
  match n with
  | 0 => hs
  | S n => compress_blocks n (process_block hs (take 64 s)) (drop 64 s)
  end.

(** The context after the bytes [m] have gone through it. *)
Record absorbed (c : Sha256Ctx) (m : bytes) : Prop := {
  absorbed_len : buf_len c = length m mod 64;
  absorbed_buffer : length (buffer c) = 64;
  absorbed_pending : take (buf_len c) (buffer c) = drop (64 * (length m / 64)) m;
  absorbed_h : h_ c = compress_blocks (length m / 64) h_init m;
}.

Lemma compress_blocks_app n hs m x :
  64 * n ≤ length m → compress_blocks n hs (m ++ x) = compress_blocks n hs m.
Proof.
  revert hs m. induction n as [|n IH]; intros hs m Hn; [done|].
  cbn [compress_blocks]. rewrite take_app_le, drop_app_le by lia.
  apply IH. rewrite length_drop. lia.
Qed.

Lemma compress_blocks_S n hs s :
  compress_blocks (S n) hs s =
    process_block (compress_blocks n hs s) (take 64 (drop (64 * n) s)).
Proof.
  revert hs s. induction n as [|n IH]; intros hs s; [done|].
  change (compress_blocks (S (S n)) hs s)
    with (compress_blocks (S n) (process_block hs (take 64 s)) (drop 64 s)).
  rewrite IH, drop_drop. cbn [compress_blocks]. do 3 f_equal. lia.
Qed.

Lemma length_memcpy buf i src :
  i + length src ≤ length buf → length (memcpy buf i src) = length buf.
Proof.
  intros. unfold memcpy. rewrite !length_app, length_take, length_drop. lia.
Qed.

Lemma take_memcpy buf i src :
  i ≤ length buf → take (i + length src) (memcpy buf i src) = take i buf ++ src.
Proof.
  intros. unfold memcpy. rewrite app_assoc, take_app_length'; [done|].
  rewrite length_app, length_take. lia.
Qed.

Lemma absorbed_new junk : length junk = 64 → absorbed (new_ctx junk) [].
Proof. by split. Qed.

(** One turn of the loop of [update], with [x] the bytes copied. *)
Lemma absorbed_step c m x bl :
  absorbed c m → 0 < length x → buf_len c + length x ≤ 64 →
  let buf := memcpy (buffer c) (buf_len c) x in
  let len := buf_len c + length x in
  absorbed (if decide (len = 64) then mkCtx (process_block (h_ c) buf) bl buf 0
            else mkCtx (h_ c) bl buf len) (m ++ x).
Proof.
  intros [Hlen Hbuf Hpend Hh] Hx Hle buf len.
  pose proof (Nat.div_mod_eq (length m) 64) as Hdm.
  assert (length buf = 64) as Hbuf' by (subst buf; rewrite length_memcpy; lia).
  assert (take len buf = drop (64 * (length m / 64)) (m ++ x)) as Htake.
  { subst buf len. rewrite take_memcpy by lia. rewrite Hpend, drop_app_le by lia. done. }
  case_decide as Hd.
  - assert (length (m ++ x) = (S (length m / 64)) * 64) as Hmx by (rewrite length_app; lia).
    split; cbn [buf_len buffer h_];
      rewrite ?Hmx, ?Nat.Div0.mod_mul, ?Nat.div_mul by done; [done|done| |].
    + rewrite drop_ge; [done|lia].
    + rewrite Hh, compress_blocks_S, compress_blocks_app by lia. f_equal.
      rewrite <- Htake, Hd, take_take, (take_ge buf); [done|lia].
  - assert (length (m ++ x) / 64 = length m / 64) as Hq.
    { symmetry. apply (Nat.div_unique _ _ _ len); rewrite ?length_app; lia. }
    split; cbn [buf_len buffer h_]; rewrite ?Hq.
    + apply (Nat.mod_unique _ _ (length m / 64)); rewrite ?length_app; lia.
    + done.
    + done.
    + rewrite compress_blocks_app; [done|lia].
Qed.

(** One turn of the loop, and what it leaves to do. *)
Definition update_turn (c : Sha256Ctx) (data : bytes) : Sha256Ctx :=
  let x := take (length data `min` (64 - buf_len c)) data in
  let buf := memcpy (buffer c) (buf_len c) x in
  if decide (buf_len c + length x = 64)
  then mkCtx (process_block (h_ c) buf) (bit_len c) buf 0
  else mkCtx (h_ c) (bit_len c) buf (buf_len c + length x).

Lemma update_loop_S fuel c d :
  d ≠ [] →
  update_loop (S fuel) c d =
    update_loop fuel (update_turn c d) (drop (length d `min` (64 - buf_len c)) d).
Proof.
  intros Hd. unfold update_turn. rewrite length_take.
  replace ((length d `min` (64 - buf_len c)) `min` length d)
    with (length d `min` (64 - buf_len c)) by lia.
  by destruct d.
Qed.

Lemma update_loop_absorbed fuel c m d :
  length d ≤ fuel → absorbed c m →
  absorbed (update_loop fuel c d) (m ++ d) ∧ bit_len (update_loop fuel c d) = bit_len c.
Proof.
  revert c m d. induction fuel as [|fuel IH]; intros c m d Hd Hc.
  { destruct d; simpl in *; [by rewrite app_nil_r|lia]. }
  destruct (decide (d = [])) as [->|Hne]; [by rewrite app_nil_r|].
  rewrite update_loop_S by done. set (t := length d `min` (64 - buf_len c)).
  pose proof (absorbed_len _ _ Hc). pose proof (Nat.mod_upper_bound (length m) 64).
  assert (0 < length d) by (destruct d; [done|simpl; lia]).
  assert (0 < t ≤ length d) as Ht by (unfold t; lia).
  assert (length (take t d) = t) as Hlt by (rewrite length_take; lia).
  destruct (IH (update_turn c d) (m ++ take t d) (drop t d)) as [Habs Hbl].
  - rewrite length_drop. lia.
  - apply absorbed_step; [done| |]; fold t; rewrite Hlt; unfold t; lia.
  - rewrite <- app_assoc, take_drop in Habs. split; [exact Habs|].
    rewrite Hbl. unfold update_turn. by case_decide.
Qed.

Lemma update_absorbed c m d :
  absorbed c m → absorbed (update c d) (m ++ d).
Proof. intros [????]. apply update_loop_absorbed; [done|by split]. Qed.

Lemma bit_len_update c m d :
  absorbed c m → bit_len (update c d) = u64 (bit_len c + u64 (N.of_nat (length d) * 8)).
Proof.
  intros [????]. unfold update.
  by destruct (update_loop_absorbed (length d)
    (mkCtx (h_ c) (u64 (bit_len c + u64 (N.of_nat (length d) * 8))) (buffer c) (buf_len c))
    m d) as [_ ->].
Qed.

(** ** The padding *)

(** How many zero bytes follow the [0x80]. *)
Definition pad_zeros (n : nat) : nat := (119 - n mod 64) mod 64.

Definition be64 (n : N) : bytes := len_loop 8 n [].

(** What the code hashes: the length field counts the padding as well, because
    [finish] reads [bit_len] after the calls of [update] that pad. *)
Definition pad_body (m : bytes) : bytes :=
  m ++ [byte_of 0x80] ++ replicate (pad_zeros (length m)) (byte_of 0).
Definition pad (m : bytes) : bytes :=
  pad_body m ++ be64 (u64 (N.of_nat (length (pad_body m)) * 8)).

(** FIPS 180-4, section 5.1.1: the length field is that of the message. *)
Definition fips_pad (m : bytes) : bytes :=
  pad_body m ++ be64 (u64 (N.of_nat (length m) * 8)).

Definition digest_of (hs : list N) : Digest :=
  concat (map (λ i, out_word (word hs i)) (seq 0 8)).

Definition hash_padded (p : bytes) : Digest :=
  digest_of (compress_blocks (length p / 64) h_init p).

Lemma length_len_loop k bl acc : length (len_loop k bl acc) = k + length acc.
Proof. revert bl acc. induction k as [|k IH]; intros bl acc; simpl; [done|]. rewrite IH. simpl. lia. Qed.

Lemma length_pad_body m : length (pad_body m) mod 64 = 56.
Proof.
  unfold pad_body, pad_zeros. rewrite !length_app, length_replicate. simpl (length [_]).
  pose proof (Nat.div_mod_eq (length m) 64). pose proof (Nat.mod_upper_bound (length m) 64).
  set (r := length m mod 64) in *. set (q := length m / 64) in *.
  destruct (decide (r < 56)).
  - replace ((119 - r) mod 64) with (55 - r).
    + symmetry. apply (Nat.mod_unique _ _ q); lia.
    + apply (Nat.mod_unique _ _ 1); lia.
  - replace ((119 - r) mod 64) with (119 - r) by (symmetry; apply Nat.mod_small; lia).
    symmetry. apply (Nat.mod_unique _ _ (S q)); lia.
Qed.

(** The context after the bytes [m], with the bit counter. *)
Definition tracked (c : Sha256Ctx) (m : bytes) : Prop :=
  absorbed c m ∧ bit_len c = u64 (N.of_nat (length m) * 8).

Lemma tracked_new junk : length junk = 64 → tracked (new_ctx junk) [].
Proof. by split; [apply absorbed_new|]. Qed.

Lemma tracked_update c m d : tracked c m → tracked (update c d) (m ++ d).
Proof.
  intros [Hc Hb]. split; [by apply update_absorbed|].
  rewrite (bit_len_update c m d Hc), Hb. unfold wrap.
  rewrite <- N.Div0.add_mod, length_app. f_equal. lia.
Qed.

Lemma pad_loop_tracked z fuel c m :
  z < fuel → z < 64 → (length m + z) mod 64 = 56 → tracked c m →
  tracked (pad_loop fuel c) (m ++ replicate z (byte_of 0)).
Proof.
  revert fuel c m. induction z as [|z IH]; intros [|fuel] c m Hf Hz Hm Hc; try lia;
    cbn [pad_loop]; rewrite (absorbed_len _ _ (proj1 Hc)).
  - rewrite Nat.add_0_r in Hm. by rewrite decide_True, app_nil_r.
  - rewrite decide_False.
    + replace (m ++ replicate (S z) (byte_of 0)) with ((m ++ [byte_of 0]) ++ replicate z (byte_of 0))
        by (by rewrite <- app_assoc).
      apply IH; [lia|lia| |by apply tracked_update].
      rewrite length_app. simpl (length [_]). by rewrite <- Nat.add_assoc.
    + intros Hm56. pose proof (Nat.div_mod_eq (length m) 64).
      pose proof (Nat.div_mod_eq (length m + S z) 64). lia.
Qed.

Lemma length_pad m : length (pad m) = S (length (pad_body m) / 64) * 64.
Proof.
  unfold pad, be64. rewrite length_app, length_len_loop. simpl (length []).
  pose proof (length_pad_body m). pose proof (Nat.div_mod_eq (length (pad_body m)) 64). lia.
Qed.

Lemma finish_tracked c m : tracked c m → finish c = hash_padded (pad m).
Proof.
  intros Hc. unfold finish, hash_padded, digest_of.
  set (c' := pad_loop 64 (update c [byte_of 0x80])).
  assert (tracked c' (pad_body m)) as [[Hlen Hbuf Hpend Hh] Hbl].
  { unfold c', pad_body. rewrite app_assoc. apply pad_loop_tracked.
    - unfold pad_zeros. apply Nat.mod_upper_bound. done.
    - unfold pad_zeros. apply Nat.mod_upper_bound. done.
    - pose proof (length_pad_body m) as Hp. unfold pad_body in Hp.
      by rewrite app_assoc, length_app, length_replicate in Hp.
    - by apply tracked_update. }
  rewrite length_pad_body in Hlen. rewrite Hlen in Hpend.
  rewrite length_pad, Nat.div_mul by done. rewrite compress_blocks_S.
  rewrite Hh, Hbl. fold (be64 (u64 (N.of_nat (length (pad_body m)) * 8))).
  set (lb := be64 _). assert (length lb = 8) as Hlb by apply length_len_loop.
  pose proof (Nat.div_mod_eq (length (pad_body m)) 64). pose proof (length_pad_body m).
  unfold pad. fold lb. rewrite compress_blocks_app by lia. do 3 f_equal.
  rewrite drop_app_le by lia. rewrite <- Hpend.
  unfold memcpy. rewrite drop_ge, app_nil_r by lia.
  rewrite (take_ge (_ ++ _)); [done|]. rewrite length_app, length_take. lia.
Qed.

(** The streaming hash is the fold over the blocks of the padded message,
    whatever the buffer contained. *)
Lemma hash_from_padded junk m : length junk = 64 → hash_from junk m = hash_padded (pad m).
Proof.
  intros. apply finish_tracked. apply (tracked_update _ []). by apply tracked_new.
Qed.

Lemma hash_padded_eq m : hash m = hash_padded (pad m).
Proof. by apply hash_from_padded. Qed.

Lemma length_out_word x : length (out_word x) = 4.
Proof. done. Qed.

Lemma length_hash m : length (hash m) = 32.
Proof. rewrite hash_padded_eq. done. Qed.

Lemma combine_hash l r : length l = 32 → length r = 32 → combine l r = hash (l ++ r).
Proof.
  intros Hl Hr. unfold combine, memcpy. rewrite take_0, Hl, Hr. simpl (0 + 32).
  rewrite (drop_ge _ (32 + 32)), app_nil_r.
  - by rewrite app_nil_l, take_app_length'.
  - rewrite !length_app, length_drop, length_replicate, Hl. simpl. lia.
Qed.

(** The length field is a big-endian number, so it determines the length. *)
Lemma be_val_len_loop k n a acc :
  foldl be_step a (len_loop k n acc) =
    foldl be_step (a * 256 ^ N.of_nat k + n `mod` 256 ^ N.of_nat k)%N acc.
Proof.
  revert n a acc. induction k as [|k IH]; intros n a acc; cbn [len_loop].
  - rewrite N.mod_1_r. f_equal. lia.
  - rewrite IH. cbn [foldl]. f_equal. unfold be_step.
    rewrite land_255, byte_of_mod, byte_val_of, N.shiftr_div_pow2.
    rewrite Nat2N.inj_succ, N.pow_succ_r', N.Div0.mod_mul_r.
    change (2 ^ 8)%N with 256%N. lia.
Qed.

Lemma be64_inj x y : (x < 2 ^ 64)%N → (y < 2 ^ 64)%N → be64 x = be64 y → x = y.
Proof.
  intros Hx Hy H. apply (f_equal be_val) in H. unfold be_val, be64 in H.
  rewrite !be_val_len_loop in H. cbn [foldl] in H.
  change (256 ^ N.of_nat 8)%N with (2 ^ 64)%N in H. by rewrite !N.mod_small in H.
Qed.

Lemma pad_split m p : pad m = p → pad_body m = take (length p - 8) p.
Proof.
  intros <-. unfold pad. rewrite length_app. unfold be64. rewrite length_len_loop.
  rewrite take_app_length'; [done|]. simpl. lia.
Qed.

Lemma length_combine l r : length (combine l r) = 32.
Proof. apply length_hash. Qed.

(** Proofs use the hash through the lemmas above; [vm_compute] still runs it. *)
#[global] Opaque hash combine.

(** ** Properties *)

(** C29: The streaming hash ([Sha256Ctx::update] in any two pieces, then
    [finish]) equals the compression function folded over the 64-byte blocks of
    the padded concatenation, whatever the uninitialised buffer contained; the
    digest always has 32 bytes. *)
Theorem hash_streaming_correct junk x y :
  length junk = 64 →
  finish (update (update (new_ctx junk) x) y) = hash_padded (pad (x ++ y)) ∧
  hash_from junk (x ++ y) = hash (x ++ y) ∧
  length (hash (x ++ y)) = 32.
Proof.
  intros Hj. split_and!.
  - apply finish_tracked, tracked_update, (tracked_update _ []). by apply tracked_new.
  - by rewrite hash_padded_eq, hash_from_padded.
  - apply length_hash.
Qed.

Lemma hash_streaming_correct_witness :
  finish (update (update (new_ctx (replicate 64 (byte_of 7))) (str "a")) (str "bc"))
    = hash_padded (pad (str "abc")).
Proof.
  apply (hash_streaming_correct (replicate 64 (byte_of 7)) (str "a") (str "bc")). reflexivity.
Defined.

(** C39: [finish] terminates: the loop [while (buf_len != 56)] that pads with
    zeros stops within 63 turns from any context [update] can reach, with the
    buffer position at 56. *)
Theorem finish_pads_to_56 junk m :
  length junk = 64 →
  buf_len (pad_loop 64 (update (update (new_ctx junk) m) [byte_of 0x80])) = 56.
Proof.
  intros Hj. pose proof (length_pad_body m) as Hp.
  assert (tracked (update (update (new_ctx junk) m) [byte_of 0x80]) (m ++ [byte_of 0x80])) as Ht.
  { apply tracked_update, (tracked_update _ []). by apply tracked_new. }
  apply (pad_loop_tracked (pad_zeros (length m)) 64) in Ht as [Ha _].
  - rewrite (absorbed_len _ _ Ha), <- app_assoc. exact Hp.
  - by apply Nat.mod_upper_bound.
  - by apply Nat.mod_upper_bound.
  - unfold pad_body in Hp. by rewrite app_assoc, length_app, length_replicate in Hp.
Qed.

Lemma finish_pads_to_56_witness :
  buf_len (pad_loop 64 (update (update (new_ctx (replicate 64 zero)) (str "hello")) [byte_of 0x80])) = 56.
Proof. apply (finish_pads_to_56 (replicate 64 zero) (str "hello")). reflexivity. Defined.

(** The padding is injective, so two different messages never feed the same
    block sequence to the compression function. *)
Theorem pad_injective x y : pad x = pad y → x = y.
Proof.
  intros H. pose proof (pad_split x _ H) as Hx. pose proof (pad_split y _ eq_refl) as Hy.
  rewrite <- Hy in Hx. unfold pad_body in Hx. by apply marker_replicate_inj in Hx.
Qed.

Lemma pad_injective_witness : pad (str "a") = pad (str "a") ∧ str "a" = str "a".
Proof. split; [reflexivity|]. apply (pad_injective (str "a") (str "a")). reflexivity. Defined.

(** C35: The function named SHA-256 is not SHA-256.  For every message shorter
    than 2^60 bytes the padded message differs from the one FIPS 180-4
    prescribes, because [finish] writes the bit count after the padding has been
    added to it; on the FIPS padding the same compression function gives the
    standard digest of "abc", and [hash] gives another one. *)
Theorem hash_is_not_fips_180_4 :
  (∀ m, (N.of_nat (length m) < 2 ^ 60)%N → pad m ≠ fips_pad m) ∧
  to_hex (hash_padded (fips_pad (str "abc"))) =
    str "ba7816bf8f01cfea414140de5dae2223b00361a396177a9cb410ff61f20015ad" ∧
  to_hex (hash (str "abc")) =
    str "56bf0eade01e413ce17bb46def7fe04358985b4d90093cbe1a6ec28d4f24fc28".
Proof.
  split_and!; [|vm_compute; reflexivity|vm_compute; reflexivity].
  intros m Hm H. unfold pad, fips_pad in H. apply app_inv_head in H.
  assert (length m < length (pad_body m) ≤ length m + 64) as Hlen.
  { unfold pad_body. rewrite !length_app, length_replicate. simpl (length [_]).
    pose proof (Nat.mod_upper_bound (119 - length m mod 64) 64). unfold pad_zeros. lia. }
  apply be64_inj in H; [|apply wrap_lt|apply wrap_lt].
  rewrite !wrap_small in H; lia.
Qed.
