(* ===== verification/GearTable.v ===== *)
(** * GearTable: the 256 constants of [chunker_gear_table.inc], which
    [chunker.cpp] includes as [RollingHash::GEAR_TABLE]. *)
From S2P Require Import Prelude.

Definition GEAR_TABLE : list N := [
   0x1c80317fa3b1799d; 0xbdd640fb06671ad1; 0x3eb13b9046685257; 0x23b8c1e9392456de;
   0x1a3d1fa7bc8960a9; 0xbd9c66b3ad3c2d6d; 0x8b9d2434e465e150; 0x972a846916419f82;
   0x0822e8f36c031199; 0x17fc695a07a0ca6e; 0x3b8faa1837f8a88b; 0x9a1de644815ef6d1;
   0x8fadc1a606cb0fb3; 0xb74d0fb132e70629; 0xb38a088ca65ed389; 0x6b65a6a48b8148f6;
   0x72ff5d2a386ecbe0; 0x4737819096da1dac; 0xde8a774bcf36d58b; 0xc241330b01a9e71f;
   0x28df6ec4ce4a2bbd; 0x6c307511b2b9437a; 0x47229389571aa876; 0x371ecd7b27cd8130;
   0xc37459eef50bea63; 0x1a2a73ed562b0f79; 0x6142ea7d17be3111; 0x5be6128e18c26797;
   0x580d7b71d8f56413; 0x43b7a3a69a8dca03; 0x0b1f9163ce9ff57f; 0x759cde66bacfb3d0;
   0x1ff49b7889463e85; 0xec1b8ca1f91e1d4c; 0x142c3fe860e7a113; 0x4b0dbb418d5288f1;
   0xa0ee89aed453dd32; 0xe2acf72f9e574f7a; 0x5c941cf0dc98d2c1; 0x3139d32c93cd59bf;
   0x11ce5dd2b45ed1f0; 0xa9488d990bbb2599; 0xc5e7ce8a3a578a8e; 0xfc377a4c4a15544d;
   0xdaf61a26146d3f31; 0xddd1dfb23b982ef8; 0x614ff3d719db3ad0; 0x7412b29347294739;
   0xd58842dea2bc372f; 0x29a3b2e95d65a441; 0x5af305535ec42e08; 0xab9099a435a240ae;
   0xb3aa7efe4458a885; 0xaefcfad8efc89849; 0x12476f57a5e5a5ab; 0xa28defe39bf00273;
   0x88bd64072bcfbe01; 0x3eabedcbbaa80dd4; 0x7656af7229d4beef; 0x451b4cf36123fdf7;
   0xece66fa2fd5166e6; 0xb02b61c4a3d70628; 0x3838b3268e944239; 0x5304317faf42e12f;
   0xc4b032ccd7c524a5; 0x0e51f30dc6a7ee39; 0xd261a7ab3aa2e4f9; 0xce177b4e0837b8a3;
   0x66b2bc5b50c187fc; 0x10f1bc81448aaa9e; 0xe9c349e03602f8ac; 0x9132b63ef16287e4;
   0xb7c93acfe059a0ee; 0x366eb16f508ebad7; 0x7fcd9eb1a7cad415; 0xe27a984d654821d0;
   0xa491f0b2ea1fca65; 0x24933b83757750a9; 0x23bed01d43cf2fde; 0xbeb799193f22faf8;
   0x89fa6a688fb5d27b; 0xbf3c4c06434308bc; 0x6dadd6c795a76d79; 0x956269f0e5d7b875;
   0x5cabcc97663f1c97; 0xff50bde4382567b8; 0x2369b584ff5e9ff0; 0x7e570ddf827050a8;
   0xc17af08a1745d6d8; 0xdc713d960c0fd195; 0x27209bdf1c11f735; 0x28f49481a0a04dc4;
   0xae340454cac5b68c; 0x98ae43346c12ace8; 0x62801c4510435a10; 0x988c24c961b1cd22;
   0x77d21e02ff01cf99; 0x405cacec877409a9; 0x8da0365bf89897b9; 0xf143262fdc5c0eed;
   0xae270da702f06b90; 0x1d53434bb88139b9; 0xe2817efdae849217; 0xc03987108976e334;
   0xc4c2e2e3444ea7c8; 0x5715bd6fa4161293; 0x4b22d3081c8eaee9; 0x287d06ca6f4cc69a;
   0x00d4af5974273ca3; 0xb8db0672f42d47cc; 0xb83cfe0be037e5ed; 0xf8cda88b436d76e2;
   0xc30ff46e8026695f; 0x81f76d1c2dbc2134; 0x1b3dbd5ce9a1fa6f; 0xa013ac6ededa4e16;
   0xd777a4774c66e0a8; 0x81f631d4a39231a7; 0x32ebd6899be578c7; 0x5fb8d16c2720797d;
   0x295b4715c333e861; 0xf4188f3f8a14be62; 0xec24a3c5c754108f; 0xeb2263dd87c5421e;
   0x99546eb400257ad1; 0x7d15438552fbe43b; 0x1ca35cfb04fc6d82; 0x5cec4eb5edd96831;
   0xfc3e058be0f3eab0; 0xce88cb2dd4e80839; 0x3d4cbf374eb93eff; 0x3da9c2a90ed42f1a;
   0x913e4de2e0c53cb8; 0x14296c07f26b4776; 0xbb5e4bcf15ed6269; 0xd0e6e6607c69dee1;
   0xfa5d310011b7e948; 0x885f6e66c2b6d2c5; 0x2031d750c40db9b4; 0xa8e56e0c20de435d;
   0xf264accc79ac1b1e; 0x2a45c2ab8cbfedb0; 0x8715a10343dac043; 0x9b49bd26df57c59a;
   0xf6e07cc06c52c49f; 0xedcd465e36386821; 0xc1590f538a0f4efb; 0xb09b2a5cbadcc32a;
   0xb683d2e6337ea2df; 0x66245bfa4fcca39a; 0xabf3ad39fec21bbe; 0x5f987c71a65e688e;
   0xe64d1bcb702753a1; 0x7394988f847fd9b4; 0x3f76be1d1efa2197; 0x1064005c3985c3cf;
   0x05628059568cc69b; 0x8dcdcd03969b6662; 0x96a402f23ae8cc93; 0x01d7425638602ab6;
   0xb535106e122c9a56; 0x0f1259e0a18ff6b6; 0x114125c63a9bedd4; 0x080aadfbe7c99b26;
   0x5496f63cdc1110c1; 0x839fbc501223b513; 0x474a493b3ceddf2d; 0x7c441fe7ab4220a7;
   0x8a0b3c3336d8393a; 0xb92da22b21df306f; 0xe1e3db63ef7ddc76; 0x93829b43922fe15a;
   0x3e3511287900f7f9; 0x7914c120c8dcd19f; 0x683514f2ceb81f9d; 0x1825bc5430beb45f;
   0xa8b317fa18d0752b; 0x5ab33edf6e595ed3; 0x693dffbc6c6fa611; 0xdd2467ac778eedb3;
   0x0dde29a6baa4b71a; 0xa748dbcfac619e63; 0xa56c0941fbf24050; 0x0f844fef1931e9ee;
   0xba6c34ab6712303a; 0xccf3a17156dc8907; 0x1bf90e27dc96925e; 0x310c0c003fa7f104;
   0x894a05e430b187ef; 0x23e2fcb472d8567d; 0x2ef912766c006f61; 0x766ecb15474ebc19;
   0xdfde4fbf3ff350bf; 0x134c6c92ec5b227c; 0xceda8bbb71710434; 0xdb20a56edc815fe7;
   0x19108be58ce21ea3; 0xa6f2f7b80cf35b58; 0x8a63f881ffd0f9d5; 0x03c72ba8d605e770;
   0x17e011b7f8102383; 0xc0e9ab30ed2662e9; 0x3c835dc0d9441fa5; 0x680ac07a2a935d62;
   0x7b3a4e3e7c52fa17; 0xdd59ba7136b82481; 0xe7067ef466aa9385; 0x2a25a8880f02bad0;
   0x008d4127610461e3; 0x63f2ae24fc3d3348; 0xed3049cf43e458fc; 0xc8fe3ccdc8b8d9c6;
   0x490617f2747b6dba; 0xb253d2186c4a37ea; 0xbb026576f512c4c3; 0xc88a618efed4057d;
   0xa97065e18e46d534; 0x7c967f79b7e99aca; 0x309d258c27a0c3d7; 0x37bb3eec4bf50b52;
   0x0ef8c2d6f7fd5646; 0xbc594585944528c0; 0x0f9aea4b8acd4e10; 0x504867babf7b539b;
   0x0cd620c20ea2622b; 0x7a0ecfea958ca9ba; 0xeb5cf46780bacd64; 0x87f7e1fbda4bd9ca;
   0x0e8fa8e0284d82e5; 0x82010c62f5f59b22; 0xd9f195d014822f53; 0x118a9d292f923996;
   0x1165e21098543881; 0xdca02eecacdabacc; 0x675dd5af3c365296; 0xf10c718b1eb0e38a;
   0x91d63f78e3e9de99; 0x94340a033f07f814; 0x0a2c827e98326856; 0x14fcdd549e8fc965;
   0xa8499b926b5252e3; 0x90b2b633956b8c0c; 0x50fd9d3f85d51695; 0x42c18a62ef48e8d5;
   0xab73295b344a54b8; 0x506e5a9ab758588d; 0x43ff50113d1a85dd; 0x21813d25655238a6;
   0xa53f8a28abf3e3fc; 0x750cab754ccc9bc2; 0xedd4253b50f0fd0a; 0xef8c485bc07a30f2;
   0x02627f7312922f83; 0x9f044aed75523327; 0x902059e4ff9ab5c2; 0x19985f15ff002d4d
]%N.
