(* ===== verification/Chunker.v ===== *)
(** * Chunker: content-defined chunking ([rolling_hash.hpp], [chunker.hpp],
    [chunker.cpp])

    The gear rolling hash, the choice of the boundary mask, and the two nested
    loops of [Chunker::chunk].  The loops are related to a recursion on the bytes
    still to be cut, from which losslessness, the size bounds and the locality of
    chunk boundaries follow. *)
From S2P Require Import Prelude Text GearTable Sha256.

(** ** [class RollingHash] *)
Record RollingHash := mkRolling { hash_ : N }.

Definition reset (r : RollingHash) : RollingHash := mkRolling 0.

Definition gear (b : byte) : N := default 0%N (GEAR_TABLE !! N.to_nat (byte_val b)).

(** [hash_ = (hash_ << 1) + GEAR_TABLE[byte]; return hash_;] on [uint64_t]. *)
Definition roll (r : RollingHash) (b : byte) : N * RollingHash :=
  let v := u64 (u64 (N.shiftl (hash_ r) 1) + gear b) in (v, mkRolling v).

(** ** [struct Chunk] and [class Chunker] *)
Record Chunk := mkChunk { offset : N; data : bytes; chunk_hash : Digest }.

Record Chunker := mkChunker { min_size_ : N; max_size_ : N; mask_bits_ : N; mask_ : N }.

(** [while (v > 1) { v >>= 1; mask_bits_++; }]: one turn per bit of [v]. *)
Fixpoint mask_bits_loop (fuel : nat) (v bits : N) : N :=
  match fuel with
  | 0 => bits
  | S fuel => if (1 <? v)%N then mask_bits_loop fuel (N.shiftr v 1) (bits + 1) else bits
  end.

Definition new_chunker (min_size avg_size max_size : N) : Chunker :=
  let bits := mask_bits_loop (N.to_nat (N.size avg_size)) avg_size 0 in
  mkChunker min_size max_size bits
    (if (64 <=? bits)%N then u64 (2 ^ 64 - 1) else u64 (N.shiftl 1 bits - 1)).

Definition default_chunker : Chunker := new_chunker (2 * 1024) (8 * 1024) (64 * 1024).

(** [make_chunk]: the bytes [start..end). *)
Definition make_chunk (d : bytes) (start end_ : N) : Chunk :=
  let x := take (N.to_nat (end_ - start)) (drop (N.to_nat start) d) in
  mkChunk start x (hash x).

(** The inner [for] loop, from position [j] on, [rest] being [data[j..]]: the
    exclusive end of the chunk, or [None] at the end of the data. *)
Fixpoint scan (ck : Chunker) (start j : N) (rh : RollingHash) (rest : bytes) : option N :=
  match rest with
  | [] => None
  | b :: rest =>
      let '(h, rh) := roll rh b in
      let window := (j - start + 1)%N in
      let at_min := (min_size_ ck <=? window)%N in
      let at_max := (max_size_ ck <=? window)%N in
      let boundary := at_min && (N.land h (mask_ ck) =? 0)%N in
      if boundary || at_max then Some (j + 1)%N else scan ck start (j + 1)%N rh rest
  end.

(** The outer [while (i < n)] loop. *)
Fixpoint chunk_loop (fuel : nat) (ck : Chunker) (d : bytes) (start i : N) : list Chunk :=
  match fuel with
  | 0 => []
  | S fuel =>
      let n := N.of_nat (length d) in
      if (i <? n)%N then
        match scan ck start start (reset (mkRolling 0)) (drop (N.to_nat start) d) with
        | Some end_ => make_chunk d start end_ :: chunk_loop fuel ck d end_ end_
        | None => make_chunk d start n :: chunk_loop fuel ck d start n
        end
      else []
  end.

(** Every turn of the outer loop consumes a byte, so one more turn than there
    are bytes is enough. *)
Definition chunk (ck : Chunker) (d : bytes) : list Chunk :=
  match d with
  | [] => []
  | _ => chunk_loop (S (length d)) ck d 0 0
  end.

(** ** The first cut of a suffix *)

Definition cut (ck : Chunker) (s : bytes) : nat :=
  match scan ck 0 0 (mkRolling 0) s with
  | Some e => N.to_nat e
  | None => length s
  end.

(** The chunks of [s], at offset [off]: the reference the loops are compared to. *)
Fixpoint split_chunks (fuel : nat) (ck : Chunker) (off : N) (s : bytes) : list Chunk :=
  match fuel with
  | 0 => []
  | S fuel =>
      match s with
      | [] => []
      | _ =>
          let k := cut ck s in
          mkChunk off (take k s) (hash (take k s))
            :: split_chunks fuel ck (off + N.of_nat k) (drop k s)
      end
  end.

(** Moving chunks by [k] bytes. *)
Definition shift (k : N) (c : Chunk) : Chunk := mkChunk (k + offset c) (data c) (chunk_hash c).

Lemma scan_shift ck start j rh s :
  (start ≤ j)%N → scan ck start j rh s = (λ e, e + start)%N <$> scan ck 0 (j - start) rh s.
Proof.
  revert j rh. induction s as [|b s IH]; intros j rh Hj; [done|]. simpl.
  rewrite N.sub_0_r. destruct (_ || _); simpl.
  - f_equal. lia.
  - rewrite IH by lia. do 2 f_equal. lia.
Qed.

(** What an end found by [scan] looks like. *)
Lemma scan_Some ck w rh s e :
  scan ck 0 w rh s = Some e →
  (w < e ≤ w + N.of_nat (length s))%N ∧
  (min_size_ ck ≤ e ∨ max_size_ ck ≤ e)%N ∧ (e ≤ N.max (w + 1) (max_size_ ck))%N.
Proof.
  revert w rh. induction s as [|b s IH]; intros w rh; simpl; [done|].
  rewrite N.sub_0_r.
  destruct (N.leb_spec (max_size_ ck) (w + 1)) as [Hmax|Hmax].
  - rewrite orb_true_r. intros [= <-]. lia.
  - rewrite orb_false_r.
    destruct (N.leb_spec (min_size_ ck) (w + 1)); simpl; [destruct (_ =? 0)%N|].
    + intros [= <-]. lia.
    + intros (H1 & H2 & H3)%IH. lia.
    + intros (H1 & H2 & H3)%IH. lia.
Qed.

Lemma scan_None ck w rh s :
  scan ck 0 w rh s = None → s = [] ∨ (w + N.of_nat (length s) < max_size_ ck)%N.
Proof.
  revert w rh. induction s as [|b s IH]; intros w rh; simpl; [by left|].
  rewrite N.sub_0_r.
  destruct (N.leb_spec (max_size_ ck) (w + 1)); [by rewrite orb_true_r|].
  rewrite orb_false_r. destruct (_ && _); [done|].
  intros [->|?]%IH; right; simpl; lia.
Qed.

(** The end found depends only on the bytes before it. *)
Lemma scan_prefix ck w rh p x y e :
  scan ck 0 w rh (p ++ x) = Some e → (e ≤ w + N.of_nat (length p))%N →
  scan ck 0 w rh (p ++ y) = Some e.
Proof.
  revert w rh. induction p as [|b p IH]; intros w rh.
  - intros (H & _)%scan_Some. simpl. lia.
  - simpl. destruct (_ || _); [done|]. intros H He. apply IH; [done|]. lia.
Qed.

Lemma cut_bounds ck s : s ≠ [] → 0 < cut ck s ≤ length s.
Proof.
  intros Hs. unfold cut. destruct (scan _ _ _ _ s) eqn:E.
  - apply scan_Some in E. lia.
  - destruct s; [done|simpl; lia].
Qed.

Lemma cut_max ck s : (N.of_nat (cut ck s) ≤ N.max 1 (max_size_ ck))%N.
Proof.
  unfold cut. destruct (scan _ _ _ _ s) eqn:E.
  - apply scan_Some in E. lia.
  - apply scan_None in E as [->|]; simpl; lia.
Qed.

Lemma cut_min ck s :
  cut ck s < length s → (N.min (min_size_ ck) (max_size_ ck) ≤ N.of_nat (cut ck s))%N.
Proof.
  unfold cut. destruct (scan _ _ _ _ s) eqn:E; [|lia]. apply scan_Some in E. lia.
Qed.

Lemma cut_prefix ck p x y :
  x ≠ [] → cut ck (p ++ x) ≤ length p → cut ck (p ++ y) = cut ck (p ++ x).
Proof.
  intros Hx. unfold cut. destruct (scan _ _ _ _ (p ++ x)) eqn:E.
  - intros Hp. erewrite (scan_prefix _ _ _ p x y); [done|done|lia].
  - rewrite length_app. destruct x; [done|simpl; lia].
Qed.

(** ** The loops cut suffix after suffix *)

Lemma split_chunks_cons fuel ck off s :
  s ≠ [] →
  split_chunks (S fuel) ck off s =
    mkChunk off (take (cut ck s) s) (hash (take (cut ck s) s))
      :: split_chunks fuel ck (off + N.of_nat (cut ck s)) (drop (cut ck s) s).
Proof. by destruct s. Qed.

Lemma split_chunks_nil fuel ck off : split_chunks fuel ck off [] = [].
Proof. by destruct fuel. Qed.

Lemma chunk_loop_split fuel ck d k :
  k ≤ length d →
  chunk_loop fuel ck d (N.of_nat k) (N.of_nat k) = split_chunks fuel ck (N.of_nat k) (drop k d).
Proof.
  revert k. induction fuel as [|fuel IH]; intros k Hk; [done|]. cbn [chunk_loop].
  destruct (N.ltb_spec (N.of_nat k) (N.of_nat (length d))).
  2:{ by rewrite drop_ge, split_chunks_nil by lia. }
  assert (0 < length (drop k d)) as Hlen by (rewrite length_drop; lia).
  assert (drop k d ≠ []) as Hne by (by intros E; rewrite E in Hlen; simpl in Hlen; lia).
  rewrite split_chunks_cons by done.
  rewrite scan_shift, N.sub_diag, Nat2N.id by done. unfold reset.
  pose proof (cut_bounds ck (drop k d) Hne) as Hcut. unfold cut in Hcut |- *.
  rewrite length_drop in Hcut.
  destruct (scan ck 0 0 (mkRolling 0) (drop k d)) as [e|]; simpl.
  - replace (e + N.of_nat k)%N with (N.of_nat (k + N.to_nat e)) by lia.
    rewrite IH by lia. f_equal.
    + unfold make_chunk. rewrite Nat2N.id. replace (N.of_nat (k + N.to_nat e) - N.of_nat k)%N with e by lia.
      done.
    + rewrite drop_drop. f_equal. lia.
  - rewrite (drop_ge (drop k d)), split_chunks_nil by done. f_equal.
    + unfold make_chunk. rewrite Nat2N.id.
      replace (N.to_nat (N.of_nat (length d) - N.of_nat k)) with (length (drop k d))
        by (rewrite length_drop; lia).
      done.
    + destruct fuel; simpl; [done|]. by rewrite N.ltb_irrefl.
Qed.

Lemma chunk_split ck d : chunk ck d = split_chunks (S (length d)) ck 0 d.
Proof.
  destruct d as [|b d]; [done|]. unfold chunk.
  change 0%N with (N.of_nat 0). rewrite chunk_loop_split by (simpl; lia). by rewrite drop_0.
Qed.

Lemma split_chunks_fuel f f' ck off s :
  length s < f → length s < f' → split_chunks f ck off s = split_chunks f' ck off s.
Proof.
  revert f' off s. induction f as [|f IH]; intros [|f'] off s Hf Hf'; try lia.
  destruct (decide (s = [])) as [->|Hs]; [done|].
  rewrite !split_chunks_cons by done. f_equal.
  pose proof (cut_bounds ck s Hs). apply IH; rewrite length_drop; lia.
Qed.

Lemma split_chunks_shift f ck k off s :
  split_chunks f ck (k + off) s = shift k <$> split_chunks f ck off s.
Proof.
  revert off s. induction f as [|f IH]; intros off s; [done|].
  destruct (decide (s = [])) as [->|Hs]; [done|].
  rewrite !split_chunks_cons by done. csimpl. by rewrite <- N.add_assoc, IH.
Qed.

(** The chunks of a non-empty buffer: the first cut, then the chunks of what is
    left, moved by the length of the first. *)
Lemma chunk_cons ck s :
  s ≠ [] →
  chunk ck s = mkChunk 0 (take (cut ck s) s) (hash (take (cut ck s) s))
                 :: (shift (N.of_nat (cut ck s)) <$> chunk ck (drop (cut ck s) s)).
Proof.
  intros Hs. rewrite !chunk_split, split_chunks_cons by done. f_equal.
  pose proof (cut_bounds ck s Hs).
  rewrite <- split_chunks_shift, N.add_0_r, N.add_0_l.
  apply split_chunks_fuel; rewrite length_drop; lia.
Qed.

(** Induction along the cuts. *)
Lemma chunk_ind ck (P : bytes → list Chunk → Prop) :
  P [] [] →
  (∀ s, s ≠ [] → P (drop (cut ck s) s) (chunk ck (drop (cut ck s) s)) → P s (chunk ck s)) →
  ∀ s, P s (chunk ck s).
Proof.
  intros Hnil Hcons s. remember (length s) as n eqn:Hn. revert s Hn.
  induction (lt_wf n) as [n _ IH]. intros s ->.
  destruct (decide (s = [])) as [->|Hs]; [done|].
  apply Hcons; [done|]. pose proof (cut_bounds ck s Hs).
  eapply IH; [|done]. rewrite length_drop. lia.
Qed.

Definition bytes_of (cs : list Chunk) : bytes := concat (map data cs).

Lemma bytes_of_shift k cs : bytes_of (shift k <$> cs) = bytes_of cs.
Proof. unfold bytes_of. induction cs as [|c cs IH]; simpl; [done|]. by f_equal. Qed.

Lemma bytes_of_cons c cs : bytes_of (c :: cs) = data c ++ bytes_of cs.
Proof. done. Qed.
Lemma bytes_of_app cs cs' : bytes_of (cs ++ cs') = bytes_of cs ++ bytes_of cs'.
Proof. unfold bytes_of. by rewrite map_app, concat_app. Qed.

Lemma bytes_of_chunk ck d : bytes_of (chunk ck d) = d.
Proof.
  revert d. apply (chunk_ind ck (λ d l, bytes_of l = d)); [done|].
  intros s Hs IH. rewrite chunk_cons, bytes_of_cons, bytes_of_shift, IH by done.
  apply take_drop.
Qed.

(** Offsets chain from [off]: each chunk starts where the previous one ends. *)
Fixpoint chained (off : N) (cs : list Chunk) : Prop :=
  match cs with
  | [] => True
  | c :: cs => offset c = off ∧ chained (off + N.of_nat (length (data c))) cs
  end.

Lemma chained_shift k off cs : chained off cs → chained (k + off) (shift k <$> cs).
Proof.
  revert off. induction cs as [|c cs IH]; intros off; csimpl; [done|].
  intros [-> H]. split; [done|]. rewrite <- N.add_assoc. by apply IH.
Qed.

Lemma length_take_cut ck s : s ≠ [] → length (take (cut ck s) s) = cut ck s.
Proof. intros Hs. pose proof (cut_bounds ck s Hs). rewrite length_take. lia. Qed.

Lemma chunk_chained ck d : chained 0 (chunk ck d).
Proof.
  revert d. apply (chunk_ind ck (λ d l, chained 0 l)); [done|].
  intros s Hs IH. rewrite chunk_cons by done.
  split; [done|]. cbn [data]. rewrite length_take_cut, N.add_comm by done.
  by apply chained_shift.
Qed.

(** What holds of every chunk does not depend on its offset. *)
Lemma Forall_shift (P : Chunk → Prop) k cs :
  (∀ c, P c → P (shift k c)) → Forall P cs → Forall P (shift k <$> cs).
Proof. intros HP Hcs. apply Forall_fmap. eapply Forall_impl; [done|]. exact HP. Qed.

Definition chunk_ok (ck : Chunker) (c : Chunk) : Prop :=
  0 < length (data c) ∧ (N.of_nat (length (data c)) ≤ N.max 1 (max_size_ ck))%N ∧
  chunk_hash c = hash (data c).

Lemma chunk_Forall_ok ck d : Forall (chunk_ok ck) (chunk ck d).
Proof.
  revert d. apply (chunk_ind ck (λ d l, Forall (chunk_ok ck) l)); [constructor|]. intros s Hs IH. rewrite chunk_cons by done.
  constructor; [|by apply Forall_shift].
  unfold chunk_ok; simpl. rewrite length_take_cut by done.
  pose proof (cut_bounds ck s Hs). pose proof (cut_max ck s). split_and!; [lia|done|done].
Qed.

Lemma chunk_not_nil ck d : chunk ck d = [] ↔ d = [].
Proof. split; [|by intros ->]. intros H. rewrite <- (bytes_of_chunk ck d), H. done. Qed.

(** Every chunk but the last reaches the minimum. *)
Lemma chunk_min ck d :
  ∀ cs c c' cs', chunk ck d = cs ++ c :: c' :: cs' →
  (N.min (min_size_ ck) (max_size_ ck) ≤ N.of_nat (length (data c)))%N.
Proof.
  revert d. apply (chunk_ind ck (λ d l, ∀ cs c c' cs', l = cs ++ c :: c' :: cs' →
    (N.min (min_size_ ck) (max_size_ ck) ≤ N.of_nat (length (data c)))%N)).
  { by intros [|? [|? ?]]. }
  intros s Hs IH cs c c' cs'. rewrite chunk_cons by done.
  destruct cs as [|c0 cs]; simpl; intros [= <- H].
  - simpl. rewrite length_take_cut by done. apply cut_min.
    destruct (decide (cut ck s < length s)); [done|].
    rewrite drop_ge in H by lia. by destruct cs'.
  - apply fmap_app_inv in H as (l1 & l2 & -> & H & Hl).
    symmetry in H. apply fmap_cons_inv in H as (x & l3 & -> & H & ->).
    symmetry in H. apply fmap_cons_inv in H as (x' & l4 & -> & _ & ->).
    simpl. eapply IH. exact Hl.
Qed.

(** ** Chunk boundaries are local *)

Lemma shift_0 (cs : list Chunk) : shift 0 <$> cs = cs.
Proof. induction cs as [|[o d h] cs IH]; csimpl; [done|]. by rewrite IH. Qed.

Lemma shift_shift j k (cs : list Chunk) : shift j <$> (shift k <$> cs) = shift (j + k) <$> cs.
Proof.
  rewrite <- list_fmap_compose. apply list_fmap_ext. intros _ [o d h] _.
  unfold compose, shift; simpl. f_equal. lia.
Qed.

(** If some chunks of [p ++ x] cover exactly [p], and bytes follow, then those
    are the chunks of [p] whatever follows, and what follows is cut as if it
    stood alone. *)
Lemma chunk_app_boundary ck p x cs rest :
  x ≠ [] → chunk ck (p ++ x) = cs ++ rest → bytes_of cs = p →
  ∀ y, chunk ck (p ++ y) = cs ++ (shift (N.of_nat (length p)) <$> chunk ck y).
Proof.
  intros Hx. remember (length cs) as m eqn:Hm. revert cs p rest Hm.
  induction m as [|m IH]; intros [|c cs] p rest Hm Hc Hp y; try done.
  { simpl in Hp. subst p. simpl. by rewrite shift_0. }
  injection Hm as Hm.
  assert (p ++ x ≠ []) as Hne by (by intros [_ ?]%app_nil).
  assert (0 < length (data c)) as Hlc.
  { pose proof (chunk_Forall_ok ck (p ++ x)) as Hok. rewrite Hc in Hok. by inversion_clear Hok as [|?? []]. }
  rewrite bytes_of_cons in Hp.
  assert (length (data c) ≤ length p) as Hle by (rewrite <- Hp, length_app; lia).
  rewrite chunk_cons in Hc by done. injection Hc as Hc Hcs.
  assert (cut ck (p ++ x) = length (data c)) as Hcut.
  { rewrite <- Hc. simpl. by rewrite length_take_cut. }
  assert (take (length (data c)) p = data c) as Ht by (by rewrite <- Hp, take_app_length).
  rewrite Hcut in Hc, Hcs. rewrite drop_app_le in Hcs by done.
  assert (drop (length (data c)) p = bytes_of cs) as Hd by (by rewrite <- Hp, drop_app_length).
  rewrite Hd in Hcs. apply fmap_app_inv in Hcs as (cs1 & rest1 & -> & -> & Hcs).
  rewrite bytes_of_shift in Hcs, Hd.
  rewrite chunk_cons, (cut_prefix ck p x y), Hcut by
    first [done | lia | (intros [-> _]%app_nil; simpl in *; lia)].
  rewrite !drop_app_le, Hd by lia.
  rewrite (IH cs1 _ rest1) by (rewrite ?length_fmap in Hm; done).
  rewrite fmap_app, shift_shift, <- Hd, length_drop.
  rewrite !take_app_le, Ht in * by done. simpl. f_equal; [exact Hc|].
  do 3 f_equal. lia.
Qed.

(** The chunks of a list that end at or before [k] bytes. *)
Lemma chunks_upto cs k :
  ∃ a b, cs = a ++ b ∧ length (bytes_of a) ≤ k ∧
    (∀ c b', b = c :: b' → k < length (bytes_of (a ++ [c]))).
Proof.
  revert k. induction cs as [|c cs IH]; intros k.
  { exists [], []. split_and!; [done|simpl; lia|done]. }
  destruct (decide (length (data c) ≤ k)) as [Hc|Hc].
  - destruct (IH (k - length (data c))) as (a & b & -> & Ha & Hb). exists (c :: a), b.
    split; [done|]. split; [rewrite bytes_of_cons, length_app; lia|].
    intros c' b' H. specialize (Hb c' b' H). cbn [app]. rewrite bytes_of_cons, length_app. lia.
  - exists [], (c :: cs). split_and!; [done|simpl; lia|]. intros c' b' [= <- <-]. cbn [app].
    rewrite bytes_of_cons, app_nil_r. lia.
Qed.

(** Buffers that agree on their first [k] bytes share the chunks that lie within
    them. *)
Lemma chunk_shared ck d k :
  k < length d →
  ∃ before after, chunk ck d = before ++ after ∧ length (bytes_of before) ≤ k ∧
    (∀ c rest, after = c :: rest → k < length (bytes_of (before ++ [c]))) ∧
    ∀ d', take k d' = take k d → k < length d' → ∃ after', chunk ck d' = before ++ after'.
Proof.
  intros Hk. destruct (chunks_upto (chunk ck d) k) as (a & b & Hab & Ha & Hb).
  exists a, b. split_and!; [done..|]. intros d' Htake Hd'. set (p := bytes_of a) in *.
  assert (d = p ++ bytes_of b) as Hd by (rewrite <- (bytes_of_chunk ck d), Hab; apply bytes_of_app).
  assert (take (length p) d' = p) as Hp.
  { assert (∀ l : bytes, take (length p) (take k l) = take (length p) l) as Ht
      by (intros l; rewrite take_take; f_equal; lia).
    rewrite <- Ht, Htake, Ht, Hd. apply take_app_length. }
  rewrite <- (take_drop (length p) d'), Hp.
  eexists. apply (chunk_app_boundary ck p (bytes_of b) a b); [|by rewrite <- Hd|done].
  intros E. rewrite Hd, E, app_nil_r in Hk. lia.
Qed.

(** ** The boundary mask *)

Lemma mask_bits_loop_log2 fuel v bits :
  (v < 2 ^ N.of_nat fuel)%N → mask_bits_loop fuel v bits = (bits + N.log2 v)%N.
Proof.
  revert v bits. induction fuel as [|fuel IH]; intros v bits Hv.
  - simpl in *. replace v with 0%N by lia. by rewrite N.add_0_r.
  - cbn [mask_bits_loop]. destruct (N.ltb_spec 1 v).
    + rewrite Nat2N.inj_succ, N.pow_succ_r' in Hv.
      rewrite IH.
      * rewrite N.log2_shiftr. pose proof (N.log2_pos v). lia.
      * rewrite N.shiftr_div_pow2. apply N.Div0.div_lt_upper_bound. exact Hv.
    + assert (N.log2 v = 0%N) as -> by (by apply N.log2_null). lia.
Qed.

Lemma mask_bits_eq min avg max : mask_bits_ (new_chunker min avg max) = N.log2 avg.
Proof.
  unfold new_chunker; simpl. rewrite mask_bits_loop_log2; [lia|].
  rewrite N2Nat.id. apply N.size_gt.
Qed.

(** ** The rolling hash forgets *)

Definition roll_bytes (r : RollingHash) (w : bytes) : RollingHash :=
  foldl (λ r b, (roll r b).2) r w.

(** The value of the bytes [w] in the gear table, with the weights the shifts
    give them. *)
Definition gear_sum (w : bytes) : N := foldl (λ a b, (2 * a + gear b)%N) 0%N w.

Lemma gear_sum_from w a :
  foldl (λ a b, (2 * a + gear b)%N) a w = (a * 2 ^ N.of_nat (length w) + gear_sum w)%N.
Proof.
  unfold gear_sum. revert a. induction w as [|b w IH]; intros a; cbn [foldl length]; [lia|].
  rewrite IH, (IH (2 * 0 + gear b)%N), Nat2N.inj_succ, N.pow_succ_r'. lia.
Qed.

Lemma roll_bytes_sum r w :
  hash_ r = u64 (hash_ r) →
  hash_ (roll_bytes r w) = u64 (hash_ r * 2 ^ N.of_nat (length w) + gear_sum w).
Proof.
  intros Hr. rewrite <- gear_sum_from. unfold roll_bytes.
  assert (∀ w r a, hash_ r = u64 a →
    hash_ (foldl (λ r b, (roll r b).2) r w) = u64 (foldl (λ a b, (2 * a + gear b)%N) a w)) as H;
    [|by apply H].
  clear. intros w. induction w as [|b w IH]; intros r a Ha; [done|]. simpl. apply IH. simpl.
  rewrite Ha, N.shiftl_mul_pow2. rewrite wrap_add_l. unfold wrap.
  rewrite <- (N.Div0.add_mod_idemp_l (_ * _)), N.Div0.mul_mod_idemp_l, N.Div0.add_mod_idemp_l.
  f_equal. lia.
Qed.

Lemma land_ones_zero h k : (N.land h (2 ^ k - 1) =? 0)%N = (h `mod` 2 ^ k =? 0)%N.
Proof. rewrite <- N.land_ones, N.ones_equiv, N.sub_1_r. done. Qed.

Lemma land_mask min avg max h :
  (avg < 2 ^ 64)%N →
  (N.land h (mask_ (new_chunker min avg max)) =? 0)%N = (h `mod` 2 ^ N.log2 avg =? 0)%N.
Proof.
  intros Havg.
  assert (N.log2 avg < 64)%N as Hlog.
  { destruct (decide (avg = 0%N)) as [->|]; [done|]. apply N.log2_lt_pow2; lia. }
  pose proof (mask_bits_eq min avg max) as Hbits. unfold new_chunker in Hbits |- *. simpl in *.
  rewrite Hbits. rewrite (proj2 (N.leb_gt _ _)) by done.
  rewrite N.shiftl_1_l, wrap_small; [apply land_ones_zero|].
  pose proof (N.pow_lt_mono_r 2 (N.log2 avg) 64). lia.
Qed.

(** ** Properties *)

(** C8: Chunking loses nothing: the chunks of a buffer concatenate to the
    buffer, start where the previous one ended, are non-empty, and carry the hash
    of their own bytes; only the empty buffer has no chunks. *)
Theorem chunk_lossless ck d :
  bytes_of (chunk ck d) = d ∧ chained 0 (chunk ck d) ∧
  Forall (λ c, data c ≠ [] ∧ chunk_hash c = hash (data c)) (chunk ck d) ∧
  (chunk ck d = [] ↔ d = []).
Proof.
  split_and!; [apply bytes_of_chunk|apply chunk_chained| |apply chunk_not_nil].
  eapply Forall_impl; [apply (chunk_Forall_ok ck)|].
  intros c (Hlen & _ & Hh). split; [|done]. intros E. rewrite E in Hlen. simpl in Hlen. lia.
Qed.

(** C37: Chunk sizes are bounded: no chunk is larger than the maximum (or one
    byte, should the maximum be 0), and every chunk that is followed by another
    one has at least the minimum (or the maximum, should it be smaller). *)
Theorem chunk_sizes ck d cs c cs' :
  chunk ck d = cs ++ c :: cs' →
  (N.of_nat (length (data c)) ≤ N.max 1 (max_size_ ck))%N ∧
  (cs' = [] ∨ (N.min (min_size_ ck) (max_size_ ck) ≤ N.of_nat (length (data c)))%N).
Proof.
  intros H. split.
  - pose proof (chunk_Forall_ok ck d) as Hok. rewrite H, Forall_app in Hok.
    by destruct Hok as [_ [(_ & Hmax & _) _]%Forall_cons].
  - destruct cs' as [|c' cs']; [by left|right]. by eapply chunk_min.
Qed.

Lemma chunk_sizes_witness :
  (N.of_nat 7 ≤ N.max 1 16)%N ∧ (N.min 2 16 ≤ N.of_nat 7)%N.
Proof.
  destruct (chunk_sizes (new_chunker 2 4 16) (str "the quick brown fox")
    [mkChunk 0 (str "th") (hash (str "th"))]
    (mkChunk 2 (str "e quick") (hash (str "e quick")))
    (drop 2 (chunk (new_chunker 2 4 16) (str "the quick brown fox")))) as [H1 [H2|H2]].
  - vm_compute. reflexivity.
  - vm_compute in H2. discriminate.
  - split; [exact H1|exact H2].
Defined.

(** The outer loop of [Chunker::chunk] terminates: any number of turns above
    the number of bytes gives the same chunks. *)
Theorem chunk_loop_terminates ck d fuel :
  length d < fuel → chunk_loop fuel ck d 0 0 = chunk ck d.
Proof.
  intros Hf. rewrite chunk_split. change 0%N with (N.of_nat 0).
  rewrite chunk_loop_split, drop_0 by lia. apply split_chunks_fuel; lia.
Qed.

Lemma chunk_loop_terminates_witness :
  chunk_loop 100 (new_chunker 2 4 16) (str "abcdefgh") 0 0 = chunk (new_chunker 2 4 16) (str "abcdefgh").
Proof. apply (chunk_loop_terminates (new_chunker 2 4 16) (str "abcdefgh") 100). vm_compute. lia. Defined.

(** The gear hash is a function of the last 64 bytes only: whatever was
    rolled in before them has been shifted out of the 64-bit word. *)
Theorem rolling_hash_window r w :
  hash_ r = u64 (hash_ r) → 64 ≤ length w →
  hash_ (roll_bytes r w) = hash_ (roll_bytes (reset r) w).
Proof.
  intros Hr Hw. rewrite !roll_bytes_sum by done. simpl (hash_ (reset r)).
  replace (N.of_nat (length w)) with (64 + N.of_nat (length w - 64))%N by lia.
  rewrite N.pow_add_r. unfold wrap.
  replace (hash_ r * (2 ^ 64 * 2 ^ N.of_nat (length w - 64)))%N
    with (hash_ r * 2 ^ N.of_nat (length w - 64) * 2 ^ 64)%N by lia.
  rewrite <- N.Div0.add_mod_idemp_l, N.Div0.mod_mul. f_equal.
Qed.

Lemma rolling_hash_window_witness :
  hash_ (roll_bytes (mkRolling 12345) (replicate 64 (byte_of 97))) =
  hash_ (roll_bytes (mkRolling 0) (replicate 64 (byte_of 97))).
Proof.
  apply (rolling_hash_window (mkRolling 12345) (replicate 64 (byte_of 97)));
    [vm_compute; reflexivity|vm_compute; lia].
Defined.

(** The constructor's mask makes a boundary a hash divisible by the largest
    power of two below the requested average, for any average a [size_t] holds. *)
Theorem boundary_mask min avg max h :
  (avg < 2 ^ 64)%N →
  (N.land h (mask_ (new_chunker min avg max)) =? 0)%N = (h `mod` 2 ^ N.log2 avg =? 0)%N.
Proof. apply land_mask. Qed.

Lemma boundary_mask_witness :
  (N.land 16384 (mask_ default_chunker) =? 0)%N = (16384 `mod` 2 ^ N.log2 8192 =? 0)%N.
Proof. apply (boundary_mask 2048 8192 65536 16384). reflexivity. Defined.
