(* ===== verification/Resync.v ===== *)
(** * Resync: what an edit does to the chunks of a file ([chunker.cpp])

    The chunks before an edit stay; the chunks after it are the same again from the first place on whose
    content forces a boundary, wherever the chunks before it began: the rolling hash remembers
    no more than the mask looks at, and neither the minimum nor the maximum size can
    hide the place.  Without such a place, the maximum size can shift all chunks behind an edit. *)
From S2P Require Import Prelude Text GearTable Sha256 Chunker.

(** ** Where chunkings meet again *)

(** Whether the bytes [w], the last ones before a position, make a boundary there. *)
Definition cuts_after (ck : Chunker) (w : bytes) : bool :=
  (N.land (hash_ (roll_bytes (mkRolling 0) w)) (mask_ ck) =? 0)%N.

Lemma roll_bytes_snoc r w b : roll_bytes r (w ++ [b]) = (roll (roll_bytes r w) b).2.
Proof. unfold roll_bytes. by rewrite foldl_app. Qed.

(** The inner loop, one byte on. *)
Lemma scan_cons ck w b rest :
  let n := N.of_nat (length (w ++ [b])) in
  scan ck 0 (N.of_nat (length w)) (roll_bytes (mkRolling 0) w) (b :: rest) =
    if ((min_size_ ck <=? n)%N && cuts_after ck (w ++ [b])) || (max_size_ ck <=? n)%N then Some n
    else scan ck 0 n (roll_bytes (mkRolling 0) (w ++ [b])) rest.
Proof.
  cbv zeta. cbn [scan]. rewrite N.sub_0_r, length_app. unfold cuts_after. rewrite roll_bytes_snoc.
  cbn [length roll hash_ snd]. by replace (N.of_nat (length w) + 1)%N with (N.of_nat (length w + 1)) by lia.
Qed.

(** A chunk ends where its bytes say so or at the maximum. *)
Lemma scan_reason ck w rest e :
  scan ck 0 (N.of_nat (length w)) (roll_bytes (mkRolling 0) w) rest = Some e →
  (min_size_ ck ≤ e)%N ∧ cuts_after ck (take (N.to_nat e) (w ++ rest)) = true ∨ (max_size_ ck ≤ e)%N.
Proof.
  revert w. induction rest as [|b rest IH]; intros w; [done|]. rewrite scan_cons.
  assert (w ++ b :: rest = (w ++ [b]) ++ rest) as -> by by rewrite <- app_assoc.
  destruct (_ || _) eqn:E.
  - intros [= <-]. apply orb_true_iff in E as [[E1%N.leb_le E2]%andb_true_iff|E%N.leb_le]; [left|by right].
    split; [done|]. by rewrite Nat2N.id, take_app_length.
  - apply IH.
Qed.

(** It does not go on beyond a place where they do. *)
Lemma scan_first ck w rest i :
  length w < i ≤ length (w ++ rest) → (min_size_ ck ≤ N.of_nat i)%N →
  cuts_after ck (take i (w ++ rest)) = true →
  ∃ e, scan ck 0 (N.of_nat (length w)) (roll_bytes (mkRolling 0) w) rest = Some e ∧ (e ≤ N.of_nat i)%N.
Proof.
  revert w. induction rest as [|b rest IH]; intros w Hi Hmin Hc.
  { rewrite app_nil_r in Hi. lia. }
  rewrite scan_cons. assert (w ++ b :: rest = (w ++ [b]) ++ rest) as Ew by by rewrite <- app_assoc.
  rewrite Ew in Hc, Hi. destruct (_ || _) eqn:E.
  - eexists. split; [done|]. rewrite length_app. cbn [length]. lia.
  - apply IH; [|done|done]. destruct (decide (i = length (w ++ [b]))) as [->|]; [|rewrite !length_app in *; simpl in *; lia].
    rewrite take_app_length in Hc. rewrite Hc, (proj2 (N.leb_le _ _)) in E by done. done.
Qed.

Lemma cut_reason ck d :
  cut ck d < length d →
  (min_size_ ck ≤ N.of_nat (cut ck d))%N ∧ cuts_after ck (take (cut ck d) d) = true ∨
  (max_size_ ck ≤ N.of_nat (cut ck d))%N.
Proof.
  unfold cut. destruct (scan ck 0 0 (mkRolling 0) d) as [e|] eqn:E; [|lia]. intros _.
  rewrite N2Nat.id. exact (scan_reason ck [] d e E).
Qed.

Lemma cut_first ck d i :
  0 < i ≤ length d → (min_size_ ck ≤ N.of_nat i)%N → cuts_after ck (take i d) = true → cut ck d ≤ i.
Proof.
  intros Hi Hmin Hc. destruct (scan_first ck [] d i Hi Hmin Hc) as (e & E & He). unfold cut.
  change (scan ck 0 0 (mkRolling 0) d = Some e) in E. rewrite E. lia.
Qed.

(** The mask looks at the low bits of the hash, which depend on as many bytes. *)
Definition window (ck : Chunker) : nat := N.to_nat (mask_bits_ ck).
Definition content_cut (ck : Chunker) (s : bytes) (i : nat) : bool :=
  cuts_after ck (take (window ck) (drop (i - window ck) s)).

Lemma gear_sum_app w w' : gear_sum (w ++ w') = (gear_sum w * 2 ^ N.of_nat (length w') + gear_sum w')%N.
Proof. unfold gear_sum at 1. rewrite foldl_app. apply gear_sum_from. Qed.

Section Meet.
Context (min avg max : N) (Havg : (avg < 2 ^ 64)%N) (Hmin : (N.log2 avg ≤ min)%N) (Hpos : (1 ≤ min ≤ max)%N).
Let ck := new_chunker min avg max.
Let lo := N.to_nat min.
Let hi := N.to_nat max.

Lemma window_eq : window ck = N.to_nat (N.log2 avg).
Proof. unfold window, ck. by rewrite mask_bits_eq. Qed.

Lemma cuts_after_sum w : cuts_after ck w = (gear_sum w `mod` 2 ^ N.log2 avg =? 0)%N.
Proof.
  unfold cuts_after, ck. rewrite land_mask by done. rewrite roll_bytes_sum by done. cbn [hash_].
  rewrite N.mul_0_l, N.add_0_l. f_equal. unfold wrap.
  assert (N.log2 avg ≤ 64)%N as Hle.
  { destruct (decide (avg = 0%N)) as [->|]; [done|]. apply N.lt_le_incl, N.log2_lt_pow2; lia. }
  replace (2 ^ 64)%N with (2 ^ N.log2 avg * 2 ^ (64 - N.log2 avg))%N by (rewrite <- N.pow_add_r; f_equal; lia).
  rewrite N.Div0.mod_mul_r, N.mul_comm, N.Div0.mod_add, N.Div0.mod_mod. done.
Qed.

(** In a chunk that is long enough, a boundary depends on the content around it only. *)
Lemma cuts_after_window d i : window ck ≤ i ≤ length d → cuts_after ck (take i d) = content_cut ck d i.
Proof.
  intros Hi. unfold content_cut. pose proof window_eq as Hk. set (k := window ck) in *. clearbody k.
  assert (take i d = take (i - k) d ++ take k (drop (i - k) d)) as ->.
  { rewrite take_take_drop. f_equal. lia. }
  rewrite !cuts_after_sum, gear_sum_app, length_take, length_drop.
  replace (N.of_nat (k `min` (length d - (i - k)))) with (N.log2 avg) by lia.
  by rewrite N.add_comm, N.Div0.mod_add.
Qed.

Lemma content_cut_app pre s i : window ck ≤ i → content_cut ck (pre ++ s) (length pre + i) = content_cut ck s i.
Proof.
  intros Hi. unfold content_cut. f_equal. f_equal.
  replace (length pre + i - window ck) with (length pre + (i - window ck)) by lia.
  by rewrite <- drop_drop, drop_app_length.
Qed.

Lemma content_cut_drop d c i : window ck ≤ i → c ≤ length d → content_cut ck (drop c d) i = content_cut ck d (c + i).
Proof.
  intros Hi Hc. rewrite <- (take_drop c d) at 2. rewrite <- (content_cut_app (take c d)) by done.
  rewrite length_take_le by done. done.
Qed.

(** Every chunking that reaches [q] with bytes enough before it has a boundary there: the content says so, it
    says nothing else in the minimum before, and either the chunk begins near enough, or
    the content also says so somewhat earlier, so that no chunk runs into its maximum just before [q]. *)
Record meets_at (d : bytes) (q : nat) : Prop := {
  ma_far : lo ≤ q ≤ length d;
  ma_cut : content_cut ck d q = true;
  ma_quiet : ∀ i, lo ≤ i → q - lo < i < q → content_cut ck d i = false;
  ma_near : q ≤ hi ∨ ∃ i, lo ≤ i ∧ i + lo ≤ q ≤ i + (hi - lo) ∧ content_cut ck d i = true;
}.

Lemma meets_at_step d q : meets_at d q → cut ck d ≠ q → cut ck d + lo ≤ q ∧ meets_at (drop (cut ck d) d) (q - cut ck d).
Proof.
  intros [Hfar Hc Hq Hn] Hne. assert (window ck ≤ lo) as Hw by (rewrite window_eq; unfold lo; lia).
  assert (1 ≤ lo ≤ hi) as Hlh by (unfold lo, hi; lia).
  assert (min_size_ ck = N.of_nat lo ∧ max_size_ ck = N.of_nat hi) as [El Eh] by (unfold lo, hi; cbn; lia).
  assert (∀ i, lo ≤ i ≤ length d → content_cut ck d i = true → cut ck d ≤ i) as Hfirst.
  { intros i Hi Hci. apply cut_first; [lia|lia|]. by rewrite cuts_after_window by lia. }
  pose proof (Hfirst q Hfar Hc) as Hle. pose proof (cut_reason ck d) as Hr. set (c := cut ck d) in *.
  assert (c + lo ≤ q) as Hcq.
  { destruct Hr as [[H1 H2]|H]; [lia| |].
    - destruct (decide (c + lo ≤ q)); [done|]. rewrite cuts_after_window in H2 by lia.
      rewrite Hq in H2 by lia. done.
    - destruct Hn as [?|(i & Hi & Hiq & Hci)]; [lia|]. pose proof (Hfirst i ltac:(lia) Hci). lia. }
  split; [done|]. assert (∀ i, lo ≤ i → content_cut ck (drop c d) i = content_cut ck d (c + i)) as E
    by (intros i Hi; apply content_cut_drop; lia).
  split.
  - rewrite length_drop. lia.
  - rewrite E by lia. by replace (c + (q - c)) with q by lia.
  - intros i Hi Hiq. rewrite E by done. apply Hq; lia.
  - destruct Hn as [?|(i & Hi & Hiq & Hci)]; [left; lia|]. destruct (decide (c + lo ≤ i)); [right|left; lia].
    exists (i - c). rewrite E by lia. replace (c + (i - c)) with i by lia. split_and!; [lia|lia|lia|done].
Qed.

Lemma chunk_meets_at d q :
  meets_at d q → ∃ cs, bytes_of cs = take q d ∧ chunk ck d = cs ++ (shift (N.of_nat q) <$> chunk ck (drop q d)).
Proof.
  remember (length d) as n eqn:Hn. revert d q Hn. induction (lt_wf n) as [n _ IH]. intros d q -> Hm.
  assert (d ≠ []) as Hd by (intros ->; destruct Hm as [[H1 H2] _ _ _]; cbn in H2; unfold lo in *; lia).
  pose proof (cut_bounds ck d Hd) as Hb. rewrite chunk_cons by done. set (c := cut ck d) in *.
  destruct (decide (c = q)) as [<-|Hne]; [by exists [mkChunk 0 (take c d) (hash (take c d))]; split; [apply app_nil_r|]|].
  destruct (meets_at_step d q Hm Hne) as [Hcq Hm']. fold c in Hcq, Hm'.
  destruct (IH (length (drop c d))) with (d := drop c d) (q := q - c) as (cs & Hcs & Hch);
    [rewrite length_drop; lia|done|done|].
  exists (mkChunk 0 (take c d) (hash (take c d)) :: (shift (N.of_nat c) <$> cs)). split.
  - rewrite bytes_of_cons, bytes_of_shift, Hcs. cbn [data].
    rewrite take_drop_commute. replace (c + (q - c)) with q by lia.
    rewrite <- (take_drop c (take q d)) at 2. rewrite take_take. f_equal. f_equal. lia.
  - rewrite Hch, fmap_app, shift_shift, drop_drop. cbn [app]. do 2 f_equal.
    replace (c + (q - c)) with q by lia. do 2 f_equal. lia.
Qed.
End Meet.

(** A place [q] of [s] where all chunkings meet, a property of the content alone: the last bytes make a
    boundary; nothing else in the minimum before does; and one more place does so before that,
    within the difference of maximum and minimum. *)
Definition sync_point (ck : Chunker) (s : bytes) (q : nat) : Prop :=
  let lo := N.to_nat (min_size_ ck) in let hi := N.to_nat (max_size_ ck) in
  let first := window ck `max` (q - (hi - lo)) in
  lo ≤ q ≤ length s ∧ content_cut ck s q = true ∧
  Forall (λ i, content_cut ck s i = false) (seq (S (q - lo)) (lo - 1)) ∧
  Exists (λ i, content_cut ck s i = true) (seq first (S (q - lo) - first)).
#[export] Instance sync_point_dec ck s q : Decision (sync_point ck s q).
Proof. unfold sync_point. apply _. Defined.

Lemma sync_point_meets min avg max pre s q :
  (avg < 2 ^ 64)%N → (N.log2 avg ≤ min)%N → (1 ≤ min ≤ max)%N →
  sync_point (new_chunker min avg max) s q → meets_at min avg max (pre ++ s) (length pre + q).
Proof.
  intros Havg Hmin Hpos (Hq & Hc & Hquiet & Hex). cbv zeta in *.
  change (min_size_ (new_chunker min avg max)) with min in *. change (max_size_ (new_chunker min avg max)) with max in *.
  pose proof (window_eq min avg max) as Hw.
  apply Exists_exists in Hex as (i & Hi & Hci). apply elem_of_seq in Hi. rewrite Forall_forall in Hquiet.
  split.
  - rewrite length_app. lia.
  - rewrite content_cut_app by lia. done.
  - intros j Hj Hjq. replace j with (length pre + (j - length pre)) by lia. rewrite content_cut_app by lia.
    apply Hquiet, elem_of_seq. lia.
  - destruct (decide (N.to_nat min ≤ length pre + i)); [right|left; lia]. exists (length pre + i). rewrite content_cut_app by lia. split_and!; [lia|lia|lia|done].
Qed.

(** Of two ways to cut a list of chunks, the shorter begins the longer. *)
Lemma chunks_prefix ck d a b cs rest :
  chunk ck d = a ++ b → chunk ck d = cs ++ rest → length (bytes_of a) ≤ length (bytes_of cs) → ∃ mid, cs = a ++ mid.
Proof.
  intros Ha Hcs Hl. pose proof (chunk_Forall_ok ck d) as Hok. rewrite Ha in Hcs, Hok.
  apply app_eq_inv in Hcs as [[l [-> ->]]|[l [-> ->]]]; [|by exists l].
  exists []. rewrite app_nil_r. rewrite bytes_of_app, length_app in Hl.
  destruct l as [|c l]; [by rewrite app_nil_r|].
  rewrite !Forall_app in Hok. destruct Hok as [[_ [[Hc _] _]%Forall_cons] _]. rewrite bytes_of_cons, length_app in Hl. lia.
Qed.

(** ** Properties *)

(** C23: An edit changes the chunks around it only.  Let [e'] replace [e] between [p] and [s], and let
    [s] have a place where chunkings meet, as defined by its content ([sync_point]).  Then, whatever [e] and [e'] are, the two files have the
    same chunks before the edit, up to less than a maximal chunk before it, and, up to their offset, the
    same chunks from that place on.  The chunker's minimum is at least the number of bits of its mask, as in
    the default one. *)
Theorem edit_is_local min avg max p e e' s q :
  let ck := new_chunker min avg max in
  (avg < 2 ^ 64)%N → (N.log2 avg ≤ min)%N → (1 ≤ min ≤ max)%N → sync_point ck s q →
  ∃ before mid mid',
    length (bytes_of before) ≤ length p < length (bytes_of before) + N.to_nat max ∧
    bytes_of before ++ bytes_of mid = p ++ e ++ take q s ∧
    bytes_of before ++ bytes_of mid' = p ++ e' ++ take q s ∧
    chunk ck (p ++ e ++ s) =
      before ++ mid ++ (shift (N.of_nat (length (p ++ e) + q)) <$> chunk ck (drop q s)) ∧
    chunk ck (p ++ e' ++ s) =
      before ++ mid' ++ (shift (N.of_nat (length (p ++ e') + q)) <$> chunk ck (drop q s)).
Proof.
  intros ck Havg Hmin Hpos Hq. assert (0 < length s) as Hs by (destruct Hq as [Hq _]; cbn in Hq; lia).
  assert (∀ z, length p < length (p ++ z ++ s)) as Hlen by (intros z; rewrite !length_app; lia).
  destruct (chunk_shared ck (p ++ e ++ s) (length p) (Hlen e)) as (before & after & Hb & Hle & Hnext & Hall).
  assert (∀ z, ∃ after', chunk ck (p ++ z ++ s) = before ++ after') as Hbefore
    by (intros z; apply Hall; [by rewrite !take_app_length|apply Hlen]).
  assert (∀ z, ∃ mid, bytes_of before ++ bytes_of mid = p ++ z ++ take q s ∧
    chunk ck (p ++ z ++ s) = before ++ mid ++ (shift (N.of_nat (length (p ++ z) + q)) <$> chunk ck (drop q s))) as Hmid.
  { intros z. destruct (Hbefore z) as [after' Ha].
    destruct (chunk_meets_at min avg max Havg Hmin Hpos ((p ++ z) ++ s) (length (p ++ z) + q)) as (cs & Hcs & Hch);
      [by apply sync_point_meets|]. fold ck in Hch.
    rewrite take_app_add', <- app_assoc in Hcs by done. rewrite drop_app_add', <- app_assoc in Hch by done.
    destruct (chunks_prefix ck _ _ _ _ _ Ha Hch) as [mid ->]; [rewrite Hcs, length_app; lia|].
    exists mid. rewrite <- bytes_of_app. split; [done|]. by rewrite Hch, app_assoc. }
  destruct (Hmid e) as (mid & ? & ?), (Hmid e') as (mid' & ? & ?). exists before, mid, mid'. split; [|done]. split; [done|].
  destruct after as [|c rest].
  { pose proof (bytes_of_chunk ck (p ++ e ++ s)) as Hbytes. rewrite Hb, app_nil_r in Hbytes.
    rewrite Hbytes in Hle. specialize (Hlen e). lia. }
  specialize (Hnext c rest eq_refl). rewrite bytes_of_app, length_app, bytes_of_cons, app_nil_r in Hnext.
  pose proof (chunk_Forall_ok ck (p ++ e ++ s)) as Hok. rewrite Hb, Forall_app in Hok.
  destruct Hok as [_ [(_ & Hmax & _) _]%Forall_cons]. cbn in Hmax. lia.
Qed.

Lemma edit_is_local_witness :
  ∃ before mid mid',
    bytes_of before ++ bytes_of mid = str "the quick brown fox jumps over th" ∧
    bytes_of before ++ bytes_of mid' = str "the quick brown f--a--x jumps over th" ∧
    chunk (new_chunker 2 4 16) (str "the quick brown fox jumps over the lazy dog and away") =
      before ++ mid ++ (shift 33 <$> chunk (new_chunker 2 4 16) (str "e lazy dog and away")) ∧
    chunk (new_chunker 2 4 16) (str "the quick brown f--a--x jumps over the lazy dog and away") =
      before ++ mid' ++ (shift 37 <$> chunk (new_chunker 2 4 16) (str "e lazy dog and away")).
Proof.
  destruct (edit_is_local 2 4 16 (str "the quick brown f") (str "o") (str "--a--") (str "x jumps over the lazy dog and away") 15)
    as (before & mid & mid' & _ & H1 & H2 & H3 & H4).
  - reflexivity.
  - by_decide.
  - by_decide.
  - by_decide.
  - exists before, mid, mid'. split; [exact H1|]. split; [exact H2|]. split; [exact H3|exact H4].
Defined.

(** Where the content forces no boundary, the maximum size makes all of them, and one byte inserted at the
    front changes every chunk. *)
Example forced_cuts_shift :
  let ck := new_chunker 2 256 4 in
  let d := str "abcdefghijklmnopqrst" in
  length (chunk ck d) = 5 ∧ length (chunk ck (str "!" ++ d)) = 6 ∧
  Forall (λ c, Forall (λ c', chunk_hash c ≠ chunk_hash c') (chunk ck (str "!" ++ d))) (chunk ck d).
Proof. cbv zeta. split; [by_decide|]. split; [by_decide|]. by_decide. Qed.
