(* ===== verification/MerkleTree.v ===== *)
(** * MerkleTree: the hash tree over a file's chunks ([merkle_tree.hpp],
    [merkle_tree.cpp])

    The tree is built by halving the range of leaves, and two trees are compared
    by walking down the subtrees whose hashes differ.  [tree_of] is the shape the
    construction promises; the comparison is proved to return the indices of the
    leaves that differ. *)
From S2P Require Import Prelude Text Sha256 Chunker.

(** [static_cast<int>] of a [size_t]. *)
Definition to_int (n : nat) : Z := ((Z.of_nat n + 2 ^ 31) `mod` 2 ^ 32 - 2 ^ 31)%Z.

(** [std::unique_ptr<MerkleNode>]: null, or the node it owns. *)
Inductive MerklePtr :=
| null
| node (nhash : Digest) (left right : MerklePtr) (leaf_index : Z).

Definition leaf_index_of (p : MerklePtr) : Z := match p with null => -1 | node _ _ _ i => i end.
Definition is_leaf (p : MerklePtr) : bool := (0 <=? leaf_index_of p)%Z.
Definition node_hash (p : MerklePtr) : Digest := match p with null => [] | node x _ _ _ => x end.

Record MerkleTree := mkTree { root_ : MerklePtr; leaf_count_ : nat }.

(** [chunks[lo]], in range wherever the code reads it. *)
Definition chunk_at (chunks : list Chunk) (i : nat) : Chunk :=
  default (mkChunk 0 [] []) (chunks !! i).

(** [build_recursive]; a range of [k] leaves recurses at most [k] deep. *)
Fixpoint build_recursive (fuel : nat) (chunks : list Chunk) (lo hi : nat) : MerklePtr :=
  match fuel with
  | 0 => null
  | S fuel =>
      if decide (hi - lo = 1) then node (chunk_hash (chunk_at chunks lo)) null null (to_int lo)
      else
        let mid := lo + (hi - lo) / 2 in
        let left := build_recursive fuel chunks lo mid in
        let right := build_recursive fuel chunks mid hi in
        node (combine (node_hash left) (node_hash right)) left right (-1)
  end.

Definition build (chunks : list Chunk) : MerkleTree :=
  match chunks with
  | [] => mkTree null 0
  | _ => mkTree (build_recursive (length chunks) chunks 0 (length chunks)) (length chunks)
  end.

Definition empty (t : MerkleTree) : bool := match root_ t with null => true | _ => false end.

(** [root()] dereferences the root pointer. *)
Definition root (t : MerkleTree) : outcome Digest :=
  match root_ t with null => UB | node x _ _ _ => Ok x end.

(** [collect_diffs], with the output vector threaded through. *)
Fixpoint collect_diffs (a b : MerklePtr) (out : list Z) : list Z :=
  match a, b with
  | null, _ | _, null => out
  | node ha la ra ia, node hb lb rb ib =>
      if decide (ha = hb) then out
      else if (0 <=? ia)%Z && (0 <=? ib)%Z then out ++ [ia]
      else if (0 <=? ia)%Z || (0 <=? ib)%Z then out ++ [if (0 <=? ia)%Z then ia else ib]
      else collect_diffs ra rb (collect_diffs la lb out)
  end.

Definition diff_leaf_indices (a b : MerkleTree) : list Z :=
  if empty a || empty b || negb (bool_decide (leaf_count_ a = leaf_count_ b)) then []
  else collect_diffs (root_ a) (root_ b) [].

(** How many pairs of nodes the walk of [collect_diffs] looks at. *)
Fixpoint visits (a b : MerklePtr) : nat :=
  match a, b with
  | null, _ | _, null => 1
  | node ha la ra ia, node hb lb rb ib =>
      if decide (ha = hb) then 1
      else if (0 <=? ia)%Z || (0 <=? ib)%Z then 1
      else S (visits la lb + visits ra rb)
  end.

(** ** The shape of a tree *)

(** [tree_of lo hs t]: [t] is the balanced tree whose leaves carry the hashes
    [hs], numbered from [lo]. *)
Inductive tree_of : nat → list Digest → MerklePtr → Prop :=
| tree_leaf lo x : tree_of lo [x] (node x null null (to_int lo))
| tree_node lo hs1 hs2 l r :
    tree_of lo hs1 l → tree_of (lo + length hs1) hs2 r →
    hs1 ≠ [] → length hs1 = length (hs1 ++ hs2) / 2 →
    tree_of lo (hs1 ++ hs2) (node (combine (node_hash l) (node_hash r)) l r (-1)).

Definition range {A} (lo hi : nat) (l : list A) : list A := take (hi - lo) (drop lo l).

Lemma range_split {A} (l : list A) lo mid hi :
  lo ≤ mid ≤ hi → range lo hi l = range lo mid l ++ range mid hi l.
Proof.
  intros H. unfold range. replace (hi - lo) with ((mid - lo) + (hi - mid)) by lia.
  rewrite <- take_take_drop, drop_drop. do 3 f_equal. lia.
Qed.

Lemma length_range {A} (l : list A) lo hi : hi ≤ length l → length (range lo hi l) = hi - lo.
Proof. intros. unfold range. rewrite length_take, length_drop. lia. Qed.

Lemma half_bounds k : 2 ≤ k → 0 < k / 2 < k.
Proof.
  intros. split; [apply Nat.div_str_pos; lia|apply Nat.div_lt; lia].
Qed.

Lemma build_tree_of fuel chunks lo hi :
  lo < hi → hi ≤ length chunks → hi - lo ≤ fuel →
  tree_of lo (range lo hi (chunk_hash <$> chunks)) (build_recursive fuel chunks lo hi).
Proof.
  revert lo hi. induction fuel as [|fuel IH]; intros lo hi Hlo Hhi Hf; [lia|].
  cbn [build_recursive]. case_decide as H1.
  - destruct (lookup_lt_is_Some_2 chunks lo) as [c Hc]; [lia|].
    unfold range. rewrite H1, <- fmap_drop, (drop_S chunks c lo) by done. csimpl. rewrite take_0.
    unfold chunk_at. rewrite Hc. constructor.
  - set (mid := lo + (hi - lo) / 2). pose proof (half_bounds (hi - lo) ltac:(lia)).
    rewrite (range_split _ lo mid hi) by (unfold mid; lia).
    assert (length (range lo mid (chunk_hash <$> chunks)) = mid - lo) as Hl
      by (apply length_range; rewrite length_fmap; unfold mid; lia).
    constructor.
    + apply IH; unfold mid; lia.
    + rewrite Hl. replace (lo + (mid - lo)) with mid by (unfold mid; lia). apply IH; unfold mid; lia.
    + intros E. rewrite E in Hl. simpl in Hl. unfold mid in Hl. lia.
    + rewrite <- range_split, Hl, length_range by (rewrite ?length_fmap; unfold mid; lia).
      unfold mid. lia.
Qed.

Lemma tree_of_not_nil lo hs t : tree_of lo hs t → hs ≠ [].
Proof. induction 1; [done|]. by intros [??]%app_nil. Qed.

Lemma tree_of_not_null lo hs t : tree_of lo hs t → t ≠ null.
Proof. by inversion 1. Qed.

Lemma to_int_small n : (Z.of_nat n < 2 ^ 31)%Z → to_int n = Z.of_nat n.
Proof. intros. unfold to_int. rewrite Z.mod_small; lia. Qed.

Lemma build_root chunks :
  chunks ≠ [] → tree_of 0 (chunk_hash <$> chunks) (root_ (build chunks)) ∧
    leaf_count_ (build chunks) = length chunks.
Proof.
  intros Hc. unfold build. destruct chunks as [|c cs]; [done|]. split; [|done].
  pose proof (build_tree_of (length (c :: cs)) (c :: cs) 0 (length (c :: cs))) as H.
  unfold range in H. rewrite drop_0, take_ge in H by (rewrite length_fmap; lia).
  apply H; simpl; lia.
Qed.

Lemma tree_of_hash_length lo hs t :
  tree_of lo hs t → Forall (λ d : Digest, length d = 32) hs → length (node_hash t) = 32.
Proof.
  intros [|lo' hs1 hs2 l r _ _ _ _]; [by intros ?%Forall_inv|]. intros _. cbn [node_hash]. apply length_combine.
Qed.

(** Two trees over lists of the same length have the same shape. *)
Lemma tree_of_ind2 (P : nat → list Digest → list Digest → MerklePtr → MerklePtr → Prop) :
  (∀ lo x y, P lo [x] [y] (node x null null (to_int lo)) (node y null null (to_int lo))) →
  (∀ lo hs1 hs2 l r hs1' hs2' l' r',
     length hs1 = length hs1' → length hs2 = length hs2' →
     tree_of lo hs1 l → tree_of lo hs1' l' →
     tree_of (lo + length hs1) hs2 r → tree_of (lo + length hs1) hs2' r' →
     P lo hs1 hs1' l l' → P (lo + length hs1) hs2 hs2' r r' →
     P lo (hs1 ++ hs2) (hs1' ++ hs2')
       (node (combine (node_hash l) (node_hash r)) l r (-1))
       (node (combine (node_hash l') (node_hash r')) l' r' (-1))) →
  ∀ lo hs t hs' t', tree_of lo hs t → tree_of lo hs' t' → length hs = length hs' → P lo hs hs' t t'.
Proof.
  intros Hleaf Hnode lo hs t hs' t' Ht. revert hs' t'.
  assert (∀ (l1 l2 : list Digest), l1 ≠ [] → l2 ≠ [] → 2 ≤ length (l1 ++ l2)) as Hlen.
  { intros [|? l1] [|? l2]; [done..|]. rewrite length_app. simpl. lia. }
  induction Ht as [lo x|lo hs1 hs2 l r Hl IHl Hr IHr Hne Hhalf]; intros hs' t' Ht' Heq.
  - inversion Ht' as [|? hs1' hs2' l' r' H1 H2]; subst; [done|].
    apply tree_of_not_nil in H1, H2. pose proof (Hlen _ _ H1 H2). simpl in *. lia.
  - inversion Ht' as [? y|? hs1' hs2' l' r' Hl' Hr' _ Hhalf']; subst.
    + pose proof (Hlen _ _ (tree_of_not_nil _ _ _ Hl) (tree_of_not_nil _ _ _ Hr)). simpl in *. lia.
    + rewrite Heq in Hhalf. assert (length hs1 = length hs1') as H1 by congruence.
      assert (length hs2 = length hs2') as H2 by (rewrite !length_app in Heq; lia).
      rewrite <- H1 in Hr'. apply Hnode; auto.
Qed.

(** The naive comparison, leaf by leaf. *)
Fixpoint changed (lo : nat) (hs hs' : list Digest) : list Z :=
  match hs, hs' with
  | x :: hs, y :: hs' => (if decide (x = y) then [] else [Z.of_nat lo]) ++ changed (S lo) hs hs'
  | _, _ => []
  end.

Lemma changed_app lo hs1 hs2 hs1' hs2' :
  length hs1 = length hs1' →
  changed lo (hs1 ++ hs2) (hs1' ++ hs2') = changed lo hs1 hs1' ++ changed (lo + length hs1) hs2 hs2'.
Proof.
  revert lo hs1'. induction hs1 as [|x hs1 IH]; intros lo [|y hs1'] [=]; simpl.
  - by rewrite Nat.add_0_r.
  - rewrite IH by done. rewrite <- app_assoc. do 3 f_equal. lia.
Qed.

Lemma changed_refl lo hs : changed lo hs hs = [].
Proof. revert lo. induction hs as [|x hs IH]; intros lo; simpl; [done|]. by rewrite decide_True, IH. Qed.

Lemma elem_of_changed lo hs hs' i :
  length hs = length hs' →
  i ∈ changed lo hs hs' ↔ ∃ k, i = Z.of_nat (lo + k) ∧ k < length hs ∧ hs !! k ≠ hs' !! k.
Proof.
  revert lo hs'. induction hs as [|x hs IH]; intros lo [|y hs'] [=]; simpl.
  { split; [set_solver|]. intros (k & _ & Hk & _). lia. }
  rewrite elem_of_app, IH by done. split.
  - intros [H|(k & -> & Hk & Hne)].
    + case_decide; [set_solver|]. apply list_elem_of_singleton in H as ->.
      exists 0. rewrite Nat.add_0_r. split_and!; [done|lia|]. simpl. congruence.
    + exists (S k). split_and!; [f_equal; lia|lia|done].
  - intros ([|k] & -> & Hk & Hne); simpl in *.
    + left. rewrite decide_False by congruence. rewrite Nat.add_0_r. by apply list_elem_of_singleton.
    + right. exists k. split_and!; [f_equal; lia|lia|done].
Qed.

(** The pairs of hashes combined at the interior nodes. *)
Fixpoint pairs (t : MerklePtr) : list (Digest * Digest) :=
  match t with
  | null | node _ null null _ => []
  | node _ l r _ => (node_hash l, node_hash r) :: pairs l ++ pairs r
  end.

(** No pair of one tree collides with a different pair of the other. *)
Definition collision_free (a b : MerklePtr) : Prop :=
  Forall (λ p, Forall (λ q, combine p.1 p.2 = combine q.1 q.2 → p = q) (pairs b)) (pairs a).

Lemma pairs_node x l r i :
  l ≠ null → pairs (node x l r i) = (node_hash l, node_hash r) :: pairs l ++ pairs r.
Proof. by destruct l. Qed.

Lemma collision_free_alt a b :
  collision_free a b ↔
    ∀ p q, p ∈ pairs a → q ∈ pairs b → combine p.1 p.2 = combine q.1 q.2 → p = q.
Proof.
  unfold collision_free. rewrite Forall_forall. split.
  - intros H p q Hp Hq. specialize (H p Hp). rewrite Forall_forall in H. by apply H.
  - intros H p Hp. apply Forall_forall. intros q Hq. by apply H.
Qed.

Lemma collision_free_node x l r i y l' r' j :
  l ≠ null → l' ≠ null → collision_free (node x l r i) (node y l' r' j) →
  (combine (node_hash l) (node_hash r) = combine (node_hash l') (node_hash r') →
     node_hash l = node_hash l' ∧ node_hash r = node_hash r') ∧
  collision_free l l' ∧ collision_free r r'.
Proof.
  intros Hl Hl'. rewrite !collision_free_alt, !pairs_node by done. intros H. split_and!.
  - intros Hc.
    specialize (H (node_hash l, node_hash r) (node_hash l', node_hash r')
      (list_elem_of_here _ _) (list_elem_of_here _ _) Hc). by injection H.
  - intros p q Hp Hq. apply H; apply elem_of_cons; right; apply elem_of_app; by left.
  - intros p q Hp Hq. apply H; apply elem_of_cons; right; apply elem_of_app; by right.
Qed.

(** Equal hashes, then equal leaves. *)
Lemma same_hash_same_leaves lo hs t hs' t' :
  tree_of lo hs t → tree_of lo hs' t' → length hs = length hs' →
  collision_free t t' → node_hash t = node_hash t' → hs = hs'.
Proof.
  intros Ht Ht' Hlen. revert lo hs t hs' t' Ht Ht' Hlen.
  apply (tree_of_ind2 (λ lo hs hs' t t', collision_free t t' → node_hash t = node_hash t' → hs = hs')).
  - by intros lo x y _ [= ->].
  - intros * Hl1 Hl2 Hl Hl' Hr Hr' IH1 IH2 Hcf Heq.
    apply collision_free_node in Hcf as (Hc & Hcf1 & Hcf2);
      [|by eapply tree_of_not_null|by eapply tree_of_not_null].
    destruct (Hc Heq) as [H1 H2]. by rewrite (IH1 Hcf1 H1), (IH2 Hcf2 H2).
Qed.

Lemma collect_diffs_changed lo hs t hs' t' out :
  tree_of lo hs t → tree_of lo hs' t' → length hs = length hs' →
  (Z.of_nat (lo + length hs) ≤ 2 ^ 31)%Z → collision_free t t' →
  collect_diffs t t' out = out ++ changed lo hs hs'.
Proof.
  intros Ht Ht' Hlen. revert lo hs t hs' t' Ht Ht' Hlen out.
  apply (tree_of_ind2 (λ lo hs hs' t t', ∀ out,
    (Z.of_nat (lo + length hs) ≤ 2 ^ 31)%Z → collision_free t t' →
    collect_diffs t t' out = out ++ changed lo hs hs')).
  - intros lo x y out Hb _. simpl in *. rewrite to_int_small by lia.
    case_decide; [by rewrite app_nil_r|]. by rewrite (proj2 (Z.leb_le _ _)) by lia.
  - intros * Hl1 Hl2 Hl Hl' Hr Hr' IH1 IH2 out Hb Hcf. rewrite length_app in Hb.
    apply collision_free_node in Hcf as (Hc & Hcf1 & Hcf2);
      [|by eapply tree_of_not_null|by eapply tree_of_not_null].
    rewrite changed_app by done. cbn [collect_diffs]. case_decide as Heq.
    + destruct (Hc Heq) as [H1 H2].
      rewrite <- (same_hash_same_leaves _ _ _ _ _ Hl Hl' Hl1 Hcf1 H1).
      rewrite <- (same_hash_same_leaves _ _ _ _ _ Hr Hr' Hl2 Hcf2 H2).
      by rewrite !changed_refl, app_nil_r.
    + rewrite IH1, IH2 by (exact Hcf1 || exact Hcf2 || lia). symmetry. apply app_assoc.
Qed.

(** Without any assumption on the hash, what is reported did change. *)
Lemma collect_diffs_sound lo hs t hs' t' out :
  tree_of lo hs t → tree_of lo hs' t' → length hs = length hs' →
  (Z.of_nat (lo + length hs) ≤ 2 ^ 31)%Z →
  ∃ l, collect_diffs t t' out = out ++ l ∧ ∀ i, i ∈ l → i ∈ changed lo hs hs'.
Proof.
  intros Ht Ht' Hlen. revert lo hs t hs' t' Ht Ht' Hlen out.
  apply (tree_of_ind2 (λ lo hs hs' t t', ∀ out,
    (Z.of_nat (lo + length hs) ≤ 2 ^ 31)%Z →
    ∃ l, collect_diffs t t' out = out ++ l ∧ ∀ i, i ∈ l → i ∈ changed lo hs hs')).
  - intros lo x y out Hb. simpl in *. rewrite to_int_small by lia. case_decide.
    + exists []. split; [symmetry; apply app_nil_r|]. intros i []%not_elem_of_nil.
    + rewrite (proj2 (Z.leb_le _ _)) by lia. by exists [Z.of_nat lo].
  - intros * Hl1 Hl2 Hl Hl' Hr Hr' IH1 IH2 out Hb. rewrite length_app in Hb.
    rewrite changed_app by done. cbn [collect_diffs]. case_decide as Heq.
    + exists []. split; [symmetry; apply app_nil_r|]. intros i []%not_elem_of_nil.
    + change (0 <=? -1)%Z with false. cbn [andb orb].
      destruct (IH1 out ltac:(lia)) as (l1 & -> & H1).
      destruct (IH2 (out ++ l1) ltac:(lia)) as (l2 & -> & H2).
      exists (l1 ++ l2). split; [symmetry; apply app_assoc|].
      intros i. rewrite !elem_of_app. intros [?|?]; auto.
Qed.

(** The walk finds a difference whenever the hashes differ, and looks at no more
    than two nodes per level and difference. *)
Fixpoint height (t : MerklePtr) : nat :=
  match t with
  | null | node _ null null _ => 0
  | node _ l r _ => S (height l `max` height r)
  end.

Lemma height_node x l r i : l ≠ null → height (node x l r i) = S (height l `max` height r).
Proof. by destruct l. Qed.

Lemma length_collect lo hs t hs' t' out :
  tree_of lo hs t → tree_of lo hs' t' → length hs = length hs' →
  (Z.of_nat (lo + length hs) ≤ 2 ^ 31)%Z →
  ∃ d, length (collect_diffs t t' out) = length out + d ∧
    (node_hash t ≠ node_hash t' → 0 < d) ∧ visits t t' ≤ 1 + 2 * height t * d.
Proof.
  intros Ht Ht' Hlen. revert lo hs t hs' t' Ht Ht' Hlen out.
  apply (tree_of_ind2 (λ lo hs hs' t t', ∀ out,
    (Z.of_nat (lo + length hs) ≤ 2 ^ 31)%Z →
    ∃ d, length (collect_diffs t t' out) = length out + d ∧
    (node_hash t ≠ node_hash t' → 0 < d) ∧ visits t t' ≤ 1 + 2 * height t * d)).
  - intros lo x y out Hb. simpl in *. rewrite to_int_small by lia. case_decide.
    + exists 0. split_and!; [lia|done|lia].
    + rewrite (proj2 (Z.leb_le _ _)) by lia. cbn [andb orb].
      exists 1. rewrite length_app. cbn [length]. split_and!; lia.
  - intros * Hl1 Hl2 Hl Hl' Hr Hr' IH1 IH2 out Hb. rewrite length_app in Hb.
    rewrite height_node by (by eapply tree_of_not_null).
    cbn [collect_diffs visits node_hash]. case_decide as Heq.
    + exists 0. split_and!; [lia|done|lia].
    + change (0 <=? -1)%Z with false. cbn [andb orb].
      destruct (IH1 out ltac:(lia)) as (d1 & Hd1 & Hp1 & Hv1).
      destruct (IH2 (collect_diffs l l' out) ltac:(lia)) as (d2 & Hd2 & Hp2 & Hv2).
      assert (0 < d1 + d2).
      { destruct (decide (node_hash l = node_hash l')) as [E1|E1]; [|specialize (Hp1 E1); lia].
        destruct (decide (node_hash r = node_hash r')) as [E2|E2]; [|specialize (Hp2 E2); lia].
        rewrite E1, E2 in Heq. contradiction. }
      exists (d1 + d2). split_and!; [lia|done|]. nia.
Qed.

Lemma height_bound lo hs t k : tree_of lo hs t → length hs ≤ 2 ^ k → height t ≤ k.
Proof.
  intros Ht. revert k. induction Ht as [|lo hs1 hs2 l r Hl IHl Hr IHr Hne Hhalf]; intros k Hk; [simpl; lia|].
  rewrite height_node by (by eapply tree_of_not_null).
  pose proof (tree_of_not_nil _ _ _ Hr) as Hne2. rewrite length_app in Hk, Hhalf.
  assert (0 < length hs1) by (destruct hs1; [done|simpl; lia]).
  assert (0 < length hs2) by (destruct hs2; [done|simpl; lia]).
  destruct k as [|k]; [simpl in Hk; lia|]. rewrite Nat.pow_succ_r' in Hk.
  pose proof (Nat.div_mod_eq (length hs1 + length hs2) 2).
  pose proof (Nat.mod_upper_bound (length hs1 + length hs2) 2).
  specialize (IHl k ltac:(lia)). specialize (IHr k ltac:(lia)). lia.
Qed.

(** The leaves of a tree, left to right. *)
Fixpoint leaves (t : MerklePtr) : list (Z * Digest) :=
  match t with
  | null => []
  | node x null null i => [(i, x)]
  | node _ l r _ => leaves l ++ leaves r
  end.

Lemma leaves_tree_of lo hs t :
  tree_of lo hs t → leaves t = imap (λ i x, (to_int (lo + i), x)) hs.
Proof.
  induction 1 as [lo x|lo hs1 hs2 l r Hl IHl Hr IHr Hne Hhalf].
  - simpl. by rewrite Nat.add_0_r.
  - assert (∀ x i, leaves (node x l r i) = leaves l ++ leaves r) as -> by (by inversion Hl).
    rewrite IHl, IHr, imap_app. f_equal. apply imap_ext. intros i x _. simpl.
    by rewrite Nat.add_assoc.
Qed.

Lemma diff_build chunks chunks' :
  chunks ≠ [] → length chunks = length chunks' →
  diff_leaf_indices (build chunks) (build chunks') =
    collect_diffs (root_ (build chunks)) (root_ (build chunks')) [].
Proof.
  intros Hne Hlen. assert (chunks' ≠ []) as Hne' by (by destruct chunks, chunks').
  destruct (build_root chunks Hne) as [H1 L1], (build_root chunks' Hne') as [H2 L2].
  unfold diff_leaf_indices, empty. rewrite L1, L2, Hlen, bool_decide_eq_true_2 by done.
  apply tree_of_not_null in H1, H2.
  by destruct (root_ (build chunks)), (root_ (build chunks')).
Qed.

Lemma build_height chunks :
  chunks ≠ [] → height (root_ (build chunks)) ≤ Nat.log2_up (length chunks).
Proof.
  intros Hne. destruct (build_root chunks Hne) as [Ht _].
  apply (height_bound _ _ _ _ Ht). rewrite length_fmap. apply Nat.log2_log2_up_spec.
  destruct chunks; [done|simpl; lia].
Qed.

(** ** Properties *)

(** C16: [MerkleTree::diff_leaf_indices] is exact: for two chunk lists of the same
    length (up to [INT_MAX] chunks) whose trees contain no hash collision, it
    returns in increasing order the indices of the chunks that a leaf-by-leaf
    comparison finds changed; for lists of different lengths it returns none. *)
Theorem diff_leaf_indices_exact chunks chunks' :
  (Z.of_nat (length chunks) ≤ 2 ^ 31)%Z →
  collision_free (root_ (build chunks)) (root_ (build chunks')) →
  diff_leaf_indices (build chunks) (build chunks') =
    if decide (length chunks = length chunks')
    then changed 0 (chunk_hash <$> chunks) (chunk_hash <$> chunks') else [].
Proof.
  intros Hb Hcf. case_decide as Hlen.
  - destruct (decide (chunks = [])) as [->|Hne]; [by destruct chunks'|].
    assert (chunks' ≠ []) as Hne' by (by destruct chunks, chunks').
    rewrite diff_build by done. destruct (build_root chunks Hne), (build_root chunks' Hne').
    by rewrite (collect_diffs_changed 0 (chunk_hash <$> chunks) _ (chunk_hash <$> chunks'))
      by (rewrite ?length_fmap; assumption).
  - unfold diff_leaf_indices. rewrite bool_decide_eq_false_2; [by rewrite orb_true_r|].
    by destruct chunks, chunks'.
Qed.

(** Soundness without any assumption on the hash function: every index
    [diff_leaf_indices] reports is the index of a chunk whose hash changed. *)
Theorem diff_leaf_indices_sound chunks chunks' i :
  (Z.of_nat (length chunks) ≤ 2 ^ 31)%Z →
  i ∈ diff_leaf_indices (build chunks) (build chunks') →
  ∃ k, i = Z.of_nat k ∧ k < length chunks ∧
    (chunk_hash <$> chunks !! k) ≠ (chunk_hash <$> chunks' !! k).
Proof.
  intros Hb Hi. destruct (decide (chunks = [] ∨ length chunks ≠ length chunks')) as [Hbad|Hok].
  { exfalso. unfold diff_leaf_indices in Hi. destruct Hbad as [->|Hlen]; [simpl in Hi; set_solver|].
    rewrite bool_decide_eq_false_2 in Hi; [rewrite orb_true_r in Hi; set_solver|].
    by destruct chunks, chunks'. }
  assert (chunks ≠ [] ∧ length chunks = length chunks') as [Hne Hlen] by naive_solver lia.
  assert (chunks' ≠ []) as Hne' by (by destruct chunks, chunks').
  rewrite diff_build in Hi by done.
  destruct (build_root chunks Hne) as [H1 _], (build_root chunks' Hne') as [H2 _].
  destruct (collect_diffs_sound _ _ _ _ _ [] H1 H2) as (l & Hl & Hsub);
    [by rewrite !length_fmap|by rewrite length_fmap|].
  rewrite Hl in Hi. apply Hsub in Hi.
  apply elem_of_changed in Hi as (k & -> & Hk & Hne2); [|by rewrite !length_fmap].
  rewrite length_fmap in Hk. rewrite !list_lookup_fmap in Hne2. by exists k.
Qed.

(** The first chunks of [test_merkle.cpp], before and after its edit. *)
Definition sample (names : list string) : list Chunk :=
  map (λ s, mkChunk 0 (str s) (hash (str s))) names.
Definition sample_a : list Chunk := sample ["alpha"; "bravo"; "charlie"]%string.
Definition sample_c : list Chunk := sample ["alpha"; "bravo"; "CHARLIE-EDITED"]%string.

Lemma diff_leaf_indices_exact_witness :
  diff_leaf_indices (build sample_a) (build sample_c) =
    changed 0 (chunk_hash <$> sample_a) (chunk_hash <$> sample_c).
Proof.
  apply (diff_leaf_indices_exact sample_a sample_c); [vm_compute; discriminate|].
  unfold collision_free. by_decide.
Defined.

Lemma diff_leaf_indices_sound_witness :
  ∃ k, 2%Z = Z.of_nat k ∧ k < length sample_a ∧
    (chunk_hash <$> sample_a !! k) ≠ (chunk_hash <$> sample_c !! k).
Proof.
  apply (diff_leaf_indices_sound sample_a sample_c 2%Z); [vm_compute; discriminate|by_decide].
Defined.

(** Equal Merkle roots mean equal chunk hashes: for non-empty chunk lists of
    the same length with no collision between their trees, [root()] succeeds on
    both and the two roots are equal exactly when every chunk hash is. *)
Theorem equal_roots_equal_chunks chunks chunks' :
  chunks ≠ [] → length chunks = length chunks' →
  collision_free (root_ (build chunks)) (root_ (build chunks')) →
  ∃ r r', root (build chunks) = Ok r ∧ root (build chunks') = Ok r' ∧
    (r = r' ↔ chunk_hash <$> chunks = chunk_hash <$> chunks').
Proof.
  intros Hne Hlen Hcf. assert (chunks' ≠ []) as Hne' by (by destruct chunks, chunks').
  destruct (build_root chunks Hne) as [H1 _], (build_root chunks' Hne') as [H2 _].
  exists (node_hash (root_ (build chunks))), (node_hash (root_ (build chunks'))).
  split_and!.
  - apply tree_of_not_null in H1. unfold root. by destruct (root_ (build chunks)).
  - apply tree_of_not_null in H2. unfold root. by destruct (root_ (build chunks')).
  - split.
    + by apply (same_hash_same_leaves _ _ _ _ _ H1 H2); rewrite ?length_fmap.
    + intros E. rewrite E in H1. revert H1 H2.
      generalize (root_ (build chunks)) (root_ (build chunks')).
      intros t t' Ht Ht'. clear -Ht Ht'.
      refine (tree_of_ind2 (λ _ hs hs' t t', hs = hs' → node_hash t = node_hash t') _ _
        _ _ _ _ _ Ht Ht' eq_refl eq_refl).
      * intros lo x y Hxy. by injection Hxy.
      * intros * Hl _ _ _ _ _ IH1 IH2 [E1 E2]%app_inj_1; [|done]. simpl. by rewrite IH1, IH2.
Qed.

Lemma equal_roots_equal_chunks_witness :
  ∃ r r', root (build sample_a) = Ok r ∧ root (build sample_c) = Ok r' ∧
    (r = r' ↔ chunk_hash <$> sample_a = chunk_hash <$> sample_c).
Proof.
  apply (equal_roots_equal_chunks sample_a sample_c); [discriminate|reflexivity|].
  unfold collision_free. by_decide.
Defined.

(** [MerkleTree::build] puts the chunks at the leaves in file order, numbers
    them from 0, and is balanced: the tree over [n] chunks is no higher than the
    binary logarithm of [n], rounded up. *)
Theorem build_leaves_in_order chunks :
  chunks ≠ [] →
  leaves (root_ (build chunks)) = imap (λ i c, (to_int i, chunk_hash c)) chunks ∧
  leaf_count_ (build chunks) = length chunks ∧
  height (root_ (build chunks)) ≤ Nat.log2_up (length chunks).
Proof.
  intros Hne. destruct (build_root chunks Hne) as [Ht Hc]. split_and!; [|done|by apply build_height].
  rewrite (leaves_tree_of _ _ _ Ht), imap_fmap. apply imap_ext. by intros i c _.
Qed.

Lemma build_leaves_in_order_witness :
  height (root_ (build sample_a)) ≤ Nat.log2_up 3.
Proof. apply (build_leaves_in_order sample_a). discriminate. Defined.

(** C38: The comparison costs what the design claims: it looks at no more than
    [1 + 2 * ceil(log2 n) * d] pairs of nodes, where [d] is the number of changed
    chunks it reports; comparing equal trees looks at one pair. *)
Theorem diff_cost chunks chunks' :
  chunks ≠ [] → length chunks = length chunks' → (Z.of_nat (length chunks) ≤ 2 ^ 31)%Z →
  visits (root_ (build chunks)) (root_ (build chunks')) ≤
    1 + 2 * Nat.log2_up (length chunks) * length (diff_leaf_indices (build chunks) (build chunks')).
Proof.
  intros Hne Hlen Hb. rewrite diff_build by done.
  assert (chunks' ≠ []) as Hne' by (by destruct chunks, chunks').
  pose proof (build_height chunks Hne) as Hh.
  destruct (build_root chunks Hne) as [H1 _], (build_root chunks' Hne') as [H2 _].
  destruct (length_collect _ _ _ _ _ [] H1 H2) as (d & -> & _ & Hv);
    [by rewrite !length_fmap|by rewrite length_fmap|].
  simpl (length []). nia.
Qed.

Lemma diff_cost_witness :
  visits (root_ (build sample_a)) (root_ (build sample_c)) ≤ 1 + 2 * Nat.log2_up 3 * 1.
Proof.
  assert (length (diff_leaf_indices (build sample_a) (build sample_c)) = 1) as H
    by (vm_compute; reflexivity).
  pose proof (diff_cost sample_a sample_c) as Hc. rewrite H in Hc.
  apply Hc; [discriminate|reflexivity|vm_compute; discriminate].
Defined.
