(* ===== verification/FileEntry.v ===== *)
(** * FileEntry: the metadata of one version of one file ([file_entry.hpp]) *)
From S2P Require Import Prelude Text VectorClock Sha256.

Record FileEntry := mkEntry {
  path : bytes;
  chunk_hashes : list Digest;
  merkle_root : Digest;
  clock : VectorClock;
  last_writer : bytes;
  deleted : bool;
  size : N;
}.
#[export] Instance FileEntry_eq_dec : EqDecision FileEntry.
Proof. solve_decision. Defined.

(** [sha256::Digest{}]: 32 zero bytes. *)
Definition zero_digest : Digest := replicate 32 (byte_of 0).

(** [FileEntry entry;] with the default member initialisers. *)
Definition default_entry : FileEntry := mkEntry [] [] zero_digest empty_clock [] false 0.

Definition has_content (e : FileEntry) : bool :=
  negb (deleted e) && negb (bool_decide (chunk_hashes e = [])).

(** [e.path = p;] *)
Definition with_path (p : bytes) (e : FileEntry) : FileEntry :=
  mkEntry p (chunk_hashes e) (merkle_root e) (clock e) (last_writer e) (deleted e) (size e).
(** [e.clock.merge(c);] *)
Definition with_merged_clock (c : VectorClock) (e : FileEntry) : FileEntry :=
  mkEntry (path e) (chunk_hashes e) (merkle_root e) (merge (clock e) c)
    (last_writer e) (deleted e) (size e).

(** The widths of the C++ members: 32-byte digests, 64-bit counters and size. *)
Record wf_entry (e : FileEntry) : Prop := {
  wf_hashes : Forall (λ d : Digest, length d = 32) (chunk_hashes e);
  wf_root : length (merkle_root e) = 32;
  wf_entry_clock : wf_clock (clock e);
  wf_size : (size e < 2 ^ 64)%N;
}.

Lemma wf_default_entry : wf_entry default_entry.
Proof. split; simpl; [constructor|done|apply wf_empty_clock|done]. Qed.
Lemma wf_with_path p e : wf_entry e → wf_entry (with_path p e).
Proof. by intros [????]. Qed.
Lemma wf_with_merged_clock c e : wf_clock c → wf_entry e → wf_entry (with_merged_clock c e).
Proof. intros ? [????]. split; simpl; auto with sync. Qed.
#[export] Hint Resolve wf_default_entry wf_with_path wf_with_merged_clock wf_entry_clock : sync.
