(* ===== verification/CrdtStore.v ===== *)
(** * CrdtStore: the replicated map from path to file version
    ([crdt_store.hpp], [crdt_store.cpp])

    The operations are those of the class, on a record of its two members.  A
    reference into the map ([FileEntry& local]) is modelled by reading and
    writing the map at its key at the point where the code does. *)
From S2P Require Import Prelude Text VectorClock Sha256 FileEntry.

Inductive MergeOutcome := APPLIED_REMOTE | KEPT_LOCAL | NO_CHANGE | CONFLICT_FORKED.
#[export] Instance MergeOutcome_eq_dec : EqDecision MergeOutcome.
Proof. solve_decision. Defined.

Record MergeResult := mkResult { outcome_ : MergeOutcome; result_path : bytes; conflict_path : bytes }.

Record CrdtStore := mkStore { node_id_ : bytes; entries_ : gmap bytes FileEntry }.

(** [explicit CrdtStore(std::string node_id)] *)
Definition new_store (node_id : bytes) : CrdtStore := mkStore node_id ∅.

(** [entries_[p] = e;] *)
Definition assign (s : CrdtStore) (p : bytes) (e : FileEntry) : CrdtStore :=
  mkStore (node_id_ s) (<[p := e]> (entries_ s)).

Definition put_local (s : CrdtStore) (p : bytes) (hashes : list Digest) (root : Digest) (sz : N)
    : CrdtStore :=
  let c := match entries_ s !! p with Some e => clock e | None => empty_clock end in
  assign s p (mkEntry p hashes root (increment c (node_id_ s)) (node_id_ s) false sz).

Definition delete_local (s : CrdtStore) (p : bytes) : CrdtStore :=
  let e := match entries_ s !! p with Some e => e | None => default_entry end in
  assign s p (mkEntry p [] (merkle_root e) (increment (clock e) (node_id_ s)) (node_id_ s) true (size e)).

Definition make_conflict_path (p other_node : bytes) : bytes :=
  match find_last_of "."%char p with
  | None => p ++ str ".conflict-" ++ other_node
  | Some dot => substr_to dot p ++ str ".conflict-" ++ other_node ++ substr_from dot p
  end.

Definition merge_remote (s : CrdtStore) (remote : FileEntry) : MergeResult * CrdtStore :=
  match entries_ s !! path remote with
  | None => (mkResult APPLIED_REMOTE (path remote) [], assign s (path remote) remote)
  | Some local =>
      match compare (clock local) (clock remote) with
      | EQUAL => (mkResult NO_CHANGE (path remote) [], s)
      | BEFORE => (mkResult APPLIED_REMOTE (path remote) [], assign s (path remote) remote)
      | AFTER => (mkResult KEPT_LOCAL (path remote) [], s)
      | CONCURRENT =>
          let cp := make_conflict_path (path remote) (last_writer remote) in
          let s1 := assign s cp (with_path cp remote) in
          (* [local] refers to the entry at the remote's path, after the fork
             has been stored. *)
          let s2 := mkStore (node_id_ s1)
            (alter (with_merged_clock (clock remote)) (path remote) (entries_ s1)) in
          (mkResult CONFLICT_FORKED (path remote) cp, s2)
      end
  end.

Definition load_entry (s : CrdtStore) (e : FileEntry) : CrdtStore := assign s (path e) e.

Definition get_entry (s : CrdtStore) (p : bytes) : option FileEntry := entries_ s !! p.

Definition all_entries (s : CrdtStore) : list FileEntry := (map_listing (entries_ s)).*2.

(** Merging a list of remote entries, in order, keeping only the store. *)
Definition merge_all (s : CrdtStore) (l : list FileEntry) : CrdtStore :=
  foldl (λ s e, (merge_remote s e).2) s l.

(** ** The name of a conflict copy *)

Lemma make_conflict_path_length p n :
  length (make_conflict_path p n) = length p + 10 + length n.
Proof.
  unfold make_conflict_path, substr_to, substr_from.
  destruct (find_last_of _ p) as [i|] eqn:E; rewrite !length_app; simpl; [|lia].
  apply find_last_of_Some in E as [E _]. apply lookup_lt_Some in E.
  rewrite length_take, length_drop. lia.
Qed.

Lemma make_conflict_path_ne p n : make_conflict_path p n ≠ p.
Proof. intros E. apply (f_equal length) in E. rewrite make_conflict_path_length in E. lia. Qed.
#[export] Hint Resolve make_conflict_path_ne : sync.

Lemma make_conflict_path_inj p : Inj (=) (=) (make_conflict_path p).
Proof.
  intros n n'. unfold make_conflict_path. destruct (find_last_of _ p); intros E.
  - apply app_inv_head, (app_inv_head (str ".conflict-")), app_inv_tail in E. done.
  - by apply app_inv_head, (app_inv_head (str ".conflict-")) in E.
Qed.

(** ** What [merge_remote] does, branch by branch *)

Section merge_remote.
Implicit Types (s : CrdtStore) (r e : FileEntry) (p : bytes).

Definition conflict_of r : bytes := make_conflict_path (path r) (last_writer r).

Lemma merge_remote_new s r :
  entries_ s !! path r = None →
  merge_remote s r = (mkResult APPLIED_REMOTE (path r) [], assign s (path r) r).
Proof. intros H. unfold merge_remote. by rewrite H. Qed.

(** One constructor per branch of the switch; the store is written out. *)
Inductive merge_case s r : MergeResult → CrdtStore → Prop :=
| case_new : entries_ s !! path r = None →
    merge_case s r (mkResult APPLIED_REMOTE (path r) []) (assign s (path r) r)
| case_equal e : entries_ s !! path r = Some e → clock e ⊑ clock r → clock r ⊑ clock e →
    merge_case s r (mkResult NO_CHANGE (path r) []) s
| case_before e : entries_ s !! path r = Some e → clock e ⊑ clock r → ¬ clock r ⊑ clock e →
    merge_case s r (mkResult APPLIED_REMOTE (path r) []) (assign s (path r) r)
| case_after e : entries_ s !! path r = Some e → ¬ clock e ⊑ clock r → clock r ⊑ clock e →
    merge_case s r (mkResult KEPT_LOCAL (path r) []) s
| case_concurrent e : entries_ s !! path r = Some e →
    ¬ clock e ⊑ clock r → ¬ clock r ⊑ clock e →
    merge_case s r (mkResult CONFLICT_FORKED (path r) (conflict_of r))
      (mkStore (node_id_ s)
        (<[path r := with_merged_clock (clock r) e]>
          (<[conflict_of r := with_path (conflict_of r) r]> (entries_ s)))).

Lemma merge_remote_case s r : merge_case s r (merge_remote s r).1 (merge_remote s r).2.
Proof.
  unfold merge_remote. destruct (entries_ s !! path r) as [e|] eqn:He; [|by constructor].
  destruct (compare_spec (clock e) (clock r)); simpl; try by econstructor.
  fold (conflict_of r).
  assert (alter (with_merged_clock (clock r)) (path r)
      (<[conflict_of r := with_path (conflict_of r) r]> (entries_ s)) =
    <[path r := with_merged_clock (clock r) e]>
      (<[conflict_of r := with_path (conflict_of r) r]> (entries_ s))) as ->.
  { apply alter_present. rewrite lookup_insert_ne; [done|]. apply make_conflict_path_ne. }
  by econstructor.
Qed.
End merge_remote.

(** ** Clocks only grow *)

Definition clock_at (s : CrdtStore) (p : bytes) : VectorClock :=
  match entries_ s !! p with Some e => clock e | None => empty_clock end.

Lemma empty_clock_le c : empty_clock ⊑ c.
Proof. intros n. unfold empty_clock, get at 1. simpl. rewrite lookup_empty. lia. Qed.

Lemma clock_at_assign s p e q : clock_at (assign s p e) q = if decide (p = q) then clock e else clock_at s q.
Proof. unfold clock_at, assign; simpl. rewrite lookup_insert. by case_decide. Qed.

Section merge_lemmas.
Implicit Types (s : CrdtStore) (r e : FileEntry) (p : bytes) (l : list FileEntry).

Lemma merge_remote_other s r p :
  p ≠ path r → p ≠ conflict_of r → entries_ (merge_remote s r).2 !! p = entries_ s !! p.
Proof.
  intros H1 H2. destruct (merge_remote_case s r); simpl; rewrite ?lookup_insert_ne by done; done.
Qed.

Lemma merge_remote_node_id s r : node_id_ (merge_remote s r).2 = node_id_ s.
Proof. by destruct (merge_remote_case s r). Qed.

(** At the merged path the new clock is the join of the two. *)
Lemma merge_remote_clock s r :
  clock_at (merge_remote s r).2 (path r) ≡ merge (clock_at s (path r)) (clock r).
Proof.
  destruct (merge_remote_case s r) as [Hs|e He H1 H2|e He H1 H2|e He H1 H2|e He H1 H2];
    rewrite ?clock_at_assign, ?decide_True by done; unfold clock_at; rewrite ?Hs, ?He;
    apply vc_equiv_le; simpl.
  - split; [apply merge_r|]. apply merge_lub. split; [apply empty_clock_le|done].
  - split; [apply merge_l|]. by apply merge_lub.
  - split; [apply merge_r|]. by apply merge_lub.
  - split; [apply merge_l|]. by apply merge_lub.
  - rewrite lookup_insert, decide_True by done. done.
Qed.

Lemma merge_remote_clock_lub s r p x :
  p ≠ conflict_of r →
  clock_at (merge_remote s r).2 p ⊑ x ↔ clock_at s p ⊑ x ∧ (path r = p → clock r ⊑ x).
Proof.
  intros Hp. destruct (decide (path r = p)) as [<-|Hne].
  - rewrite merge_remote_clock, merge_lub. naive_solver.
  - unfold clock_at. rewrite merge_remote_other by done. naive_solver.
Qed.

(** Merging a list leaves, at every path that is not the name of a conflict
    copy, the least clock above the old one and the merged ones. *)
Lemma merge_all_clock_lub s l p x :
  Forall (λ r, p ≠ conflict_of r) l →
  clock_at (merge_all s l) p ⊑ x ↔
    clock_at s p ⊑ x ∧ ∀ r, r ∈ l → path r = p → clock r ⊑ x.
Proof.
  intros Hl. unfold merge_all. revert s.
  induction Hl as [|r l Hr _ IH]; intros s; cbn [foldl].
  - split; [|by intros [? _]]. intros H. split; [done|]. by intros r ?%not_elem_of_nil.
  - rewrite IH, merge_remote_clock_lub by done. setoid_rewrite elem_of_cons. naive_solver.
Qed.

Lemma clock_le_antisym_lub (c c' : VectorClock) : (∀ x, c ⊑ x ↔ c' ⊑ x) → c ≡ c'.
Proof. intros H. apply vc_equiv_le. split; [by apply H|by apply H]. Qed.
End merge_lemmas.

(** ** The invariant of a store *)

(** Every entry is stored under its own path, and its members have the widths of
    the C++ types. *)
Definition store_inv (s : CrdtStore) : Prop :=
  map_Forall (λ p e, path e = p ∧ wf_entry e) (entries_ s).

Lemma store_inv_assign s p e : store_inv s → path e = p → wf_entry e → store_inv (assign s p e).
Proof. intros. by apply map_Forall_insert_2. Qed.

Lemma store_inv_lookup s p e : store_inv s → entries_ s !! p = Some e → path e = p ∧ wf_entry e.
Proof. intros Hs. apply Hs. Qed.

Lemma store_inv_new n : store_inv (new_store n).
Proof. apply map_Forall_empty. Qed.

Lemma wf_clock_at s p : store_inv s → wf_clock (clock_at s p).
Proof.
  intros Hs. unfold clock_at. destruct (entries_ s !! p) eqn:E; [|apply wf_empty_clock].
  apply (Hs _ _ E).
Qed.

Lemma store_inv_put s p hashes root sz :
  store_inv s → Forall (λ d : Digest, length d = 32) hashes → length root = 32 → (sz < 2 ^ 64)%N →
  store_inv (put_local s p hashes root sz).
Proof.
  intros Hs Hh Hr Hsz. apply store_inv_assign; [done|done|]. split; simpl; [done|done| |done].
  fold (clock_at s p). by apply wf_increment, wf_clock_at.
Qed.

Lemma store_inv_delete s p : store_inv s → store_inv (delete_local s p).
Proof.
  intros Hs. apply store_inv_assign; [done|done|].
  assert (wf_entry (match entries_ s !! p with Some e => e | None => default_entry end)) as [????].
  { destruct (entries_ s !! p) eqn:E; [by apply (Hs _ _ E)|apply wf_default_entry]. }
  split; simpl; auto with sync.
Qed.

Lemma store_inv_merge s r : store_inv s → wf_entry r → store_inv (merge_remote s r).2.
Proof.
  intros Hs Hr. destruct (merge_remote_case s r) as [|e He|e He|e He|e He]; try done.
  1, 2: by apply store_inv_assign.
  apply (store_inv_lookup _ _ _ Hs) in He as [Hp He].
  apply map_Forall_insert_2; [split; [done|]|apply map_Forall_insert_2; [split; [done|]|done]];
    auto with sync.
Qed.

Lemma store_inv_load s e : store_inv s → wf_entry e → store_inv (load_entry s e).
Proof. intros. by apply store_inv_assign. Qed.
#[export] Hint Resolve store_inv_new store_inv_put store_inv_delete store_inv_merge store_inv_load : sync.

(** The mutations of a store, as a step relation. *)
Inductive store_step : CrdtStore → CrdtStore → Prop :=
| step_put s p hashes root sz :
    Forall (λ d : Digest, length d = 32) hashes → length root = 32 → (sz < 2 ^ 64)%N →
    store_step s (put_local s p hashes root sz)
| step_delete s p : store_step s (delete_local s p)
| step_merge s r : wf_entry r → store_step s (merge_remote s r).2
| step_load s e : wf_entry e → store_step s (load_entry s e).

(** ** Reading the store *)

Lemma elem_of_all_entries s e : e ∈ all_entries s ↔ ∃ p, entries_ s !! p = Some e.
Proof.
  unfold all_entries. rewrite list_elem_of_fmap. split.
  - intros ([p e'] & -> & H%elem_of_map_listing). by exists p.
  - intros [p H]. exists (p, e). by rewrite elem_of_map_listing.
Qed.

Lemma elem_of_all_entries_inv s e :
  store_inv s → e ∈ all_entries s ↔ entries_ s !! path e = Some e.
Proof.
  intros Hs. rewrite elem_of_all_entries. split; [|eauto].
  intros [p H]. destruct (store_inv_lookup _ _ _ Hs H) as [<- _]. done.
Qed.

Lemma all_entries_paths s : store_inv s → path <$> all_entries s = (map_listing (entries_ s)).*1.
Proof.
  intros Hs. unfold all_entries. rewrite <- list_fmap_compose. apply list_fmap_ext.
  intros i [p e] Hi%list_elem_of_lookup_2%elem_of_map_listing. by apply (Hs _ _ Hi).
Qed.

(** ** Causally ordered versions *)

(** Any two versions of the same path are ordered, and a clock names one version. *)
Definition causally_ordered (l : list FileEntry) : Prop :=
  Forall (λ v, Forall (λ w, path v = path w →
    compare (clock v) (clock w) ≠ CONCURRENT ∧
    (compare (clock v) (clock w) = EQUAL → v = w)) l) l.

Lemma causally_ordered_alt l :
  causally_ordered l ↔ ∀ v w, v ∈ l → w ∈ l → path v = path w →
    (clock v ⊑ clock w ∨ clock w ⊑ clock v) ∧ (clock v ≡ clock w → v = w).
Proof.
  assert (∀ v w : FileEntry, (compare (clock v) (clock w) ≠ CONCURRENT ∧
      (compare (clock v) (clock w) = EQUAL → v = w)) ↔
    (clock v ⊑ clock w ∨ clock w ⊑ clock v) ∧ (clock v ≡ clock w → v = w)) as H.
  { intros v w. rewrite <- compare_equal. destruct (compare_spec (clock v) (clock w)); naive_solver. }
  unfold causally_ordered. setoid_rewrite Forall_forall. setoid_rewrite Forall_forall.
  setoid_rewrite H. naive_solver.
Qed.

(** The greatest of the versions [l] of a path: what every replica ends up with. *)
Definition greatest (l : list FileEntry) (p : bytes) (e : FileEntry) : Prop :=
  e ∈ l ∧ path e = p ∧ ∀ v, v ∈ l → path v = p → clock v ⊑ clock e.

Lemma greatest_unique l p e e' :
  causally_ordered l → greatest l p e → greatest l p e' → e = e'.
Proof.
  rewrite causally_ordered_alt. intros Hl (H1 & H2 & H3) (H1' & H2' & H3').
  apply Hl; [done|done|congruence|]. apply vc_equiv_le. auto.
Qed.

(** [s] holds exactly the greatest version of every path that [l] mentions. *)
Definition holds (s : CrdtStore) (l : list FileEntry) : Prop :=
  ∀ p, match entries_ s !! p with
       | Some e => greatest l p e
       | None => ∀ v, v ∈ l → path v ≠ p
       end.

Lemma holds_all_entries s : store_inv s → holds s (all_entries s).
Proof.
  intros Hs p. destruct (entries_ s !! p) as [e|] eqn:He.
  - destruct (store_inv_lookup _ _ _ Hs He) as [Hp _]. split_and!; [|done|].
    + apply elem_of_all_entries. eauto.
    + intros v Hv Hvp. apply elem_of_all_entries_inv in Hv; [|done].
      rewrite Hvp, He in Hv. by injection Hv as ->.
  - intros v Hv Hvp. apply elem_of_all_entries_inv in Hv; [|done]. congruence.
Qed.

Lemma holds_merge s l r :
  causally_ordered (l ++ [r]) → holds s l → holds (merge_remote s r).2 (l ++ [r]).
Proof.
  rewrite causally_ordered_alt. intros Hord Hs.
  assert (∀ e, entries_ s !! path r = Some e → e ∈ l ∧ path e = path r) as Hloc.
  { intros e He. specialize (Hs (path r)). rewrite He in Hs. by destruct Hs as (? & ? & _). }
  assert (∀ p e, p = path r → e ∈ l ++ [r] → path e = p → clock r ⊑ clock e →
    (∀ v, v ∈ l → path v = p → clock v ⊑ clock e) → greatest (l ++ [r]) p e) as Hgr.
  { intros p e -> He Hpe Hre Hle. split_and!; [done|done|].
    intros v [Hv| ->%list_elem_of_singleton]%elem_of_app; auto. }
  assert (∀ s', (∀ p, p ≠ path r → entries_ s' !! p = entries_ s !! p) →
    (∃ e, entries_ s' !! path r = Some e ∧ greatest (l ++ [r]) (path r) e) → holds s' (l ++ [r])) as Hfin.
  { intros s' Hoth (e & He & Hg) p. destruct (decide (p = path r)) as [->|Hne]; [by rewrite He|].
    rewrite Hoth by done. specialize (Hs p). destruct (entries_ s !! p).
    - destruct Hs as (H1 & H2 & H3). split_and!; [set_solver|done|].
      intros v [Hv| ->%list_elem_of_singleton]%elem_of_app; [auto|congruence].
    - intros v [Hv| ->%list_elem_of_singleton]%elem_of_app; auto. }
  destruct (merge_remote_case s r) as [He|e He H1 H2|e He H1 H2|e He H1 H2|e He H1 H2].
  1: apply Hfin; simpl; [intros; by rewrite lookup_insert_ne|exists r; rewrite lookup_insert_eq].
  1: { split; [done|]. apply Hgr; [done|set_solver|done|done|].
       specialize (Hs (path r)). rewrite He in Hs. intros v Hv Hvp. by destruct (Hs v Hv). }
  all: specialize (Hs (path r)) as Hg; rewrite He in Hg; destruct Hg as (Hin & Hp & Hmax).
  4: { exfalso. destruct (Hord e r) as [[?|?] _]; (set_solver || done). }
  2: apply Hfin; simpl; [intros; by rewrite lookup_insert_ne|exists r; rewrite lookup_insert_eq; split; [done|]].
  2: { apply Hgr; [done|set_solver|done|done|]. intros v Hv Hvp. by rewrite (Hmax v Hv Hvp). }
  all: apply Hfin; [done|exists e; split; [done|apply Hgr; set_solver]].
Qed.

Lemma holds_merge_all s l l' :
  causally_ordered (l ++ l') → holds s l → holds (merge_all s l') (l ++ l').
Proof.
  revert s l. induction l' as [|r l' IH]; intros s l Hord Hs; [by rewrite app_nil_r|].
  replace (l ++ r :: l') with ((l ++ [r]) ++ l') in * by (by rewrite <- app_assoc).
  apply IH; [done|]. apply holds_merge; [|done].
  rewrite causally_ordered_alt in *. intros v w Hv Hw. apply Hord; set_solver.
Qed.

(** Stores that hold the same versions are equal. *)
Lemma holds_agree s s' l l' :
  causally_ordered l → (∀ v, v ∈ l ↔ v ∈ l') → holds s l → holds s' l' → entries_ s = entries_ s'.
Proof.
  intros Hord Hll H1 H2. apply map_eq. intros p. specialize (H1 p). specialize (H2 p).
  destruct (entries_ s !! p) as [e|], (entries_ s' !! p) as [e'|]; [|exfalso|exfalso|done].
  - f_equal. apply (greatest_unique _ p _ _ Hord H1). destruct H2 as (G1 & G2 & G3).
    split_and!; [by apply Hll|done|]. intros v Hv. by apply G3, Hll.
  - destruct H1 as (G1 & G2 & _). by apply (H2 e); [apply Hll|].
  - destruct H2 as (G1 & G2 & _). by apply (H1 e'); [apply Hll|].
Qed.

(** ** Properties *)

(** C6: Strong eventual consistency for causally ordered updates: two replicas
    that start from the same store and merge the same set of remote versions, in
    any order and with any repetition, end in the same state, provided no two of
    the versions of a path involved are concurrent and equal clocks name equal
    versions. *)
Theorem merge_order_irrelevant s l l' :
  store_inv s → (∀ e, e ∈ l ↔ e ∈ l') →
  causally_ordered (all_entries s ++ l) →
  merge_all s l = merge_all s l'.
Proof.
  intros Hs Hll Hord.
  assert (causally_ordered (all_entries s ++ l')) as Hord'.
  { rewrite causally_ordered_alt in *. intros v w Hv Hw. apply Hord; set_solver. }
  assert (∀ l, node_id_ (merge_all s l) = node_id_ s) as Hid.
  { clear. intros l. unfold merge_all. revert s. induction l as [|r l IH]; intros s; simpl; [done|].
    by rewrite IH, merge_remote_node_id. }
  pose proof (holds_merge_all s _ l Hord (holds_all_entries s Hs)) as H1.
  pose proof (holds_merge_all s _ l' Hord' (holds_all_entries s Hs)) as H2.
  assert (entries_ (merge_all s l) = entries_ (merge_all s l')) as He
    by (eapply holds_agree; [exact Hord| |exact H1|exact H2]; intros v; rewrite !elem_of_app, Hll; done).
  specialize (Hid l) as Hid1. specialize (Hid l') as Hid2.
  destruct (merge_all s l), (merge_all s l'); simpl in *. congruence.
Qed.

Definition example_version (w : string) (cs : list (string * N)) (content : string) : FileEntry :=
  mkEntry (str "notes.txt") [hash (str content)] zero_digest
    (mkClock (list_to_map ((λ p, (str p.1, p.2)) <$> cs))) (str w) false 2.
Definition version_1 : FileEntry := example_version "A" [("A"%string, 1%N)] "v1".
Definition version_2 : FileEntry := example_version "A" [("A"%string, 2%N)] "v2".
Definition version_3 : FileEntry := example_version "B" [("A"%string, 2%N); ("B"%string, 1%N)] "v3".
(** Two edits made from [version_1] on disconnected nodes. *)
Definition edit_A : FileEntry := example_version "A" [("A"%string, 2%N)] "edit-by-A".
Definition edit_B : FileEntry := example_version "B" [("A"%string, 1%N); ("B"%string, 1%N)] "edit-by-B".

Lemma merge_order_irrelevant_witness :
  merge_all (new_store (str "C")) [version_1; version_2; version_3] =
  merge_all (new_store (str "C")) [version_3; version_1; version_2; version_1].
Proof.
  apply (merge_order_irrelevant (new_store (str "C"))); [apply store_inv_new|set_solver|].
  unfold causally_ordered. by_decide.
Defined.

(** Version vectors converge unconditionally: merging the same set of remote
    entries in any order leaves, at every path that is not the name of one of
    their conflict copies, the same clock, which is the join of the clock the
    store had and those of the entries for that path. *)
Theorem merged_clocks_converge s l l' p :
  Forall (λ r, p ≠ conflict_of r) l → (∀ e, e ∈ l ↔ e ∈ l') →
  clock_at (merge_all s l) p ≡ clock_at (merge_all s l') p ∧
  ∀ c, clock_at (merge_all s l) p ⊑ c ↔
    clock_at s p ⊑ c ∧ ∀ r, r ∈ l → path r = p → clock r ⊑ c.
Proof.
  intros Hl Hll. assert (Forall (λ r, p ≠ conflict_of r) l') as Hl'.
  { rewrite Forall_forall in *. intros r Hr. by apply Hl, Hll. }
  split; [|intros c; by apply merge_all_clock_lub].
  apply clock_le_antisym_lub. intros c. rewrite !merge_all_clock_lub by done. by setoid_rewrite Hll.
Qed.

Lemma merged_clocks_converge_witness :
  clock_at (merge_all (new_store (str "C")) [edit_A; edit_B]) (str "notes.txt") ≡
  clock_at (merge_all (new_store (str "C")) [edit_B; edit_A]) (str "notes.txt").
Proof.
  apply (merged_clocks_converge (new_store (str "C")) [edit_A; edit_B] [edit_B; edit_A] (str "notes.txt"));
    [by_decide|set_solver].
Defined.

(** Merging is idempotent: receiving the same entry again leaves the store as
    it is and is reported as already known, also after a conflict. *)
Theorem merge_remote_idempotent s r :
  let s' := (merge_remote s r).2 in
  (merge_remote s' r).2 = s' ∧
  (outcome_ (merge_remote s' r).1 = NO_CHANGE ∨ outcome_ (merge_remote s' r).1 = KEPT_LOCAL).
Proof.
  assert (∀ s' e, entries_ s' !! path r = Some e → clock r ⊑ clock e →
    (merge_remote s' r).2 = s' ∧
    (outcome_ (merge_remote s' r).1 = NO_CHANGE ∨ outcome_ (merge_remote s' r).1 = KEPT_LOCAL)) as H.
  { intros s' e He Hle. unfold merge_remote. rewrite He.
    destruct (compare_dominates _ _ Hle) as [-> | ->]; simpl; auto. }
  destruct (merge_remote_case s r) as [Hs|e He H1 H2|e He H1 H2|e He H1 H2|e He H1 H2].
  - apply (H _ r); [apply lookup_insert_eq|done].
  - by apply (H _ e).
  - apply (H _ r); [apply lookup_insert_eq|done].
  - by apply (H _ e).
  - apply (H _ (with_merged_clock (clock r) e)); [apply lookup_insert_eq|apply merge_r].
Qed.

(** C7: A genuine conflict loses neither version: when the clocks are concurrent
    and the name of the conflict copy is free, the local version stays at its
    path with its content and a clock that has seen both edits, the remote
    version is stored unchanged under the conflict name, which differs from the
    path, and no other entry changes. *)
Theorem conflict_keeps_both s r e :
  entries_ s !! path r = Some e → compare (clock e) (clock r) = CONCURRENT →
  entries_ s !! conflict_of r = None →
  let s' := (merge_remote s r).2 in
  (merge_remote s r).1 = mkResult CONFLICT_FORKED (path r) (conflict_of r) ∧
  entries_ s' !! path r = Some (with_merged_clock (clock r) e) ∧
  entries_ s' !! conflict_of r = Some (with_path (conflict_of r) r) ∧
  conflict_of r ≠ path r ∧
  ∀ p, p ≠ path r → p ≠ conflict_of r → entries_ s' !! p = entries_ s !! p.
Proof.
  intros He Hc _.
  pose proof (make_conflict_path_ne (path r) (last_writer r)) as Hne. fold (conflict_of r) in Hne.
  unfold merge_remote. rewrite He, Hc. fold (conflict_of r). simpl. split_and!; [done| | |done|].
  - by rewrite lookup_alter_eq, lookup_insert_ne, He.
  - by rewrite lookup_alter_ne, lookup_insert_eq.
  - intros p H1 H2. by rewrite lookup_alter_ne, lookup_insert_ne.
Qed.

Definition store_B : CrdtStore := mkStore (str "B") {[ str "notes.txt" := edit_B ]}.

Lemma conflict_keeps_both_witness :
  (merge_remote store_B edit_A).1 =
    mkResult CONFLICT_FORKED (path edit_A) (conflict_of edit_A) ∧
  entries_ (merge_remote store_B edit_A).2 !! path edit_A =
    Some (with_merged_clock (clock edit_A) edit_B) ∧
  conflict_of edit_A = str "notes.conflict-A.txt".
Proof.
  pose proof (conflict_keeps_both store_B edit_A edit_B) as H. cbv zeta in H.
  destruct H as (H1 & H2 & _); [reflexivity|vm_compute; reflexivity|vm_compute; reflexivity|].
  split; [exact H1|]. split; [exact H2|]. reflexivity.
Defined.

(** C32: Replicas do not converge after a conflict.  When two replicas hold
    concurrent versions of a path and each merges the other's, each keeps its own
    content in place, their clocks become equal, and from then on each reports
    the other's version as already known: the two contents stay different. *)
Theorem concurrent_edits_never_converge sa sb ea eb p :
  path ea = p → path eb = p →
  entries_ sa !! p = Some ea → entries_ sb !! p = Some eb →
  compare (clock ea) (clock eb) = CONCURRENT →
  let sa' := (merge_remote sa eb).2 in
  let sb' := (merge_remote sb ea).2 in
  ∃ fa fb, entries_ sa' !! p = Some fa ∧ entries_ sb' !! p = Some fb ∧
    chunk_hashes fa = chunk_hashes ea ∧ chunk_hashes fb = chunk_hashes eb ∧
    merge_remote sa' fb = (mkResult NO_CHANGE p [], sa') ∧
    merge_remote sb' fa = (mkResult NO_CHANGE p [], sb').
Proof.
  intros Hpa Hpb Ha Hb Hc.
  assert (compare (clock eb) (clock ea) = CONCURRENT) as Hc'.
  { apply compare_concurrent. apply compare_concurrent in Hc. naive_solver. }
  assert (∀ s e r, path e = p → path r = p → entries_ s !! p = Some e →
    compare (clock e) (clock r) = CONCURRENT →
    entries_ (merge_remote s r).2 !! p = Some (with_merged_clock (clock r) e)) as Hm.
  { intros s e r He Hr Hs Hcc. unfold merge_remote. rewrite Hr, Hs, Hcc. simpl.
    rewrite lookup_alter_eq, lookup_insert_ne by apply make_conflict_path_ne. by rewrite Hs. }
  cbv zeta. exists (with_merged_clock (clock eb) ea), (with_merged_clock (clock ea) eb).
  pose proof (Hm sa ea eb Hpa Hpb Ha Hc) as H1. pose proof (Hm sb eb ea Hpb Hpa Hb Hc') as H2.
  split_and!; [done|done|done|done| |].
  - unfold merge_remote at 1. simpl. rewrite Hpb, H1. simpl. by rewrite compare_mutual.
  - unfold merge_remote at 1. simpl. rewrite Hpa, H2. simpl. by rewrite compare_mutual.
Qed.

Definition store_A : CrdtStore := mkStore (str "A") {[ str "notes.txt" := edit_A ]}.

Lemma concurrent_edits_never_converge_witness :
  ∃ fa fb, entries_ (merge_remote store_A edit_B).2 !! str "notes.txt" = Some fa ∧
    entries_ (merge_remote store_B edit_A).2 !! str "notes.txt" = Some fb ∧
    chunk_hashes fa = chunk_hashes edit_A ∧ chunk_hashes fb = chunk_hashes edit_B ∧
    chunk_hashes edit_A ≠ chunk_hashes edit_B.
Proof.
  destruct (concurrent_edits_never_converge store_A store_B edit_A edit_B (str "notes.txt"))
    as (fa & fb & H1 & H2 & H3 & H4 & _);
    [reflexivity|reflexivity|reflexivity|reflexivity|vm_compute; reflexivity|].
  exists fa, fb. split_and!; [exact H1|exact H2|exact H3|exact H4|vm_compute; discriminate].
Defined.

(** A conflict can destroy a version.  The fork is stored without looking at
    what is under the conflict name: when that name already holds content found
    nowhere else in the store, no entry has the content afterwards, even if its
    clock is concurrent with the fork's. *)
Theorem conflict_fork_overwrites s r e old :
  entries_ s !! path r = Some e → compare (clock e) (clock r) = CONCURRENT →
  entries_ s !! conflict_of r = Some old →
  chunk_hashes old ≠ chunk_hashes r →
  (∀ p e', p ≠ conflict_of r → entries_ s !! p = Some e' → chunk_hashes e' ≠ chunk_hashes old) →
  ∀ p e', entries_ (merge_remote s r).2 !! p = Some e' → chunk_hashes e' ≠ chunk_hashes old.
Proof.
  intros He Hc Hold Hne Hno p e'.
  unfold merge_remote. rewrite He, Hc. fold (conflict_of r). simpl.
  pose proof (make_conflict_path_ne (path r) (last_writer r)) as Hcp. fold (conflict_of r) in Hcp.
  destruct (decide (p = path r)) as [->|Hp].
  - rewrite lookup_alter_eq, lookup_insert_ne, He by done. intros [= <-].
    apply (Hno (path r) e); [congruence|exact He].
  - rewrite lookup_alter_ne by done. destruct (decide (p = conflict_of r)) as [->|Hq].
    + rewrite lookup_insert_eq. intros [= <-]. simpl. congruence.
    + rewrite lookup_insert_ne by done. by apply Hno.
Qed.

(** The copy of an earlier conflict, edited on B since. *)
Definition edited_copy : FileEntry :=
  with_path (str "notes.conflict-A.txt") (example_version "B" [("A"%string, 2%N); ("B"%string, 1%N)] "merged by hand").
Definition edit_A2 : FileEntry := example_version "A" [("A"%string, 3%N)] "second edit-by-A".
Definition store_B2 : CrdtStore :=
  mkStore (str "B") {[ str "notes.txt" := edit_B; str "notes.conflict-A.txt" := edited_copy ]}.

Lemma conflict_fork_overwrites_witness :
  compare (clock edited_copy) (clock edit_A2) = CONCURRENT ∧
  ∀ p e', entries_ (merge_remote store_B2 edit_A2).2 !! p = Some e' →
    chunk_hashes e' ≠ chunk_hashes edited_copy.
Proof.
  split; [vm_compute; reflexivity|].
  apply (conflict_fork_overwrites store_B2 edit_A2 edit_B edited_copy);
    [reflexivity|vm_compute; reflexivity|vm_compute; reflexivity|vm_compute; discriminate|].
  intros p e' Hp He. unfold store_B2 in He. simpl in He.
  apply lookup_insert_Some in He as [[<- <-]|[_ He]]; [vm_compute; discriminate|].
  apply lookup_singleton_Some in He as [<- _]. exfalso. apply Hp. vm_compute. reflexivity.
Defined.

(** C28: A local edit or deletion is a new version that every synced replica
    adopts: after [put_local] or [delete_local] (while the counter has not reached
    its 64-bit maximum) the entry has the given content, or is a tombstone without
    content, its clock is strictly after the old one, nothing else changes, and a
    replica whose version of the path is no newer than the old one adopts it. *)
Theorem local_edit_propagates s p hashes root sz :
  (get (clock_at s p) (node_id_ s) + 1 < 2 ^ 64)%N →
  ∀ s' del, (s', del) = (put_local s p hashes root sz, false) ∨ (s', del) = (delete_local s p, true) →
  ∃ e, entries_ s' !! p = Some e ∧ path e = p ∧ deleted e = del ∧ last_writer e = node_id_ s ∧
    chunk_hashes e = (if del then [] else hashes) ∧
    compare (clock_at s p) (clock e) = BEFORE ∧
    (∀ q, q ≠ p → entries_ s' !! q = entries_ s !! q) ∧
    ∀ peer, clock_at peer p ⊑ clock_at s p →
      merge_remote peer e = (mkResult APPLIED_REMOTE p [], assign peer p e).
Proof.
  intros Hlt s' del Hs'.
  assert (∀ e, path e = p → clock e = increment (clock_at s p) (node_id_ s) →
    compare (clock_at s p) (clock e) = BEFORE ∧
    ∀ peer, clock_at peer p ⊑ clock_at s p →
      merge_remote peer e = (mkResult APPLIED_REMOTE p [], assign peer p e)) as Hprop.
  { intros e Hp Hclk. pose proof (increment_above _ _ Hlt) as [Hle Hnle]. rewrite Hclk.
    split; [by apply compare_before|]. intros peer Hpeer. unfold merge_remote. rewrite Hp.
    unfold clock_at in Hpeer at 1. destruct (entries_ peer !! p) as [l|]; [|done].
    assert (compare (clock l) (clock e) = BEFORE) as ->; [|done].
    rewrite Hclk. apply compare_before. split; [by etrans|]. intros Hback. apply Hnle. by etrans. }
  destruct Hs' as [[= -> ->]|[= -> ->]].
  - eexists. split; [apply lookup_insert_eq|]. simpl. fold (clock_at s p).
    destruct (Hprop (mkEntry p hashes root (increment (clock_at s p) (node_id_ s)) (node_id_ s) false sz))
      as [H1 H2]; [done|done|].
    split_and!; try done. intros q Hq. by rewrite lookup_insert_ne.
  - eexists. split; [apply lookup_insert_eq|]. simpl.
    match goal with |- context [merge_remote _ ?e] => set (e' := e) end.
    assert (clock e' = increment (clock_at s p) (node_id_ s)) as Hclk.
    { unfold e', clock_at. simpl. by destruct (entries_ s !! p). }
    destruct (Hprop e' eq_refl Hclk) as [H1 H2].
    split_and!; try done. intros q Hq. by rewrite lookup_insert_ne.
Qed.

Lemma local_edit_propagates_witness :
  ∃ e, entries_ (delete_local store_A (str "notes.txt")) !! str "notes.txt" = Some e ∧
    deleted e = true ∧ merge_remote store_A e = (mkResult APPLIED_REMOTE (str "notes.txt") [], assign store_A (str "notes.txt") e).
Proof.
  destruct (local_edit_propagates store_A (str "notes.txt") [] zero_digest 0) with
    (s' := delete_local store_A (str "notes.txt")) (del := true)
    as (e & H1 & _ & H2 & _ & _ & _ & _ & H3); [vm_compute; reflexivity|right; reflexivity|].
  exists e. split_and!; [exact H1|exact H2|apply H3; reflexivity].
Defined.

(** C36: Every reachable store is well formed: starting from an empty store, local
    edits, deletions, merges and journal loads keep every entry under its own
    path, with 32-byte digests, 64-bit counters and a 64-bit size. *)
Theorem store_inv_reachable n s : rtc store_step (new_store n) s → store_inv s.
Proof.
  assert (∀ s s', store_step s s' → store_inv s → store_inv s') as Hstep
    by (intros ?? []; auto with sync).
  intros H. assert (store_inv (new_store n)) as Hn by apply store_inv_new. revert Hn.
  induction H; eauto.
Qed.

Lemma store_inv_reachable_witness :
  store_inv (delete_local (put_local (new_store (str "A")) (str "f") [hash (str "x")] zero_digest 1) (str "f")).
Proof.
  apply (store_inv_reachable (str "A")).
  eapply rtc_l; [apply (step_put _ (str "f") [hash (str "x")] zero_digest 1)|].
  - repeat constructor.
  - reflexivity.
  - reflexivity.
  - eapply rtc_l; [apply (step_delete _ (str "f"))|apply rtc_refl].
Defined.
