(* ===== verification/EntryCodec.v ===== *)
(** * EntryCodec: one entry as one line of text ([entry_codec.hpp],
    [entry_codec.cpp])

    The same format serves the journal on disk and the manifest on the wire.
    Parsing may throw ([stoi], [stoull]); what it accepts is well formed, and it
    reads back exactly the entries whose names avoid the format's separators. *)
From S2P Require Import Prelude Text VectorClock Sha256 FileEntry.

Definition tab : byte := byte_of 9.
Definition newline : byte := byte_of 10.
Definition comma : byte := ","%char.
Definition colon : byte := ":"%char.

(** [for (size_t i = 0; i < 32 && i * 2 + 1 < hex.size(); ++i)] *)
Fixpoint hex_loop (k i : nat) (hex : bytes) (d : Digest) : outcome Digest :=
  match k with
  | 0 => Ok d
  | S k =>
      if decide (i * 2 + 1 < length hex) then
        let! v := stoi 16 (take 2 (drop (i * 2) hex)) in
        hex_loop k (S i) hex (<[i := byte_of_int v]> d)
      else Ok d
  end.

Definition hex_to_digest (hex : bytes) : outcome Digest := hex_loop 32 0 hex zero_digest.

Definition wire_item (p : bytes * N) : bytes := p.1 ++ colon :: to_dec p.2.
Definition clock_to_wire (c : VectorClock) : bytes := join comma (map wire_item (entries c)).

(** The body of [while (std::getline(ss, pair, ','))]. *)
Definition read_item (c : VectorClock) (item : bytes) : outcome VectorClock :=
  match find_first colon item with
  | None => Ok c
  | Some i =>
      let! v := stoull (substr_from (S i) item) in
      Ok (set c (substr_to i item) v)
  end.

Fixpoint read_items (c : VectorClock) (items : list bytes) : outcome VectorClock :=
  match items with
  | [] => Ok c
  | x :: items => let! c := read_item c x in read_items c items
  end.

Definition clock_from_wire (s : bytes) : outcome VectorClock :=
  if decide (s = []) then Ok empty_clock else read_items empty_clock (getlines comma s).

Definition hashes_to_wire (l : list Digest) : bytes := join comma (map to_hex l).

Definition entry_to_line (e : FileEntry) : bytes :=
  path e ++ tab ::
  (if deleted e then str "1" else str "0") ++ tab ::
  to_dec (size e) ++ tab ::
  to_hex (merkle_root e) ++ tab ::
  clock_to_wire (clock e) ++ tab ::
  last_writer e ++ tab ::
  hashes_to_wire (chunk_hashes e).

(** [while (fields.size() < 7) fields.push_back("");] *)
Definition pad_fields (fields : list bytes) : list bytes :=
  fields ++ replicate (7 - length fields) [].

Definition field (fields : list bytes) (i : nat) : bytes := default [] (fields !! i).

Definition read_hashes (s : bytes) : outcome (list Digest) :=
  if decide (s = []) then Ok []
  else map_outcome hex_to_digest (filter (λ h, h ≠ []) (getlines comma s)).

Definition line_to_entry (line : bytes) : outcome FileEntry :=
  let fields := pad_fields (getlines tab line) in
  let! sz := if decide (field fields 2 = []) then Ok 0%N else stoull (field fields 2) in
  let! root := hex_to_digest (field fields 3) in
  let! c := clock_from_wire (field fields 4) in
  let! hashes := read_hashes (field fields 6) in
  Ok (mkEntry (field fields 0) hashes root c (field fields 5)
        (bool_decide (field fields 1 = str "1")) sz).

(** ** What the parsers accept is well formed *)

Lemma stoull_bound s n : stoull s = Ok n → (n < 2 ^ 64)%N.
Proof.
  unfold stoull. destruct (strto 10 s) as [[neg m]|]; [|done].
  destruct (N.leb_spec (2 ^ 64) m); [done|]. intros [= <-]. destruct neg; [apply wrap_lt|done].
Qed.

Lemma hex_loop_length k i hex d d' : hex_loop k i hex d = Ok d' → length d' = length d.
Proof.
  revert i d. induction k as [|k IH]; intros i d; simpl; [by intros [= ->]|].
  case_decide; [|by intros [= ->]].
  destruct (stoi 16 _) as [v| |]; simpl; try done. intros ->%IH. apply length_insert.
Qed.

Lemma hex_to_digest_length hex d : hex_to_digest hex = Ok d → length d = 32.
Proof. intros H%hex_loop_length. done. Qed.

Lemma getlines_no_delim d s : Forall (λ x, d ∉ x) (getlines d s).
Proof.
  induction s as [|c s IH]; simpl; [constructor|]. case_decide.
  - constructor; [apply not_elem_of_nil|done].
  - destruct (getlines d s) as [|x xs]; inversion_clear IH; repeat constructor;
      rewrite ?elem_of_cons, ?elem_of_nil; try tauto; intros [->|?]; done.
Qed.

(** A node id that a clock read from text may contain. *)
Definition node_ok (n : bytes) : Prop := comma ∉ n ∧ colon ∉ n ∧ tab ∉ n.

Lemma find_first_take d x i : find_first d x = Some i → d ∉ take i x.
Proof.
  revert i. induction x as [|c x IH]; intros i; simpl; [done|]. case_decide.
  - intros [= <-]. apply not_elem_of_nil.
  - destruct (find_first d x) as [j|]; [|done]. intros [= <-]. simpl.
    rewrite elem_of_cons. intros [->|Hin]; [done|]. by apply (IH j).
Qed.

Definition clock_read_ok (c : VectorClock) : Prop :=
  wf_clock c ∧ map_Forall (λ n _, node_ok n) (counters_ c).

Lemma read_items_ok items c c' :
  Forall (λ x, comma ∉ x ∧ tab ∉ x) items →
  clock_read_ok c → read_items c items = Ok c' → clock_read_ok c'.
Proof.
  intros Hitems. revert c. induction Hitems as [|x items [Hx Hx'] _ IH]; intros c Hc; simpl; [by intros [= <-]|].
  unfold read_item. destruct (find_first colon x) as [i|] eqn:Hi; simpl; [|by apply IH].
  destruct (stoull _) as [v| |] eqn:Hv; simpl; try done. apply IH. destruct Hc as [H1 H2].
  split; [apply wf_set; [done|by eapply stoull_bound]|].
  assert (∀ y : byte, y ∉ x → y ∉ substr_to i x) as Hsub.
  { intros y Hy Hin. apply Hy. rewrite <- (take_drop i x). apply elem_of_app. by left. }
  apply map_Forall_insert_2; [|done]. split_and!; [by apply Hsub|by apply find_first_take|by apply Hsub].
Qed.

Lemma getlines_not_elem d x s : x ∉ s → Forall (λ l, x ∉ l) (getlines d s).
Proof.
  induction s as [|c s IH]; simpl; [constructor|]. rewrite not_elem_of_cons. intros [Hc Hs].
  case_decide; [constructor; [apply not_elem_of_nil|auto]|].
  specialize (IH Hs). destruct (getlines d s) as [|l ls]; inversion_clear IH; repeat constructor;
    rewrite ?not_elem_of_cons; auto using not_elem_of_nil.
Qed.

Lemma clock_from_wire_ok s c : tab ∉ s → clock_from_wire s = Ok c → clock_read_ok c.
Proof.
  assert (clock_read_ok empty_clock) as He by (split; apply map_Forall_empty).
  unfold clock_from_wire. intros Hs. case_decide; [by intros [= <-]|].
  apply read_items_ok; [|done]. apply Forall_and.
  split; [apply getlines_no_delim|by apply getlines_not_elem].
Qed.

Lemma map_outcome_Forall {A B} (f : A → outcome B) (P : B → Prop) xs ys :
  (∀ x y, f x = Ok y → P y) → map_outcome f xs = Ok ys → Forall P ys.
Proof.
  intros Hf. revert ys. induction xs as [|x xs IH]; intros ys; simpl; [intros [= <-]; constructor|].
  destruct (f x) as [y| |] eqn:Hy; simpl; try done.
  destruct (map_outcome f xs) as [ys'| |]; simpl; try done. intros [= <-]. constructor; eauto.
Qed.

(** The parts of a line that a parse can return: no field contains a tab. *)
Lemma field_no_tab line i : tab ∉ field (pad_fields (getlines tab line)) i.
Proof.
  unfold field, pad_fields. destruct ((getlines tab line ++ _) !! i) as [x|] eqn:Hx; simpl;
    [|apply not_elem_of_nil].
  apply lookup_app_Some in Hx as [Hx|[_ Hx]].
  - pose proof (getlines_no_delim tab line) as H. rewrite Forall_lookup in H. by eapply H.
  - apply lookup_replicate in Hx as [-> _]. apply not_elem_of_nil.
Qed.

(** An entry that the line format can carry. *)
Record codec_ok (e : FileEntry) : Prop := {
  codec_path : tab ∉ path e;
  codec_writer : tab ∉ last_writer e;
  codec_clock : map_Forall (λ n _, node_ok n) (counters_ (clock e));
}.

Lemma codec_ok_alt e :
  codec_ok e ↔ tab ∉ path e ∧ tab ∉ last_writer e ∧
    map_Forall (λ n _, comma ∉ n ∧ colon ∉ n ∧ tab ∉ n) (counters_ (clock e)).
Proof. split; [by intros [? ? ?]|intros (?&?&?); by split]. Qed.
#[export] Instance codec_ok_dec e : Decision (codec_ok e).
Proof. eapply dec_iff; [apply codec_ok_alt|apply _]. Defined.

Lemma read_hashes_ok s l : read_hashes s = Ok l → Forall (λ d : Digest, length d = 32) l.
Proof.
  unfold read_hashes. case_decide; [intros [= <-]; constructor|].
  apply map_outcome_Forall. intros x y. apply hex_to_digest_length.
Qed.

Lemma line_to_entry_ok line e : line_to_entry line = Ok e → wf_entry e ∧ codec_ok e.
Proof.
  unfold line_to_entry. set (fs := pad_fields (getlines tab line)).
  pose proof (field_no_tab line) as Hf. fold fs in Hf.
  destruct (if decide (field fs 2 = []) then Ok 0%N else stoull (field fs 2)) as [sz| |] eqn:Hsz; simpl; try done.
  destruct (hex_to_digest (field fs 3)) as [root| |] eqn:Hroot; simpl; try done.
  destruct (clock_from_wire (field fs 4)) as [c| |] eqn:Hc; simpl; try done.
  destruct (read_hashes (field fs 6)) as [hs| |] eqn:Hhs; simpl; try done.
  apply clock_from_wire_ok in Hc as [Hc1 Hc2]; [|apply Hf].
  intros [= <-]. split; split; simpl; [| |done| |apply Hf|apply Hf|done].
  - by eapply read_hashes_ok.
  - by eapply hex_to_digest_length.
  - revert Hsz. case_decide; [by intros [= <-]|apply stoull_bound].
Qed.

(** ** Reading back what was written *)

Lemma length_to_hex d : length (to_hex d) = 2 * length d.
Proof. unfold to_hex. induction d as [|b d IH]; [done|]. simpl in *. rewrite IH. lia. Qed.

Lemma drop_to_hex d i : drop (i * 2) (to_hex d) = to_hex (drop i d).
Proof.
  unfold to_hex. revert d. induction i as [|i IH]; intros [|b d]; [done|done|done|]. simpl. apply IH.
Qed.

(** The loop fills in one byte per turn. *)
Lemma hex_loop_to_hex k i d acc :
  length d = i + k → length acc = i + k → take i acc = take i d →
  hex_loop k i (to_hex d) acc = Ok d.
Proof.
  revert i acc. induction k as [|k IH]; intros i acc Hd Hacc Htake; cbn [hex_loop].
  - rewrite take_ge, (take_ge d) in Htake by lia. by rewrite Htake.
  - rewrite decide_True by (rewrite length_to_hex; lia).
    destruct (lookup_lt_is_Some_2 d i) as [b Hb]; [lia|].
    rewrite drop_to_hex, (drop_S _ b) by done.
    change (take 2 (to_hex (b :: drop (S i) d))) with (hex_of_byte b).
    rewrite stoi_hex_of_byte. simpl. rewrite byte_of_int_val.
    apply IH; [lia|rewrite length_insert; lia|].
    rewrite (take_S_r _ _ b), (take_S_r _ _ b) by
      first [done | (apply list_lookup_insert_eq; lia)].
    by rewrite take_insert_ge, Htake by lia.
Qed.

Lemma hex_to_digest_to_hex d : length d = 32 → hex_to_digest (to_hex d) = Ok d.
Proof. intros Hd. by apply hex_loop_to_hex. Qed.

Lemma to_hex_hex d : Forall is_hex (to_hex d).
Proof.
  unfold to_hex. induction d as [|b d IH]; simpl; [constructor|].
  pose proof (hex_of_byte_hex b) as Hb. inversion_clear Hb as [|?? H1 Hb']. inversion_clear Hb'.
  by repeat constructor.
Qed.

Lemma not_hex_separators : ¬ is_hex tab ∧ ¬ is_hex comma ∧ ¬ is_hex newline.
Proof. split_and!; intros [x Hx]; discriminate Hx. Qed.
Lemma not_dec_separators : ¬ is_dec tab ∧ ¬ is_dec comma ∧ ¬ is_dec newline.
Proof. split_and!; intros [H1 H2]; vm_compute in H1, H2; done. Qed.

Lemma to_hex_not_elem c d : ¬ is_hex c → c ∉ to_hex d.
Proof. intros. by eapply not_hex_not_elem, to_hex_hex. Qed.

(** Clocks. *)
Lemma read_item_wire c n v :
  colon ∉ n → (v < 2 ^ 64)%N → read_item c (wire_item (n, v)) = Ok (set c n v).
Proof.
  intros Hn Hv. unfold read_item, wire_item; cbn [fst snd]. rewrite find_first_delim by done.
  rewrite substr_from_delim, substr_to_delim, stoull_to_dec by done. done.
Qed.

Lemma read_items_wire l c :
  Forall (λ p : bytes * N, colon ∉ p.1 ∧ (p.2 < 2 ^ 64)%N) l →
  read_items c (map wire_item l) = Ok (foldl (λ c p, set c p.1 p.2) c l).
Proof.
  intros Hl. revert c. induction Hl as [|[n v] l [Hn Hv] _ IH]; intros c; [done|].
  simpl in Hn, Hv. cbn [map read_items]. rewrite read_item_wire by done. simpl. apply IH.
Qed.

Lemma foldl_set_list l c :
  NoDup l.*1 →
  counters_ (foldl (λ c p, set c p.1 p.2) c l) = list_to_map l ∪ counters_ c.
Proof.
  revert c. induction l as [|[n v] l IH]; intros c; simpl; [by rewrite (left_id_L ∅ (∪))|].
  intros [Hn Hl]%NoDup_cons. rewrite IH by done. simpl.
  rewrite <- insert_union_l. rewrite insert_union_r; [done|].
  by apply not_elem_of_list_to_map_1.
Qed.

Lemma clock_from_wire_to_wire c :
  wf_clock c → map_Forall (λ n _, node_ok n) (counters_ c) →
  clock_from_wire (clock_to_wire c) = Ok c.
Proof.
  intros Hwf Hok. unfold clock_from_wire, clock_to_wire, entries.
  assert (Forall (λ p : bytes * N, node_ok p.1 ∧ (p.2 < 2 ^ 64)%N) (map_listing (counters_ c))) as Hl.
  { apply Forall_forall. intros [n v] Hin%elem_of_map_listing. simpl. eauto. }
  assert (Forall (λ x, comma ∉ x ∧ x ≠ []) (map wire_item (map_listing (counters_ c)))) as Hitems.
  { apply Forall_map. eapply Forall_impl; [exact Hl|]. intros [n v] [(H1 & H2 & _) _].
    unfold wire_item; simpl in *. split; [|by intros [_ ?]%app_nil].
    rewrite not_elem_of_app, not_elem_of_cons. split_and!; [done|done|].
    apply to_dec_not_elem, not_dec_separators. }
  case_decide as Hnil.
  - apply join_nil_inv in Hnil; [|by eapply Forall_impl; [exact Hitems|naive_solver]].
    apply fmap_nil_inv in Hnil. f_equal. apply clock_eq.
    rewrite <- (list_to_map_listing (counters_ c)), Hnil. done.
  - rewrite getlines_join by done. rewrite read_items_wire.
    + f_equal. apply clock_eq. rewrite foldl_set_list by apply map_listing_NoDup.
      rewrite list_to_map_listing. apply (right_id_L ∅ (∪)).
    + eapply Forall_impl; [exact Hl|]. intros [n v] [(?&?&?) ?]. done.
Qed.

(** A name that the wire format of clocks can carry contains no separator, so
    the clock field contains no tab either. *)
Lemma clock_to_wire_not_elem x c :
  x ≠ comma → x ≠ colon → ¬ is_dec x → map_Forall (λ n _, x ∉ n) (counters_ c) → x ∉ clock_to_wire c.
Proof.
  intros H1 H2 H3 Hc. apply join_not_elem_of; [done|]. apply Forall_map, Forall_forall.
  intros [n v] Hin%elem_of_map_listing. unfold wire_item; cbn [fst snd].
  rewrite not_elem_of_app, not_elem_of_cons. split_and!; [by eapply Hc|done|by apply to_dec_not_elem].
Qed.

Lemma hashes_to_wire_not_elem x l : x ≠ comma → ¬ is_hex x → x ∉ hashes_to_wire l.
Proof.
  intros H1 H2. apply join_not_elem_of; [done|]. apply Forall_map, Forall_forall.
  intros d _. by apply to_hex_not_elem.
Qed.

Lemma read_hashes_to_wire l :
  Forall (λ d : Digest, length d = 32) l → read_hashes (hashes_to_wire l) = Ok l.
Proof.
  intros Hl.
  assert (∀ d, length d = 32 → to_hex d ≠ []) as Hne.
  { intros d Hd E. apply (f_equal length) in E. rewrite length_to_hex in E. simpl in E. lia. }
  assert (Forall (λ x, comma ∉ x ∧ x ≠ []) (map to_hex l)) as Hx.
  { apply Forall_map. eapply Forall_impl; [exact Hl|]. intros d Hd. split; [|by apply Hne].
    apply to_hex_not_elem, not_hex_separators. }
  unfold read_hashes, hashes_to_wire. case_decide as Hnil.
  - apply join_nil_inv in Hnil; [|by eapply Forall_impl; [exact Hx|naive_solver]].
    by apply fmap_nil_inv in Hnil as ->.
  - rewrite getlines_join by done. rewrite filter_Forall.
    + apply map_outcome_ok, Forall2_fmap_l, Forall_Forall2_diag.
      eapply Forall_impl; [exact Hl|]. intros d. apply hex_to_digest_to_hex.
    + eapply Forall_impl; [exact Hx|]. by intros x [_ ?].
Qed.

(** The fields of a line of seven fields. *)
Lemma pad_fields_line f0 f1 f2 f3 f4 f5 f6 :
  Forall (λ f, tab ∉ f) [f0; f1; f2; f3; f4; f5; f6] →
  pad_fields (getlines tab (f0 ++ tab :: f1 ++ tab :: f2 ++ tab :: f3 ++ tab ::
    f4 ++ tab :: f5 ++ tab :: f6)) = [f0; f1; f2; f3; f4; f5; f6].
Proof.
  rewrite !Forall_cons. intros (?&?&?&?&?&?&?&_).
  rewrite !getlines_delim by done. unfold pad_fields.
  destruct (decide (f6 = [])) as [->|]; [done|]. by rewrite getlines_last.
Qed.

Lemma line_to_entry_to_line e :
  wf_entry e → codec_ok e → line_to_entry (entry_to_line e) = Ok e.
Proof.
  intros [Hh Hr Hc Hs] [Hp Hw Hn].
  pose proof not_hex_separators as (Hx & _). pose proof not_dec_separators as (Hd & _).
  unfold line_to_entry, entry_to_line. rewrite pad_fields_line.
  - cbv zeta. repeat match goal with |- context [field ?l ?i] =>
      let v := eval cbv [field lookup list_lookup default from_option id] in (field l i) in
      change (field l i) with v end.
    rewrite decide_False by apply to_dec_not_nil.
    rewrite stoull_to_dec by done. cbn [mbind outcome_bind].
    rewrite hex_to_digest_to_hex by done. cbn [mbind outcome_bind].
    rewrite clock_from_wire_to_wire by done. cbn [mbind outcome_bind].
    rewrite read_hashes_to_wire by done. cbn [mbind outcome_bind].
    destruct e as [p hs r c w del sz]; simpl. by destruct del.
  - repeat constructor; [done|by destruct (deleted e); by_decide|by apply to_dec_not_elem|
      by apply to_hex_not_elem| |done|by apply hashes_to_wire_not_elem].
    apply clock_to_wire_not_elem; [done|done|done|].
    intros n v Hv. by apply (Hn n v).
Qed.

Lemma stoull_behaves s : behaves (stoull s).
Proof. unfold stoull. by repeat case_match. Qed.
Lemma stoi_behaves base s : behaves (stoi base s).
Proof. unfold stoi. by repeat case_match. Qed.
Lemma hex_loop_behaves k i hex d : behaves (hex_loop k i hex d).
Proof.
  revert i d. induction k as [|k IH]; intros i d; simpl; [done|]. case_decide; [|done].
  pose proof (stoi_behaves 16 (take 2 (drop (i * 2) hex))) as Hs.
  destruct (stoi 16 _); simpl; [apply IH|done|done].
Qed.
Lemma map_outcome_behaves {A B} (f : A → outcome B) xs : (∀ x, behaves (f x)) → behaves (map_outcome f xs).
Proof.
  intros Hf. induction xs as [|x xs IH]; simpl; [done|].
  specialize (Hf x). destruct (f x); simpl; try done. by destruct (map_outcome f xs).
Qed.
Lemma read_items_behaves c items : behaves (read_items c items).
Proof.
  revert c. induction items as [|x items IH]; intros c; simpl; [done|]. unfold read_item.
  destruct (find_first colon x); simpl; [|apply IH].
  pose proof (stoull_behaves (substr_from (S n) x)). destruct (stoull _); simpl; [apply IH|done|done].
Qed.

Lemma line_to_entry_behaves line : behaves (line_to_entry line).
Proof.
  unfold line_to_entry. set (fs := pad_fields (getlines tab line)).
  assert (behaves (if decide (field fs 2 = []) then Ok 0%N else stoull (field fs 2))) as H1
    by (case_decide; [done|apply stoull_behaves]).
  destruct (if decide _ then _ else _); simpl; try done.
  pose proof (hex_loop_behaves 32 0 (field fs 3) zero_digest) as H2.
  unfold hex_to_digest at 1. destruct (hex_loop _ _ (field fs 3) _); simpl; try done.
  assert (behaves (clock_from_wire (field fs 4))) as H3
    by (unfold clock_from_wire; case_decide; [done|apply read_items_behaves]).
  destruct (clock_from_wire _); simpl; try done.
  assert (behaves (read_hashes (field fs 6))) as H4.
  { unfold read_hashes. case_decide; [done|]. apply map_outcome_behaves. intros h. apply hex_loop_behaves. }
  by destruct (read_hashes _).
Qed.

(** ** Properties *)

(** Digests survive their hexadecimal form: [hex_to_digest] reads back what
    [to_hex] writes for every 32-byte digest, and whatever it accepts, it returns
    32 bytes. *)
Theorem digest_hex_roundtrip d :
  length d = 32 →
  hex_to_digest (to_hex d) = Ok d ∧ length (to_hex d) = 64 ∧
  ∀ hex d', hex_to_digest hex = Ok d' → length d' = 32.
Proof.
  intros Hd. split_and!; [by apply hex_to_digest_to_hex|rewrite length_to_hex; lia|].
  apply hex_to_digest_length.
Qed.

Lemma digest_hex_roundtrip_witness :
  hex_to_digest (to_hex (replicate 32 (byte_of 171))) = Ok (replicate 32 (byte_of 171)).
Proof. apply (digest_hex_roundtrip (replicate 32 (byte_of 171))). reflexivity. Defined.

(** C19: The line codec is a round trip exactly on the entries it can carry: for an
    entry whose members fit their C++ types, [line_to_entry (entry_to_line e)]
    returns [e] if and only if the path and the last writer contain no tab and no
    node id of the clock contains a tab, a comma or a colon; every other entry is
    read back as something else, or not at all. *)
Theorem line_roundtrip_iff e :
  wf_entry e → (line_to_entry (entry_to_line e) = Ok e ↔ codec_ok e).
Proof.
  intros Hwf. split; [intros H; apply (line_to_entry_ok _ _ H)|by apply line_to_entry_to_line].
Qed.

Definition sample_entry : FileEntry :=
  mkEntry (str "notes.txt") [replicate 32 (byte_of 1); replicate 32 (byte_of 2)] zero_digest
    (mkClock {[ str "A" := 2%N; str "B" := 7%N ]}) (str "A") false 10.
(** The same entry made on a node named after its address. *)
Definition address_entry : FileEntry :=
  mkEntry (str "notes.txt") [] zero_digest (mkClock {[ str "host:9001" := 3%N ]}) (str "A") false 0.

Lemma line_roundtrip_iff_witness :
  line_to_entry (entry_to_line sample_entry) = Ok sample_entry ∧
  line_to_entry (entry_to_line address_entry) ≠ Ok address_entry ∧
  clock_from_wire (clock_to_wire (clock address_entry)) = Ok (mkClock {[ str "host" := 9001%N ]}).
Proof.
  assert (wf_entry sample_entry) as Hwf.
  { split; simpl; [repeat constructor|reflexivity|unfold wf_clock; by_decide|reflexivity]. }
  assert (wf_entry address_entry) as Hwf'.
  { split; simpl; [repeat constructor|reflexivity|unfold wf_clock; by_decide|reflexivity]. }
  split; [|split; [|vm_compute; reflexivity]].
  - apply (line_roundtrip_iff sample_entry Hwf). split; simpl; [by_decide|by_decide|unfold node_ok; by_decide].
  - intros H. apply (line_roundtrip_iff address_entry Hwf') in H. destruct H as [_ _ H].
    destruct (H (str "host:9001") 3%N eq_refl) as (_ & Hcolon & _). apply Hcolon. by_decide.
Defined.

(** Parsing is safe on any input: [line_to_entry] never performs an undefined
    operation, it either throws or returns an entry whose digests have 32 bytes,
    whose counters and size fit in 64 bits, and which survives being written and
    read again. *)
Theorem line_to_entry_safe line :
  line_to_entry line ≠ UB ∧
  ∀ e, line_to_entry line = Ok e → wf_entry e ∧ line_to_entry (entry_to_line e) = Ok e.
Proof.
  split.
  - apply behaves_not_UB, line_to_entry_behaves.
  - intros e [Hwf Hok]%line_to_entry_ok. split; [done|by apply line_to_entry_to_line].
Qed.

Lemma line_to_entry_safe_witness :
  wf_entry sample_entry ∧ line_to_entry (entry_to_line sample_entry) = Ok sample_entry.
Proof.
  apply (line_to_entry_safe (entry_to_line sample_entry)). vm_compute. reflexivity.
Defined.
