(* ===== verification/Fs.v ===== *)
(** * Fs: what the program uses of [std::filesystem] and the file streams

    A file system is a finite map from path names to contents and a set of
    directories.  Path names are compared as text: no symbolic links, no
    resolution of [.] and [..], no permissions, no full disk; the theorems about
    paths that come from outside ask for [plain] ones.  The directories named by
    the empty path and by a single slash always exist. *)
From S2P Require Import Prelude Text.

Record fs := mkFs { files : gmap bytes bytes; dirs : gset bytes }.

Definition empty_fs : fs := mkFs ∅ ∅.

Definition slash : byte := "/"%char.

(** A relative path that names a file the same way for the operating system and
    as text: non-empty components other than [.] and [..], no NUL, no slash at
    the end. *)
Definition plain (p : bytes) : Prop :=
  p ≠ [] ∧ last p ≠ Some slash ∧ byte_of 0 ∉ p ∧
  Forall (λ c, c ≠ [] ∧ c ≠ str "." ∧ c ≠ str "..") (getlines slash p).
#[export] Instance plain_dec p : Decision (plain p).
Proof. unfold plain. apply _. Defined.

(** [fs::path::parent_path] *)
Definition parent_path (p : bytes) : bytes :=
  match find_last_of slash p with
  | None => []
  | Some 0 => [slash]
  | Some i => take i p
  end.

(** [fs::path::operator/]: an absolute right operand replaces the left one. *)
Definition path_join (dir rel : bytes) : bytes :=
  match rel with
  | c :: _ => if decide (c = slash) then rel else
      if decide (last dir = Some slash ∨ dir = []) then dir ++ rel else dir ++ slash :: rel
  | [] => if decide (last dir = Some slash ∨ dir = []) then dir else dir ++ [slash]
  end.

(** [fs::exists] *)
Definition exists_ (f : fs) (p : bytes) : bool :=
  bool_decide (p ∈ dom (files f)) || bool_decide (p ∈ dirs f).

Definition dir_exists (f : fs) (d : bytes) : bool :=
  bool_decide (d = []) || bool_decide (d = [slash]) || bool_decide (d ∈ dirs f).

(** The directories [create_directories(p)] makes, outermost first. *)
Definition dir_prefixes (p : bytes) : list bytes :=
  filter (λ q, q ≠ [])
    (map (λ i, take i p) (filter (λ i, p !! i = Some slash) (seq 0 (length p)))) ++ [p].

(** One [mkdir]; a file in the way is an error. *)
Definition make_dir (q : bytes) : stateM fs unit := λ f,
  if decide (q ∈ dom (files f)) then (Throw filesystem_error, f)
  else (Ok tt, mkFs (files f) ({[q]} ∪ dirs f)).

(** [fs::create_directories] *)
Definition create_directories (p : bytes) : stateM fs unit := λ f,
  match p with
  | [] => (Throw filesystem_error, f)
  | _ => for_each (dir_prefixes p) make_dir f
  end.

(** [std::ofstream out(p); out << b;]: a stream that fails to open (the name of a
    directory, a directory that is not there) swallows what is written to it. *)
Definition write_file (p b : bytes) : stateM fs unit := λ f,
  if negb (bool_decide (p ∈ dirs f)) && negb (bool_decide (last p = Some slash))
     && dir_exists f (parent_path p)
  then (Ok tt, mkFs (<[p := b]> (files f)) (dirs f))
  else (Ok tt, f).

(** [std::ifstream in(p)] and its contents; [None] when it does not open. *)
Definition read_file (f : fs) (p : bytes) : option bytes := files f !! p.

(** ** Lemmas *)

Lemma plain_head p : plain p → head p ≠ Some slash.
Proof.
  intros (Hne & _ & _ & Hc) Hh. destruct p as [|c p]; [done|]. injection Hh as ->.
  simpl in Hc. by apply Forall_inv in Hc as [? _].
Qed.

Lemma path_join_plain dir p :
  plain p → dir ≠ [] → last dir ≠ Some slash → path_join dir p = dir ++ slash :: p.
Proof.
  intros Hp Hd Hl. pose proof (plain_head p Hp) as Hh. destruct p as [|c p]; [by destruct Hp|].
  unfold path_join. rewrite decide_False by (intros ->; by apply Hh).
  rewrite decide_False; [done|]. tauto.
Qed.

Lemma parent_path_slash d x : slash ∉ x → d ≠ [] → parent_path (d ++ slash :: x) = d.
Proof.
  intros Hx Hd. unfold parent_path. rewrite find_last_of_delim by done.
  destruct d as [|c d]; [done|]. change (length (c :: d)) with (S (length d)). cbv iota beta.
  change (S (length d)) with (length (c :: d)). apply take_app_length.
Qed.

Lemma write_file_ok p b f :
  p ∉ dirs f → last p ≠ Some slash → dir_exists f (parent_path p) = true →
  write_file p b f = (Ok tt, mkFs (<[p := b]> (files f)) (dirs f)).
Proof. intros Hp Hl Hd. unfold write_file. by rewrite !bool_decide_eq_false_2, Hd. Qed.

(** A write never throws and changes at most its own file. *)
Lemma write_file_Ok p b f :
  ∃ f', write_file p b f = (Ok tt, f') ∧ dirs f' = dirs f ∧
    (∀ q, q ≠ p → files f' !! q = files f !! q).
Proof.
  unfold write_file. destruct (_ && _); eexists; split_and!; try done.
  intros q Hq. simpl. by rewrite lookup_insert_ne.
Qed.

Lemma create_directories_behaves p f : behaves (create_directories p f).1.
Proof.
  unfold create_directories. destruct p as [|c q]; [done|].
  generalize (dir_prefixes (c :: q)). intros l. revert f. induction l as [|x l IH]; intros f; [done|]. simpl.
  unfold mbind, stateM_bind, make_dir at 1. case_decide; [done|apply IH].
Qed.

(** Creating directories touches no file. *)
Lemma make_dirs_files l f : files (for_each l make_dir f).2 = files f.
Proof.
  revert f. induction l as [|q l IH]; intros f; simpl; [done|].
  unfold mbind, stateM_bind, make_dir at 1. case_decide; simpl; [done|]. by rewrite IH.
Qed.

Lemma create_directories_files p f : files (create_directories p f).2 = files f.
Proof. destruct p; [done|]. apply make_dirs_files. Qed.

Lemma make_dirs_dirs l f q : q ∈ dirs f → q ∈ dirs (for_each l make_dir f).2.
Proof.
  revert f. induction l as [|x l IH]; intros f Hq; simpl; [done|].
  unfold mbind, stateM_bind, make_dir at 1. case_decide; simpl; [done|]. apply IH. simpl. set_solver.
Qed.

Lemma create_directories_dirs p f q : q ∈ dirs f → q ∈ dirs (create_directories p f).2.
Proof. destruct p; [done|]. apply make_dirs_dirs. Qed.

(** What creating directories can add. *)
Lemma make_dirs_only l f q : q ∈ dirs (for_each l make_dir f).2 → q ∈ dirs f ∨ q ∈ l.
Proof.
  revert f. induction l as [|x l IH]; intros f Hq; simpl in *; [by left|].
  unfold mbind, stateM_bind, make_dir at 1 in Hq. revert Hq. case_decide; simpl; [by left|].
  intros Hq%IH. simpl in Hq. set_solver.
Qed.

Lemma create_directories_only p f q :
  q ∈ dirs (create_directories p f).2 → q ∈ dirs f ∨ q ∈ dir_prefixes p.
Proof. destruct p; [by left|]. apply make_dirs_only. Qed.

Lemma make_dirs_ok l f :
  (∀ q, q ∈ l → q ∉ dom (files f)) →
  ∃ f', for_each l make_dir f = (Ok tt, f') ∧ files f' = files f ∧ dirs f' = list_to_set l ∪ dirs f.
Proof.
  revert f. induction l as [|q l IH]; intros f Hl; simpl.
  { exists f. split_and!; [done|done|set_solver]. }
  unfold mbind, stateM_bind, make_dir at 1. rewrite decide_False by (apply Hl; set_solver).
  destruct (IH (mkFs (files f) ({[q]} ∪ dirs f))) as (f' & -> & Hf & Hd).
  { intros x Hx. simpl. apply Hl. set_solver. }
  exists f'. split_and!; [done|done|]. rewrite Hd. simpl. set_solver.
Qed.

(** When no file is in the way, every prefix becomes a directory. *)
Lemma create_directories_ok p f :
  p ≠ [] → (∀ q, q ∈ dir_prefixes p → q ∉ dom (files f)) →
  ∃ f', create_directories p f = (Ok tt, f') ∧ files f' = files f ∧
    dirs f' = list_to_set (dir_prefixes p) ∪ dirs f.
Proof. intros Hp Hl. destruct p; [done|]. by apply make_dirs_ok. Qed.

Lemma elem_of_dir_prefixes_self p : p ∈ dir_prefixes p.
Proof. unfold dir_prefixes. set_solver. Qed.

Lemma dir_prefixes_app p q x : p ≠ [] → x ∈ dir_prefixes p → x ∈ dir_prefixes (p ++ slash :: q).
Proof.
  intros Hp. unfold dir_prefixes.
  rewrite !elem_of_app, !list_elem_of_filter, !list_elem_of_fmap, list_elem_of_singleton.
  assert (∀ i, (p ++ slash :: q) !! i = Some slash → i ≤ length p →
    i ∈ filter (λ i, (p ++ slash :: q) !! i = Some slash) (seq 0 (length (p ++ slash :: q)))) as Hin.
  { intros i Hi Hlt. apply list_elem_of_filter. split; [done|]. apply elem_of_seq.
    rewrite length_app. simpl. lia. }
  intros [[Hx (i & -> & [Hi Hi']%list_elem_of_filter)]| ->]; left; (split; [done|]).
  - apply lookup_lt_Some in Hi as Hlt. exists i. split; [by rewrite take_app_le by lia|].
    apply Hin; [by rewrite lookup_app_l|lia].
  - exists (length p). split; [by rewrite take_app_length|].
    apply Hin; [by rewrite list_lookup_middle|done].
Qed.
