(* ===== verification/FileStore.v ===== *)
(** * FileStore: content-addressed chunk storage ([file_store.hpp],
    [file_store.cpp])

    The store is its root directory; its operations act on the file system. *)
From S2P Require Import Prelude Text Sha256 Chunker EntryCodec Fs.

(** [class FileStore] *)
Record FileStore := mkFileStore { store_root : bytes }.

(** [FileStore(std::string root_dir)] *)
Definition new_file_store (root_dir : bytes) : stateM fs FileStore :=
  create_directories (root_dir ++ str "/chunks") ;! mret (mkFileStore root_dir).

Definition chunk_path (b : FileStore) (x : Digest) : bytes :=
  store_root b ++ str "/chunks/" ++ to_hex x ++ str ".chunk".

Definition put_chunk (b : FileStore) (c : Chunk) : stateM fs unit := λ f,
  let p := chunk_path b (chunk_hash c) in
  if exists_ f p then (Ok tt, f) else write_file p (data c) f.

Definition has_chunk (b : FileStore) (f : fs) (x : Digest) : bool := exists_ f (chunk_path b x).

Definition get_chunk (b : FileStore) (f : fs) (x : Digest) : outcome bytes :=
  match read_file f (chunk_path b x) with
  | None => Throw (runtime_error (str "missing chunk: " ++ to_hex x))
  | Some d => Ok d
  end.

(** The loop of [reassemble], with the output vector threaded through. *)
Fixpoint reassemble_loop (b : FileStore) (f : fs) (hs : list Digest) (out : bytes) : outcome bytes :=
  match hs with
  | [] => Ok out
  | x :: hs => let! d := get_chunk b f x in reassemble_loop b f hs (out ++ d)
  end.
Definition reassemble (b : FileStore) (f : fs) (hs : list Digest) : outcome bytes :=
  reassemble_loop b f hs [].

Definition materialize_to (b : FileStore) (materialized_dir relative_path : bytes) (hs : list Digest)
    : stateM fs unit :=
  let full := path_join materialized_dir relative_path in
  create_directories (parent_path full) ;!
  let! d := (λ f, (reassemble b f hs, f)) in
  write_file full d.

(** ** Where chunks live *)

Lemma to_hex_inj x y : length x = 32 → length y = 32 → to_hex x = to_hex y → x = y.
Proof.
  intros Hx Hy H. apply (f_equal hex_to_digest) in H.
  rewrite !hex_to_digest_to_hex in H by done. by injection H.
Qed.

Lemma chunk_path_inj b x y :
  length x = 32 → length y = 32 → chunk_path b x = chunk_path b y → x = y.
Proof.
  intros Hx Hy H. unfold chunk_path in H.
  apply app_inv_head, (app_inv_head (str "/chunks/")), app_inv_tail in H. by apply to_hex_inj.
Qed.

Lemma chunk_path_parent b x : parent_path (chunk_path b x) = store_root b ++ str "/chunks".
Proof.
  unfold chunk_path. replace (store_root b ++ str "/chunks/" ++ to_hex x ++ str ".chunk")
    with ((store_root b ++ str "/chunks") ++ slash :: to_hex x ++ str ".chunk")
    by (by rewrite <- app_assoc).
  apply parent_path_slash; [|by intros [_ ?]%app_nil].
  rewrite not_elem_of_app. split; [|by_decide].
  apply to_hex_not_elem. intros [v Hv]. discriminate Hv.
Qed.

Lemma chunk_path_last b x : last (chunk_path b x) ≠ Some slash.
Proof. unfold chunk_path. by rewrite !last_app. Qed.

(** The state in which the constructor leaves the file system: the chunk
    directory is there, and no chunk name is taken by a directory. *)
Definition ready (b : FileStore) (f : fs) : Prop :=
  store_root b ++ str "/chunks" ∈ dirs f ∧ ∀ x, chunk_path b x ∉ dirs f.

(** Content addressing: every stored chunk hashes to its own name. *)
Definition intact (b : FileStore) (f : fs) : Prop :=
  ∀ x d, length x = 32 → files f !! chunk_path b x = Some d → hash d = x.

Lemma put_chunk_ready b c f :
  ready b f →
  put_chunk b c f = (Ok tt,
    match files f !! chunk_path b (chunk_hash c) with
    | Some _ => f
    | None => mkFs (<[chunk_path b (chunk_hash c) := data c]> (files f)) (dirs f)
    end).
Proof.
  intros [Hd Hn]. unfold put_chunk, exists_.
  rewrite (bool_decide_eq_false_2 (_ ∈ dirs f)), orb_false_r by apply Hn.
  destruct (files f !! chunk_path b (chunk_hash c)) eqn:E.
  - rewrite bool_decide_eq_true_2; [done|]. by eapply elem_of_dom_2.
  - rewrite bool_decide_eq_false_2 by (by apply not_elem_of_dom).
    apply write_file_ok; [apply Hn|apply chunk_path_last|].
    unfold dir_exists. rewrite chunk_path_parent, (bool_decide_eq_true_2 (_ ∈ dirs f)) by done.
    by rewrite orb_true_r.
Qed.

Lemma has_chunk_ready b f x : ready b f → has_chunk b f x = bool_decide (is_Some (files f !! chunk_path b x)).
Proof.
  intros [_ Hn]. unfold has_chunk, exists_.
  rewrite (bool_decide_eq_false_2 (_ ∈ dirs f)), orb_false_r by apply Hn.
  apply bool_decide_ext. apply elem_of_dom.
Qed.

Lemma get_chunk_Ok b f x d : get_chunk b f x = Ok d ↔ files f !! chunk_path b x = Some d.
Proof. unfold get_chunk, read_file. destruct (files f !! _); naive_solver. Qed.

Lemma reassemble_loop_out b f hs out :
  reassemble_loop b f hs out = let! d := reassemble b f hs in Ok (out ++ d).
Proof.
  unfold reassemble. revert out. induction hs as [|x hs IH]; intros out; simpl; [by rewrite app_nil_r|].
  destruct (get_chunk b f x) as [d| |]; simpl; try done.
  rewrite IH, (IH d). destruct (reassemble_loop b f hs []); simpl; try done. by rewrite app_assoc.
Qed.

Lemma reassemble_cons b f x hs :
  reassemble b f (x :: hs) =
    let! d := get_chunk b f x in let! rest := reassemble b f hs in Ok (d ++ rest).
Proof.
  unfold reassemble at 1. simpl. destruct (get_chunk b f x); simpl; try done. apply reassemble_loop_out.
Qed.

(** Reassembly concatenates the chunks, when all of them are there. *)
Lemma reassemble_Ok b f hs ds :
  Forall2 (λ x d, files f !! chunk_path b x = Some d) hs ds → reassemble b f hs = Ok (concat ds).
Proof.
  induction 1 as [|x d hs ds Hx _ IH]; [done|].
  rewrite reassemble_cons. apply get_chunk_Ok in Hx. by rewrite Hx; simpl; rewrite IH.
Qed.

(** Reassembly reads only the chunks it names. *)
Lemma reassemble_ext b f f' hs :
  Forall (λ x, files f !! chunk_path b x = files f' !! chunk_path b x) hs →
  reassemble b f hs = reassemble b f' hs.
Proof.
  induction 1 as [|x hs Hx _ IH]; [done|]. rewrite !reassemble_cons, IH.
  unfold get_chunk, read_file. by rewrite Hx.
Qed.

Lemma length_dir_prefix p q : q ∈ dir_prefixes p → length q ≤ length p.
Proof.
  unfold dir_prefixes. rewrite elem_of_app, list_elem_of_filter.
  intros [[_ H]|H%list_elem_of_singleton]; [|by subst].
  apply list_elem_of_fmap in H as (i & -> & _). rewrite length_take. lia.
Qed.

(** The constructor leaves the store ready, and adds nothing but directories. *)
Lemma new_file_store_ready root f :
  (∀ q, q ∈ dir_prefixes (root ++ str "/chunks") → q ∉ dom (files f)) →
  (∀ x, chunk_path (mkFileStore root) x ∉ dirs f) →
  ∃ f', new_file_store root f = (Ok (mkFileStore root), f') ∧ ready (mkFileStore root) f' ∧
    files f' = files f ∧ dirs f' = list_to_set (dir_prefixes (root ++ str "/chunks")) ∪ dirs f.
Proof.
  intros Hfree Hno. destruct (create_directories_ok (root ++ str "/chunks") f) as (f' & Hc & Hf & Hd).
  { by intros [_ ?]%app_nil. }
  { done. }
  exists f'. unfold new_file_store, mbind, stateM_bind. rewrite Hc.
  split_and!; [done| |done|done]. split; [|intros x]; rewrite Hd, elem_of_union, elem_of_list_to_set.
  - left. apply elem_of_dir_prefixes_self.
  - intros [Hx%length_dir_prefix|Hx]; [|by apply (Hno x)].
    unfold chunk_path in Hx; simpl in Hx. rewrite !length_app in Hx. simpl in Hx.
    rewrite length_app in Hx. lia.
Qed.

(** Two stores that agree on the chunks a file is made of reassemble the same. *)
Lemma reassemble_agree b f b' f' hs d :
  (∀ x, x ∈ hs → is_Some (files f' !! chunk_path b' x)) →
  (∀ x c c', x ∈ hs → files f !! chunk_path b x = Some c → files f' !! chunk_path b' x = Some c' → c = c') →
  reassemble b f hs = Ok d → reassemble b' f' hs = Ok d.
Proof.
  revert d. induction hs as [|x hs IH]; intros d Hp Ha; [done|]. rewrite !reassemble_cons.
  destruct (get_chunk b f x) as [c| |] eqn:Hc; simpl; try done.
  destruct (reassemble b f hs) as [ds| |]; simpl; try done. intros [= <-].
  destruct (Hp x) as [c' Hc']; [by left|].
  assert (c = c') as <-.
  { apply (Ha x); [by left| |done]. by apply get_chunk_Ok. }
  apply get_chunk_Ok in Hc' as ->. simpl. rewrite (IH ds); [done|..|done].
  - intros y Hy. apply Hp. by right.
  - intros y c1 c2 Hy. apply Ha. by right.
Qed.

(** ** Storing a list of chunks *)

(** The loop [for (const auto& c : chunks) put_chunk(c);] adds the chunks that
    were missing, each under its name, and touches nothing else. *)
Lemma put_chunks_ready b cs f :
  ready b f →
  ∃ f', for_each cs (put_chunk b) f = (Ok tt, f') ∧ ready b f' ∧ dirs f' = dirs f ∧
    (∀ p d, files f !! p = Some d → files f' !! p = Some d) ∧
    (∀ p d, files f' !! p = Some d → files f !! p = Some d ∨
       ∃ c, c ∈ cs ∧ p = chunk_path b (chunk_hash c) ∧ d = data c) ∧
    (∀ c, c ∈ cs → is_Some (files f' !! chunk_path b (chunk_hash c))).
Proof.
  revert f. induction cs as [|c cs IH]; intros f Hr.
  { exists f. split_and!; try done; [by left|intros c []%not_elem_of_nil]. }
  simpl. unfold mbind, stateM_bind. rewrite put_chunk_ready by done.
  set (f1 := match files f !! _ with Some _ => f | None => _ end).
  assert (dirs f1 = dirs f) as Hd1 by (unfold f1; by destruct (files f !! _)).
  assert (ready b f1) as Hr1 by (unfold ready in *; by rewrite Hd1).
  assert (∀ p d, files f !! p = Some d → files f1 !! p = Some d) as Hkeep.
  { intros p d Hp. unfold f1. destruct (files f !! chunk_path b (chunk_hash c)) eqn:E; [done|].
    simpl. rewrite lookup_insert_ne; [done|]. congruence. }
  assert (∀ p d, files f1 !! p = Some d → files f !! p = Some d ∨
    p = chunk_path b (chunk_hash c) ∧ d = data c) as Hnew.
  { intros p d. unfold f1. destruct (files f !! chunk_path b (chunk_hash c)) eqn:E; [by left|].
    simpl. intros [[<- <-]|[_ ?]]%lookup_insert_Some; auto. }
  assert (is_Some (files f1 !! chunk_path b (chunk_hash c))) as Hc.
  { unfold f1. destruct (files f !! chunk_path b (chunk_hash c)) eqn:E; [by eexists|].
    simpl. rewrite lookup_insert_eq. by eexists. }
  destruct (IH f1 Hr1) as (f' & Hf' & Hr' & Hd' & Hk' & Hn' & Hs'). exists f'.
  split_and!; [done|done|congruence|auto| |].
  - intros p d [H|(c' & Hc' & -> & ->)]%Hn'.
    + apply Hnew in H as [?|[-> ->]]; [by left|]. right. exists c. split_and!; [by left|done|done].
    + right. exists c'. split_and!; [by right|done|done].
  - intros c' [->|Hin]%elem_of_cons; [|by apply Hs'].
    destruct Hc as [d Hd]. exists d. by apply Hk'.
Qed.

(** The contents that [cs] and the store agree on. *)
Definition no_clash (b : FileStore) (f : fs) (cs : list Chunk) : Prop :=
  ∀ c, c ∈ cs →
    (∀ d, files f !! chunk_path b (chunk_hash c) = Some d → hash d = hash (data c) → d = data c) ∧
    (∀ c', c' ∈ cs → hash (data c') = hash (data c) → data c' = data c).

(** More chunks do not change what can be reassembled. *)
Lemma reassemble_mono b f f' hs d :
  (∀ x d, files f !! chunk_path b x = Some d → files f' !! chunk_path b x = Some d) →
  reassemble b f hs = Ok d → reassemble b f' hs = Ok d.
Proof.
  intros Hf. revert d. induction hs as [|x hs IH]; intros d; [done|]. rewrite !reassemble_cons.
  destruct (get_chunk b f x) as [dx| |] eqn:Hx; try done. apply get_chunk_Ok, Hf, get_chunk_Ok in Hx as ->.
  simpl. destruct (reassemble b f hs) as [ds| |] eqn:Hs; try done. by rewrite (IH ds).
Qed.

(** Nothing stored changes, and only these chunks are added. *)
Definition chunks_grow (b : FileStore) (f : fs) (cs : list Chunk) (f' : fs) : Prop :=
  (∀ p d, files f !! p = Some d → files f' !! p = Some d) ∧
  (∀ p d, files f' !! p = Some d → files f !! p = Some d ∨
     ∃ c, c ∈ cs ∧ p = chunk_path b (chunk_hash c) ∧ d = data c).

Lemma store_chunks b cs f :
  ready b f → intact b f → Forall (λ c, chunk_hash c = hash (data c)) cs →
  ∃ f', for_each cs (put_chunk b) f = (Ok tt, f') ∧ ready b f' ∧ intact b f' ∧ dirs f' = dirs f ∧
    (∀ p, (∀ x, p ≠ chunk_path b x) → files f' !! p = files f !! p) ∧
    (no_clash b f cs → reassemble b f' (chunk_hash <$> cs) = Ok (bytes_of cs)) ∧
    chunks_grow b f cs f'.
Proof.
  intros Hr Hi Hok. destruct (put_chunks_ready b cs f Hr) as (f' & Hf' & Hr' & Hd' & Hk & Hn & Hs).
  rewrite Forall_forall in Hok.
  assert (intact b f') as Hi'.
  { intros x d Hx [Hd|(c & Hc & Hp & ->)]%Hn; [by apply Hi|].
    apply chunk_path_inj in Hp as ->; [by rewrite <- (Hok c Hc)|done|].
    rewrite (Hok c Hc). apply length_hash. }
  exists f'. split_and!; try done.
  - intros p Hp. destruct (files f !! p) as [d|] eqn:E; [by apply Hk|].
    destruct (files f' !! p) as [d|] eqn:E'; [|done].
    apply Hn in E' as [?|(c & _ & -> & _)]; [congruence|]. by destruct (Hp (chunk_hash c)).
  - intros Hcl. unfold bytes_of. apply reassemble_Ok, Forall2_fmap_2, Forall_Forall2_diag, Forall_forall.
    intros c Hc. destruct (Hs c Hc) as [d Hd]. rewrite Hd. f_equal.
    destruct (Hcl c Hc) as [H1 H2].
    assert (hash d = hash (data c)) as Hh.
    { rewrite <- (Hok c Hc). apply (Hi' _ _); [|done]. rewrite (Hok c Hc). apply length_hash. }
    apply Hn in Hd as [Hd|(c' & Hc' & _ & ->)]; [by apply H1|by apply H2].
Qed.

(** ** Materializing *)

Lemma length_parent_path p : p ≠ [] → last p ≠ Some slash → length (parent_path p) < length p.
Proof.
  intros Hp Hs. unfold parent_path. destruct (find_last_of slash p) as [[|i]|] eqn:E.
  - apply find_last_of_Some in E as [E _]. destruct p as [|c [|c' p]]; simpl in *; [done| |lia].
    by injection E as ->.
  - apply find_last_of_Some in E as [E _]. apply lookup_lt_Some in E. rewrite length_take. lia.
  - destruct p; [done|simpl; lia].
Qed.

Lemma materialize_to_Ok b dir rel hs d f :
  let full := path_join dir rel in
  parent_path full ≠ [] → last full ≠ Some slash → full ∉ dirs f →
  (∀ q, q ∈ dir_prefixes (parent_path full) → q ∉ dom (files f)) →
  reassemble b f hs = Ok d →
  ∃ f', materialize_to b dir rel hs f = (Ok tt, f') ∧
    files f' = <[full := d]> (files f) ∧
    dirs f' = list_to_set (dir_prefixes (parent_path full)) ∪ dirs f.
Proof.
  intros full Hp Hs Hfull Hfree Hre. unfold materialize_to. fold full.
  destruct (create_directories_ok (parent_path full) f Hp Hfree) as (f1 & Hc & Hf1 & Hd1).
  assert (reassemble b f1 hs = Ok d) as Hre1.
  { rewrite <- Hre. apply reassemble_ext, Forall_forall. intros x _. by rewrite Hf1. }
  assert (full ≠ []) as Hne by (by intros E; rewrite E in Hp).
  unfold mbind, stateM_bind. rewrite Hc. simpl. rewrite Hre1. simpl.
  rewrite write_file_ok; [|  |done| ].
  - eexists. split; [done|]. simpl. by rewrite Hf1.
  - rewrite Hd1, elem_of_union, elem_of_list_to_set. intros [H%length_dir_prefix|?]; [|done].
    pose proof (length_parent_path full Hne Hs). lia.
  - unfold dir_exists. rewrite Hd1, (bool_decide_eq_true_2 (_ ∈ _)); [by rewrite orb_true_r|].
    apply elem_of_union. left. apply elem_of_list_to_set, elem_of_dir_prefixes_self.
Qed.

(** What materializing can touch, whether it succeeds or throws: the file itself
    and directories on the way to it, all of them prefixes of its name. *)
Lemma parent_path_prefix p : parent_path p `prefix_of` p.
Proof.
  unfold parent_path. destruct (find_last_of slash p) as [[|i]|] eqn:E.
  - apply find_last_of_Some in E as [E _]. destruct p as [|c p]; [done|].
    injection E as ->. by exists p.
  - exists (drop (S i) p). by rewrite take_drop.
  - by exists p.
Qed.

Lemma dir_prefixes_prefix p q : q ∈ dir_prefixes p → q `prefix_of` p.
Proof.
  unfold dir_prefixes. rewrite elem_of_app, list_elem_of_filter.
  intros [[_ H]|H%list_elem_of_singleton]; [|by subst].
  apply list_elem_of_fmap in H as (i & -> & _). exists (drop i p). by rewrite take_drop.
Qed.

Lemma materialize_to_frame b dir rel hs f :
  let f' := (materialize_to b dir rel hs f).2 in
  dirs f ⊆ dirs f' ∧
  (∀ q, q ≠ path_join dir rel → files f' !! q = files f !! q) ∧
  (∀ q, ¬ q `prefix_of` path_join dir rel → q ∈ dirs f' → q ∈ dirs f).
Proof.
  unfold materialize_to. set (full := path_join dir rel).
  pose proof (create_directories_files (parent_path full) f) as Hf.
  pose proof (create_directories_dirs (parent_path full) f) as Hd.
  pose proof (create_directories_only (parent_path full) f) as Ho.
  unfold mbind, stateM_bind.
  destruct (create_directories (parent_path full) f) as [r f1]; simpl in *.
  assert (∀ q, ¬ q `prefix_of` full → q ∈ dirs f1 → q ∈ dirs f) as Ho'.
  { intros q Hq [?|H%dir_prefixes_prefix]%Ho; [done|]. destruct Hq. etrans; [exact H|apply parent_path_prefix]. }
  assert (dirs f ⊆ dirs f1 ∧ (∀ q, q ≠ full → files f1 !! q = files f !! q) ∧
    (∀ q, ¬ q `prefix_of` full → q ∈ dirs f1 → q ∈ dirs f)) as H1 by (rewrite Hf; auto).
  destruct r; [|done|done]. destruct (reassemble b f1 hs) as [d| |]; [|done|done].
  destruct (write_file_Ok full d f1) as (f2 & -> & Hd2 & Hf2). simpl. rewrite Hd2.
  split_and!; [apply H1| |apply H1]. intros q Hq. rewrite Hf2 by done. by apply H1.
Qed.

Lemma materialize_to_behaves b dir rel hs f : behaves (materialize_to b dir rel hs f).1.
Proof.
  unfold materialize_to, mbind, stateM_bind.
  pose proof (create_directories_behaves (parent_path (path_join dir rel)) f) as Hr.
  destruct (create_directories _ f) as [r f1]. cbn [fst] in Hr.
  destruct r; [|done|done].
  assert (behaves (reassemble b f1 hs)) as Hre.
  { clear. induction hs as [|x hs IH]; [done|]. rewrite reassemble_cons. unfold get_chunk.
    destruct (read_file f1 _); simpl; [|done]. by destruct (reassemble b f1 hs). }
  destruct (reassemble b f1 hs) as [d| |]; [|done|done].
  by destruct (write_file_Ok (path_join dir rel) d f1) as (f2 & -> & _).
Qed.

(** A fresh store, and a chunk for it. *)
Definition sample_files : FileStore := mkFileStore (str "d").
Definition sample_disk : fs := (new_file_store (str "d") empty_fs).2.
Definition sample_chunk : Chunk := mkChunk 0 (str "hello") (hash (str "hello")).

Lemma sample_ready : ready sample_files sample_disk ∧ files sample_disk = ∅.
Proof.
  destruct (new_file_store_ready (str "d") empty_fs) as (f' & Hf & Hr & Hfs & _).
  - intros q _ ?%elem_of_dom. simpl in *. rewrite lookup_empty in *. by destruct H.
  - intros x ?%not_elem_of_empty. done.
  - unfold sample_disk. rewrite Hf. done.
Qed.

Lemma sample_intact : intact sample_files sample_disk.
Proof. intros x d _. destruct sample_ready as [_ ->]. by rewrite lookup_empty. Qed.

(** ** Properties *)

(** What is stored can be read back: on an intact store, putting a list of
    chunks that carry their own hashes and clash with nothing, then reassembling
    their hashes in order, returns the concatenation of the chunks; the store
    stays intact, and no file other than a chunk is touched. *)
Theorem put_then_reassemble b cs f :
  ready b f → intact b f → Forall (λ c, chunk_hash c = hash (data c)) cs → no_clash b f cs →
  ∃ f', for_each cs (put_chunk b) f = (Ok tt, f') ∧ ready b f' ∧ intact b f' ∧
    reassemble b f' (chunk_hash <$> cs) = Ok (bytes_of cs) ∧
    ∀ p, (∀ x, p ≠ chunk_path b x) → files f' !! p = files f !! p.
Proof.
  intros Hr Hi Hok Hcl. destruct (store_chunks b cs f Hr Hi Hok) as (f' & H1 & H2 & H3 & _ & H4 & H5 & _).
  exists f'. split_and!; [done|done|done|by apply H5|done].
Qed.

Lemma put_then_reassemble_witness :
  ∃ f', for_each [sample_chunk; sample_chunk] (put_chunk sample_files) sample_disk = (Ok tt, f') ∧
    reassemble sample_files f' [hash (str "hello"); hash (str "hello")] = Ok (str "hellohello").
Proof.
  destruct (put_then_reassemble sample_files [sample_chunk; sample_chunk] sample_disk)
    as (f' & H1 & _ & _ & H2 & _).
  - apply sample_ready.
  - apply sample_intact.
  - repeat constructor.
  - intros c Hc. apply (elem_of_replicate_inv _ 2 sample_chunk) in Hc as ->.
    split; [intros d Hd; destruct sample_ready as [_ E]; rewrite E in Hd; destruct (lookup_empty_Some _ _ Hd)|].
    intros c' Hc' _. apply (elem_of_replicate_inv _ 2 sample_chunk) in Hc' as ->. reflexivity.
  - exists f'. split; [exact H1|exact H2].
Defined.

(** Chunks are stored once: a chunk already present leaves the file system as
    it is, a missing one adds exactly its file, and afterwards it is present and
    every other chunk is as before. *)
Theorem put_chunk_once b c f :
  ready b f → length (chunk_hash c) = 32 →
  ∃ f', put_chunk b c f = (Ok tt, f') ∧
    (has_chunk b f (chunk_hash c) = true → f' = f) ∧
    (has_chunk b f (chunk_hash c) = false → get_chunk b f' (chunk_hash c) = Ok (data c)) ∧
    has_chunk b f' (chunk_hash c) = true ∧ put_chunk b c f' = (Ok tt, f') ∧
    ∀ x, length x = 32 → x ≠ chunk_hash c → get_chunk b f' x = get_chunk b f x.
Proof.
  intros Hr Hlen. rewrite put_chunk_ready by done. eexists. split; [done|].
  set (p := chunk_path b (chunk_hash c)).
  set (f' := match files f !! p with Some _ => f | None => _ end).
  assert (dirs f' = dirs f) as Hd by (unfold f'; by destruct (files f !! p)).
  assert (ready b f') as Hr' by (unfold ready in *; by rewrite Hd).
  assert (is_Some (files f' !! p)) as Hp.
  { unfold f'. destruct (files f !! p) eqn:E; [by eexists|]. simpl. rewrite lookup_insert_eq. by eexists. }
  rewrite !has_chunk_ready by done. fold p. split_and!.
  - rewrite bool_decide_eq_true. intros [d Hfd]. unfold f'. by rewrite Hfd.
  - rewrite bool_decide_eq_false. intros Hn%eq_None_not_Some. apply get_chunk_Ok. fold p.
    unfold f'. rewrite Hn. apply lookup_insert_eq.
  - by apply bool_decide_eq_true_2.
  - rewrite put_chunk_ready by done. fold p. by destruct Hp as [d ->].
  - intros x Hx Hne. unfold get_chunk, read_file, f'. destruct (files f !! p) eqn:E; [done|].
    simpl. rewrite lookup_insert_ne; [done|]. intros Heq. apply Hne. symmetry. by eapply chunk_path_inj.
Qed.

Lemma put_chunk_once_witness :
  ∃ f', put_chunk sample_files sample_chunk sample_disk = (Ok tt, f') ∧
    has_chunk sample_files f' (hash (str "hello")) = true.
Proof.
  destruct (put_chunk_once sample_files sample_chunk sample_disk) as (f' & H1 & _ & _ & H2 & _).
  - apply sample_ready.
  - apply length_hash.
  - exists f'. split; [exact H1|exact H2].
Defined.

(** Reassembly fails cleanly: it returns the bytes iff every chunk is stored,
    and otherwise throws the error that names the first missing chunk. *)
Theorem reassemble_complete_or_throws b f hs :
  (∃ ds, Forall2 (λ x d, files f !! chunk_path b x = Some d) hs ds ∧ reassemble b f hs = Ok (concat ds)) ∨
  (∃ pre x post, hs = pre ++ x :: post ∧
     Forall (λ y, is_Some (files f !! chunk_path b y)) pre ∧ files f !! chunk_path b x = None ∧
     reassemble b f hs = Throw (runtime_error (str "missing chunk: " ++ to_hex x))).
Proof.
  induction hs as [|x hs IH]; [left; exists []; by split|].
  rewrite reassemble_cons. destruct (files f !! chunk_path b x) as [d|] eqn:E.
  - pose proof E as E'. apply get_chunk_Ok in E' as ->. simpl.
    destruct IH as [(ds & Hds & ->)|(pre & y & post & -> & Hpre & Hy & ->)].
    + left. exists (d :: ds). split; [by constructor|done].
    + right. exists (x :: pre), y, post. split_and!; [done|by constructor|done|done].
  - right. exists [], x, hs. split_and!; [done|constructor|done|]. unfold get_chunk, read_file. by rewrite E.
Qed.

(** The materialization directory does not confine an absolute path: when the
    entry's path starts with a slash the directory is ignored, so the file is
    written wherever the entry, which may come from a peer, says. *)
Theorem absolute_path_escapes b dir rel hs d f :
  head rel = Some slash → last rel ≠ Some slash → parent_path rel ≠ [] → rel ∉ dirs f →
  (∀ q, q ∈ dir_prefixes (parent_path rel) → q ∉ dom (files f)) →
  reassemble b f hs = Ok d →
  ∃ f', materialize_to b dir rel hs f = (Ok tt, f') ∧ files f' !! rel = Some d.
Proof.
  intros Hh Hs Hp Hrel Hfree Hre.
  assert (path_join dir rel = rel) as Hj.
  { destruct rel as [|c rel]; [done|]. injection Hh as ->. unfold path_join. by rewrite decide_True. }
  destruct (materialize_to_Ok b dir rel hs d f) as (f' & H1 & H2 & _); rewrite ?Hj; try done.
  exists f'. split; [done|]. rewrite H2, Hj. apply lookup_insert_eq.
Qed.

Lemma absolute_path_escapes_witness :
  ∃ f', materialize_to sample_files (str "d/files") (str "/etc/passwd") [] empty_fs = (Ok tt, f') ∧
    files f' !! str "/etc/passwd" = Some [].
Proof.
  apply (absolute_path_escapes sample_files (str "d/files") (str "/etc/passwd") [] [] empty_fs).
  - reflexivity.
  - by_decide.
  - by_decide.
  - by_decide.
  - intros q _. change (files empty_fs) with (∅ : gmap bytes bytes). rewrite dom_empty. apply not_elem_of_empty.
  - reflexivity.
Defined.
