(* ===== verification/SyncEngine.v ===== *)
(** * SyncEngine: one node's engine ([sync_engine.hpp], [sync_engine.cpp])

    The engine ties chunker, Merkle tree, metadata store and chunk store together.
    Its operations run in a world: the engine object, the file system and the
    text written to [std::cout].  An exception leaves the world as far as the
    operation had come. *)
From S2P Require Import Prelude Text VectorClock Sha256 Chunker MerkleTree FileEntry CrdtStore EntryCodec Fs FileStore.

(** ** [class SyncEngine] *)
Record SyncEngine := mkEngine {
  engine_id : bytes;           (* [node_id_] *)
  data_dir_ : bytes;
  materialized_dir_ : bytes;
  chunker_ : Chunker;
  blobs_ : FileStore;
  store_ : CrdtStore;
}.

Record World := mkWorld { engine : SyncEngine; disk : fs; stdout : bytes }.

Definition with_store (s : CrdtStore) (e : SyncEngine) : SyncEngine :=
  mkEngine (engine_id e) (data_dir_ e) (materialized_dir_ e) (chunker_ e) (blobs_ e) s.

(** A file system operation, a change of the metadata store, and [std::cout <<]. *)
Definition on_disk {A} (m : stateM fs A) : stateM World A := λ w,
  let '(r, f) := m (disk w) in (r, mkWorld (engine w) f (stdout w)).
Definition set_store (s : CrdtStore) (w : World) : World :=
  mkWorld (with_store s (engine w)) (disk w) (stdout w).
Definition cout (msg : bytes) : stateM World unit :=
  modify (λ w, mkWorld (engine w) (disk w) (stdout w ++ msg)).

Definition store_of (w : World) : CrdtStore := store_ (engine w).
Definition blobs_of (w : World) : FileStore := blobs_ (engine w).

(** ** The journal *)
Definition journal_path (e : SyncEngine) : bytes := data_dir_ e ++ str "/store.meta".

(** The [while (std::getline(in, line))] loop of [load_journal]. *)
Fixpoint load_lines (s : CrdtStore) (lines : list bytes) : outcome CrdtStore :=
  match lines with
  | [] => Ok s
  | line :: lines =>
      if decide (line = []) then load_lines s lines
      else let! e := line_to_entry line in load_lines (load_entry s e) lines
  end.

Definition load_journal (e : SyncEngine) : stateM fs SyncEngine := λ f,
  match read_file f (journal_path e) with
  | None => (Ok e, f)
  | Some text => (let! s := load_lines (store_ e) (getlines newline text) in Ok (with_store s e), f)
  end.

(** [out << entry_to_line(e) << "\n"] for every entry. *)
Definition journal_text (s : CrdtStore) : bytes :=
  unlines newline (entry_to_line <$> all_entries s).

Definition save_journal : stateM World unit := λ w,
  on_disk (write_file (journal_path (engine w)) (journal_text (store_of w))) w.

(** [SyncEngine(std::string node_id, std::string data_dir)]: the members in the
    order of their declaration, then the body. *)
Definition new_engine (node_id data_dir : bytes) : stateM fs SyncEngine :=
  let! blobs := new_file_store (data_dir ++ str "/blobstore") in
  create_directories data_dir ;!
  load_journal (mkEngine node_id data_dir (data_dir ++ str "/files") default_chunker blobs
                  (new_store node_id)).

(** ** Ingesting a file *)

(** [if (!(prev->chunk_hashes[i] == chunks[i].hash)) changed++;] for every [i]. *)
Fixpoint count_changed (prev : list Digest) (chunks : list Chunk) : N :=
  match prev, chunks with
  | x :: prev, c :: chunks =>
      (if decide (x = chunk_hash c) then 0 else 1) + count_changed prev chunks
  | _, _ => 0
  end%N.

Definition size_text {A} (l : list A) : bytes := to_dec (N.of_nat (length l)).

(** What [ingest_file] reports about the previous version. *)
Definition ingest_report (node_id p : bytes) (prev : option FileEntry) (chunks : list Chunk) : bytes :=
  let fresh := str "[" ++ node_id ++ str "] " ++ p ++ str ": new file, "
    ++ size_text chunks ++ str " chunk(s)" ++ [newline] in
  match prev with
  | Some e =>
      if has_content e then
        if decide (length (chunk_hashes e) = length chunks) then
          str "[" ++ node_id ++ str "] " ++ p ++ str ": "
            ++ to_dec (count_changed (chunk_hashes e) chunks) ++ str "/" ++ size_text chunks
            ++ str " chunks changed vs. previous version" ++ [newline]
        else
          str "[" ++ node_id ++ str "] " ++ p ++ str ": chunk count changed ("
            ++ size_text (chunk_hashes e) ++ str " -> " ++ size_text chunks
            ++ str "), treating as full re-chunk" ++ [newline]
      else fresh
  | None => fresh
  end.

(** The loop that stores the chunks and collects their hashes and total size. *)
Fixpoint store_loop (b : FileStore) (chunks : list Chunk) (hashes : list Digest) (total_size : N)
    : stateM fs (list Digest * N) :=
  match chunks with
  | [] => mret (hashes, total_size)
  | c :: chunks =>
      put_chunk b c ;!
      store_loop b chunks (hashes ++ [chunk_hash c])
        (u64 (total_size + N.of_nat (length (data c))))
  end.

Definition materialize (p : bytes) : stateM World unit := λ w,
  match get_entry (store_of w) p with
  | Some e =>
      if has_content e
      then on_disk (materialize_to (blobs_of w) (materialized_dir_ (engine w)) p (chunk_hashes e)) w
      else (Ok tt, w)
  | None => (Ok tt, w)
  end.

(** [*store_.get(path)] *)
Definition deref_entry (p : bytes) : stateM World FileEntry := λ w,
  match get_entry (store_of w) p with Some e => (Ok e, w) | None => (UB, w) end.

(** [ingest_file] as far as the call of [put_local]. *)
Definition ingest_record (p b : bytes) : stateM World unit :=
  let! w := get_state in
  let chunks := chunk (chunker_ (engine w)) b in
  let new_tree := build chunks in
  let prev := get_entry (store_of w) p in
  cout (ingest_report (engine_id (engine w)) p prev chunks) ;!
  let! hs := on_disk (store_loop (blobs_of w) chunks [] 0) in
  let! rt := lift (if empty new_tree then Ok zero_digest else root new_tree) in
  modify (λ w, set_store (put_local (store_of w) p hs.1 rt hs.2) w).

Definition ingest_file (p b : bytes) : stateM World FileEntry :=
  ingest_record p b ;! materialize p ;! save_journal ;! deref_entry p.

Definition delete_file (p : bytes) : stateM World unit :=
  modify (λ w, set_store (delete_local (store_of w) p) w) ;!
  save_journal.

Lemma on_disk_ok {A} (m : stateM fs A) w r f' :
  m (disk w) = (r, f') → on_disk m w = (r, mkWorld (engine w) f' (stdout w)).
Proof. unfold on_disk. by intros ->. Qed.

(** ** The layout of a node's directory *)

(** How the constructor's members hang together. *)
Record wired (e : SyncEngine) : Prop := {
  wired_files : materialized_dir_ e = data_dir_ e ++ str "/files";
  wired_blobs : blobs_ e = mkFileStore (data_dir_ e ++ str "/blobstore");
  wired_chunker : chunker_ e = default_chunker;
  wired_id : node_id_ (store_ e) = engine_id e;
  wired_dir : data_dir_ e ≠ [];
}.

(** Where a path is materialized. *)
Definition target (e : SyncEngine) (p : bytes) : bytes := path_join (materialized_dir_ e) p.

Lemma target_plain e p : wired e → plain p → target e p = data_dir_ e ++ str "/files/" ++ p.
Proof.
  intros [Hf _ _ _ Hd] Hp. unfold target. rewrite path_join_plain; rewrite ?Hf; [|done|..].
  - by rewrite <- app_assoc.
  - by intros [_ ?]%app_nil.
  - by rewrite last_app.
Qed.

(** Chunks, journal and materialized files do not get in each other's way. *)
Lemma chunk_path_not_target e p x :
  wired e → plain p → ¬ chunk_path (blobs_ e) x `prefix_of` target e p.
Proof.
  intros He Hp. rewrite target_plain, (wired_blobs e He) by done. unfold chunk_path; simpl.
  rewrite <- app_assoc. intros H%prefix_app_inv.
  do 2 apply prefix_cons_inv_2 in H. by apply prefix_cons_inv_1 in H.
Qed.

Lemma journal_not_target e p : wired e → plain p → ¬ journal_path e `prefix_of` target e p.
Proof.
  intros He Hp. rewrite target_plain by done. unfold journal_path. intros H%prefix_app_inv.
  do 2 apply prefix_cons_inv_2 in H. by apply prefix_cons_inv_1 in H.
Qed.

Lemma journal_not_chunk e x : wired e → journal_path e ≠ chunk_path (blobs_ e) x.
Proof.
  intros He. rewrite (wired_blobs e He). unfold journal_path, chunk_path; simpl.
  rewrite <- app_assoc. by intros H%app_inv_head.
Qed.

Lemma target_not_chunk e p x : wired e → plain p → target e p ≠ chunk_path (blobs_ e) x.
Proof. intros He Hp H. apply (chunk_path_not_target e p x He Hp). by rewrite H. Qed.
Lemma target_not_journal e p : wired e → plain p → target e p ≠ journal_path e.
Proof. intros He Hp H. apply (journal_not_target e p He Hp). by rewrite H. Qed.

Lemma target_inj e p q : wired e → plain p → plain q → target e p = target e q → p = q.
Proof.
  intros He Hp Hq. rewrite !target_plain by done. by intros H%app_inv_head%(app_inv_head (str "/files/")).
Qed.

(** The directory of the chunks, and the directories above it. *)
Definition chunk_dir (e : SyncEngine) : bytes := store_root (blobs_ e) ++ str "/chunks".

Lemma chunk_dir_prefix e q :
  wired e → q ∈ dir_prefixes (chunk_dir e) →
  q ≠ journal_path e ∧ (∀ x, q ≠ chunk_path (blobs_ e) x) ∧ ∀ p, plain p → q ≠ target e p.
Proof.
  intros He Hq. apply dir_prefixes_prefix in Hq as Hpre. split_and!.
  - intros ->. revert Hpre. unfold chunk_dir, journal_path. rewrite (wired_blobs e He); simpl.
    rewrite <- app_assoc. intros H%prefix_app_inv. apply prefix_cons_inv_2 in H.
    by apply prefix_cons_inv_1 in H.
  - intros x ->. apply prefix_length in Hpre. revert Hpre. unfold chunk_dir, chunk_path.
    rewrite !length_app. simpl. lia.
  - intros p Hp ->. revert Hpre. rewrite target_plain by done. unfold chunk_dir.
    rewrite (wired_blobs e He); simpl. rewrite <- app_assoc. intros H%prefix_app_inv.
    apply prefix_cons_inv_2 in H. by apply prefix_cons_inv_1 in H.
Qed.

(** ** The invariant of a node *)
Record engine_ok (w : World) : Prop := {
  ok_wired : wired (engine w);
  ok_ready : ready (blobs_of w) (disk w);
  ok_intact : intact (blobs_of w) (disk w);
  ok_store : store_inv (store_of w);
  ok_home : data_dir_ (engine w) ∈ dirs (disk w);
  ok_journal : journal_path (engine w) ∉ dirs (disk w);
  ok_free : ∀ q, q ∈ dir_prefixes (chunk_dir (engine w)) → q ∉ dom (files (disk w));
}.

(** A step that keeps the engine's members, the chunks and the directories of
    chunks and journal keeps the invariant. *)
Lemma engine_ok_transfer w w' s :
  engine_ok w → engine w' = with_store s (engine w) → node_id_ s = node_id_ (store_of w) →
  store_inv s → dirs (disk w) ⊆ dirs (disk w') →
  (∀ x, files (disk w') !! chunk_path (blobs_of w) x = files (disk w) !! chunk_path (blobs_of w) x) →
  (∀ x, chunk_path (blobs_of w) x ∈ dirs (disk w') → chunk_path (blobs_of w) x ∈ dirs (disk w)) →
  (journal_path (engine w) ∈ dirs (disk w') → journal_path (engine w) ∈ dirs (disk w)) →
  (∀ q, q ∈ dir_prefixes (chunk_dir (engine w)) → files (disk w') !! q = files (disk w) !! q) →
  engine_ok w'.
Proof.
  intros [[W1 W2 W3 W4 W5] [R1 R2] Hi Hs Hh Hj Hfr] He Hid Hs' Hd Hc Hcd Hjd Hdf.
  unfold blobs_of, store_of in *. split; unfold blobs_of, store_of, journal_path; rewrite He; simpl.
  - split; simpl; [done|done|done|congruence|done].
  - split; [by apply Hd|]. intros x Hx%Hcd. by apply (R2 x).
  - intros x d Hx. rewrite Hc. by apply Hi.
  - done.
  - by apply Hd.
  - intros H%Hjd. done.
  - intros q Hq. unfold chunk_dir in *; simpl in *. rewrite not_elem_of_dom, Hdf by done.
    by apply not_elem_of_dom, Hfr.
Qed.

Lemma engine_ok_store w s :
  engine_ok w → node_id_ s = node_id_ (store_of w) → store_inv s → engine_ok (set_store s w).
Proof. intros Hw Hid Hs. by apply (engine_ok_transfer w _ s). Qed.

Lemma engine_ok_cout w msg :
  engine_ok w → engine_ok (mkWorld (engine w) (disk w) (stdout w ++ msg)).
Proof.
  intros Hw. apply (engine_ok_transfer w _ (store_of w)); try done; [by destruct w as [[]]|apply Hw].
Qed.
#[export] Hint Resolve ok_wired ok_ready ok_intact ok_store : sync.

(** ** The journal is written *)

Definition journal_written (w : World) : World :=
  mkWorld (engine w)
    (mkFs (<[journal_path (engine w) := journal_text (store_of w)]> (files (disk w))) (dirs (disk w)))
    (stdout w).

Lemma journal_parent e : wired e → parent_path (journal_path e) = data_dir_ e.
Proof.
  intros He. unfold journal_path. change (str "/store.meta") with (slash :: str "store.meta").
  apply parent_path_slash; [by_decide|apply He].
Qed.

Lemma save_journal_ok w :
  engine_ok w → save_journal w = (Ok tt, journal_written w) ∧ engine_ok (journal_written w).
Proof.
  intros Hw. pose proof (ok_wired w Hw) as He. split.
  - unfold save_journal, on_disk. rewrite write_file_ok; [done|apply Hw| |].
    + unfold journal_path. by rewrite last_app.
    + unfold dir_exists. rewrite journal_parent, (bool_decide_eq_true_2 (_ ∈ dirs _)) by
        first [done | apply Hw].
      by rewrite orb_true_r.
  - apply (engine_ok_transfer w _ (store_of w)); try done; [by destruct w as [[]]|apply Hw| |].
    + intros x. simpl. rewrite lookup_insert_ne; [done|]. by apply journal_not_chunk.
    + intros q Hq. simpl. rewrite lookup_insert_ne; [done|].
      by destruct (chunk_dir_prefix (engine w) q He Hq) as [? _].
Qed.

(** ** Materializing *)

(** Materializing keeps the invariant, whether or not it succeeds. *)
Lemma materialize_safe w p :
  engine_ok w → plain p →
  (materialize p w).1 ≠ UB ∧ engine_ok (materialize p w).2 ∧
  engine (materialize p w).2 = engine w ∧
  (∀ q, q ≠ target (engine w) p →
    files (disk (materialize p w).2) !! q = files (disk w) !! q).
Proof.
  intros Hw Hp. unfold materialize. destruct (get_entry (store_of w) p) as [e|]; [|done].
  destruct (has_content e); [|done]. unfold on_disk.
  pose proof (materialize_to_frame (blobs_of w) (materialized_dir_ (engine w)) p (chunk_hashes e) (disk w)) as (Hd & Hf & Hq).
  pose proof (materialize_to_behaves (blobs_of w) (materialized_dir_ (engine w)) p (chunk_hashes e) (disk w)) as Hu.
  destruct (materialize_to _ _ _ _ _) as [r f']; simpl in *. split_and!; [by apply behaves_not_UB| |done|exact Hf].
  pose proof (ok_wired w Hw) as He.
  apply (engine_ok_transfer w _ (store_of w)); try done.
  - by destruct w as [[]].
  - apply Hw.
  - intros x. simpl. apply Hf. intros E. by apply (target_not_chunk (engine w) p x).
  - intros x. by apply Hq, chunk_path_not_target.
  - by apply Hq, journal_not_target.
  - intros q Hq'. simpl. apply Hf. destruct (chunk_dir_prefix (engine w) q He Hq') as (_ & _ & Ht). by apply Ht.
Qed.

(** Nothing is in the way of the file of [p]. *)
Definition placeable (e : SyncEngine) (f : fs) (p : bytes) : Prop :=
  target e p ∉ dirs f ∧ ∀ q, q ∈ dir_prefixes (parent_path (target e p)) → q ∉ dom (files f).

Lemma target_parent e p : wired e → plain p → parent_path (target e p) ≠ [] ∧ last (target e p) ≠ Some slash.
Proof.
  intros He Hp. rewrite target_plain by done. split.
  - unfold parent_path. set (full := data_dir_ e ++ _).
    destruct (find_last_of slash full) as [[|i]|] eqn:E; [done| |].
    + apply find_last_of_Some in E as [E _]. apply lookup_lt_Some in E.
      intros H. apply (f_equal length) in H. rewrite length_take in H. cbn [length] in H. lia.
    + apply find_last_of_None in E. destruct E. unfold full.
      apply elem_of_app. right. apply elem_of_app. left. by_decide.
  - destruct Hp as (Hne & Hl & _). rewrite app_assoc, last_app.
    destruct (last p) eqn:E; [done|]. by apply last_None in E.
Qed.

Lemma materialize_ok w p e d :
  engine_ok w → plain p → get_entry (store_of w) p = Some e → has_content e = true →
  placeable (engine w) (disk w) p → reassemble (blobs_of w) (disk w) (chunk_hashes e) = Ok d →
  ∃ f', materialize p w = (Ok tt, mkWorld (engine w) f' (stdout w)) ∧
    files f' = <[target (engine w) p := d]> (files (disk w)) ∧
    dirs f' = list_to_set (dir_prefixes (parent_path (target (engine w) p))) ∪ dirs (disk w).
Proof.
  intros Hw Hp He Hc [Hd Hfree] Hre. destruct (target_parent (engine w) p) as [H1 H2]; [apply Hw|done|].
  destruct (materialize_to_Ok (blobs_of w) (materialized_dir_ (engine w)) p (chunk_hashes e) d (disk w))
    as (f' & Hm & Hf & Hds); try done.
  exists f'. split_and!; [|done|done]. unfold materialize. rewrite He, Hc. unfold on_disk. by rewrite Hm.
Qed.

(** ** Loading the journal *)

Lemma load_lines_inv s lines s' :
  load_lines s lines = Ok s' → store_inv s → store_inv s' ∧ node_id_ s' = node_id_ s.
Proof.
  revert s. induction lines as [|line lines IH]; intros s; simpl; [by intros [= ->]|].
  case_decide; [apply IH|]. destruct (line_to_entry line) as [e| |] eqn:He; simpl; try done.
  intros Hl Hs. apply IH in Hl as [H1 H2]; [done|]. apply store_inv_load; [done|].
  by apply line_to_entry_ok in He as [? _].
Qed.

(** A name that survives the trip through a text file. *)
Definition line_ok (e : FileEntry) : Prop :=
  codec_ok e ∧ newline ∉ path e ∧ newline ∉ last_writer e ∧
  map_Forall (λ n _, newline ∉ n) (counters_ (clock e)).

#[export] Instance line_ok_dec e : Decision (line_ok e).
Proof. unfold line_ok. apply _. Defined.

(** Every entry of the store does. *)
Definition printable (s : CrdtStore) : Prop := map_Forall (λ _ e, line_ok e) (entries_ s).

(** A node id that a journal can carry. *)
Definition id_ok (id : bytes) : Prop := node_ok id ∧ newline ∉ id.

Lemma printable_clock_at s p :
  printable s → map_Forall (λ n _, id_ok n) (counters_ (clock_at s p)).
Proof.
  intros Hs. unfold clock_at. destruct (entries_ s !! p) as [e|] eqn:He; [|apply map_Forall_empty].
  destruct (Hs _ _ He) as ([_ _ Hc] & _ & _ & Hn). intros n v Hv. split; [by apply (Hc n v)|by apply (Hn n v)].
Qed.

(** A version this node writes can be saved if its path and the node's id can. *)
Lemma printable_assign s p e hs r sz id :
  printable s → id_ok id → tab ∉ p → newline ∉ p →
  e = mkEntry p hs r (increment (clock_at s p) id) id false sz → printable (assign s p e).
Proof.
  intros Hs [(Hc1 & Hc2 & Hc3) Hn] Ht Hp ->. apply map_Forall_insert_2; [|done].
  assert (map_Forall (λ n _, id_ok n) (counters_ (increment (clock_at s p) id))) as Hk
    by (apply map_Forall_insert_2; [by repeat split|by apply printable_clock_at]).
  split; [split; simpl; [done|done|]|split_and!; simpl; [done|done|]]; intros n v Hv; by apply (Hk n v).
Qed.

Lemma entry_to_line_newline e : line_ok e → newline ∉ entry_to_line e.
Proof.
  intros (_ & Hp & Hw & Hc).
  pose proof not_hex_separators as (_ & _ & Hx). pose proof not_dec_separators as (_ & _ & Hd).
  unfold entry_to_line.
  rewrite !not_elem_of_app, !not_elem_of_cons, !not_elem_of_app, !not_elem_of_cons,
    !not_elem_of_app, !not_elem_of_cons, !not_elem_of_app, !not_elem_of_cons,
    !not_elem_of_app, !not_elem_of_cons, !not_elem_of_app, !not_elem_of_cons.
  split_and!; try by_decide; try done.
  - by destruct (deleted e); by_decide.
  - by apply to_dec_not_elem.
  - by apply to_hex_not_elem.
  - by apply clock_to_wire_not_elem.
  - by apply hashes_to_wire_not_elem.
Qed.

Lemma entry_to_line_not_nil e : entry_to_line e ≠ [].
Proof. unfold entry_to_line. by intros [_ ?]%app_nil. Qed.

Lemma load_lines_entries s l :
  Forall (λ e, wf_entry e ∧ line_ok e) l →
  load_lines s (entry_to_line <$> l) = Ok (foldl load_entry s l).
Proof.
  intros Hl. revert s. induction Hl as [|e l [Hwf [Hok _]] _ IH]; intros s; [done|].
  cbn [fmap list_fmap load_lines]. rewrite decide_False by apply entry_to_line_not_nil.
  rewrite line_to_entry_to_line by done. apply IH.
Qed.

Lemma foldl_load_entries s l :
  NoDup (path <$> l) →
  foldl load_entry s l =
    mkStore (node_id_ s) (list_to_map ((λ e, (path e, e)) <$> l) ∪ entries_ s).
Proof.
  revert s. induction l as [|e l IH]; intros s; csimpl.
  { intros _. rewrite (left_id_L ∅ (∪)). by destruct s. }
  intros [Hn Hl]%NoDup_cons. rewrite IH by done. simpl. f_equal.
  rewrite <- insert_union_l. rewrite insert_union_r; [done|].
  apply not_elem_of_list_to_map_1. by rewrite <- list_fmap_compose.
Qed.

Lemma printable_entries s :
  store_inv s → printable s → Forall (λ e, wf_entry e ∧ line_ok e) (all_entries s).
Proof.
  intros Hs Hp. apply Forall_forall. intros e [p He]%elem_of_all_entries.
  split; [apply (Hs _ _ He)|apply (Hp _ _ He)].
Qed.

Lemma getlines_entries (l : list FileEntry) :
  Forall (λ e, wf_entry e ∧ line_ok e) l →
  getlines newline (unlines newline (entry_to_line <$> l)) = entry_to_line <$> l.
Proof.
  intros Hl. apply getlines_unlines, Forall_fmap. eapply Forall_impl; [exact Hl|].
  intros e [_ He]. by apply entry_to_line_newline.
Qed.

(** Reading the journal text of a store into an empty store gives the store. *)
Lemma load_journal_text s :
  store_inv s → printable s →
  load_lines (new_store (node_id_ s)) (getlines newline (journal_text s)) = Ok s.
Proof.
  intros Hs Hp. pose proof (printable_entries s Hs Hp) as Hl. unfold journal_text.
  rewrite getlines_entries, load_lines_entries by done. f_equal.
  rewrite foldl_load_entries.
  - simpl. rewrite (right_id_L ∅ (∪)).
    assert ((λ e, (path e, e)) <$> all_entries s = map_listing (entries_ s)) as ->.
    { unfold all_entries. rewrite <- list_fmap_compose. transitivity (id <$> map_listing (entries_ s));
        [|apply list_fmap_id]. apply list_fmap_ext.
      intros i [p e] Hi%list_elem_of_lookup_2%elem_of_map_listing. unfold compose; simpl.
      by destruct (store_inv_lookup _ _ _ Hs Hi) as [-> _]. }
    rewrite list_to_map_listing. by destruct s.
  - rewrite all_entries_paths by done. apply map_listing_NoDup.
Qed.

(** ** The constructor *)

(** What the constructor finds in the journal. *)
Definition journal_store (id dir : bytes) (f : fs) : outcome CrdtStore :=
  match files f !! (dir ++ str "/store.meta") with
  | None => Ok (new_store id)
  | Some text => load_lines (new_store id) (getlines newline text)
  end.

Definition engine_with (id dir : bytes) (s : CrdtStore) : SyncEngine :=
  mkEngine id dir (dir ++ str "/files") default_chunker (mkFileStore (dir ++ str "/blobstore")) s.

(** A directory a node can live in: nothing is in the way of its directories,
    and the chunks already there are intact. *)
Record habitable (dir : bytes) (f : fs) : Prop := {
  hab_dir : dir ≠ [];
  hab_free : ∀ q, q ∈ dir_prefixes (dir ++ str "/blobstore/chunks") → q ∉ dom (files f);
  hab_chunks : ∀ x, chunk_path (mkFileStore (dir ++ str "/blobstore")) x ∉ dirs f;
  hab_journal : dir ++ str "/store.meta" ∉ dirs f;
  hab_intact : intact (mkFileStore (dir ++ str "/blobstore")) f;
}.

Lemma new_engine_eq id dir f :
  habitable dir f →
  ∃ f', new_engine id dir f = (let! s := journal_store id dir f in Ok (engine_with id dir s), f') ∧
    files f' = files f ∧ ready (mkFileStore (dir ++ str "/blobstore")) f' ∧ dir ∈ dirs f' ∧
    dir ++ str "/store.meta" ∉ dirs f' ∧
    dirs f' = list_to_set (dir_prefixes (dir ++ str "/blobstore/chunks")) ∪ dirs f.
Proof.
  intros [Hdir Hfree Hch Hj Hi].
  assert ((dir ++ str "/blobstore") ++ str "/chunks" = dir ++ str "/blobstore/chunks") as Hcd
    by (by rewrite <- app_assoc).
  destruct (new_file_store_ready (dir ++ str "/blobstore") f) as (f1 & H1 & [Hr1 Hr1'] & Hf1 & Hd1);
    [by rewrite Hcd|done|].
  rewrite Hcd in Hd1.
  assert (∀ q, q ∈ dir_prefixes dir → q ∈ dir_prefixes (dir ++ str "/blobstore/chunks")) as Hsub
    by (intros q; by apply (dir_prefixes_app dir (str "blobstore/chunks"))).
  destruct (create_directories_ok dir f1 Hdir) as (f2 & H2 & Hf2 & Hd2).
  { intros q Hq. rewrite Hf1. by apply Hfree, Hsub. }
  assert (dirs f2 = dirs f1) as Hd12.
  { rewrite Hd2. apply leibniz_equiv, subseteq_union_1. intros q Hq%elem_of_list_to_set.
    rewrite Hd1. apply elem_of_union. left. by apply elem_of_list_to_set, Hsub. }
  exists f2. split_and!.
  - unfold new_engine, mbind, stateM_bind. rewrite H1, H2. unfold load_journal, read_file, journal_store.
    simpl. change (data_dir_ _) with dir. unfold journal_path; simpl. rewrite Hf2, Hf1.
    by destruct (files f !! _).
  - by rewrite Hf2.
  - split; [by rewrite Hd12|]. intros x. rewrite Hd12. apply Hr1'.
  - rewrite Hd12, Hd1. apply elem_of_union. left. apply elem_of_list_to_set, Hsub, elem_of_dir_prefixes_self.
  - rewrite Hd12, Hd1, elem_of_union, elem_of_list_to_set. intros [Hp%dir_prefixes_prefix|?]; [|done].
    apply prefix_app_inv, prefix_cons_inv_2 in Hp. by apply prefix_cons_inv_1 in Hp.
  - by rewrite Hd12.
Qed.

(** A node that starts satisfies the invariant. *)
Lemma new_engine_ok id dir f f' e out :
  habitable dir f → new_engine id dir f = (Ok e, f') → engine_ok (mkWorld e f' out).
Proof.
  intros Hh Hn. destruct (new_engine_eq id dir f Hh) as (f2 & H & Hf & Hr & Hd & Hj & _).
  rewrite Hn in H. injection H as H <-.
  destruct (journal_store id dir f) as [s| |] eqn:Hs; simpl in H; try done. injection H as ->.
  assert (store_inv s ∧ node_id_ s = id) as [Hs1 Hs2].
  { unfold journal_store in Hs. destruct (files f !! _).
    - apply load_lines_inv in Hs as [? ?]; [done|apply store_inv_new].
    - injection Hs as <-. split; [apply store_inv_new|done]. }
  split; simpl; try done.
  - split; simpl; try done. by destruct Hh.
  - intros x d Hx. unfold blobs_of; simpl. rewrite Hf. by apply (hab_intact _ _ Hh).
  - unfold chunk_dir; simpl. rewrite <- app_assoc, Hf. apply (hab_free _ _ Hh).
Qed.

Lemma new_engine_names id dir f f' e :
  habitable dir f → new_engine id dir f = (Ok e, f') → engine_id e = id ∧ data_dir_ e = dir.
Proof.
  intros Hh Hn. destruct (new_engine_eq id dir f Hh) as (f2 & H & _). rewrite Hn in H. injection H as H _.
  destruct (journal_store id dir f); simpl in H; try done. by injection H as ->.
Qed.

(** The disk of a running node is one a node can be started on. *)
Lemma engine_ok_habitable w : engine_ok w → habitable (data_dir_ (engine w)) (disk w).
Proof.
  intros [[W1 W2 W3 W4 W5] [R1 R2] Hi Hs Hh Hj Hfr]. unfold blobs_of, chunk_dir, journal_path in *.
  rewrite W2 in *. simpl in *. split; try done. by rewrite <- app_assoc in Hfr.
Qed.

(** ** Ingesting *)

Lemma store_loop_for_each b cs hs t f f' :
  for_each cs (put_chunk b) f = (Ok tt, f') → (t < 2 ^ 64)%N →
  store_loop b cs hs t f =
    (Ok (hs ++ (chunk_hash <$> cs), u64 (t + N.of_nat (length (bytes_of cs)))), f').
Proof.
  revert hs t f. induction cs as [|c cs IH]; intros hs t f; simpl.
  - intros [= ->] Ht. by rewrite app_nil_r, N.add_0_r, wrap_small.
  - unfold mbind, stateM_bind. destruct (put_chunk b c f) as [[[]| |] f1]; [|done|done].
    intros Hl Ht. rewrite (IH _ _ f1) by first [done | apply wrap_lt].
    rewrite <- app_assoc, bytes_of_cons, length_app. do 3 f_equal. rewrite wrap_add_l. f_equal. lia.
Qed.

(** The root recorded for a list of chunks. *)
Definition root_of (cs : list Chunk) : outcome Digest :=
  if empty (build cs) then Ok zero_digest else root (build cs).

Lemma root_of_ok cs :
  Forall (λ c, chunk_hash c = hash (data c)) cs → ∃ r, root_of cs = Ok r ∧ length r = 32.
Proof.
  intros Hcs. unfold root_of. destruct (decide (cs = [])) as [->|Hne]; [by eexists|].
  destruct (build_root cs Hne) as [Ht _]. unfold empty, root.
  assert (Forall (λ d : Digest, length d = 32) (chunk_hash <$> cs)) as Hh.
  { apply Forall_fmap. eapply Forall_impl; [exact Hcs|]. intros c Hc. simpl. rewrite Hc. apply length_hash. }
  pose proof (tree_of_hash_length _ _ _ Ht Hh) as Hlen. apply tree_of_not_null in Ht.
  destruct (root_ (build cs)) as [|x l r i]; [done|]. by exists x.
Qed.

Lemma chunk_hashes_ok ck b : Forall (λ c, chunk_hash c = hash (data c)) (chunk ck b).
Proof.
  eapply Forall_impl; [apply (chunk_Forall_ok ck)|]. by intros c (_ & _ & Hh).
Qed.

(** The entry [ingest_file] records. *)
Definition ingested (w : World) (p b : bytes) (r : Digest) : CrdtStore :=
  put_local (store_of w) p (chunk_hash <$> chunk (chunker_ (engine w)) b) r
    (u64 (N.of_nat (length b))).

(** Storing chunks keeps the invariant. *)
Lemma store_chunks_ok w cs :
  engine_ok w → Forall (λ c, chunk_hash c = hash (data c)) cs →
  ∃ f1, for_each cs (put_chunk (blobs_of w)) (disk w) = (Ok tt, f1) ∧
    (∀ out, engine_ok (mkWorld (engine w) f1 out)) ∧ dirs f1 = dirs (disk w) ∧
    (∀ q, (∀ x, q ≠ chunk_path (blobs_of w) x) → files f1 !! q = files (disk w) !! q) ∧
    (no_clash (blobs_of w) (disk w) cs → reassemble (blobs_of w) f1 (chunk_hash <$> cs) = Ok (bytes_of cs)) ∧
    chunks_grow (blobs_of w) (disk w) cs f1.
Proof.
  intros Hw Hcs. pose proof (ok_wired w Hw) as He.
  destruct (store_chunks (blobs_of w) cs (disk w)) as (f1 & Hl & Hr & Hi & Hd & Hf & Hre & Hg);
    [apply Hw|apply Hw|done|].
  exists f1. split_and!; [done| |done|done|done|done]. intros out.
  destruct Hw as [[W1 W2 W3 W4 W5] [R1 R2] Hin Hs Hh Hj Hfr]. split; simpl; try done.
  - by rewrite Hd.
  - by rewrite Hd.
  - intros q Hq. rewrite not_elem_of_dom, Hf, <- not_elem_of_dom; [by apply Hfr|].
    by destruct (chunk_dir_prefix (engine w) q He Hq) as (_ & ? & _).
Qed.

(** Everything [ingest_file] does before it materializes: the report, the chunks
    and the new entry. *)
Lemma ingest_prefix w p b :
  engine_ok w →
  ∃ r f1, root_of (chunk (chunker_ (engine w)) b) = Ok r ∧
    let cs := chunk (chunker_ (engine w)) b in
    let w1 := mkWorld (with_store (ingested w p b r) (engine w)) f1
      (stdout w ++ ingest_report (engine_id (engine w)) p (get_entry (store_of w) p) cs) in
    ingest_record p b w = (Ok tt, w1) ∧ engine_ok w1 ∧
    dirs f1 = dirs (disk w) ∧
    (∀ q, (∀ x, q ≠ chunk_path (blobs_of w) x) → files f1 !! q = files (disk w) !! q) ∧
    (no_clash (blobs_of w) (disk w) cs → reassemble (blobs_of w) f1 (chunk_hash <$> cs) = Ok b) ∧
    chunks_grow (blobs_of w) (disk w) cs f1.
Proof.
  intros Hw. set (cs := chunk (chunker_ (engine w)) b).
  pose proof (chunk_hashes_ok (chunker_ (engine w)) b) as Hcs. fold cs in Hcs.
  assert (bytes_of cs = b) as Hb by apply bytes_of_chunk.
  destruct (store_chunks_ok w cs Hw Hcs) as (f1 & Hl & Hok & Hd & Hf & Hre & Hg).
  destruct (root_of_ok cs Hcs) as (r & Hrt & Hlen). exists r, f1. split; [done|]. cbv zeta.
  split_and!; [| |done|done|by rewrite Hb in Hre|done].
  - unfold ingest_record. rewrite (bind_ok _ _ _ w w) by done. fold cs. cbv zeta.
    erewrite bind_ok by done. cbn [disk engine stdout].
    erewrite bind_ok by (apply on_disk_ok, store_loop_for_each; [exact Hl|done]).
    fold (root_of cs). erewrite bind_ok by (unfold lift; by rewrite Hrt).
    cbn [modify fst snd]. rewrite Hb, N.add_0_l. done.
  - refine (engine_ok_store _ _ (Hok _) _ _); [done|]. apply store_inv_put; [apply Hw| |done|apply wrap_lt].
    apply Forall_fmap. eapply Forall_impl; [exact Hcs|]. intros c Hc. simpl. rewrite Hc. apply length_hash.
Qed.

(** A local operation keeps the invariant and performs nothing undefined, even
    when it throws half way. *)
Lemma ingest_safe w p b :
  engine_ok w → plain p →
  (ingest_file p b w).1 ≠ UB ∧ engine_ok (ingest_file p b w).2.
Proof.
  intros Hw Hp. destruct (ingest_prefix w p b Hw) as (r & f1 & _ & Hrec & Hw1 & _).
  unfold ingest_file. rewrite (bind_ok _ _ _ _ _ Hrec).
  set (w1 := mkWorld _ _ _) in *.
  destruct (materialize_safe w1 p Hw1 Hp) as (Hu & Hw2 & He2 & _).
  unfold mbind, stateM_bind. destruct (materialize p w1) as [[[]|ex|] w2]; simpl in *; [|done|done].
  destruct (save_journal_ok w2 Hw2) as [-> Hw3]. unfold deref_entry.
  assert (get_entry (store_of (journal_written w2)) p ≠ None) as Hg.
  { unfold store_of; simpl. rewrite He2. simpl. unfold get_entry, ingested, put_local, assign; simpl.
    by rewrite lookup_insert_eq. }
  destruct (get_entry (store_of (journal_written w2)) p); [|done]. by split.
Qed.

Lemma delete_file_ok w p :
  engine_ok w →
  let w1 := set_store (delete_local (store_of w) p) w in
  delete_file p w = (Ok tt, journal_written w1) ∧ engine_ok (journal_written w1).
Proof.
  intros Hw w1. assert (engine_ok w1) as Hw1.
  { apply engine_ok_store; [done|done|]. apply store_inv_delete, Hw. }
  unfold delete_file, mbind, stateM_bind. cbn [modify]. fold w1. by apply save_journal_ok.
Qed.

(** ** Materializing several paths *)

(** Nothing is in the way of any of them, and none is a directory of another. *)
Definition placeable_all (e : SyncEngine) (f : fs) (ps : list bytes) : Prop :=
  (∀ p, p ∈ ps → placeable e f p) ∧
  ∀ p p', p ∈ ps → p' ∈ ps → target e p ∉ dir_prefixes (parent_path (target e p')).

Lemma placeable_all_alt e f ps :
  placeable_all e f ps ↔
    Forall (λ p, target e p ∉ dirs f ∧
      Forall (λ q, q ∉ dom (files f)) (dir_prefixes (parent_path (target e p)))) ps ∧
    Forall (λ p, Forall (λ p', target e p ∉ dir_prefixes (parent_path (target e p'))) ps) ps.
Proof.
  unfold placeable_all, placeable. setoid_rewrite Forall_forall. setoid_rewrite Forall_forall. naive_solver.
Qed.
#[export] Instance placeable_all_dec e f ps : Decision (placeable_all e f ps).
Proof. eapply dec_iff; [apply placeable_all_alt|apply _]. Defined.

Lemma placeable_all_sub e f ps ps' : placeable_all e f ps → ps' ⊆ ps → placeable_all e f ps'.
Proof. intros [H1 H2] Hs. split; auto. Qed.

Lemma materialize_step w p ps :
  engine_ok w → plain p → p ∈ ps → placeable_all (engine w) (disk w) ps →
  (∀ e, get_entry (store_of w) p = Some e → ∃ d, reassemble (blobs_of w) (disk w) (chunk_hashes e) = Ok d) →
  ∃ w', materialize p w = (Ok tt, w') ∧ engine w' = engine w ∧ engine_ok w' ∧
    placeable_all (engine w) (disk w') ps ∧
    (∀ q, q ≠ target (engine w) p → files (disk w') !! q = files (disk w) !! q) ∧
    (∀ e d, get_entry (store_of w) p = Some e → has_content e = true →
       reassemble (blobs_of w) (disk w) (chunk_hashes e) = Ok d →
       files (disk w') !! target (engine w) p = Some d).
Proof.
  intros Hw Hp Hin Hpl Hre.
  destruct (get_entry (store_of w) p) as [e|] eqn:He.
  2:{ exists w. split_and!; try done. unfold materialize. by rewrite He. }
  destruct (has_content e) eqn:Hc.
  2:{ exists w. split_and!; try done; [unfold materialize; by rewrite He, Hc|]. intros e' d [= <-]. congruence. }
  destruct (Hre e eq_refl) as [d Hd]. destruct Hpl as [Hpl1 Hpl2].
  destruct (materialize_ok w p e d Hw Hp He Hc (Hpl1 p Hin) Hd) as (f' & Hm & Hf & Hds).
  pose proof (materialize_safe w p Hw Hp) as (_ & Hok & _). rewrite Hm in Hok.
  eexists. split_and!; [done|done|done| | |].
  - split; [|done]. intros p' Hp'. destruct (Hpl1 p' Hp') as [H1 H2]. cbn [disk]. split.
    + rewrite Hds, elem_of_union, elem_of_list_to_set. intros [?|?]; [by apply (Hpl2 p' p)|done].
    + intros q Hq. rewrite Hf, dom_insert, elem_of_union, elem_of_singleton.
      intros [->|Hq']; [by apply (Hpl2 p p')|by apply (H2 q)].
  - intros q Hq. cbn [disk]. by rewrite Hf, lookup_insert_ne.
  - intros e' d' [= <-] _ Hd'. cbn [disk]. rewrite Hf, lookup_insert_eq. congruence.
Qed.

(** Materializing some of the paths of a set [all] in which none is in the way of another. *)
Lemma materialize_all_ok w ps all :
  engine_ok w → Forall plain ps → ps ⊆ all → placeable_all (engine w) (disk w) all →
  (∀ p e, p ∈ ps → get_entry (store_of w) p = Some e →
     ∃ d, reassemble (blobs_of w) (disk w) (chunk_hashes e) = Ok d) →
  ∃ w', for_each ps materialize w = (Ok tt, w') ∧ engine w' = engine w ∧ engine_ok w' ∧
    placeable_all (engine w) (disk w') all ∧
    (∀ q, (∀ p, p ∈ ps → q ≠ target (engine w) p) → files (disk w') !! q = files (disk w) !! q) ∧
    (∀ p e d, p ∈ ps → get_entry (store_of w) p = Some e → has_content e = true →
       reassemble (blobs_of w) (disk w) (chunk_hashes e) = Ok d →
       files (disk w') !! target (engine w) p = Some d).
Proof.
  intros Hw Hps. revert w Hw. induction Hps as [|p ps Hp Hps IH]; intros w Hw Hsub Hpl Hre.
  { exists w. split_and!; try done. by intros p e d []%not_elem_of_nil. }
  destruct (materialize_step w p all Hw Hp) as (w1 & Hm & He1 & Hw1 & Hpl1 & Hf1 & Ht1);
    [apply Hsub; by left|done|intros e; apply Hre; by left|].
  assert (∀ hs, reassemble (blobs_of w) (disk w1) hs = reassemble (blobs_of w) (disk w) hs) as Hsame.
  { intros hs. apply reassemble_ext, Forall_true. intros x. apply Hf1. intros E.
    by apply (target_not_chunk (engine w) p x (ok_wired w Hw) Hp). }
  assert (store_of w1 = store_of w ∧ blobs_of w1 = blobs_of w) as [Hs1 Hb1]
    by (unfold store_of, blobs_of; by rewrite He1).
  destruct (IH w1 Hw1) as (w2 & Hl & He2 & Hw2 & Hpl2 & Hf2 & Ht2).
  { intros x Hx. apply Hsub. by right. }
  { by rewrite He1. }
  { intros p' e Hp'. rewrite Hs1, Hb1, Hsame. apply Hre. by right. }
  exists w2. rewrite He1 in *. simpl. unfold mbind, stateM_bind. rewrite Hm. split_and!; try done.
  - intros q Hq. rewrite Hf2, Hf1; [done|apply Hq; by left|]. intros p' Hp'. apply Hq. by right.
  - intros p' e d Hin He Hc Hd. destruct (decide (p' ∈ ps)) as [Hp'|Hp'].
    + apply (Ht2 p' e); rewrite ?Hs1, ?Hb1, ?Hsame; done.
    + apply elem_of_cons in Hin as [->|]; [|done]. rewrite Hf2; [by apply (Ht1 e)|].
      intros p' Hin' E. apply target_inj in E; [congruence|apply Hw|done|]. rewrite Forall_forall in Hps. auto.
Qed.

(** ** The life of a node *)

(** Local operations on plain paths, and restarts; a throw that leaves the
    constructor is not a step. *)
Inductive node_step : World → World → Prop :=
| step_ingest w p b : plain p → node_step w (ingest_file p b w).2
| step_delete_file w p : plain p → node_step w (delete_file p w).2
| step_materialize w p : plain p → node_step w (materialize p w).2
| step_restart w e f' out :
    new_engine (engine_id (engine w)) (data_dir_ (engine w)) (disk w) = (Ok e, f') →
    node_step w (mkWorld e f' out).

Lemma node_step_ok w w' : node_step w w' → engine_ok w → engine_ok w'.
Proof.
  intros [w0 p b Hp|w0 p Hp|w0 p Hp|w0 e f' out Hn] Hw.
  - by apply ingest_safe.
  - destruct (delete_file_ok w0 p Hw) as [-> ?]. done.
  - by apply materialize_safe.
  - eapply new_engine_ok; [|done]. by apply engine_ok_habitable.
Qed.

(** Materializing an entry whose bytes can be reassembled. *)
Lemma materialize_current w p e d :
  engine_ok w → plain p → placeable (engine w) (disk w) p →
  get_entry (store_of w) p = Some e → deleted e = false → (chunk_hashes e = [] ↔ d = []) →
  reassemble (blobs_of w) (disk w) (chunk_hashes e) = Ok d →
  ∃ f', materialize p w = (Ok tt, mkWorld (engine w) f' (stdout w)) ∧
    (∀ q, q ≠ target (engine w) p → files f' !! q = files (disk w) !! q) ∧
    (d ≠ [] → files f' !! target (engine w) p = Some d).
Proof.
  intros Hw Hp Hpl He Hdel Hnil Hre. destruct (decide (d = [])) as [Hd|Hd].
  - exists (disk w). split_and!; [|done|done]. unfold materialize. rewrite He. unfold has_content.
    rewrite (bool_decide_eq_true_2 (chunk_hashes e = [])), andb_false_r by (by apply Hnil). by destruct w.
  - destruct (materialize_ok w p e d) as (f' & Hm & Hf & _); try done.
    { unfold has_content. by rewrite Hdel, bool_decide_eq_false_2 by (by rewrite Hnil). }
    exists f'. split_and!; [done| |]; intros; rewrite Hf; [by rewrite lookup_insert_ne|by rewrite lookup_insert_eq].
Qed.

(** Writing chunks puts nothing in the way of a path. *)
Lemma placeable_frame e f f' p :
  wired e → plain p → placeable e f p → dirs f' = dirs f →
  (∀ q, (∀ x, q ≠ chunk_path (blobs_ e) x) → files f' !! q = files f !! q) → placeable e f' p.
Proof.
  intros He Hp [H1 H2] Hd Hf. split; [by rewrite Hd|]. intros q Hq.
  rewrite not_elem_of_dom, Hf, <- not_elem_of_dom; [by apply H2|].
  intros x ->. apply dir_prefixes_prefix in Hq. apply (chunk_path_not_target e p x He Hp).
  etrans; [exact Hq|apply parent_path_prefix].
Qed.

(** What the constructor, the chunks and the journal add is in no path's way. *)
Lemma placeable_all_frame e f f' ps :
  wired e → Forall plain ps → placeable_all e f ps →
  (∀ q, q ∈ dirs f' → q ∈ dirs f ∨ q ∈ dir_prefixes (chunk_dir e)) →
  (∀ q, (∀ x, q ≠ chunk_path (blobs_ e) x) → q ≠ journal_path e → files f' !! q = files f !! q) →
  placeable_all e f' ps.
Proof.
  intros He Hps [H1 H2] Hd Hf. rewrite Forall_forall in Hps. split; [|done]. intros p Hp.
  destruct (H1 p Hp) as [Hdir Hfree]. specialize (Hps p Hp). split.
  - intros [?|Hq]%Hd; [done|]. destruct (chunk_dir_prefix e _ He Hq) as (_ & _ & Ht). by apply (Ht p).
  - intros q Hq. rewrite not_elem_of_dom, Hf, <- not_elem_of_dom; [by apply Hfree|..].
    + intros x ->. apply dir_prefixes_prefix in Hq. apply (chunk_path_not_target e p x He Hps).
      etrans; [exact Hq|apply parent_path_prefix].
    + intros ->. apply dir_prefixes_prefix in Hq. apply (journal_not_target e p He Hps).
      etrans; [exact Hq|apply parent_path_prefix].
Qed.

(** ** Nothing undefined, and no signal, whatever the disk holds *)

Lemma bind_not_UB {S A B} (m : stateM S A) (k : A → stateM S B) s :
  (m s).1 ≠ UB → (∀ a s', m s = (Ok a, s') → (k a s').1 ≠ UB) → (mbind k m s).1 ≠ UB.
Proof.
  unfold mbind, stateM_bind. destruct (m s) as [[a|e|] s'] eqn:E; intros H1 H2; [by apply H2|done|done].
Qed.

Lemma bind_behaves {S A B} (m : stateM S A) (k : A → stateM S B) s :
  behaves (m s).1 → (∀ a s', m s = (Ok a, s') → behaves (k a s').1) → behaves (mbind k m s).1.
Proof.
  unfold mbind, stateM_bind. destruct (m s) as [[a|e|] s'] eqn:E; intros H1 H2; [by apply H2|done|done].
Qed.

Lemma on_disk_behaves {A} (m : stateM fs A) w : behaves (m (disk w)).1 → behaves (on_disk m w).1.
Proof. unfold on_disk. by destruct (m (disk w)) as [[] ?]. Qed.

Lemma on_disk_engine {A} (m : stateM fs A) w : engine (on_disk m w).2 = engine w.
Proof. unfold on_disk. by destruct (m (disk w)) as [? ?]. Qed.

Lemma put_chunk_Ok b c f : ∃ f', put_chunk b c f = (Ok tt, f').
Proof.
  unfold put_chunk. destruct (exists_ _ _); [by eexists|].
  destruct (write_file_Ok (chunk_path b (chunk_hash c)) (data c) f) as (f' & H & _). by exists f'.
Qed.

Lemma store_loop_Ok b cs hs t f : ∃ r f', store_loop b cs hs t f = (Ok r, f').
Proof.
  revert hs t f. induction cs as [|c cs IH]; intros hs t f; [by eexists _, _|]. cbn [store_loop].
  destruct (put_chunk_Ok b c f) as [f' H]. rewrite (bind_ok _ _ _ _ _ H). apply IH.
Qed.

Lemma save_journal_Ok w : ∃ f', save_journal w = (Ok tt, mkWorld (engine w) f' (stdout w)).
Proof.
  unfold save_journal, on_disk.
  destruct (write_file_Ok (journal_path (engine w)) (journal_text (store_of w)) (disk w)) as (f' & -> & _).
  by exists f'.
Qed.

Lemma materialize_result w p :
  behaves (materialize p w).1 ∧ engine (materialize p w).2 = engine w.
Proof.
  unfold materialize. destruct (get_entry (store_of w) p) as [e|]; [|done]. destruct (has_content e); [|done].
  split; [|apply on_disk_engine]. apply on_disk_behaves, materialize_to_behaves.
Qed.

Lemma ingest_record_Ok w p b :
  ∃ w1, ingest_record p b w = (Ok tt, w1) ∧ is_Some (get_entry (store_of w1) p).
Proof.
  unfold ingest_record. rewrite (bind_ok _ _ _ w w) by done. cbv zeta. erewrite bind_ok by done.
  set (w0 := mkWorld _ _ _). set (cs := chunk _ b).
  destruct (store_loop_Ok (blobs_of w) cs [] 0 (disk w0)) as (r & f & Hr).
  rewrite (bind_ok _ _ _ _ _ (on_disk_ok _ w0 _ _ Hr)).
  assert (∃ d, root_of cs = Ok d) as [d Hd].
  { unfold root_of, empty, root. destruct (root_ (build cs)); by eexists. }
  rewrite (bind_ok _ _ _ d _) by (unfold lift; fold (root_of cs); by rewrite Hd).
  eexists. split; [done|]. eexists. apply lookup_insert_eq.
Qed.

Lemma ingest_behaves w p b : behaves (ingest_file p b w).1.
Proof.
  unfold ingest_file. destruct (ingest_record_Ok w p b) as (w1 & Hrec & [e Hget]).
  rewrite (bind_ok _ _ _ _ _ Hrec). destruct (materialize_result w1 p) as [Hu He].
  apply bind_behaves; [done|]. intros [] w2 Hm. rewrite Hm in He. cbn [snd] in He.
  destruct (save_journal_Ok w2) as [f2 Hs]. rewrite (bind_ok _ _ _ _ _ Hs).
  unfold deref_entry, get_entry, store_of in *. cbn [engine]. by rewrite He, Hget.
Qed.

Lemma delete_file_Ok w p : ∃ w', delete_file p w = (Ok tt, w').
Proof.
  unfold delete_file. erewrite bind_ok by done. destruct (save_journal_Ok (set_store (delete_local (store_of w) p) w)) as [f H].
  by eexists.
Qed.

Lemma load_lines_behaves s lines : behaves (load_lines s lines).
Proof.
  revert s. induction lines as [|line lines IH]; intros s; [done|]. cbn [load_lines].
  case_decide; [apply IH|]. pose proof (line_to_entry_behaves line) as Hu.
  destruct (line_to_entry line) as [e| |]; [apply IH|done|done].
Qed.

Lemma new_engine_behaves id dir f : behaves (new_engine id dir f).1.
Proof.
  unfold new_engine, new_file_store. apply bind_behaves.
  - apply bind_behaves; [apply create_directories_behaves|done].
  - intros b f1 _. apply bind_behaves; [apply create_directories_behaves|]. intros [] f2 _.
    unfold load_journal. destruct (read_file _ _) as [text|]; [|done]. cbn [fst].
    pose proof (load_lines_behaves (new_store id) (getlines newline text)) as Hu. cbn [store_].
    by destruct (load_lines _ _).
Qed.

(** A journal that cannot be opened for writing, here because a directory has its name, is
    not noticed: [save_journal] returns normally, and a deletion is reported as done although nothing
    of it is on the disk. *)
Theorem unwritable_journal_unnoticed w p :
  journal_path (engine w) ∈ dirs (disk w) →
  save_journal w = (Ok tt, w) ∧
  delete_file p w = (Ok tt, set_store (delete_local (store_of w) p) w).
Proof.
  intros Hd. assert (∀ w, journal_path (engine w) ∈ dirs (disk w) → save_journal w = (Ok tt, w)) as Hs.
  { intros [e f o] Hf. cbn [engine disk] in Hf. unfold save_journal, on_disk, write_file. cbn [engine disk stdout].
    by rewrite bool_decide_eq_true_2. }
  split; [by apply Hs|]. unfold delete_file. rewrite (bind_ok _ _ _ tt (set_store (delete_local (store_of w) p) w)) by done.
  by apply Hs.
Qed.

(** The whole of [ingest_file], with the state it ends in. *)
Definition ingest_done (w : World) (p b : bytes) (e : FileEntry) (w' : World) : Prop :=
  engine_ok w' ∧
  e = mkEntry p (chunk_hash <$> chunk (chunker_ (engine w)) b) (merkle_root e)
        (increment (clock_at (store_of w) p) (engine_id (engine w))) (engine_id (engine w)) false
        (u64 (N.of_nat (length b))) ∧
  engine w' = with_store (assign (store_of w) p e) (engine w) ∧
  stdout w' = stdout w ++ ingest_report (engine_id (engine w)) p (get_entry (store_of w) p)
    (chunk (chunker_ (engine w)) b) ∧
  reassemble (blobs_of w') (disk w') (chunk_hashes e) = Ok b ∧
  (b ≠ [] → files (disk w') !! target (engine w) p = Some b) ∧
  files (disk w') !! journal_path (engine w) = Some (journal_text (store_of w')).

Lemma ingest_ok w p b :
  engine_ok w → plain p → placeable (engine w) (disk w) p →
  no_clash (blobs_of w) (disk w) (chunk (chunker_ (engine w)) b) →
  ∃ e w', ingest_file p b w = (Ok e, w') ∧ ingest_done w p b e w'.
Proof.
  intros Hw Hp Hpl Hcl. pose proof (ok_wired w Hw) as He.
  destruct (ingest_prefix w p b Hw) as (r & f1 & _ & Hrec & Hw1 & Hd & Hf & Hre & _).
  unfold ingest_file. rewrite (bind_ok _ _ _ _ _ Hrec). clear Hrec.
  specialize (Hre Hcl). set (cs := chunk (chunker_ (engine w)) b) in *.
  set (w1 := mkWorld _ _ _) in *.
  set (e := mkEntry p (chunk_hash <$> cs) r
    (increment (clock_at (store_of w) p) (node_id_ (store_of w))) (node_id_ (store_of w)) false
    (u64 (N.of_nat (length b)))).
  assert (get_entry (store_of w1) p = Some e) as Hget by (apply lookup_insert_eq).
  assert (chunk_hashes e = [] ↔ b = []) as Hnil.
  { pose proof (chunk_not_nil (chunker_ (engine w)) b) as H. fold cs in H. rewrite <- H.
    split; [apply fmap_nil_inv|]. intros Hc. change (chunk_hash <$> cs = []). by rewrite Hc. }
  destruct (materialize_current w1 p e b) as (f2 & Hm & Hf2 & Ht); try done.
  { by apply (placeable_frame (engine w) (disk w)). }
  pose proof (materialize_safe w1 p Hw1 Hp) as (_ & Hw2 & _). rewrite Hm in Hw2. simpl in Hw2.
  set (w2 := mkWorld (engine w1) f2 (stdout w1)) in *. destruct (save_journal_ok w2 Hw2) as [Hj Hw3].
  exists e, (journal_written w2). unfold mbind, stateM_bind. rewrite Hm. fold w2. rewrite Hj. split.
  { unfold deref_entry. change (store_of (journal_written w2)) with (store_of w1). by rewrite Hget. }
  split_and!; [done| | |done| | |apply lookup_insert_eq].
  - unfold e at 1. simpl. unfold store_of. by rewrite (wired_id _ He).
  - done.
  - rewrite <- Hre. symmetry. apply reassemble_ext, Forall_forall. intros x _. simpl.
    rewrite lookup_insert_ne by (by apply (journal_not_chunk (engine w))).
    rewrite Hf2; [done|]. intros E. by apply (target_not_chunk (engine w) p x).
  - intros Hb. simpl. rewrite lookup_insert_ne; [by apply Ht|]. intros E. by apply (target_not_journal (engine w) p).
Qed.

(** A disk that holds the journal of a node restarts it. *)
Lemma restart_ok w out :
  engine_ok w → printable (store_of w) →
  files (disk w) !! journal_path (engine w) = Some (journal_text (store_of w)) →
  ∃ f', new_engine (engine_id (engine w)) (data_dir_ (engine w)) (disk w) = (Ok (engine w), f') ∧
    files f' = files (disk w) ∧ engine_ok (mkWorld (engine w) f' out).
Proof.
  intros Hw Hp Hj. pose proof (ok_wired w Hw) as He. pose proof (engine_ok_habitable w Hw) as Hh.
  destruct (new_engine_eq (engine_id (engine w)) (data_dir_ (engine w)) (disk w) Hh) as (f' & Hn & Hf & _).
  assert (journal_store (engine_id (engine w)) (data_dir_ (engine w)) (disk w) = Ok (store_of w)) as Hs.
  { unfold journal_store, journal_path in *. rewrite Hj.
    rewrite <- (wired_id _ He). apply load_journal_text; [apply Hw|done]. }
  rewrite Hs in Hn. simpl in Hn.
  assert (engine_with (engine_id (engine w)) (data_dir_ (engine w)) (store_of w) = engine w) as Heq.
  { destruct He as [H1 H2 H3 _ _]. unfold engine_with. rewrite <- H1, <- H2, <- H3. by destruct w as [[]]. }
  rewrite Heq in Hn. exists f'. split_and!; [done|done|]. by eapply new_engine_ok.
Qed.

(** ** Properties *)

(** C2: Ingesting a file works end to end.  In a node whose invariant holds, for a
    plain path that nothing is in the way of and bytes whose chunks collide with
    nothing stored, [ingest_file] returns the new entry (this node as last
    writer, its counter bumped, the size, the chunk hashes), and afterwards the
    store differs from the old one in that entry only, the chunks reassemble to the
    bytes, the materialized file holds them (when there are any), the journal
    on disk is the text of the new store, and the invariant holds again. *)
Theorem ingest_file_correct w p b :
  engine_ok w → plain p → placeable (engine w) (disk w) p →
  no_clash (blobs_of w) (disk w) (chunk (chunker_ (engine w)) b) →
  ∃ e w', ingest_file p b w = (Ok e, w') ∧ engine_ok w' ∧
    e = mkEntry p (chunk_hash <$> chunk (chunker_ (engine w)) b) (merkle_root e)
          (increment (clock_at (store_of w) p) (engine_id (engine w))) (engine_id (engine w)) false
          (u64 (N.of_nat (length b))) ∧
    store_of w' = assign (store_of w) p e ∧
    reassemble (blobs_of w') (disk w') (chunk_hashes e) = Ok b ∧
    (b ≠ [] → files (disk w') !! target (engine w) p = Some b) ∧
    files (disk w') !! journal_path (engine w) = Some (journal_text (store_of w')).
Proof.
  intros Hw Hp Hpl Hcl. destruct (ingest_ok w p b Hw Hp Hpl Hcl) as (e & w' & H & H1 & H2 & H3 & _ & H4 & H5 & H6).
  exists e, w'. split_and!; try done. unfold store_of at 1. by rewrite H3.
Qed.

(** A node that has just been started on an empty disk. *)
Definition sample_node : World :=
  mkWorld (engine_with (str "A") (str "d") (new_store (str "A")))
    (new_engine (str "A") (str "d") empty_fs).2 [].

Lemma habitable_empty dir : dir ≠ [] → habitable dir empty_fs.
Proof.
  intros Hd. split; [done|..].
  - intros q _. change (files empty_fs) with (∅ : gmap bytes bytes). rewrite dom_empty. apply not_elem_of_empty.
  - intros x. apply not_elem_of_empty.
  - apply not_elem_of_empty.
  - intros x d _ H. simpl in H. by rewrite lookup_empty in H.
Qed.

Lemma new_engine_empty id dir out :
  dir ≠ [] →
  ∃ f', new_engine id dir empty_fs = (Ok (engine_with id dir (new_store id)), f') ∧ files f' = ∅ ∧
    engine_ok (mkWorld (engine_with id dir (new_store id)) f' out).
Proof.
  intros Hd. pose proof (habitable_empty dir Hd) as Hh.
  destruct (new_engine_eq id dir empty_fs Hh) as (f' & H & Hf & _).
  assert (journal_store id dir empty_fs = Ok (new_store id)) as Hj.
  { unfold journal_store. simpl. by rewrite lookup_empty. }
  rewrite Hj in H. simpl in H. exists f'. split_and!; [done|done|]. by eapply new_engine_ok.
Qed.

Lemma sample_node_ok : engine_ok sample_node ∧ files (disk sample_node) = ∅.
Proof.
  destruct (new_engine_empty (str "A") (str "d") []) as (f' & H & Hf & Hok); [by_decide|].
  unfold sample_node. by rewrite H.
Qed.

Lemma sample_placeable p : plain p → placeable (engine sample_node) (disk sample_node) p.
Proof.
  intros Hp. split.
  - assert (Forall (λ q, ¬ str "d/files" `prefix_of` q) (elements (dirs (disk sample_node)))) as H by by_decide.
    intros Hin. rewrite Forall_forall in H. apply (H _ (proj2 (elem_of_elements _ _) Hin)).
    rewrite target_plain by (done || apply sample_node_ok). by exists (slash :: p).
  - intros q _. destruct sample_node_ok as [_ ->]. rewrite dom_empty. apply not_elem_of_empty.
Qed.

Lemma ingest_file_correct_witness :
  ∃ e w', ingest_file (str "notes/a.txt") (str "hello") sample_node = (Ok e, w') ∧
    files (disk w') !! str "d/files/notes/a.txt" = Some (str "hello").
Proof.
  assert (chunk default_chunker (str "hello") = [mkChunk 0 (str "hello") (hash (str "hello"))]) as Hc
    by (vm_compute; reflexivity).
  destruct (ingest_file_correct sample_node (str "notes/a.txt") (str "hello"))
    as (e & w' & H1 & _ & _ & _ & _ & H2 & _).
  - apply sample_node_ok.
  - by_decide.
  - apply sample_placeable. by_decide.
  - change (chunker_ (engine sample_node)) with default_chunker. rewrite Hc.
    intros c ->%list_elem_of_singleton. split.
    + intros d Hd. destruct sample_node_ok as [_ E]. rewrite E in Hd. destruct (lookup_empty_Some _ _ Hd).
    + intros c' ->%list_elem_of_singleton _. reflexivity.
  - exists e, w'. split; [exact H1|]. apply H2. by_decide.
Defined.

(** C18: A restart loses nothing: when the names in the store survive a text file,
    constructing the engine again on the disk that [save_journal] left gives the
    engine that saved it, with the same store, and changes no file. *)
Theorem restart_restores_engine w :
  engine_ok w → printable (store_of w) →
  ∃ w' f', save_journal w = (Ok tt, w') ∧
    new_engine (engine_id (engine w)) (data_dir_ (engine w)) (disk w') = (Ok (engine w), f') ∧
    files f' = files (disk w') ∧ engine_ok (mkWorld (engine w) f' []).
Proof.
  intros Hw Hp. destruct (save_journal_ok w Hw) as [Hj Hw'].
  destruct (restart_ok (journal_written w) []) as (f' & H1 & H2 & H3); [done|done|apply lookup_insert_eq|].
  by exists (journal_written w), f'.
Qed.

(** The node after it recorded [sample_entry]. *)
Definition sample_full : World :=
  set_store (load_entry (new_store (str "A")) sample_entry) sample_node.

Lemma sample_full_ok : engine_ok sample_full ∧ printable (store_of sample_full).
Proof.
  assert (wf_entry sample_entry) as Hwf.
  { split; simpl; [repeat constructor|reflexivity|unfold wf_clock; by_decide|reflexivity]. }
  split.
  - apply engine_ok_store; [apply sample_node_ok|done|]. apply store_inv_load; [apply store_inv_new|done].
  - intros p e. unfold store_of; simpl. intros [[<- <-]|[_ []%lookup_empty_Some]]%lookup_insert_Some.
    split; [|split_and!; by_decide].
    split; simpl; [by_decide|by_decide|unfold node_ok; by_decide].
Qed.

Lemma restart_restores_engine_witness :
  ∃ w' f', save_journal sample_full = (Ok tt, w') ∧
    new_engine (str "A") (str "d") (disk w') = (Ok (engine sample_full), f').
Proof.
  destruct (restart_restores_engine sample_full) as (w' & f' & H1 & H2 & _).
  - apply sample_full_ok.
  - apply sample_full_ok.
  - exists w', f'. split; [exact H1|exact H2].
Defined.

(** C24: From the first start on an empty disk on, whatever local operations run on
    plain paths and however often the node is restarted, also after an operation
    that threw half way, the node's invariant holds: every stored chunk
    hashes to its name, the store is well formed, and its directories are usable. *)
Theorem node_invariant id dir e f out w :
  dir ≠ [] → new_engine id dir empty_fs = (Ok e, f) → rtc node_step (mkWorld e f out) w →
  engine_ok w.
Proof.
  intros Hd Hn Hsteps. assert (engine_ok (mkWorld e f out)) as H0.
  { eapply new_engine_ok; [|done]. by apply habitable_empty. }
  revert H0. induction Hsteps as [|w0 w1 w2 Hstep _ IH]; [done|].
  intros H0. by eapply IH, node_step_ok.
Qed.

Lemma node_invariant_witness :
  ∃ e f, new_engine (str "A") (str "d") empty_fs = (Ok e, f) ∧
    engine_ok (delete_file (str "a.txt") (ingest_file (str "a.txt") (str "hello") (mkWorld e f [])).2).2.
Proof.
  destruct (new_engine_empty (str "A") (str "d") []) as (f & Hn & _); [by_decide|].
  exists (engine_with (str "A") (str "d") (new_store (str "A"))), f. split; [exact Hn|].
  apply (node_invariant (str "A") (str "d") _ f [] _ ltac:(by_decide) Hn).
  eapply rtc_l; [apply (step_ingest _ (str "a.txt") (str "hello")); by_decide|].
  apply rtc_once, step_delete_file. by_decide.
Defined.

(** Removed content stays on disk: [delete_file], and ingesting an empty file,
    record a version without content but leave the file materialized for the
    path as it was. *)
Theorem removed_content_stays w p :
  engine_ok w → plain p →
  (∃ w', delete_file p w = (Ok tt, w') ∧
    (∃ e, get_entry (store_of w') p = Some e ∧ deleted e = true) ∧
    files (disk w') !! target (engine w) p = files (disk w) !! target (engine w) p) ∧
  (∃ e w', ingest_file p [] w = (Ok e, w') ∧ size e = 0%N ∧ chunk_hashes e = [] ∧
    files (disk w') !! target (engine w) p = files (disk w) !! target (engine w) p).
Proof.
  intros Hw Hp. pose proof (ok_wired w Hw) as He. split.
  - destruct (delete_file_ok w p Hw) as [-> _]. eexists. split; [done|]. split.
    + eexists. split; [by apply lookup_insert_eq|done].
    + simpl. rewrite lookup_insert_ne; [done|]. intros E. by apply (target_not_journal (engine w) p).
  - destruct (ingest_prefix w p [] Hw) as (r & f1 & _ & Hrec & Hw1 & _ & Hf & _).
    unfold ingest_file. rewrite (bind_ok _ _ _ _ _ Hrec). clear Hrec.
    set (w1 := mkWorld _ _ _) in *.
    assert (get_entry (store_of w1) p = Some (mkEntry p [] r
      (increment (clock_at (store_of w) p) (node_id_ (store_of w))) (node_id_ (store_of w)) false 0)) as Hget
      by apply lookup_insert_eq.
    assert (materialize p w1 = (Ok tt, w1)) as Hm by (unfold materialize; rewrite Hget; reflexivity).
    unfold mbind, stateM_bind. rewrite Hm.
    destruct (save_journal_ok w1 Hw1) as [-> _]. unfold deref_entry.
    change (store_of (journal_written w1)) with (store_of w1). rewrite Hget.
    eexists _, _. split_and!; [done|done|done|]. simpl. rewrite lookup_insert_ne.
    + apply Hf. intros x. by apply target_not_chunk.
    + intros E. by apply (target_not_journal (engine w) p).
Qed.

Lemma removed_content_stays_witness :
  ∃ e w', ingest_file (str "a.txt") [] sample_node = (Ok e, w') ∧ size e = 0%N.
Proof.
  destruct (removed_content_stays sample_node (str "a.txt")) as (_ & e & w' & H1 & H2 & _).
  - apply sample_node_ok.
  - by_decide.
  - exists e, w'. split; [exact H1|exact H2].
Defined.
