(* ===== verification/Frames.v ===== *)
(** * Frames: the socket as the session sees it, and the frames on it
    ([network.cpp] from [send_all] to [recv_frame])

    A connection is what the program can observe of a TCP socket: the segments in
    which [recv] will return the peer's bytes, the number of bytes each [send]
    will take, and the bytes sent so far. *)
From S2P Require Import Prelude Sha256.

(** ** The socket *)
Record Conn := mkConn {
  inbox : list bytes;    (* what the next calls of [recv] find; an empty segment is a close *)
  in_error : bool;       (* whether [recv] then fails, or finds the connection closed *)
  accepts : list Z;      (* what the next calls of [send] do: the bytes taken, or, negated, the
                            [errno] of a failure; after that all is taken *)
  outbox : bytes;        (* what has been sent *)
}.

(** [::recv(fd, buf, n, 0)]: -1, 0 or the bytes read. *)
Inductive recv_result := recv_failed | recv_closed | recv_data (b : bytes).

Definition recv (n : nat) (c : Conn) : recv_result * Conn :=
  match inbox c with
  | [] => (if in_error c then recv_failed else recv_closed, c)
  | seg :: rest =>
      if decide (seg = []) then (recv_closed, c)
      else (recv_data (take n seg),
            mkConn (if decide (drop n seg = []) then rest else drop n seg :: rest)
              (in_error c) (accepts c) (outbox c))
  end.

(** [::send(fd, data, len, 0)]; a call that fails with [EPIPE] raises [SIGPIPE] first. *)
Definition EPIPE : Z := 32.

Definition send (data : bytes) (c : Conn) : Z * Conn :=
  match accepts c with
  | [] => (Z.of_nat (length data), mkConn (inbox c) (in_error c) [] (outbox c ++ data))
  | n :: ns =>
      let n := Z.min n (Z.of_nat (length data)) in
      (n, mkConn (inbox c) (in_error c) ns (outbox c ++ take (Z.to_nat n) data))
  end.

(** [while (sent < len)]: every turn that goes on has sent a byte. *)
Fixpoint send_loop (fuel : nat) (data : bytes) (sent : nat) : stateM Conn unit := λ c,
  match fuel with
  | 0 => (Ok tt, c)
  | S fuel =>
      if decide (sent < length data) then
        let '(n, c) := send (drop sent data) c in
        if (n =? - EPIPE)%Z then (Throw sigpipe, c)
        else if (n <=? 0)%Z
        then (Throw (runtime_error (str "send() failed / peer closed connection")), c)
        else send_loop fuel data (sent + Z.to_nat n) c
      else (Ok tt, c)
  end.
Definition send_all (data : bytes) : stateM Conn unit := send_loop (S (length data)) data 0.

(** [while (got < len)], with the bytes received so far; [None] is a disconnect. *)
Fixpoint recv_loop (fuel : nat) (len : nat) (got : bytes) : stateM Conn (option bytes) := λ c,
  match fuel with
  | 0 => (Ok (Some got), c)
  | S fuel =>
      if decide (length got < len) then
        match recv (len - length got) c with
        | (recv_closed, c) => (Ok None, c)
        | (recv_failed, c) => (Throw (runtime_error (str "recv() failed")), c)
        | (recv_data b, c) => recv_loop fuel len (got ++ b) c
        end
      else (Ok (Some got), c)
  end.
Definition recv_all (len : nat) : stateM Conn (option bytes) := recv_loop (S len) len [].

(** ** Frames *)

(** The four bytes of a [uint32_t], most significant first. *)
Definition len_bytes (len : N) : bytes :=
  [byte_of (N.land (N.shiftr len 24) 0xff); byte_of (N.land (N.shiftr len 16) 0xff);
   byte_of (N.land (N.shiftr len 8) 0xff); byte_of (N.land len 0xff)].

(** [(uint32_t(p[0]) << 24) | ... | uint32_t(p[3])] *)
Definition read_len (p : bytes) : N :=
  N.lor (N.lor (N.lor (N.shiftl (byte_at p 0) 24) (N.shiftl (byte_at p 1) 16))
    (N.shiftl (byte_at p 2) 8)) (byte_at p 3).

Definition FRAME_MANIFEST : byte := byte_of 1.
Definition FRAME_CHUNK_REQUEST : byte := byte_of 2.
Definition FRAME_CHUNK_DATA : byte := byte_of 3.
Definition FRAME_DONE : byte := byte_of 4.

Definition send_frame (type : byte) (payload : bytes) : stateM Conn unit :=
  let len := u32 (N.of_nat (length payload)) in
  send_all (len_bytes len ++ [type]) ;!
  if decide (payload = []) then mret tt else send_all payload.

Definition recv_frame : stateM Conn (option (byte * bytes)) :=
  let! h := recv_all 5 in
  match h with
  | None => mret None
  | Some header =>
      let len := read_len header in
      let type := default (byte_of 0) (header !! 4) in
      if decide (len = 0%N) then mret (Some (type, []))
      else
        let! p := recv_all (N.to_nat len) in
        match p with
        | None => mret None
        | Some payload => mret (Some (type, payload))
        end
  end.

(** ** What the socket promises *)

(** The peer's bytes [s] are on their way, however they are cut into segments. *)
Definition delivers (c : Conn) (s : bytes) : Prop :=
  concat (inbox c) = s ∧ Forall (λ seg, seg ≠ []) (inbox c).
(** Every call of [send] takes at least one byte. *)
Definition willing (c : Conn) : Prop := Forall (λ n, (0 < n)%Z) (accepts c).

(** [c'] is [c] after sending [out] and receiving all but [s] of what it delivers. *)
Record moved (c c' : Conn) (out s : bytes) : Prop := {
  moved_out : outbox c' = outbox c ++ out;
  moved_in : delivers c' s;
  moved_willing : willing c';
}.

Lemma moved_refl c s : delivers c s → willing c → moved c c [] s.
Proof. intros. split; [by rewrite app_nil_r|done|done]. Qed.

Lemma moved_trans c1 c2 c3 o1 o2 s1 s2 :
  moved c1 c2 o1 s1 → moved c2 c3 o2 s2 → moved c1 c3 (o1 ++ o2) s2.
Proof. intros [H1 _ _] [H2 ? ?]. split; [|done|done]. by rewrite H2, H1, app_assoc. Qed.

(** ** Sending *)

Lemma send_moved data c s :
  delivers c s → willing c → data ≠ [] →
  ∃ n c', send data c = (Z.of_nat n, c') ∧ 0 < n ≤ length data ∧ moved c c' (take n data) s.
Proof.
  intros Hd Hw Hne. assert (0 < length data) as Hlen by (destruct data; [done|simpl; lia]).
  unfold send, willing in *. destruct (accepts c) as [|n ns] eqn:E.
  - eexists (length data), _. split_and!; [done|lia|lia|]. rewrite take_ge by done.
    split; [done|done|constructor].
  - inversion_clear Hw as [|?? Hn Hns].
    exists (Z.to_nat (Z.min n (Z.of_nat (length data)))). eexists. split_and!; [|lia|lia|].
    + f_equal. lia.
    + split; [done|done|done].
Qed.

Lemma send_loop_moved fuel data sent c s :
  delivers c s → willing c → sent ≤ length data → length data - sent < fuel →
  ∃ c', send_loop fuel data sent c = (Ok tt, c') ∧ moved c c' (drop sent data) s.
Proof.
  revert sent c. induction fuel as [|fuel IH]; intros sent c Hd Hw Hs Hf; [lia|]. cbn [send_loop].
  case_decide as Hlt.
  - destruct (send_moved (drop sent data) c s) as (n & c1 & -> & Hn & H1); [done|done| |].
    { intros E. apply (f_equal length) in E. rewrite length_drop in E. cbn [length] in E. lia. }
    rewrite length_drop in Hn. rewrite (proj2 (Z.eqb_neq _ _)), (proj2 (Z.leb_gt _ _)) by (unfold EPIPE; lia). rewrite Nat2Z.id.
    destruct (IH (sent + n) c1) as (c2 & -> & H2); [apply H1|apply H1|lia|lia|].
    exists c2. split; [done|]. pose proof (moved_trans _ _ _ _ _ _ _ H1 H2) as H3.
    rewrite <- drop_drop, take_drop in H3. done.
  - exists c. split; [done|]. rewrite drop_ge by lia. by apply moved_refl.
Qed.

Lemma send_all_moved data c s :
  delivers c s → willing c → ∃ c', send_all data c = (Ok tt, c') ∧ moved c c' data s.
Proof.
  intros Hd Hw. destruct (send_loop_moved (S (length data)) data 0 c s) as (c' & ? & H);
    [done|done|lia|lia|]. exists c'. by rewrite drop_0 in H.
Qed.

(** The bytes of a frame. *)
Definition frame (type : byte) (payload : bytes) : bytes :=
  len_bytes (u32 (N.of_nat (length payload))) ++ type :: payload.

Lemma send_frame_moved t p c s :
  delivers c s → willing c → ∃ c', send_frame t p c = (Ok tt, c') ∧ moved c c' (frame t p) s.
Proof.
  intros Hd Hw. unfold send_frame, frame.
  destruct (send_all_moved (len_bytes (u32 (N.of_nat (length p))) ++ [t]) c s Hd Hw) as (c1 & H1 & M1).
  unfold mbind, stateM_bind. rewrite H1. case_decide as Hp.
  - subst p. exists c1. split; [done|]. exact M1.
  - destruct (send_all_moved p c1 s) as (c2 & H2 & M2); [apply M1|apply M1|].
    exists c2. split; [done|]. pose proof (moved_trans _ _ _ _ _ _ _ M1 M2) as M3.
    by rewrite <- app_assoc in M3.
Qed.

(** ** Receiving *)

Lemma recv_delivers n c s :
  delivers c s → s ≠ [] → 0 < n →
  ∃ k c', recv n c = (recv_data (take k s), c') ∧ 0 < k ≤ n ∧ k ≤ length s ∧
    outbox c' = outbox c ∧ accepts c' = accepts c ∧ delivers c' (drop k s).
Proof.
  intros [Hs Hne] Hs0 Hn. unfold recv. destruct (inbox c) as [|seg rest] eqn:E; [by subst|].
  inversion_clear Hne as [|?? Hseg Hrest]. rewrite decide_False by done. simpl in Hs. subst s.
  assert (0 < length seg) as Hlen by (destruct seg; [done|simpl; lia]).
  exists (n `min` length seg). eexists. rewrite length_app.
  split; [|split; [|split; [|split; [|split]]]]; [|lia|lia|..].
  - f_equal. f_equal. rewrite take_app_le by lia. destruct (decide (n ≤ length seg)).
    + by rewrite Nat.min_l by lia.
    + by rewrite Nat.min_r, !take_ge by lia.
  - done.
  - done.
  - unfold delivers; cbn [inbox]. rewrite drop_app_le by lia.
    replace (drop (n `min` length seg) seg) with (drop n seg).
    + case_decide as Hd; [by rewrite Hd|]. split; [done|by constructor].
    + destruct (decide (n ≤ length seg)); [by rewrite Nat.min_l by lia|].
      by rewrite Nat.min_r, !drop_ge by lia.
Qed.

Lemma recv_moved n c s :
  delivers c s → willing c → s ≠ [] → 0 < n →
  ∃ k c', recv n c = (recv_data (take k s), c') ∧ 0 < k ≤ n ∧ k ≤ length s ∧ moved c c' [] (drop k s).
Proof.
  intros Hd Hw Hs Hn. destruct (recv_delivers n c s Hd Hs Hn) as (k & c' & H & Hk & Hl & Ho & Ha & Hd').
  exists k, c'. split; [done|]. split; [done|]. split; [done|]. split; [by rewrite app_nil_r|done|]. unfold willing. by rewrite Ha.
Qed.

Lemma recv_loop_moved fuel len got c x s :
  delivers c (x ++ s) → willing c → length got + length x = len → length x < fuel →
  ∃ c', recv_loop fuel len got c = (Ok (Some (got ++ x)), c') ∧ moved c c' [] s.
Proof.
  revert got c x. induction fuel as [|fuel IH]; intros got c x Hd Hw Hlen Hf; [lia|]. cbn [recv_loop].
  case_decide as Hlt.
  - destruct (recv_moved (len - length got) c (x ++ s)) as (k & c1 & -> & Hk & _ & M1);
      [done|done| |lia|].
    { intros [-> _]%app_nil. simpl in Hlen. lia. }
    rewrite take_app_le, drop_app_le in * by lia.
    destruct (IH (got ++ take k x) c1 (drop k x)) as (c2 & -> & M2); [apply M1|apply M1| | |].
    + rewrite length_app, length_take, length_drop. lia.
    + rewrite length_drop. lia.
    + exists c2. rewrite <- app_assoc, take_drop. split; [done|].
      exact (moved_trans _ _ _ _ _ _ _ M1 M2).
  - destruct x; [|simpl in Hlen; lia]. exists c. rewrite app_nil_r. split; [done|]. by apply moved_refl.
Qed.

Lemma recv_all_moved x c s :
  delivers c (x ++ s) → willing c →
  ∃ c', recv_all (length x) c = (Ok (Some x), c') ∧ moved c c' [] s.
Proof. intros Hd Hw. apply (recv_loop_moved (S (length x)) (length x) [] c x s); auto. Qed.

Lemma read_len_cons a b c d t :
  read_len (a :: b :: c :: d :: t) =
    N.lor (N.lor (N.lor (N.shiftl (byte_val a) 24) (N.shiftl (byte_val b) 16))
      (N.shiftl (byte_val c) 8)) (byte_val d).
Proof. reflexivity. Qed.

Lemma N_ones_testbit n k : N.testbit (N.ones n) k = (k <? n)%N.
Proof.
  destruct (N.ltb_spec k n); [by apply N.ones_spec_low|by apply N.ones_spec_high].
Qed.

Lemma read_len_bytes n t : read_len (len_bytes n ++ t) = u32 n.
Proof.
  unfold len_bytes. cbn [app]. rewrite read_len_cons.
  rewrite !byte_val_of_small by (rewrite land_255; apply N.mod_lt; lia).
  unfold wrap. rewrite <- N.land_ones. apply N.bits_inj. intros k.
  change 0xff%N with (N.ones 8). rewrite !N.lor_spec, !N.land_spec, !N_ones_testbit.
  assert (∀ j, N.testbit (N.shiftl (N.land (N.shiftr n j) (N.ones 8)) j) k =
    (N.testbit n k && (j <=? k)%N && (k <? j + 8)%N)) as Hbit.
  { intros j. destruct (N.leb_spec j k).
    - rewrite N.shiftl_spec_high', N.land_spec, N.shiftr_spec', N_ones_testbit by done.
      replace (k - j + j)%N with k by lia. rewrite andb_true_r. f_equal.
      destruct (N.ltb_spec (k - j) 8), (N.ltb_spec k (j + 8)); try done; lia.
    - rewrite N.shiftl_spec_low by done. by rewrite andb_false_r. }
  rewrite !Hbit.
  destruct (N.testbit n k); simpl; [|done].
  destruct (N.leb_spec 24 k), (N.ltb_spec k (24 + 8)), (N.leb_spec 16 k), (N.ltb_spec k (16 + 8)),
    (N.leb_spec 8 k), (N.ltb_spec k (8 + 8)), (N.ltb_spec k 8), (N.ltb_spec k 32); simpl; try done; lia.
Qed.

(** What [recv_frame] makes of the bytes [send_frame] sent: the length is
    transmitted modulo 2^32. *)
Lemma recv_frame_moved t p c s :
  delivers c (frame t p ++ s) → willing c → (N.of_nat (length p) < 2 ^ 32)%N →
  ∃ c', recv_frame c = (Ok (Some (t, p)), c') ∧ moved c c' [] s.
Proof.
  intros Hd Hw Hlen. unfold recv_frame, frame in *. rewrite wrap_small in Hd by done.
  set (n := N.of_nat (length p)) in *.
  replace ((len_bytes n ++ t :: p) ++ s) with ((len_bytes n ++ [t]) ++ (p ++ s)) in Hd
    by (by rewrite <- !app_assoc).
  destruct (recv_all_moved (len_bytes n ++ [t]) c (p ++ s) Hd Hw) as (c1 & H1 & M1).
  unfold mbind, stateM_bind. change (length (len_bytes n ++ [t])) with 5 in H1. rewrite H1. cbv zeta.
  rewrite read_len_bytes, wrap_small by done. change (default _ _) with t. case_decide as Hn.
  - assert (p = []) as -> by (destruct p; [done|unfold n in Hn; simpl in Hn; lia]).
    exists c1. split; [done|]. exact M1.
  - destruct (recv_all_moved p c1 s) as (c2 & H2 & M2); [apply M1|apply M1|].
    unfold n. rewrite Nat2N.id, H2. exists c2. split; [done|]. exact (moved_trans _ _ _ _ _ _ _ M1 M2).
Qed.

(** ** The length bytes, bit by bit *)

Lemma byte_testbit (b : byte) k : (8 <= k)%N → N.testbit (byte_val b) k = false.
Proof.
  intros Hk. pose proof (byte_val_lt b) as Hb. rewrite <- (N.mod_small (byte_val b) (2 ^ 8)) by done.
  by rewrite <- N.land_ones, N.land_spec, N_ones_testbit, (proj2 (N.ltb_ge k 8) Hk), andb_false_r.
Qed.

Lemma shifted_byte_testbit (b : byte) s k :
  N.testbit (N.shiftl (byte_val b) s) k = ((s <=? k) && (k <? s + 8) && N.testbit (byte_val b) (k - s))%N.
Proof.
  destruct (N.leb_spec s k); simpl; [|by apply N.shiftl_spec_low].
  rewrite N.shiftl_spec_high' by done. destruct (N.ltb_spec k (s + 8)); [done|].
  apply byte_testbit. lia.
Qed.

Lemma read_len_byte (a b c d : byte) s (x : byte) :
  (s, x) ∈ [(24%N, a); (16%N, b); (8%N, c); (0%N, d)] →
  byte_of (N.land (N.shiftr (read_len [a; b; c; d]) s) 0xff) = x.
Proof.
  intros Hin. rewrite <- (byte_of_val x). f_equal. rewrite read_len_cons.
  apply N.bits_inj. intros k. change 0xff%N with (N.ones 8).
  rewrite N.land_spec, N_ones_testbit, N.shiftr_spec', !N.lor_spec.
  rewrite <- (N.shiftl_0_r (byte_val d)). rewrite !shifted_byte_testbit.
  destruct (N.ltb_spec k 8) as [Hk|Hk].
  - rewrite andb_true_r. repeat setoid_rewrite elem_of_cons in Hin. rewrite elem_of_nil in Hin.
    assert (∀ u v, v <> u → u ∈ [0;8;16;24]%N → v ∈ [0;8;16;24]%N →
      ((u <=? k + v) && (k + v <? u + 8))%N = false) as Hoff.
    { intros u v. repeat setoid_rewrite elem_of_cons. intros Hne Hu Hv.
      destruct (N.leb_spec u (k + v)), (N.ltb_spec (k + v) (u + 8)); try done.
      repeat destruct Hu as [->|Hu]; repeat destruct Hv as [->|Hv];
        rewrite ?elem_of_nil in *; try done; lia. }
    assert (∀ v, ((v <=? k + v) && (k + v <? v + 8))%N = true) as Hon.
    { intros v. destruct (N.leb_spec v (k + v)), (N.ltb_spec (k + v) (v + 8)); try done; lia. }
    repeat destruct Hin as [[= -> ->]|Hin]; [..|done];
      rewrite Hon, ?N.add_sub, !Hoff by by_decide; by rewrite ?orb_false_r, ?andb_true_l.
  - rewrite andb_false_r. symmetry. by apply byte_testbit.
Qed.

Lemma len_bytes_read_len p : length p = 4 → len_bytes (read_len p) = p ∧ (read_len p < 2 ^ 32)%N.
Proof.
  intros Hp. destruct p as [|a [|b [|c [|d [|]]]]]; try done.
  assert (len_bytes (read_len [a; b; c; d]) = [a; b; c; d]) as E.
  { unfold len_bytes. rewrite <- (N.shiftr_0_r (read_len _)) at 4.
    rewrite (read_len_byte a b c d 24 a), (read_len_byte a b c d 16 b), (read_len_byte a b c d 8 c),
      (read_len_byte a b c d 0 d) by set_solver. done. }
  split; [done|]. rewrite <- E, <- (app_nil_r (len_bytes _)), read_len_bytes. apply wrap_lt.
Qed.

Lemma read_len_take p : read_len (take 4 p) = read_len p.
Proof. by destruct p as [|a [|b [|c [|d p]]]]. Qed.

(** ** A connection that closes early *)

Lemma recv_in_error n c : in_error (recv n c).2 = in_error c.
Proof. unfold recv. destruct (inbox c) as [|seg rest]; [done|]. by case_decide. Qed.

Lemma recv_loop_short fuel len got c x :
  delivers c x → willing c → in_error c = false → length got + length x < len → length x < fuel →
  ∃ c', recv_loop fuel len got c = (Ok None, c').
Proof.
  revert got c x. induction fuel as [|fuel IH]; intros got c x Hd Hw He Hlen Hf; [lia|]. cbn [recv_loop].
  rewrite decide_True by lia. destruct (decide (x = [])) as [->|Hx].
  - destruct Hd as [Hc Hn]. unfold recv. destruct (inbox c) as [|seg rest]; [rewrite He; by eexists|].
    inversion_clear Hn as [|?? Hseg _]. simpl in Hc. by apply app_nil in Hc as [? _].
  - destruct (recv_moved (len - length got) c x Hd Hw Hx) as (k & c1 & Hr & Hk & Hkx & M1); [lia|].
    pose proof (recv_in_error (len - length got) c) as He1. rewrite Hr in *. cbn [snd] in He1.
    apply (IH _ _ (drop k x)); [apply M1|apply M1|congruence| |];
      rewrite ?length_app, ?length_take, ?length_drop; lia.
Qed.

Lemma recv_all_short len c x :
  delivers c x → willing c → in_error c = false → length x < len → ∃ c', recv_all len c = (Ok None, c').
Proof. intros. apply (recv_loop_short _ _ _ _ x); try done. lia. Qed.

Lemma recv_loop_in_error fuel len got c : in_error (recv_loop fuel len got c).2 = in_error c.
Proof.
  revert got c. induction fuel as [|fuel IH]; intros got c; [done|]. cbn [recv_loop]. case_decide; [|done].
  pose proof (recv_in_error (len - length got) c) as He. destruct (recv _ c) as [[| |b] c']; simpl in *; try done.
  by rewrite IH.
Qed.

Lemma recv_frame_short c t p s :
  delivers c s → willing c → in_error c = false → (N.of_nat (length p) < 2 ^ 32)%N →
  s `prefix_of` frame t p → s ≠ frame t p → ∃ c', recv_frame c = (Ok None, c').
Proof.
  intros Hd Hw He Hp [k Hk] Hne. unfold recv_frame, mbind, stateM_bind.
  assert (k ≠ []) as Hk0 by (intros ->; rewrite app_nil_r in Hk; done).
  assert (0 < length k) as Hkl by (destruct k; [done|simpl; lia]).
  destruct (decide (length s < 5)) as [H5|H5].
  { destruct (recv_all_short 5 c s Hd Hw He H5) as [c' ->]. by eexists. }
  unfold frame in Hk. rewrite wrap_small in Hk by done. set (n := N.of_nat (length p)) in *.
  assert (frame t p = (len_bytes n ++ [t]) ++ p) as Hfr
    by (unfold frame; rewrite wrap_small by done; by rewrite <- app_assoc).
  assert (∃ s', s = (len_bytes n ++ [t]) ++ s' ∧ p = s' ++ k) as (s' & -> & ->).
  { exists (drop 5 s). replace (len_bytes n ++ t :: p) with ((len_bytes n ++ [t]) ++ p) in Hk
      by (by rewrite <- app_assoc).
    assert (take 5 s = len_bytes n ++ [t]) as E.
    { apply (f_equal (take 5)) in Hk. rewrite take_app_length' in Hk by done.
      by rewrite take_app_le in Hk by lia. }
    split; [by rewrite <- E, take_drop|]. rewrite <- E in Hk. rewrite <- (take_drop 5 s) in Hk at 2.
    rewrite <- app_assoc in Hk. by apply app_inv_head in Hk. }
  destruct (recv_all_moved (len_bytes n ++ [t]) c s' Hd Hw) as (c1 & H1 & M1).
  change (length (len_bytes n ++ [t])) with 5 in H1.
  pose proof (recv_loop_in_error 6 5 [] c) as He1. fold (recv_all 5) in He1. rewrite H1 in He1 |- *. cbv zeta.
  rewrite read_len_bytes, wrap_small by done.
  rewrite decide_False by (unfold n; rewrite length_app; lia).
  destruct (recv_all_short (N.to_nat n) c1 s') as [c2 ->]; [apply M1|apply M1|simpl in He1; congruence| |by eexists].
  unfold n. rewrite Nat2N.id, length_app. lia.
Qed.

Lemma send_in_error data c : in_error (send data c).2 = in_error c.
Proof. unfold send. by destruct (accepts c). Qed.

Lemma send_loop_in_error fuel data sent c : in_error (send_loop fuel data sent c).2 = in_error c.
Proof.
  revert sent c. induction fuel as [|fuel IH]; intros sent c; [done|]. cbn [send_loop]. case_decide; [|done].
  pose proof (send_in_error (drop sent data) c) as He. destruct (send _ c) as [n c'].
  destruct (n =? - EPIPE)%Z; [exact He|]. destruct (n <=? 0)%Z; [exact He|]. rewrite IH. exact He.
Qed.

Lemma send_frame_in_error t p c : in_error (send_frame t p c).2 = in_error c.
Proof.
  unfold send_frame, send_all, mbind, stateM_bind.
  pose proof (send_loop_in_error (S (length (len_bytes (u32 (N.of_nat (length p))) ++ [t])))
    (len_bytes (u32 (N.of_nat (length p))) ++ [t]) 0 c) as He.
  destruct (send_loop _ _ 0 c) as [[[]| |] c']; cbn [snd] in *; try done.
  case_decide; [done|]. rewrite send_loop_in_error. exact He.
Qed.

(** ** Properties *)

(** C22: Frames survive the stream: whatever [send] accepts per call and however
    [recv] returns the bytes, [recv_frame] returns the type and payload that
    [send_frame] was given (below 2^32 bytes), consumes exactly the frame's
    bytes, and leaves what follows it for the next call. *)
Theorem frame_roundtrip t p cs cr rest :
  Forall (λ seg, seg ≠ []) (inbox cs) → willing cs → willing cr → (N.of_nat (length p) < 2 ^ 32)%N →
  ∃ cs', send_frame t p cs = (Ok tt, cs') ∧
    ∀ sent, outbox cs' = outbox cs ++ sent → delivers cr (sent ++ rest) →
    ∃ cr', recv_frame cr = (Ok (Some (t, p)), cr') ∧ delivers cr' rest.
Proof.
  intros Hin Hs Hr Hp.
  destruct (send_frame_moved t p cs (concat (inbox cs))) as (cs' & H & [M _ _]); [by split|done|].
  exists cs'. split; [done|]. intros sent Hsent Hd. rewrite M in Hsent. apply app_inv_head in Hsent as <-.
  destruct (recv_frame_moved t p cr rest Hd Hr Hp) as (cr' & H' & M'). exists cr'. split; [done|apply M'].
Qed.

(** A connection on which every byte of [s] arrives alone and every [send] takes
    at most three bytes, ten times. *)
Definition drip (s : bytes) : Conn := mkConn (map (λ b, [b]) s) false (replicate 10 3%Z) [].
Lemma drip_ok s : delivers (drip s) s ∧ willing (drip s) ∧ outbox (drip s) = [].
Proof.
  split; [split|split; [|done]]; cbn [drip inbox].
  - induction s as [|b s IH]; [done|]. simpl. by rewrite IH.
  - apply Forall_map, Forall_true. done.
  - unfold willing; simpl. repeat constructor.
Qed.

Lemma frame_roundtrip_witness :
  ∃ cs', send_frame FRAME_DONE (str "payload") (drip []) = (Ok tt, cs') ∧
  ∃ cr', recv_frame (drip (frame FRAME_DONE (str "payload") ++ str "next")) =
    (Ok (Some (FRAME_DONE, str "payload")), cr') ∧ delivers cr' (str "next").
Proof.
  destruct (frame_roundtrip FRAME_DONE (str "payload") (drip [])
    (drip (frame FRAME_DONE (str "payload") ++ str "next")) (str "next")) as (cs' & H & H').
  - constructor.
  - apply drip_ok.
  - apply drip_ok.
  - reflexivity.
  - exists cs'. split; [exact H|]. apply (H' (frame FRAME_DONE (str "payload"))).
    + injection H as <-. reflexivity.
    + apply drip_ok.
Defined.
