(* ===== verification/Messages.v ===== *)
(** * Messages: the payloads of the session's frames ([network.cpp])

    Manifests, chunk requests and chunk data, with the loops of [run_sync_session]
    that build and read the last. *)
From S2P Require Import Prelude Text VectorClock Sha256 Chunker FileEntry CrdtStore EntryCodec Fs FileStore SyncEngine Frames.

(** ** Messages *)
Definition serialize_manifest (e : SyncEngine) : bytes :=
  engine_id e ++ newline :: unlines newline (entry_to_line <$> all_entries (store_ e)).

(** The lines that are not empty. *)
Definition text_lines (text : bytes) : list bytes := filter (λ l, l ≠ []) (getlines newline text).

Definition parse_manifest (payload : bytes) : outcome (list FileEntry) :=
  match getline newline payload with
  | None => Ok []
  | Some (_, rest) => map_outcome line_to_entry (text_lines rest)
  end.

Definition serialize_hash_list (hashes : list Digest) : bytes := join newline (map to_hex hashes).
Definition parse_hash_list (payload : bytes) : outcome (list Digest) :=
  map_outcome hex_to_digest (text_lines payload).

(** The loop that answers the peer's request. *)
Fixpoint collect_chunks (b : FileStore) (f : fs) (hs : list Digest) (payload : bytes) : outcome bytes :=
  match hs with
  | [] => Ok payload
  | h :: hs =>
      if has_chunk b f h then
        let! d := get_chunk b f h in
        collect_chunks b f hs (payload ++ h ++ len_bytes (u32 (N.of_nat (length d))) ++ d)
      else collect_chunks b f hs payload
  end.

(** [while (pos + 36 <= payload.size())], [rest] being [payload[pos..]]: a
    length that runs past the payload reads out of range. *)
Fixpoint receive_loop (fuel : nat) (b : FileStore) (rest : bytes) (fetched : Z) : stateM fs Z :=
  match fuel with
  | 0 => mret fetched
  | S fuel =>
      if decide (36 ≤ length rest) then
        let h := take 32 rest in
        let len := N.to_nat (read_len (drop 32 rest)) in
        let rest := drop 36 rest in
        if decide (len ≤ length rest) then
          put_chunk b (mkChunk 0 (take len rest) h) ;!
          receive_loop fuel b (drop len rest) (fetched + 1)
        else lift UB
      else mret fetched
  end.
Definition receive_chunks (b : FileStore) (payload : bytes) : stateM fs Z :=
  receive_loop (S (length payload)) b payload 0.

(** ** Messages are read back *)

Lemma parse_manifest_serialize e :
  newline ∉ engine_id e → store_inv (store_ e) → printable (store_ e) →
  parse_manifest (serialize_manifest e) = Ok (all_entries (store_ e)).
Proof.
  intros Hid Hs Hp. unfold parse_manifest, serialize_manifest. rewrite getline_delim by done.
  pose proof (printable_entries _ Hs Hp) as Hl. unfold text_lines.
  rewrite getlines_entries by done. rewrite filter_Forall.
  - apply map_outcome_ok, Forall2_fmap_l, Forall_Forall2_diag. eapply Forall_impl; [exact Hl|].
    intros x [Hwf [Hok _]]. by apply line_to_entry_to_line.
  - apply Forall_fmap, Forall_true. intros x. apply entry_to_line_not_nil.
Qed.

Lemma parse_manifest_wf m l : parse_manifest m = Ok l → Forall wf_entry l.
Proof.
  unfold parse_manifest. destruct (getline newline m) as [[x rest]|]; [|by intros [= <-]].
  apply map_outcome_Forall. intros line e He. by apply line_to_entry_ok in He as [? _].
Qed.

Definition digests (hs : list Digest) : Prop := Forall (λ h : Digest, length h = 32) hs.

Lemma map_hex_to_digest hs : digests hs → map_outcome hex_to_digest (map to_hex hs) = Ok hs.
Proof.
  intros Hh. apply map_outcome_ok, Forall2_fmap_l, Forall_Forall2_diag.
  eapply Forall_impl; [exact Hh|]. intros d. apply hex_to_digest_to_hex.
Qed.

Lemma parse_hash_list_serialize hs : digests hs → parse_hash_list (serialize_hash_list hs) = Ok hs.
Proof.
  intros Hh. unfold parse_hash_list, serialize_hash_list, text_lines.
  assert (Forall (λ x, newline ∉ x ∧ x ≠ []) (map to_hex hs)) as Hx.
  { apply Forall_map. eapply Forall_impl; [exact Hh|]. intros d Hd. split.
    - apply to_hex_not_elem, not_hex_separators.
    - intros E. apply (f_equal length) in E. rewrite length_to_hex, Hd in E. discriminate E. }
  rewrite getlines_join by exact Hx. rewrite filter_Forall; [by apply map_hex_to_digest|].
  eapply Forall_impl; [exact Hx|]. by intros x [_ ?].
Qed.

(** ** Chunk data *)

(** The records of a CHUNK_DATA payload. *)
Definition record (p : Digest * bytes) : bytes := p.1 ++ len_bytes (N.of_nat (length p.2)) ++ p.2.
Definition records (l : list (Digest * bytes)) : bytes := concat (map record l).

(** What a record can carry. *)
Definition sendable (p : Digest * bytes) : Prop := length p.1 = 32 ∧ (N.of_nat (length p.2) < 2 ^ 32)%N.

Definition chunk_of (p : Digest * bytes) : Chunk := mkChunk 0 p.2 p.1.

(** The stored ones among the chunks asked for. *)
Definition stored (b : FileStore) (f : fs) (hs : list Digest) : list (Digest * bytes) :=
  omap (λ h, pair h <$> files f !! chunk_path b h) hs.

(** Every stored chunk has a length a record can carry. *)
Definition small_chunks (b : FileStore) (f : fs) : Prop :=
  ∀ x d, length x = 32 → files f !! chunk_path b x = Some d → (N.of_nat (length d) < 2 ^ 32)%N.

Lemma collect_chunks_stored b f hs payload :
  ready b f → small_chunks b f → digests hs →
  collect_chunks b f hs payload = Ok (payload ++ records (stored b f hs)).
Proof.
  intros Hr Hs Hh. revert payload. induction Hh as [|h hs Hlen _ IH]; intros payload; simpl.
  { unfold records; simpl. by rewrite app_nil_r. }
  rewrite has_chunk_ready by done. unfold get_chunk, read_file.
  destruct (files f !! chunk_path b h) as [d|] eqn:E; simpl.
  - rewrite IH, wrap_small by (by eapply Hs). unfold records; simpl. unfold record at 2; simpl.
    by rewrite <- !app_assoc.
  - by rewrite IH.
Qed.

Lemma stored_sendable b f hs : digests hs → small_chunks b f → Forall sendable (stored b f hs).
Proof.
  intros Hh Hs. induction Hh as [|h hs Hlen _ IH]; [constructor|]. unfold stored in *. csimpl.
  destruct (files f !! chunk_path b h) as [d|] eqn:E; simpl; [|done].
  constructor; [|done]. split; [done|]. by eapply Hs.
Qed.

Lemma elem_of_stored b f hs h d :
  (h, d) ∈ stored b f hs ↔ h ∈ hs ∧ files f !! chunk_path b h = Some d.
Proof.
  unfold stored. rewrite list_elem_of_omap. split.
  - intros (x & Hx & Hd). destruct (files f !! chunk_path b x) eqn:E; simpl in Hd; [|done].
    injection Hd as <- <-. done.
  - intros [Hh Hd]. exists h. split; [done|]. by rewrite Hd.
Qed.

Lemma length_record p : sendable p → length (record p) = 36 + length p.2.
Proof. intros [H _]. unfold record. rewrite !length_app, H. done. Qed.

Lemma receive_turn fuel b p rest k f :
  sendable p →
  receive_loop (S fuel) b (record p ++ rest) k f =
    (put_chunk b (chunk_of p) ;! receive_loop fuel b rest (k + 1)) f.
Proof.
  intros Hp. pose proof (length_record p Hp) as Hlen. destruct Hp as [Hh Hd]. cbn [receive_loop].
  rewrite decide_True by (rewrite length_app; lia).
  assert (record p ++ rest = p.1 ++ (len_bytes (N.of_nat (length p.2)) ++ (p.2 ++ rest))) as E
    by (unfold record; by rewrite <- !app_assoc).
  assert (drop 36 (record p ++ rest) = p.2 ++ rest) as ->.
  { rewrite E, app_assoc. rewrite drop_app_length'; [done|]. by rewrite length_app, Hh. }
  rewrite E, (take_app_length' _ _ _ (eq_sym Hh)), (drop_app_length' _ _ _ (eq_sym Hh)), read_len_bytes.
  rewrite (wrap_small _ _ Hd), Nat2N.id.
  rewrite decide_True by (rewrite length_app; lia).
  by rewrite take_app_length, drop_app_length.
Qed.

(** The loop stores the records of the payload, in order, and ignores a rest too
    short to be one. *)
Lemma receive_records fuel b l tail k f f' :
  Forall sendable l → length tail < 36 → length l < fuel →
  for_each (chunk_of <$> l) (put_chunk b) f = (Ok tt, f') →
  receive_loop fuel b (records l ++ tail) k f = (Ok (k + Z.of_nat (length l))%Z, f').
Proof.
  intros Hl Ht. revert fuel k f. induction Hl as [|p l Hp _ IH]; intros [|fuel] k f Hf Hput;
    try (simpl in Hf; lia).
  - simpl in Hput. injection Hput as ->. cbn [receive_loop records map concat app length].
    rewrite decide_False by lia. by rewrite Z.add_0_r.
  - unfold records in *. cbn [map concat]. rewrite <- app_assoc, receive_turn by done.
    cbn [fmap list_fmap for_each] in Hput. unfold mbind, stateM_bind in *.
    destruct (put_chunk b (chunk_of p) f) as [[[]| |] f1]; [|done|done].
    cbn [length] in *. rewrite IH by first [lia | done]. do 2 f_equal. lia.
Qed.

Lemma length_records l : Forall sendable l → length l ≤ length (records l).
Proof.
  unfold records. induction 1 as [|p l Hp _ IH]; simpl; [lia|].
  rewrite length_app, length_record by done. lia.
Qed.

Lemma receive_chunks_records b l f f' :
  Forall sendable l → for_each (chunk_of <$> l) (put_chunk b) f = (Ok tt, f') →
  receive_chunks b (records l) f = (Ok (Z.of_nat (length l)), f').
Proof.
  intros Hl Hput. unfold receive_chunks.
  rewrite <- (app_nil_r (records l)) at 2.
  apply (receive_records _ b l [] 0); [done|simpl; lia| |done].
  pose proof (length_records l Hl). lia.
Qed.

(** ** How many entries and chunks a message can hold *)

Lemma parse_manifest_count payload l : parse_manifest payload = Ok l → 2 * length l ≤ length payload.
Proof.
  unfold parse_manifest. destruct payload as [|c payload]; [by intros [= <-]|].
  destruct (getline newline (c :: payload)) as [[x rest]|] eqn:E; [|by intros [= <-]; simpl; lia].
  intros H. apply map_outcome_length in H. rewrite H.
  assert (length rest ≤ length payload) as Hr.
  { pose proof (getline_shorter newline (c :: payload) x rest E). cbn [length] in *. lia. }
  pose proof (getlines_count newline rest) as [Hc _]. unfold text_lines. cbn [length]. lia.
Qed.

Lemma receive_loop_count fuel b rest k f n f' :
  receive_loop fuel b rest k f = (Ok n, f') → (k ≤ n ∧ 36 * (n - k) ≤ Z.of_nat (length rest))%Z.
Proof.
  revert rest k f. induction fuel as [|fuel IH]; intros rest k f; cbn [receive_loop]; [intros [= <- _]; lia|].
  case_decide as H36; [|intros [= <- _]; lia]. cbv zeta. case_decide as Hl; [|done].
  unfold mbind, stateM_bind. destruct (put_chunk _ _ f) as [[[]| |] f1]; [|done|done].
  intros H%IH. rewrite length_drop in H. rewrite length_drop in H, Hl. lia.
Qed.

(** ** Payloads that no peer of this program sends *)

Lemma split_record rest :
  36 ≤ length rest → let len := N.to_nat (read_len (take 4 (drop 32 rest))) in
  len ≤ length (drop 36 rest) →
  let p := (take 32 rest, take len (drop 36 rest)) in
  sendable p ∧ rest = record p ++ drop len (drop 36 rest).
Proof.
  intros Hlen len Hl p.
  destruct (len_bytes_read_len (take 4 (drop 32 rest))) as [E Hlt];
    [rewrite length_take, length_drop; lia|].
  assert (N.of_nat (length p.2) = read_len (take 4 (drop 32 rest))) as Hn
    by (unfold p; simpl; rewrite length_take_le by done; unfold len; apply N2Nat.id).
  split.
  - split; [unfold p; simpl; rewrite length_take; lia|by rewrite Hn].
  - unfold record. rewrite Hn, E. unfold p; cbn [fst snd]. rewrite <- !app_assoc, take_drop.
    assert (drop 36 rest = drop 4 (drop 32 rest)) as -> by (by rewrite drop_drop).
    rewrite take_drop. symmetry. apply take_drop.
Qed.

(** Reading a record back. *)
Lemma record_parts q rest :
  sendable q →
  read_len (drop 32 (record q ++ rest)) = N.of_nat (length q.2) ∧
  drop 36 (record q ++ rest) = q.2 ++ rest ∧ take 32 (record q ++ rest) = q.1.
Proof.
  intros [Hh Hd]. unfold record. rewrite <- !app_assoc.
  rewrite (take_app_length' _ _ _ (eq_sym Hh)), (drop_app_length' _ _ _ (eq_sym Hh)), read_len_bytes.
  split_and!; [by apply wrap_small| |done].
  rewrite app_assoc. apply drop_app_length'. by rewrite length_app, Hh.
Qed.

Lemma record_inj p q x y :
  sendable p → sendable q → record p ++ x = record q ++ y → p = q ∧ x = y.
Proof.
  intros Hp Hq E. destruct (record_parts p x Hp) as (P1 & P2 & P3).
  destruct (record_parts q y Hq) as (Q1 & Q2 & Q3). rewrite E in P1, P2, P3.
  assert (p.1 = q.1) as H1 by congruence.
  assert (length p.2 = length q.2) as Hl by lia.
  rewrite Q2 in P2. apply app_inj_1 in P2 as [H2 ->]; [|done]. split; [|done].
  destruct p, q; simpl in *; congruence.
Qed.

(** The loop performs an out-of-range read exactly when the payload is not a
    sequence of records followed by less than a record header. *)
Lemma receive_loop_UB fuel b rest k f :
  ready b f → length rest < fuel →
  (receive_loop fuel b rest k f).1 ≠ UB ↔
    ∃ l tail, rest = records l ++ tail ∧ Forall sendable l ∧ length tail < 36.
Proof.
  revert rest k f. induction fuel as [|fuel IH]; intros rest k f Hr Hf; [lia|].
  destruct (decide (36 ≤ length rest)) as [H36|H36].
  2:{ split; [|intros _; cbn [receive_loop]; by rewrite decide_False].
      intros _. exists [], rest. split_and!; [done|constructor|lia]. }
  destruct (decide (N.to_nat (read_len (drop 32 rest)) ≤ length (drop 36 rest))) as [Hl|Hl].
  - rewrite <- read_len_take in Hl. destruct (split_record rest H36 Hl) as [Hp E].
    set (p := (take 32 rest, _)) in *. set (rest' := drop _ (drop 36 rest)) in *.
    pose proof (length_record p Hp) as Hlp.
    assert (length rest = 36 + length p.2 + length rest') as Hlr
      by (rewrite E at 1; rewrite length_app; lia).
    destruct (put_chunks_ready b [chunk_of p] f Hr) as (f' & Hput & Hr' & _).
    rewrite E at 1. rewrite receive_turn by done. cbn [for_each] in Hput.
    unfold mbind, stateM_bind in *. destruct (put_chunk b (chunk_of p) f) as [[[]| |] f1]; try done.
    injection Hput as <-. rewrite (IH rest') by first [done | lia]. split.
    + intros (l & tail & E' & Hs & Ht). exists (p :: l), tail. split_and!; [|by constructor|done].
      rewrite E, E'. unfold records. cbn [map concat]. by rewrite <- app_assoc.
    + intros (l & tail & E' & Hs & Ht). destruct l as [|q l].
      { simpl in E'. subst tail. lia. }
      inversion_clear Hs as [|?? Hq Hs']. exists l, tail. split_and!; [|done|done].
      unfold records in E'. cbn [map concat] in E'. rewrite <- app_assoc in E'.
      rewrite E in E'. apply record_inj in E' as [_ ->]; done.
  - cbn [receive_loop]. rewrite decide_True, decide_False by done. split; [done|].
    intros (l & tail & E & Hs & Ht). destruct l as [|q l]; [simpl in E; subst; lia|].
    exfalso. apply Hl. inversion_clear Hs as [|?? Hq _].
    unfold records in E. cbn [map concat] in E. rewrite <- app_assoc in E.
    destruct (record_parts q (concat (map record l) ++ tail) Hq) as (E1 & E2 & _).
    rewrite E, E1, E2. rewrite Nat2N.id, length_app. lia.
Qed.

(** ** Properties *)

(** A manifest is read back as it was written: for a node whose names survive
    text, [parse_manifest] of [serialize_manifest] returns exactly the entries
    of its store, in the order of their paths; likewise a chunk request. *)
Theorem manifest_roundtrip e hs :
  newline ∉ engine_id e → store_inv (store_ e) → printable (store_ e) → digests hs →
  parse_manifest (serialize_manifest e) = Ok (all_entries (store_ e)) ∧
  parse_hash_list (serialize_hash_list hs) = Ok hs.
Proof. intros. split; [by apply parse_manifest_serialize|by apply parse_hash_list_serialize]. Qed.

Lemma manifest_roundtrip_witness :
  parse_manifest (serialize_manifest (engine sample_full)) = Ok [sample_entry] ∧
  parse_hash_list (serialize_hash_list [zero_digest; zero_digest]) = Ok [zero_digest; zero_digest].
Proof.
  change [sample_entry] with (all_entries (store_ (engine sample_full))).
  apply (manifest_roundtrip (engine sample_full) [zero_digest; zero_digest]).
  - by_decide.
  - apply (ok_store _ (proj1 sample_full_ok)).
  - apply sample_full_ok.
  - repeat constructor.
Defined.

(** C33: The parser of chunk data trusts the peer's lengths: on a payload it
    performs an out-of-range read (undefined behaviour) exactly when the payload
    is not a sequence of complete records followed by fewer than 36 bytes. *)
Theorem chunk_data_safe_iff b payload f :
  ready b f →
  ((receive_chunks b payload f).1 ≠ UB ↔
    ∃ l tail, payload = records l ++ tail ∧ Forall sendable l ∧ length tail < 36).
Proof. intros Hr. apply receive_loop_UB; [done|lia]. Qed.

(** A record header that announces 255 bytes, and one byte. *)
Definition short_payload : bytes := zero_digest ++ len_bytes 255 ++ [byte_of 0].

Lemma chunk_data_safe_iff_witness :
  (receive_chunks sample_files short_payload sample_disk).1 = UB ∧
  ¬ ∃ l tail, short_payload = records l ++ tail ∧ Forall sendable l ∧ length tail < 36.
Proof.
  assert ((receive_chunks sample_files short_payload sample_disk).1 = UB) as H by (vm_compute; reflexivity).
  split; [exact H|].
  intros Hx. apply (chunk_data_safe_iff sample_files short_payload sample_disk (proj1 sample_ready)) in Hx.
  exact (Hx H).
Defined.

(** C34: Received chunks are not verified: a record whose bytes do not hash to the
    name it carries is stored under that name, which breaks content addressing,
    and because chunks are stored once the right bytes are no longer accepted. *)
Theorem received_chunk_not_verified b f h d :
  ready b f → sendable (h, d) → files f !! chunk_path b h = None → hash d ≠ h →
  ∃ f', receive_chunks b (record (h, d)) f = (Ok 1%Z, f') ∧
    get_chunk b f' h = Ok d ∧ ¬ intact b f' ∧
    ∀ good, put_chunk b (mkChunk 0 good h) f' = (Ok tt, f').
Proof.
  intros Hr Hs Hn Hne. pose proof (put_chunk_ready b (chunk_of (h, d)) f Hr) as Hp. simpl in Hp.
  rewrite Hn in Hp. eexists. split_and!.
  - rewrite <- (app_nil_r (record (h, d))). change (record (h, d) ++ []) with (records [(h, d)]).
    apply (receive_chunks_records b [(h, d)]); [by constructor|]. simpl. unfold mbind, stateM_bind.
    by rewrite Hp.
  - apply get_chunk_Ok. apply lookup_insert_eq.
  - intros Hi. apply Hne. apply Hi; [apply Hs|]. apply lookup_insert_eq.
  - intros good. rewrite put_chunk_ready by done. simpl. by rewrite lookup_insert_eq.
Qed.

Lemma received_chunk_not_verified_witness :
  ∃ f', receive_chunks sample_files (record (zero_digest, str "evil")) sample_disk = (Ok 1%Z, f') ∧
    get_chunk sample_files f' zero_digest = Ok (str "evil") ∧ ¬ intact sample_files f'.
Proof.
  destruct (received_chunk_not_verified sample_files sample_disk zero_digest (str "evil"))
    as (f' & H1 & H2 & H3 & _).
  - apply sample_ready.
  - split; reflexivity.
  - destruct sample_ready as [_ E]. rewrite E. apply lookup_empty.
  - by_decide.
  - exists f'. split; [exact H1|split; [exact H2|exact H3]].
Defined.
