(* ===== verification/Network.v ===== *)
(** * Network: the sync session ([network.hpp], [network.cpp])

    [run_sync_session] merges what the peer's manifest says, asks for the chunks it
    lacks and answers the peer's request.  It runs on a peer: a node's world and
    its connection ([Frames]). *)
From S2P Require Import Prelude Text VectorClock Sha256 Chunker FileEntry CrdtStore EntryCodec Fs FileStore SyncEngine Frames Messages.

(** ** The session *)
Record SyncStats := mkStats {
  entries_sent : Z; entries_applied_remote : Z; entries_kept_local : Z;
  entries_no_change : Z; conflicts_forked : Z; chunks_fetched : Z;
}.

(** What the merge loop accumulates; [needed_hex] is the [std::set]. *)
Record MergeAcc := mkAcc {
  acc_stats : SyncStats;
  needed_hex : gmap bytes unit;
  materialize_paths : list bytes;
}.

(** [for (const auto& h : hs) if (!has_chunk(h)) needed_hex.insert(to_hex(h));] *)
Definition need_step (b : FileStore) (f : fs) (needed : gmap bytes unit) (h : Digest) : gmap bytes unit :=
  if has_chunk b f h then needed else <[to_hex h := tt]> needed.
Definition add_needed (b : FileStore) (f : fs) (hs : list Digest) (needed : gmap bytes unit) : gmap bytes unit :=
  foldl (need_step b f) needed hs.

(** One turn of the merge loop: the store and what is accumulated. *)
Definition merge_turn (b : FileStore) (f : fs) (a : CrdtStore * MergeAcc) (re : FileEntry)
    : CrdtStore * MergeAcc :=
  let '(s, mkAcc (mkStats sent app kept same forks fetched) needed paths) := a in
  let '(r, s) := merge_remote s re in
  match outcome_ r with
  | APPLIED_REMOTE =>
      (s, mkAcc (mkStats sent (app + 1) kept same forks fetched)
            (add_needed b f (chunk_hashes re) needed) (paths ++ [path re]))
  | CONFLICT_FORKED =>
      let stats := mkStats sent app kept same (forks + 1) fetched in
      match get_entry s (conflict_path r) with
      | Some forked =>
          (s, mkAcc stats (add_needed b f (chunk_hashes forked) needed) (paths ++ [conflict_path r]))
      | None => (s, mkAcc stats needed paths)
      end
  | KEPT_LOCAL => (s, mkAcc (mkStats sent app (kept + 1) same forks fetched) needed paths)
  | NO_CHANGE => (s, mkAcc (mkStats sent app kept (same + 1) forks fetched) needed paths)
  end%Z.

Definition merge_loop (b : FileStore) (f : fs) (s : CrdtStore) (sent : Z) (l : list FileEntry)
    : CrdtStore * MergeAcc :=
  foldl (merge_turn b f) (s, mkAcc (mkStats sent 0 0 0 0 0) ∅ []) l.

Record Peer := mkPeer { world : World; conn : Conn }.
Definition on_world {A} (m : stateM World A) : stateM Peer A := λ p,
  let '(r, w) := m (world p) in (r, mkPeer w (conn p)).
Definition on_conn {A} (m : stateM Conn A) : stateM Peer A := λ p,
  let '(r, c) := m (conn p) in (r, mkPeer (world p) c).

(** [if (!sock.recv_frame(type, payload) || type != t) throw ...] *)
Definition expect (t : byte) (msg : bytes) : stateM Peer bytes :=
  let! r := on_conn recv_frame in
  match r with
  | Some (type, payload) =>
      if decide (type = t) then mret payload else lift (Throw (runtime_error msg))
  | None => lift (Throw (runtime_error msg))
  end.

Definition with_fetched (n : Z) (st : SyncStats) : SyncStats :=
  mkStats (entries_sent st) (entries_applied_remote st) (entries_kept_local st)
    (entries_no_change st) (conflicts_forked st) n.

Definition run_sync_session : stateM Peer SyncStats :=
  (* 1. exchange manifests *)
  let! w := on_world get_state in
  let sent := MerkleTree.to_int (length (all_entries (store_of w))) in
  on_conn (send_frame FRAME_MANIFEST (serialize_manifest (engine w))) ;!
  let! payload := expect FRAME_MANIFEST (str "expected MANIFEST frame from peer") in
  let! remote_entries := lift (parse_manifest payload) in
  (* 2. merge each remote entry *)
  let merged := merge_loop (blobs_of w) (disk w) (store_of w) sent remote_entries in
  on_world (modify (set_store merged.1)) ;!
  (* 3. request the missing chunks *)
  let! needed := lift (map_outcome hex_to_digest (map_listing (needed_hex merged.2)).*1) in
  on_conn (send_frame FRAME_CHUNK_REQUEST (serialize_hash_list needed)) ;!
  (* 4. answer the peer's request *)
  let! payload := expect FRAME_CHUNK_REQUEST (str "expected CHUNK_REQUEST frame from peer") in
  let! their_needed := lift (parse_hash_list payload) in
  let! chunk_data := lift (collect_chunks (blobs_of w) (disk w) their_needed []) in
  on_conn (send_frame FRAME_CHUNK_DATA chunk_data) ;!
  (* 5. store the chunks received *)
  let! payload := expect FRAME_CHUNK_DATA (str "expected CHUNK_DATA frame from peer") in
  let! fetched := on_world (on_disk (receive_chunks (blobs_of w) payload)) in
  (* 6. materialize and persist *)
  on_world (for_each (materialize_paths merged.2) materialize) ;!
  on_world save_journal ;!
  on_conn (send_frame FRAME_DONE []) ;!
  on_conn recv_frame ;!
  mret (with_fetched fetched (acc_stats merged.2)).

(** ** Merging a manifest *)

(** A chunk that is stored or will be asked for. *)
Definition covered (b : FileStore) (f : fs) (needed : gmap bytes unit) (h : Digest) : Prop :=
  has_chunk b f h = true ∨ is_Some (needed !! to_hex h).

Lemma add_needed_mono b f hs needed k : is_Some (needed !! k) → is_Some (add_needed b f hs needed !! k).
Proof.
  revert needed. induction hs as [|h hs IH]; intros needed Hk; [done|]. apply IH. unfold need_step.
  destruct (has_chunk b f h); [done|]. rewrite lookup_insert. case_decide; [by eexists|done].
Qed.

Lemma add_needed_covered b f hs needed h :
  h ∈ hs ∨ covered b f needed h → covered b f (add_needed b f hs needed) h.
Proof.
  revert needed. induction hs as [|x hs IH]; intros needed.
  - intros [[]%not_elem_of_nil|H]. done.
  - intros H. change (add_needed b f (x :: hs) needed) with (add_needed b f hs (need_step b f needed x)).
    apply IH. unfold need_step, covered in *. rewrite elem_of_cons in H.
    destruct H as [[->|H]|[H|H]]; [|by left|right; by left|].
    + right. destruct (has_chunk b f x) eqn:E; [by left|]. right. rewrite lookup_insert_eq. by eexists.
    + right. right. destruct (has_chunk b f x); [done|]. rewrite lookup_insert. case_decide; [by eexists|done].
Qed.

Lemma add_needed_from b f hs needed k :
  is_Some (add_needed b f hs needed !! k) → is_Some (needed !! k) ∨ ∃ h, h ∈ hs ∧ k = to_hex h.
Proof.
  revert needed. induction hs as [|x hs IH]; intros needed; [by left|].
  change (add_needed b f (x :: hs) needed) with (add_needed b f hs (need_step b f needed x)).
  intros [H|(h & Hh & ->)]%IH; [|right; exists h; split; [by right|done]].
  unfold need_step in H. destruct (has_chunk b f x); [by left|]. rewrite lookup_insert in H.
  case_decide; [|by left]. right. exists x. split; [by left|done].
Qed.

(** What the merge loop maintains: the content of every path it will materialize
    is covered and is that of a remote entry, and everything it asks for is named
    by a remote entry. *)
Record merge_inv (b : FileStore) (f : fs) (l : list FileEntry) (a : CrdtStore * MergeAcc) : Prop := {
  inv_covered : ∀ p e h, p ∈ materialize_paths a.2 → entries_ a.1 !! p = Some e →
    h ∈ chunk_hashes e → covered b f (needed_hex a.2) h;
  inv_from : ∀ k, is_Some (needed_hex a.2 !! k) → ∃ r h, r ∈ l ∧ h ∈ chunk_hashes r ∧ k = to_hex h;
  inv_origin : ∀ p, p ∈ materialize_paths a.2 →
    ∃ e r, entries_ a.1 !! p = Some e ∧ r ∈ l ∧ chunk_hashes e = chunk_hashes r;
}.

Lemma covered_mono b f hs needed h : covered b f needed h → covered b f (add_needed b f hs needed) h.
Proof. intros H. apply add_needed_covered. by right. Qed.

Lemma merge_turn_inv b f l r a :
  r ∈ l → merge_inv b f l a → merge_inv b f l (merge_turn b f a r).
Proof.
  intros Hr [Hc Hf Ho]. destruct a as [s [[sent app kept same forks fetched] needed paths]].
  simpl in Hc, Hf, Ho. unfold merge_turn.
  pose proof (merge_remote_case s r) as H. destruct (merge_remote s r) as [res s']. simpl in H.
  assert (∀ hs, (∀ h, h ∈ hs → h ∈ chunk_hashes r) →
    ∀ k, is_Some (add_needed b f hs needed !! k) → ∃ r h, r ∈ l ∧ h ∈ chunk_hashes r ∧ k = to_hex h) as Hfrom.
  { intros hs Hsub k [Hk|(h & Hh & ->)]%add_needed_from; [by apply Hf|]. exists r, h. auto. }
  assert (∀ p e h, p ∈ paths ++ [path r] → entries_ (assign s (path r) r) !! p = Some e →
    h ∈ chunk_hashes e → covered b f (add_needed b f (chunk_hashes r) needed) h) as Happ.
  { intros p e h Hp He Hh. simpl in He. apply lookup_insert_Some in He as [[<- <-]|[Hne He]].
    - apply add_needed_covered. by left.
    - apply covered_mono. apply elem_of_app in Hp as [Hp|Hp%list_elem_of_singleton]; [|congruence].
      by apply (Hc p e). }
  assert (∀ p, p ∈ paths ++ [path r] → ∃ e r', entries_ (assign s (path r) r) !! p = Some e ∧
    r' ∈ l ∧ chunk_hashes e = chunk_hashes r') as Hoapp.
  { intros p Hp. simpl. rewrite lookup_insert. case_decide as Hpr; [by exists r, r|].
    apply elem_of_app in Hp as [Hp|Hp%list_elem_of_singleton]; [by apply Ho|congruence]. }
  destruct H as [Hn|e He _ _|e He _ _|e He _ _|e He _ _]; simpl;
    try (split; simpl; [exact Hc|exact Hf|exact Ho]);
    try (split; simpl; [exact Happ|apply Hfrom; auto|exact Hoapp]).
  unfold get_entry; simpl.
  assert (path r ≠ conflict_of r) as Hne
    by (intros E; symmetry in E; by apply make_conflict_path_ne in E).
  rewrite lookup_insert_ne, lookup_insert_eq by done. split; simpl; [|apply Hfrom; auto|].
  2:{ intros p Hp. rewrite lookup_insert. case_decide as H1.
      { subst p. apply elem_of_app in Hp as [Hp|Hp%list_elem_of_singleton]; [|congruence].
        destruct (Ho _ Hp) as (e0 & r0 & He0 & Hr0 & Hh0). rewrite He in He0. injection He0 as <-.
        by exists (with_merged_clock (clock r) e), r0. }
      rewrite lookup_insert. case_decide as H2; [by exists (with_path (conflict_of r) r), r|].
      apply elem_of_app in Hp as [Hp|Hp%list_elem_of_singleton]; [by apply Ho|congruence]. }
  intros p e' h Hp He' Hh. apply lookup_insert_Some in He' as [[<- <-]|[Hne1 He']].
  - apply covered_mono. apply elem_of_app in Hp as [Hp|Hp%list_elem_of_singleton]; [|done].
    by apply (Hc (path r) e).
  - apply lookup_insert_Some in He' as [[<- <-]|[Hne2 He']].
    + apply add_needed_covered. by left.
    + apply covered_mono. apply elem_of_app in Hp as [Hp|Hp%list_elem_of_singleton]; [|congruence].
      by apply (Hc p e').
Qed.

Lemma merge_turn_store b f a r : (merge_turn b f a r).1 = (merge_remote a.1 r).2.
Proof.
  destruct a as [s [[????? ?] needed paths]]. unfold merge_turn. simpl.
  destruct (merge_remote s r) as [res s']. destruct (outcome_ res); try done.
  by destruct (get_entry s' (conflict_path res)).
Qed.

Lemma merge_loop_store b f s sent l : (merge_loop b f s sent l).1 = merge_all s l.
Proof.
  unfold merge_loop, merge_all. generalize (mkAcc (mkStats sent 0 0 0 0 0) ∅ []).
  revert s. induction l as [|r l IH]; intros s a; [done|]. cbn [foldl].
  pose proof (merge_turn_store b f (s, a) r) as H. cbn [fst] in H.
  destruct (merge_turn b f (s, a) r) as [s' a']. cbn [fst] in H. rewrite H. apply IH.
Qed.

Lemma merge_loop_inv b f s sent l : merge_inv b f l (merge_loop b f s sent l).
Proof.
  unfold merge_loop.
  assert (∀ l' a, (∀ r, r ∈ l' → r ∈ l) → merge_inv b f l a → merge_inv b f l (foldl (merge_turn b f) a l')) as H.
  { induction l' as [|r l' IH]; intros a Hl' Ha; [done|]. cbn [foldl]. apply IH.
    - intros x Hx. apply Hl'. by right.
    - apply merge_turn_inv; [|done]. apply Hl'. by left. }
  apply H; [done|]. split; simpl.
  - by intros p e h []%not_elem_of_nil.
  - intros k [? Hk]. by rewrite lookup_empty in Hk.
  - by intros p []%not_elem_of_nil.
Qed.

(** A path that is not to be materialized still has the content it had. *)
Lemma merge_loop_kept b f s sent l p e :
  p ∉ materialize_paths (merge_loop b f s sent l).2 → entries_ (merge_loop b f s sent l).1 !! p = Some e →
  ∃ e0, entries_ s !! p = Some e0 ∧ chunk_hashes e = chunk_hashes e0 ∧ deleted e = deleted e0.
Proof.
  revert p e. unfold merge_loop.
  set (P := λ a : CrdtStore * MergeAcc, ∀ p e, p ∉ materialize_paths a.2 → entries_ a.1 !! p = Some e →
    ∃ e0, entries_ s !! p = Some e0 ∧ chunk_hashes e = chunk_hashes e0 ∧ deleted e = deleted e0).
  assert (∀ a, P a → P (foldl (merge_turn b f) a l)) as H; [|apply H; intros p e _ He; by exists e].
  induction l as [|r l IH]; intros a Ha; [done|]. apply IH. clear IH.
  destruct a as [s0 [[sent0 app kept same forks fetched] needed paths]]. unfold P in *. simpl in Ha. intros p e.
  unfold merge_turn. pose proof (merge_remote_case s0 r) as H. destruct (merge_remote s0 r) as [res s'].
  cbn [fst snd] in H.
  destruct H as [Hn|x Hx _ _|x Hx _ _|x Hx _ _|x Hx _ _]; cbn [outcome_ fst snd materialize_paths]; try apply Ha.
  1,2: rewrite not_elem_of_app, list_elem_of_singleton; intros [Hp Hne] He;
    cbn [assign entries_] in He; rewrite lookup_insert_ne in He by congruence; by apply Ha.
  unfold get_entry. cbn [entries_ conflict_path].
  assert (path r ≠ conflict_of r) as Hne by (intros E; symmetry in E; by apply make_conflict_path_ne in E).
  rewrite lookup_insert_ne, lookup_insert_eq by done. cbn [fst snd materialize_paths entries_].
  rewrite not_elem_of_app, list_elem_of_singleton. intros [Hp Hnc] He.
  apply lookup_insert_Some in He as [[<- <-]|[_ He]]; [apply (Ha (path r) x Hp Hx)|].
  rewrite lookup_insert_ne in He by congruence. by apply Ha.
Qed.

(** ** The messages of a session *)

Definition merged (w : World) (l : list FileEntry) : CrdtStore * MergeAcc :=
  merge_loop (blobs_of w) (disk w) (store_of w)
    (MerkleTree.to_int (length (all_entries (store_of w)))) l.

(** The counters of the statistics are [int]s in the program and integers here: no frame is long enough to
    take them out of the range of an [int]. *)
Definition counted (s : SyncStats) : Z :=
  entries_applied_remote s + entries_kept_local s + entries_no_change s + conflicts_forked s.
Definition counts_natural (s : SyncStats) : Prop :=
  (0 ≤ entries_applied_remote s ∧ 0 ≤ entries_kept_local s ∧ 0 ≤ entries_no_change s ∧ 0 ≤ conflicts_forked s)%Z.

Lemma merge_turn_counts b f a re :
  counts_natural (acc_stats a.2) → let a' := merge_turn b f a re in
  counts_natural (acc_stats a'.2) ∧ counted (acc_stats a'.2) = (counted (acc_stats a.2) + 1)%Z.
Proof.
  destruct a as [s [[] needed paths]]. unfold merge_turn, counts_natural, counted. intros H.
  destruct (merge_remote s re) as [r s']; cbn in H.
  destruct (outcome_ r); [| | |destruct (get_entry s' (conflict_path r))]; cbn; lia.
Qed.

Theorem counters_fit w payload l :
  parse_manifest payload = Ok l → (N.of_nat (length payload) < 2 ^ 32)%N →
  let s := acc_stats (merged w l).2 in counts_natural s ∧ (counted s < 2 ^ 31)%Z.
Proof.
  intros Hp Hlen. apply parse_manifest_count in Hp. cbv zeta.
  assert (∀ a, counts_natural (acc_stats a.2) → let a' := foldl (merge_turn (blobs_of w) (disk w)) a l in
    counts_natural (acc_stats a'.2) ∧ counted (acc_stats a'.2) = (counted (acc_stats a.2) + Z.of_nat (length l))%Z) as H.
  { clear Hp. induction l as [|re l IH]; intros a Ha; [split; [done|cbn; lia]|].
    destruct (merge_turn_counts (blobs_of w) (disk w) a re Ha) as [H1 H2].
    destruct (IH _ H1) as [H3 H4]. split; [exact H3|]. cbn [foldl]. rewrite H4, H2. cbn [length]. lia. }
  destruct (H (store_of w, mkAcc (mkStats (MerkleTree.to_int (length (all_entries (store_of w)))) 0 0 0 0 0) ∅ []))
    as [H1 H2]; [by unfold counts_natural; cbn|].
  unfold merged, merge_loop. split; [exact H1|]. rewrite H2. unfold counted. cbn. lia.
Qed.

(** The chunks [w] asks for after merging the entries [l]. *)
Definition request_of (w : World) (l : list FileEntry) : list Digest :=
  match map_outcome hex_to_digest (map_listing (needed_hex (merged w l).2)).*1 with
  | Ok ds => ds
  | _ => []
  end.

(** The records [w] answers the request [hs] with. *)
Definition reply_of (w : World) (hs : list Digest) : list (Digest * bytes) :=
  stored (blobs_of w) (disk w) hs.

(** Everything [w] sends when it is told [l] and asked for [hs]. *)
Definition transcript (w : World) (l : list FileEntry) (hs : list Digest) : bytes :=
  frame FRAME_MANIFEST (serialize_manifest (engine w)) ++
  frame FRAME_CHUNK_REQUEST (serialize_hash_list (request_of w l)) ++
  frame FRAME_CHUNK_DATA (records (reply_of w hs)) ++
  frame FRAME_DONE [].

Lemma hex_keys (ks : list bytes) :
  Forall (λ k, ∃ h : Digest, length h = 32 ∧ k = to_hex h) ks → ∃ hs, ks = map to_hex hs ∧ digests hs.
Proof.
  induction 1 as [|k ks (h & Hh & ->) _ (hs & -> & Hhs)]; [exists []; split; [done|constructor]|].
  exists (h :: hs). split; [done|]. apply Forall_cons. split; [exact Hh|exact Hhs].
Qed.

Lemma request_of_ok w l :
  Forall wf_entry l →
  map_outcome hex_to_digest (map_listing (needed_hex (merged w l).2)).*1 = Ok (request_of w l) ∧
  digests (request_of w l) ∧
  (∀ h, length h = 32 → is_Some (needed_hex (merged w l).2 !! to_hex h) → h ∈ request_of w l) ∧
  (∀ h, h ∈ request_of w l → ∃ r, r ∈ l ∧ h ∈ chunk_hashes r).
Proof.
  intros Hl. rewrite Forall_forall in Hl. unfold request_of. set (m := needed_hex (merged w l).2).
  destruct (merge_loop_inv (blobs_of w) (disk w) (store_of w)
    (MerkleTree.to_int (length (all_entries (store_of w)))) l) as [_ Hfrom _].
  fold (merged w l) in Hfrom. fold m in Hfrom.
  assert (∀ k, k ∈ (map_listing m).*1 ↔ is_Some (m !! k)) as Hk.
  { intros k. rewrite list_elem_of_fmap. split.
    - intros ([k' []] & -> & H%elem_of_map_listing). by eexists.
    - intros [[] H]. exists (k, ()). by rewrite elem_of_map_listing. }
  assert (∀ r h, r ∈ l → h ∈ chunk_hashes r → length h = 32) as Hlen.
  { intros r h Hr Hh. pose proof (wf_hashes r (Hl r Hr)) as Hw. rewrite Forall_forall in Hw. by apply Hw. }
  destruct (hex_keys (map_listing m).*1) as (hs & Hhs & Hd).
  { apply Forall_forall. intros k (r & h & Hr & Hh & ->)%Hk%Hfrom. exists h. split; [by eapply Hlen|done]. }
  rewrite Hhs, map_hex_to_digest by done. split_and!; [done|done| |].
  - intros h Hh H. apply Hk in H. rewrite Hhs in H. apply list_elem_of_fmap in H as (x & Hx & Hin).
    unfold digests in Hd. rewrite Forall_forall in Hd. apply to_hex_inj in Hx as ->; [done|done|by apply Hd].
  - intros h Hh. assert (to_hex h ∈ (map_listing m).*1) as H
      by (rewrite Hhs; by apply list_elem_of_fmap_2).
    apply Hk, Hfrom in H as (r & x & Hr & Hx & E).
    unfold digests in Hd. rewrite Forall_forall in Hd.
    apply to_hex_inj in E as ->; [by exists r|by apply Hd|by eapply Hlen].
Qed.

(** ** The session, message by message *)

Lemma on_conn_ok {A} (m : stateM Conn A) w c r c' :
  m c = (r, c') → on_conn m (mkPeer w c) = (r, mkPeer w c').
Proof. unfold on_conn. simpl. by intros ->. Qed.
Lemma on_world_ok {A} (m : stateM World A) w c r w' :
  m w = (r, w') → on_world m (mkPeer w c) = (r, mkPeer w' c).
Proof. unfold on_world. simpl. by intros ->. Qed.

Lemma expect_moved t msg p w c s :
  delivers c (frame t p ++ s) → willing c → (N.of_nat (length p) < 2 ^ 32)%N →
  ∃ c', expect t msg (mkPeer w c) = (Ok p, mkPeer w c') ∧ moved c c' [] s.
Proof.
  intros Hd Hw Hp. destruct (recv_frame_moved t p c s Hd Hw Hp) as (c' & Hr & M).
  exists c'. split; [|done]. unfold expect.
  rewrite (bind_ok _ _ _ _ _ (on_conn_ok _ w c _ c' Hr)). by rewrite decide_True.
Qed.

(** A frame is sent, a frame is received, in one step. *)
Lemma send_frame_step {A} t p w c s (k : unit → stateM Peer A) :
  delivers c s → willing c →
  ∃ c', mbind k (on_conn (send_frame t p)) (mkPeer w c) = k tt (mkPeer w c') ∧ moved c c' (frame t p) s.
Proof.
  intros Hd Hw. destruct (send_frame_moved t p c s Hd Hw) as (c' & H & M).
  exists c'. split; [|done]. apply bind_ok. by apply on_conn_ok.
Qed.

Lemma expect_step {A} t msg p w c s (k : bytes → stateM Peer A) :
  delivers c (frame t p ++ s) → willing c → (N.of_nat (length p) < 2 ^ 32)%N →
  ∃ c', mbind k (expect t msg) (mkPeer w c) = k p (mkPeer w c') ∧ moved c c' [] s.
Proof.
  intros Hd Hw Hp. destruct (expect_moved t msg p w c s Hd Hw Hp) as (c' & H & M).
  exists c'. split; [|done]. by apply bind_ok.
Qed.

Ltac send_step c' M Hd Hw :=
  match goal with |- ∃ _, mbind ?k (on_conn (send_frame ?t ?p)) (mkPeer ?w ?c) = _ ∧ _ =>
    destruct (send_frame_step t p w c _ k Hd Hw) as (c' & -> & M) end.
Ltac recv_step c' M Hd Hw Hf :=
  match goal with |- ∃ _, mbind ?k (expect ?t ?msg) (mkPeer ?w ?c) = _ ∧ _ =>
    destruct (expect_step t msg _ w c _ k Hd Hw Hf) as (c' & -> & M) end.

(** What the peer sends: its manifest [m], its request [hs], the chunks [recs]. *)
Definition peer_stream (m : bytes) (hs : list Digest) (recs : list (Digest * bytes)) : bytes :=
  frame FRAME_MANIFEST m ++ frame FRAME_CHUNK_REQUEST (serialize_hash_list hs) ++
  frame FRAME_CHUNK_DATA (records recs) ++ frame FRAME_DONE [].

(** Whatever fits the length field of its frame. *)
Definition fits (m : bytes) (hs : list Digest) (recs : list (Digest * bytes)) : Prop :=
  (N.of_nat (length m) < 2 ^ 32)%N ∧ (N.of_nat (length (serialize_hash_list hs)) < 2 ^ 32)%N ∧
  (N.of_nat (length (records recs)) < 2 ^ 32)%N.

(** A session in which everything works: the peer's manifest [m] with the entries
    [l], its request [hs] and its chunks [recs], the disk [f1] with the chunks
    stored, the worlds [w2] with the files materialized and [w3] with the journal
    saved. *)
Record session_setting (w : World) (m : bytes) (l : list FileEntry) (hs : list Digest)
    (recs : list (Digest * bytes)) (f1 : fs) (w2 w3 : World) : Prop := {
  ss_ready : ready (blobs_of w) (disk w);
  ss_small : small_chunks (blobs_of w) (disk w);
  ss_manifest : parse_manifest m = Ok l;
  ss_request : digests hs;
  ss_records : Forall sendable recs;
  ss_fits : fits m hs recs;
  ss_put : for_each (chunk_of <$> recs) (put_chunk (blobs_of w)) (disk w) = (Ok tt, f1);
  ss_materialize : for_each (materialize_paths (merged w l).2) materialize
    (mkWorld (with_store (merge_all (store_of w) l) (engine w)) f1 (stdout w)) = (Ok tt, w2);
  ss_save : save_journal w2 = (Ok tt, w3);
}.

Lemma session_run w c m l hs recs f1 w2 w3 :
  session_setting w m l hs recs f1 w2 w3 → delivers c (peer_stream m hs recs) → willing c →
  ∃ c', run_sync_session (mkPeer w c) =
      (Ok (with_fetched (Z.of_nat (length recs)) (acc_stats (merged w l).2)), mkPeer w3 c') ∧
    outbox c' = outbox c ++ transcript w l hs.
Proof.
  intros [Hr Hsm Hm Hhs Hrecs (Hf1 & Hf2 & Hf3) Hput Hmat Hsave] Hd Hw.
  pose proof (parse_manifest_wf m l Hm) as Hwf. destruct (request_of_ok w l Hwf) as (Hreq & _).
  unfold peer_stream in Hd. unfold run_sync_session.
  rewrite (bind_ok _ _ _ w (mkPeer w c)) by done. cbv zeta.
  send_step c1 M1 Hd Hw.
  recv_step c2 M2 (moved_in _ _ _ _ M1) (moved_willing _ _ _ _ M1) Hf1.
  rewrite (bind_ok _ _ _ l (mkPeer w c2)) by (unfold lift; by rewrite Hm).
  fold (merged w l).
  rewrite (bind_ok _ _ _ tt _ (on_world_ok (modify (set_store (merged w l).1)) w c2 (Ok tt) _ eq_refl)).
  rewrite (bind_ok _ _ _ (request_of w l) (mkPeer (set_store (merged w l).1 w) c2))
    by (unfold lift; by rewrite Hreq).
  send_step c3 M3 (moved_in _ _ _ _ M2) (moved_willing _ _ _ _ M2).
  recv_step c4 M4 (moved_in _ _ _ _ M3) (moved_willing _ _ _ _ M3) Hf2.
  rewrite (bind_ok _ _ _ hs _) by (unfold lift; by rewrite parse_hash_list_serialize).
  rewrite (bind_ok _ _ _ (records (reply_of w hs)) _)
    by (unfold lift; by rewrite collect_chunks_stored).
  send_step c5 M5 (moved_in _ _ _ _ M4) (moved_willing _ _ _ _ M4).
  recv_step c6 M6 (moved_in _ _ _ _ M5) (moved_willing _ _ _ _ M5) Hf3.
  rewrite (bind_ok _ _ _ _ _ (on_world_ok _ _ c6 _ _ (on_disk_ok _ (set_store (merged w l).1 w) _ _
    (receive_chunks_records _ recs _ _ Hrecs Hput)))).
  assert ((merged w l).1 = merge_all (store_of w) l) as Hst by apply merge_loop_store. rewrite Hst.
  rewrite (bind_ok _ _ _ _ _ (on_world_ok _ _ c6 _ _ Hmat)).
  rewrite (bind_ok _ _ _ _ _ (on_world_ok _ _ c6 _ _ Hsave)).
  send_step c7 M7 (moved_in _ _ _ _ M6) (moved_willing _ _ _ _ M6).
  destruct (recv_frame_moved FRAME_DONE [] c7 []) as (c8 & H8 & M8);
    [rewrite app_nil_r; apply M7|apply M7|done|].
  rewrite (bind_ok _ _ _ _ _ (on_conn_ok _ w3 c7 _ _ H8)). exists c8. split; [done|].
  pose proof (moved_trans _ _ _ _ _ _ _ M1 (moved_trans _ _ _ _ _ _ _ M2 (moved_trans _ _ _ _ _ _ _ M3
    (moved_trans _ _ _ _ _ _ _ M4 (moved_trans _ _ _ _ _ _ _ M5 (moved_trans _ _ _ _ _ _ _ M6
    (moved_trans _ _ _ _ _ _ _ M7 M8))))))) as [HM _ _].
  rewrite HM. unfold transcript. by rewrite !app_nil_l, app_nil_r.
Qed.

(** ** What a session leaves behind *)

Lemma store_inv_merge_all s l :
  store_inv s → Forall wf_entry l →
  store_inv (merge_all s l) ∧ node_id_ (merge_all s l) = node_id_ s.
Proof.
  intros Hs Hl. unfold merge_all. revert s Hs. induction Hl as [|r l Hr _ IH]; intros s Hs; [done|].
  cbn [foldl]. destruct (IH (merge_remote s r).2) as [H1 H2]; [by apply store_inv_merge|].
  split; [done|]. by rewrite H2, merge_remote_node_id.
Qed.

Lemma reassemble_present b f hs :
  (∀ x, x ∈ hs → is_Some (files f !! chunk_path b x)) → ∃ d, reassemble b f hs = Ok d.
Proof.
  induction hs as [|x hs IH]; intros H; [by eexists|]. rewrite reassemble_cons.
  destruct (H x) as [d Hd]; [by left|]. apply get_chunk_Ok in Hd as ->.
  destruct IH as [d' ->]; [intros y Hy; apply H; by right|]. by eexists.
Qed.

(** What a node can adopt from the entries [l]: nothing is in the way of the paths
    it will materialize. *)
Definition syncable (w : World) (l : list FileEntry) : Prop :=
  Forall plain (materialize_paths (merged w l).2) ∧
  placeable_all (engine w) (disk w) (materialize_paths (merged w l).2).

(** Storing the chunks received. *)
Lemma receive_stored b f recs :
  ready b f → intact b f → Forall sendable recs → Forall (λ p, hash p.2 = p.1) recs →
  ∃ f', for_each (chunk_of <$> recs) (put_chunk b) f = (Ok tt, f') ∧ ready b f' ∧ intact b f' ∧
    dirs f' = dirs f ∧
    (∀ q, (∀ x, q ≠ chunk_path b x) → files f' !! q = files f !! q) ∧
    (∀ x d, files f !! chunk_path b x = Some d → files f' !! chunk_path b x = Some d) ∧
    (∀ x d, length x = 32 → files f' !! chunk_path b x = Some d →
       files f !! chunk_path b x = Some d ∨ (x, d) ∈ recs) ∧
    (∀ x d, (x, d) ∈ recs → is_Some (files f' !! chunk_path b x)).
Proof.
  intros Hr Hi Hs Hh.
  assert (Forall (λ c, chunk_hash c = hash (data c)) (chunk_of <$> recs)) as Hok.
  { apply Forall_fmap. eapply Forall_impl; [exact Hh|]. intros p Hp. by symmetry. }
  destruct (store_chunks b (chunk_of <$> recs) f Hr Hi Hok) as (f' & H1 & H2 & H3 & H4 & H5 & _).
  destruct (put_chunks_ready b (chunk_of <$> recs) f Hr) as (f2 & H1' & _ & _ & Hk & Hn & Hin).
  rewrite H1 in H1'. injection H1' as <-. exists f'. split_and!; try done.
  - intros x d. apply Hk.
  - intros x d Hx Hd. apply Hn in Hd as [Hd|(c & Hc & Hp & ->)]; [by left|]. right.
    apply list_elem_of_fmap in Hc as ([y d'] & -> & Hc). simpl in *.
    rewrite Forall_forall in Hs. destruct (Hs _ Hc) as [Hy _].
    by apply chunk_path_inj in Hp as ->.
  - intros x d Hx. by apply (Hin (chunk_of (x, d))), list_elem_of_fmap_2.
Qed.

(** The node [w] after it merged the entries [l] and stored the records [recs], before
    it saves the journal. *)
Record session_effect (w : World) (l : list FileEntry) (recs : list (Digest * bytes)) (w2 : World) : Prop := {
  se_engine : engine w2 = with_store (merge_all (store_of w) l) (engine w);
  se_ok : engine_ok w2;
  se_old_chunks : ∀ x d, files (disk w) !! chunk_path (blobs_of w) x = Some d →
    files (disk w2) !! chunk_path (blobs_of w) x = Some d;
  se_new_chunks : ∀ x d, length x = 32 → files (disk w2) !! chunk_path (blobs_of w) x = Some d →
    files (disk w) !! chunk_path (blobs_of w) x = Some d ∨ (x, d) ∈ recs;
  se_other_files : ∀ q, (∀ x, q ≠ chunk_path (blobs_of w) x) →
    (∀ p, p ∈ materialize_paths (merged w l).2 → q ≠ target (engine w) p) →
    files (disk w2) !! q = files (disk w) !! q;
  se_room : ∀ all, materialize_paths (merged w l).2 ⊆ all →
    placeable_all (engine w) (disk w) all → Forall plain all → placeable_all (engine w) (disk w2) all;
  se_adopted : ∀ p, p ∈ materialize_paths (merged w l).2 → ∃ e r d,
    entries_ (merge_all (store_of w) l) !! p = Some e ∧ r ∈ l ∧ chunk_hashes e = chunk_hashes r ∧
    reassemble (blobs_of w) (disk w2) (chunk_hashes e) = Ok d ∧
    (has_content e = true → files (disk w2) !! target (engine w) p = Some d);
}.

(** The node between storing the chunks and materializing. *)
Lemma received_ok w l f1 :
  let w1 := mkWorld (with_store (merge_all (store_of w) l) (engine w)) f1 (stdout w) in
  engine_ok w → Forall wf_entry l → ready (blobs_of w) f1 → intact (blobs_of w) f1 → dirs f1 = dirs (disk w) →
  (∀ q, (∀ x, q ≠ chunk_path (blobs_of w) x) → files f1 !! q = files (disk w) !! q) →
  engine_ok w1 ∧ ∀ ps, Forall plain ps → placeable_all (engine w) (disk w) ps → placeable_all (engine w1) (disk w1) ps.
Proof.
  intros w1 Hw Hwf Hr1 Hi1 Hd1 Hf1. pose proof (ok_wired w Hw) as He.
  destruct (store_inv_merge_all (store_of w) l) as [Hs1 Hs2]; [apply Hw|done|]. split.
  - destruct Hw as [[W1 W2 W3 W4 W5] _ _ _ Hh1 Hj Hfr]. split; simpl; try done.
    + split; simpl; try done. by rewrite <- W4.
    + by rewrite Hd1.
    + by rewrite Hd1.
    + intros q Hq. rewrite not_elem_of_dom, Hf1, <- not_elem_of_dom; [by apply Hfr|].
      by destruct (chunk_dir_prefix (engine w) q He Hq) as (_ & ? & _).
  - intros ps Hps Hpl. destruct (placeable_all_frame (engine w) (disk w) f1 ps He Hps Hpl) as [H1 H2]; [|auto|by split].
    intros q. rewrite Hd1. by left.
Qed.

(** Every chunk of a path that will be materialized is there once the records have
    been stored. *)
Lemma covered_present w l (recs : list (Digest * bytes)) f1 p e :
  engine_ok w → Forall wf_entry l → (∀ h, h ∈ request_of w l → ∃ d, (h, d) ∈ recs) →
  (∀ x d, files (disk w) !! chunk_path (blobs_of w) x = Some d → files f1 !! chunk_path (blobs_of w) x = Some d) →
  (∀ x d, (x, d) ∈ recs → is_Some (files f1 !! chunk_path (blobs_of w) x)) →
  p ∈ materialize_paths (merged w l).2 → entries_ (merge_all (store_of w) l) !! p = Some e →
  ∃ d, reassemble (blobs_of w) f1 (chunk_hashes e) = Ok d.
Proof.
  intros Hw Hwf Hreq Hk1 Hp1 Hp Hpe. apply reassemble_present. intros x Hx.
  destruct (merge_loop_inv (blobs_of w) (disk w) (store_of w)
    (MerkleTree.to_int (length (all_entries (store_of w)))) l) as [Hcov _ _].
  fold (merged w l) in Hcov. rewrite (merge_loop_store _ _ _ _ l : (merged w l).1 = _) in Hcov.
  destruct (request_of_ok w l Hwf) as (_ & _ & Hneed & _).
  destruct (Hcov p e x Hp Hpe Hx) as [Hc|Hc].
  - rewrite has_chunk_ready in Hc by apply Hw. apply bool_decide_eq_true in Hc as [d Hd].
    exists d. by apply Hk1.
  - destruct (Hreq x) as [d Hd]; [apply Hneed; [|done]|by apply (Hp1 x d)].
    destruct (store_inv_merge_all (store_of w) l) as [Hs1 _]; [apply Hw|done|].
    destruct (Hs1 p e Hpe) as [_ Hwe]. pose proof (wf_hashes e Hwe) as Hl.
    rewrite Forall_forall in Hl. by apply Hl.
Qed.

Lemma session_world w l recs :
  engine_ok w → Forall wf_entry l → Forall sendable recs → Forall (λ p, hash p.2 = p.1) recs →
  (∀ h, h ∈ request_of w l → ∃ d, (h, d) ∈ recs) → syncable w l →
  ∃ f1 w2, for_each (chunk_of <$> recs) (put_chunk (blobs_of w)) (disk w) = (Ok tt, f1) ∧
    for_each (materialize_paths (merged w l).2) materialize
      (mkWorld (with_store (merge_all (store_of w) l) (engine w)) f1 (stdout w)) = (Ok tt, w2) ∧
    session_effect w l recs w2.
Proof.
  intros Hw Hwf Hs Hh Hreq [Hplain Hpl]. pose proof (ok_wired w Hw) as He.
  destruct (receive_stored (blobs_of w) (disk w) recs) as (f1 & H1 & Hr1 & Hi1 & Hd1 & Hf1 & Hk1 & Hn1 & Hp1);
    [apply Hw|apply Hw|done|done|].
  destruct (received_ok w l f1 Hw Hwf Hr1 Hi1 Hd1 Hf1) as [Hw1 Hpl1].
  set (ps := materialize_paths (merged w l).2) in *. set (w1 := mkWorld _ f1 _) in *.
  assert (∀ p e, p ∈ ps → get_entry (store_of w1) p = Some e →
    ∃ d, reassemble (blobs_of w1) (disk w1) (chunk_hashes e) = Ok d) as Hre.
  { intros p e Hp Hpe. by apply (covered_present w l recs f1 p e). }
  destruct (materialize_all_ok w1 ps ps Hw1 Hplain) as (w2 & Hm & He2 & Hw2 & _ & Hf2 & Ht2); [done|auto..|].
  assert (∀ x, files (disk w2) !! chunk_path (blobs_of w) x = files f1 !! chunk_path (blobs_of w) x) as Hch.
  { intros x. apply Hf2. intros p Hp E. rewrite Forall_forall in Hplain.
    by apply (target_not_chunk (engine w) p x He (Hplain p Hp)). }
  exists f1, w2. split; [done|]. split; [done|]. split; [done|done| | | | |].
  - intros x d Hx. rewrite Hch. by apply Hk1.
  - intros x d Hx. rewrite Hch. by apply Hn1.
  - intros q Hq Hqp. by rewrite Hf2, Hf1.
  - intros all Hsub Hroom Hall.
    destruct (materialize_all_ok w1 ps all Hw1 Hplain Hsub) as (w2' & Hm' & _ & _ & Hpl2 & _); [by apply Hpl1|done|].
    rewrite Hm in Hm'. injection Hm' as <-. exact Hpl2.
  - intros p Hp.
    destruct (merge_loop_inv (blobs_of w) (disk w) (store_of w)
      (MerkleTree.to_int (length (all_entries (store_of w)))) l) as [_ _ Horig].
    fold (merged w l) in Horig. rewrite (merge_loop_store _ _ _ _ l : (merged w l).1 = _) in Horig.
    destruct (Horig p Hp) as (e & r & Hpe & Hr & Hhs). destruct (Hre p e Hp Hpe) as [d Hd].
    exists e, r, d. split_and!; try done.
    + rewrite <- Hd. apply reassemble_ext, Forall_true. apply Hch.
    + intros Hc. by apply (Ht2 p e d).
Qed.

(** Two replicas that hold comparable versions hold the same entries after each
    merged the other's. *)
Lemma merge_all_converge sa sb :
  store_inv sa → store_inv sb → causally_ordered (all_entries sa ++ all_entries sb) →
  entries_ (merge_all sa (all_entries sb)) = entries_ (merge_all sb (all_entries sa)).
Proof.
  intros Ha Hb Hord.
  assert (causally_ordered (all_entries sb ++ all_entries sa)) as Hord'.
  { rewrite causally_ordered_alt in *. intros v w Hv Hw. apply Hord; set_solver. }
  pose proof (holds_merge_all _ _ _ Hord (holds_all_entries sa Ha)) as H1.
  pose proof (holds_merge_all _ _ _ Hord' (holds_all_entries sb Hb)) as H2.
  eapply holds_agree; [exact Hord| |exact H1|exact H2]. intros v. rewrite !elem_of_app. tauto.
Qed.

(** ** A node that can take part in a session *)
Record node_ready (w : World) : Prop := {
  nr_ok : engine_ok w;
  nr_id : newline ∉ engine_id (engine w);
  nr_printable : printable (store_of w);
  nr_small : small_chunks (blobs_of w) (disk w);
  nr_complete : ∀ e h, e ∈ all_entries (store_of w) → h ∈ chunk_hashes e →
    is_Some (files (disk w) !! chunk_path (blobs_of w) h);
}.

(** The chunks two nodes share have the same contents: what [intact] gives for
    both, barring a collision of the hash. *)
Definition agree (a b : World) : Prop :=
  ∀ x da db, length x = 32 → files (disk a) !! chunk_path (blobs_of a) x = Some da →
    files (disk b) !! chunk_path (blobs_of b) x = Some db → da = db.

(** What [a], now [a'], has of [b]'s files: for every path it adopted or
    forked, [b]'s bytes, in its chunk store and in the materialized file. *)
Definition received (a b a' : World) : Prop :=
  ∀ p, p ∈ materialize_paths (merged a (all_entries (store_of b))).2 → ∃ e r d,
    get_entry (store_of a') p = Some e ∧ r ∈ all_entries (store_of b) ∧
    chunk_hashes e = chunk_hashes r ∧
    reassemble (blobs_of b) (disk b) (chunk_hashes r) = Ok d ∧
    reassemble (blobs_of a') (disk a') (chunk_hashes e) = Ok d ∧
    (has_content e = true → files (disk a') !! target (engine a) p = Some d).

(** The messages [b] sends fit their frames. *)
Definition messages_fit (a b : World) : Prop :=
  fits (serialize_manifest (engine b)) (request_of b (all_entries (store_of a)))
    (reply_of b (request_of a (all_entries (store_of b)))).

Lemma all_entries_wf w : engine_ok w → Forall wf_entry (all_entries (store_of w)).
Proof.
  intros Hw. apply Forall_forall. intros e [p He]%elem_of_all_entries. apply (ok_store w Hw p e He).
Qed.

(** The records a node answers a request with are its own chunks. *)
Lemma reply_of_ok b hs :
  node_ready b → digests hs →
  Forall sendable (reply_of b hs) ∧ Forall (λ p, hash p.2 = p.1) (reply_of b hs) ∧
  (∀ x d, (x, d) ∈ reply_of b hs → files (disk b) !! chunk_path (blobs_of b) x = Some d).
Proof.
  intros Hb Hd. unfold digests in Hd. rewrite Forall_forall in Hd. split_and!.
  - apply stored_sendable; [by apply Forall_forall|apply Hb].
  - apply Forall_forall. intros [x d] [Hx Hxd]%elem_of_stored. simpl.
    apply (ok_intact b (nr_ok b Hb)); auto.
  - by intros x d [Hx Hxd]%elem_of_stored.
Qed.

(** Two sound nodes are a setting in which everything works. *)
Lemma session_between a b :
  let eb := all_entries (store_of b) in let hs := request_of b (all_entries (store_of a)) in
  let recs := reply_of b (request_of a eb) in
  node_ready a → node_ready b → syncable a eb → messages_fit a b →
  (∀ x d, (x, d) ∈ recs → files (disk b) !! chunk_path (blobs_of b) x = Some d) ∧
  ∃ f1 w2, session_setting a (serialize_manifest (engine b)) eb hs recs f1 w2 (journal_written w2) ∧
    session_effect a eb recs w2.
Proof.
  intros eb hs recs Ha Hb Hsync Hfit. pose proof (nr_ok a Ha) as Hoka. pose proof (nr_ok b Hb) as Hokb.
  pose proof (all_entries_wf a Hoka) as Hea. pose proof (all_entries_wf b Hokb) as Heb.
  destruct (request_of_ok a eb Heb) as (_ & Hda & _ & Hfa). destruct (request_of_ok b _ Hea) as (_ & Hdb & _ & _).
  destruct (reply_of_ok b (request_of a eb) Hb Hda) as (Hrs & Hrh & Hrec). fold recs in Hrs, Hrh, Hrec.
  split; [exact Hrec|].
  destruct (session_world a eb recs Hoka Heb Hrs Hrh) as (f1 & w2 & Hput & Hmat & Heff); [|done|].
  { intros h Hh. destruct (Hfa h Hh) as (r & Hr & Hhr). destruct (nr_complete b Hb r h Hr Hhr) as [d Hxd].
    exists d. by apply elem_of_stored. }
  exists f1, w2. split; [|done].
  split; [apply Hoka|apply Ha| |exact Hdb|exact Hrs|exact Hfit|exact Hput|exact Hmat|].
  - apply parse_manifest_serialize; [apply Hb|apply Hokb|apply Hb].
  - apply save_journal_ok, Heff.
Qed.

(** What the node has of the peer's files when the journal has been saved. *)
Lemma effect_received a b w2 :
  let eb := all_entries (store_of b) in let recs := reply_of b (request_of a eb) in
  node_ready a → node_ready b → agree a b → syncable a eb →
  (∀ x d, (x, d) ∈ recs → files (disk b) !! chunk_path (blobs_of b) x = Some d) →
  session_effect a eb recs w2 → received a b (journal_written w2).
Proof.
  intros eb recs Ha Hb Hag Hsync Hrec [He2 Hw2 _ Hprov _ _ Hadopt] p Hp.
  pose proof (all_entries_wf b (nr_ok b Hb)) as Heb. pose proof (ok_wired a (nr_ok a Ha)) as Hwi.
  destruct (Hadopt p Hp) as (e & r & d & Hpe & Hr & Hhs & Hd2 & Ht).
  exists e, r, d. unfold get_entry, blobs_of, store_of. cbn [journal_written engine disk files].
  rewrite He2. cbn [with_store blobs_ store_]. split_and!; [done|done|done| | |].
  - apply (reassemble_agree (blobs_of a) (disk w2)); [|..|by rewrite <- Hhs].
    + intros x. by apply (nr_complete b Hb).
    + intros x dx dx' Hx Hdx Hdx'. pose proof (wf_hashes r) as Hwr. rewrite Forall_forall in Heb.
      specialize (Hwr (Heb r Hr)). rewrite Forall_forall in Hwr.
      apply Hprov in Hdx as [Hdx|Hdx%Hrec]; [by eapply Hag, Hdx'; [apply Hwr|]| |by apply Hwr].
      unfold blobs_of in Hdx. congruence.
  - rewrite <- Hd2. apply reassemble_ext, Forall_true. intros x. cbn [files]. rewrite lookup_insert_ne; [done|].
    by apply (journal_not_chunk (engine a)).
  - intros Hc. rewrite lookup_insert_ne; [by apply Ht|].
    intros E. symmetry in E. revert E. apply (target_not_journal (engine a)); [done|].
    destruct Hsync as [Hpl _]. rewrite Forall_forall in Hpl. by apply Hpl.
Qed.

(** One side of the session. *)
Lemma sync_one_side a b c :
  node_ready a → node_ready b → agree a b → syncable a (all_entries (store_of b)) → messages_fit a b →
  willing c →
  delivers c (transcript b (all_entries (store_of a)) (request_of a (all_entries (store_of b)))) →
  ∃ a' st c', run_sync_session (mkPeer a c) = (Ok st, mkPeer a' c') ∧
    outbox c' = outbox c ++ transcript a (all_entries (store_of b)) (request_of b (all_entries (store_of a))) ∧
    store_of a' = merge_all (store_of a) (all_entries (store_of b)) ∧ engine_ok a' ∧
    files (disk a') !! journal_path (engine a) = Some (journal_text (store_of a')) ∧ received a b a'.
Proof.
  intros Ha Hb Hag Hsync Hfit Hw Hd.
  destruct (session_between a b Ha Hb Hsync Hfit) as (Hrec & f1 & w2 & Hset & Heff).
  destruct (session_run a c _ _ _ _ _ _ _ Hset Hd Hw) as (c' & Hrun & Hout).
  exists (journal_written w2). eexists. exists c'. split; [exact Hrun|]. split; [exact Hout|].
  split; [unfold store_of; cbn [journal_written engine]; by rewrite (se_engine _ _ _ _ Heff)|].
  split; [apply save_journal_ok, Heff|]. split; [|by apply effect_received].
  cbn [journal_written disk files]. rewrite (se_engine _ _ _ _ Heff). apply lookup_insert_eq.
Qed.

(** ** Properties *)

(** C1: A sync session works end to end.  Two running nodes with complete chunk
    stores and distinct replicas exchange exactly the bytes the other expects,
    however TCP cuts them into segments and whatever [send] takes per call; both
    sessions return normally; each store is then the merge of the other's
    entries, saved in the journal; every file a node adopted or forked has
    the peer's bytes, in its chunk store and on disk; the nodes'
    invariants hold again; and if no two versions of a path were concurrent, both
    stores hold the same entries. *)
Theorem sync_two_nodes a b ca cb :
  let ea := all_entries (store_of a) in let eb := all_entries (store_of b) in
  node_ready a → node_ready b → agree a b →
  syncable a eb → syncable b ea → messages_fit a b → messages_fit b a →
  willing ca → willing cb → outbox ca = [] → outbox cb = [] →
  delivers ca (transcript b ea (request_of a eb)) → delivers cb (transcript a eb (request_of b ea)) →
  ∃ a' b' sta stb ca' cb',
    run_sync_session (mkPeer a ca) = (Ok sta, mkPeer a' ca') ∧
    run_sync_session (mkPeer b cb) = (Ok stb, mkPeer b' cb') ∧
    delivers ca (outbox cb') ∧ delivers cb (outbox ca') ∧
    store_of a' = merge_all (store_of a) eb ∧ store_of b' = merge_all (store_of b) ea ∧
    files (disk a') !! journal_path (engine a) = Some (journal_text (store_of a')) ∧
    files (disk b') !! journal_path (engine b) = Some (journal_text (store_of b')) ∧
    received a b a' ∧ received b a b' ∧ engine_ok a' ∧ engine_ok b' ∧
    (causally_ordered (ea ++ eb) → entries_ (store_of a') = entries_ (store_of b')).
Proof.
  intros ea eb Ha Hb Hag Hsa Hsb Hfa Hfb Hwa Hwb Hoa Hob Hda Hdb.
  assert (agree b a) as Hag' by (intros x d1 d2 Hx H1 H2; symmetry; by eapply Hag).
  destruct (sync_one_side a b ca) as (a' & sta & ca' & Hra & Hta & Hma & Hoka & Hja & Hrecva); try done.
  destruct (sync_one_side b a cb) as (b' & stb & cb' & Hrb & Htb & Hmb & Hokb & Hjb & Hrecvb); try done.
  rewrite Hoa in Hta. rewrite Hob in Htb.
  exists a', b', sta, stb, ca', cb'. split_and!; try done; [by rewrite Htb|by rewrite Hta|].
  intros Hord. rewrite Hma, Hmb. apply merge_all_converge; [apply Ha|apply Hb|done].
Qed.

(** A session that does not get its manifest changes nothing: when the peer
    closes the connection before a whole frame has arrived, or sends a frame of
    another type, [run_sync_session] throws the error that names the missing
    frame, and store and disk are as they were. *)
Theorem session_without_manifest w c t p s :
  (N.of_nat (length p) < 2 ^ 32)%N → willing c → in_error c = false → delivers c s →
  (s `prefix_of` frame t p ∧ s ≠ frame t p) ∨ (t ≠ FRAME_MANIFEST ∧ frame t p `prefix_of` s) →
  ∃ c', run_sync_session (mkPeer w c) =
    (Throw (runtime_error (str "expected MANIFEST frame from peer")), mkPeer w c').
Proof.
  intros Hp Hw He Hd Hcase. unfold run_sync_session.
  rewrite (bind_ok _ _ _ w (mkPeer w c)) by done. cbv zeta.
  set (m := serialize_manifest (engine w)).
  destruct (send_frame_moved FRAME_MANIFEST m c s Hd Hw) as (c1 & H1 & M1).
  pose proof (send_frame_in_error FRAME_MANIFEST m c) as He1. rewrite H1 in He1. cbn [snd] in He1.
  rewrite (bind_ok _ _ _ _ _ (on_conn_ok _ w c _ c1 H1)).
  unfold expect. destruct Hcase as [[Hpre Hne]|[Ht [rest Hs]]].
  - destruct (recv_frame_short c1 t p s) as [c2 H2]; [apply M1|apply M1|congruence|done|done|done|].
    exists c2. unfold mbind at 1, stateM_bind at 1. rewrite (bind_ok _ _ _ _ _ (on_conn_ok _ w c1 _ c2 H2)). done.
  - subst s. destruct (recv_frame_moved t p c1 rest) as (c2 & H2 & _); [apply M1|apply M1|done|].
    exists c2. unfold mbind at 1, stateM_bind at 1. rewrite (bind_ok _ _ _ _ _ (on_conn_ok _ w c1 _ c2 H2)).
    by rewrite decide_False.
Qed.

Lemma session_without_manifest_witness :
  ∃ c', run_sync_session (mkPeer sample_node (drip (frame FRAME_DONE []))) =
    (Throw (runtime_error (str "expected MANIFEST frame from peer")), mkPeer sample_node c').
Proof.
  apply (session_without_manifest sample_node _ FRAME_DONE [] (frame FRAME_DONE [])).
  - reflexivity.
  - apply drip_ok.
  - reflexivity.
  - apply drip_ok.
  - right. split; [by_decide|reflexivity].
Defined.

(** A session whose peer has already closed its side does not report that: its first [send] raises the
    signal, before anything has changed on the node. *)
Theorem broken_connection_kills w c ns :
  accepts c = (- EPIPE)%Z :: ns →
  (run_sync_session (mkPeer w c)).1 = Throw sigpipe ∧ world (run_sync_session (mkPeer w c)).2 = w.
Proof.
  intros Ha. unfold run_sync_session. rewrite (bind_ok _ _ _ w (mkPeer w c)) by done. cbv zeta.
  assert (∀ b s, b ≠ [] → send b c = ((- EPIPE)%Z, s) → send_all b c = (Throw sigpipe, s)) as Hall.
  { intros b s Hb Hs. unfold send_all. cbn [send_loop]. rewrite drop_0, Hs.
    destruct b; [done|]. by rewrite decide_True by (simpl; lia). }
  set (m := serialize_manifest (engine w)).
  assert ((send_frame FRAME_MANIFEST m c).1 = Throw sigpipe) as Hf.
  { unfold send_frame. cbv zeta. unfold mbind, stateM_bind.
    erewrite Hall; [done|by destruct (len_bytes _)|]. unfold send. rewrite Ha.
    rewrite Z.min_l by (unfold EPIPE; lia). done. }
  assert (∃ c', on_conn (send_frame FRAME_MANIFEST m) (mkPeer w c) = (Throw sigpipe, mkPeer w c')) as [c' E].
  { unfold on_conn. cbn [conn world]. destruct (send_frame FRAME_MANIFEST m c) as [r c']. exists c'. by rewrite <- Hf. }
  unfold mbind, stateM_bind. rewrite E. done.
Qed.

(** ** Two nodes *)

(** A second node, which has a file the first does not know. *)
Definition sample_start : World :=
  mkWorld (engine_with (str "B") (str "e") (new_store (str "B")))
    (new_engine (str "B") (str "e") empty_fs).2 [].
Definition sample_peer : World := (ingest_file (str "a.txt") (str "hello") sample_start).2.

Lemma sample_start_ok : engine_ok sample_start.
Proof.
  destruct (new_engine_empty (str "B") (str "e") []) as (f' & H & _ & Hok); [by_decide|].
  unfold sample_start. by rewrite H.
Qed.

Lemma sample_node_ready : node_ready sample_node.
Proof.
  split; [apply sample_node_ok|by_decide|apply map_Forall_empty|..].
  - intros x d _ Hd. destruct sample_node_ok as [_ E]. rewrite E in Hd. destruct (lookup_empty_Some _ _ Hd).
  - intros e h [p Hp]%elem_of_all_entries. destruct (lookup_empty_Some _ _ Hp).
Qed.

Lemma sample_peer_ready : node_ready sample_peer.
Proof.
  split; [|by_decide|unfold printable; by_decide|..].
  - apply ingest_safe; [apply sample_start_ok|by_decide].
  - assert (map_Forall (λ _ d, (N.of_nat (length d) < 2 ^ 32)%N) (files (disk sample_peer))) as H by by_decide.
    intros x d _. apply H.
  - assert (Forall (λ e, Forall (λ h, is_Some (files (disk sample_peer) !! chunk_path (blobs_of sample_peer) h))
      (chunk_hashes e)) (all_entries (store_of sample_peer))) as H by by_decide.
    intros e h He Hh. rewrite Forall_forall in H. specialize (H e He). rewrite Forall_forall in H. auto.
Qed.

Lemma sync_two_nodes_witness :
  let ca := drip (transcript sample_peer [] (request_of sample_node (all_entries (store_of sample_peer)))) in
  let cb := drip (transcript sample_node (all_entries (store_of sample_peer)) []) in
  ∃ a' b' sta stb ca' cb',
    run_sync_session (mkPeer sample_node ca) = (Ok sta, mkPeer a' ca') ∧
    run_sync_session (mkPeer sample_peer cb) = (Ok stb, mkPeer b' cb') ∧
    received sample_node sample_peer a' ∧
    materialize_paths (merged sample_node (all_entries (store_of sample_peer))).2 = [str "a.txt"] ∧
    entries_ (store_of a') = entries_ (store_of b').
Proof.
  cbv zeta. set (ca := drip _). set (cb := drip _).
  destruct (sync_two_nodes sample_node sample_peer ca cb)
    as (a' & b' & sta & stb & ca' & cb' & H1 & H2 & _ & _ & _ & _ & _ & _ & H3 & _ & _ & _ & H4).
  - apply sample_node_ready.
  - apply sample_peer_ready.
  - intros x da db _ Hd. destruct sample_node_ok as [_ E]. rewrite E in Hd. destruct (lookup_empty_Some _ _ Hd).
  - split; by_decide.
  - split; by_decide.
  - unfold messages_fit, fits. by_decide.
  - unfold messages_fit, fits. by_decide.
  - apply drip_ok.
  - apply drip_ok.
  - reflexivity.
  - reflexivity.
  - apply drip_ok.
  - apply drip_ok.
  - exists a', b', sta, stb, ca', cb'. split; [exact H1|]. split; [exact H2|]. split; [exact H3|].
    split; [vm_compute; reflexivity|]. apply H4. unfold causally_ordered. by_decide.
Defined.
