(* ===== verification/Socket.v ===== *)
(** * Socket: the life of a [TcpSocket] ([network.hpp], [network.cpp], down to
    [accept_once])

    The operating system is its table of open descriptors and an oracle that
    answers the next calls with success or failure; a descriptor it hands out is
    not in the table.  [TcpSocket] objects live in a map from places to
    descriptors, so that moves, assignments and destructors act on shared state. *)
From S2P Require Import Prelude Text.

(** ** The system calls *)
Record Os := mkOs {
  answers : list bool;     (* whether the next calls succeed; then all do *)
  next_fd : Z;             (* the next descriptor to hand out *)
  open_fds : gset Z;
  bad_close : bool;        (* a descriptor was closed that is not open *)
  dialed : list bytes;     (* the addresses [connect] was called with *)
  bound : list N;          (* the ports [bind] was called with *)
}.

Definition pop_answer (o : Os) : bool * Os :=
  match answers o with
  | [] => (true, o)
  | b :: bs => (b, mkOs bs (next_fd o) (open_fds o) (bad_close o) (dialed o) (bound o))
  end.

(** A call that returns a descriptor: [socket], [accept]. *)
Definition sys_open : stateM Os Z := λ o,
  let '(ok, o) := pop_answer o in
  if ok : bool
  then (Ok (next_fd o),
        mkOs (answers o) (next_fd o + 1) ({[next_fd o]} ∪ open_fds o) (bad_close o) (dialed o) (bound o))
  else (Ok (-1)%Z, o).

(** A call that returns 0 or -1: [connect], [bind], [listen]. *)
Definition sys_status : stateM Os Z := λ o,
  let '(ok, o) := pop_answer o in (Ok (if ok : bool then 0 else -1)%Z, o).

Definition sys_connect (a : bytes) : stateM Os Z :=
  modify (λ o, mkOs (answers o) (next_fd o) (open_fds o) (bad_close o) (dialed o ++ [a]) (bound o)) ;!
  sys_status.
Definition sys_bind (port : N) : stateM Os Z :=
  modify (λ o, mkOs (answers o) (next_fd o) (open_fds o) (bad_close o) (dialed o) (bound o ++ [port])) ;!
  sys_status.

Definition sys_close (fd : Z) : stateM Os unit :=
  modify (λ o, mkOs (answers o) (next_fd o) (open_fds o ∖ {[fd]})
    (bad_close o || negb (bool_decide (fd ∈ open_fds o))) (dialed o) (bound o)).

(** [std::to_string(int)] *)
Definition to_string_int (n : Z) : bytes :=
  if decide (n < 0)%Z then "-"%char :: to_dec (Z.to_N (- n)) else to_dec (Z.to_N n).

(** ** [TcpSocket::connect_to] *)

(** The loop over the addresses of the host, [fd] being the variable of that
    name. *)
Fixpoint connect_loop (addrs : list bytes) (fd : Z) : stateM Os Z :=
  match addrs with
  | [] => mret fd
  | a :: addrs =>
      let! fd := sys_open in
      if decide (fd < 0)%Z then connect_loop addrs fd
      else
        let! r := sys_connect a in
        if decide (r = 0)%Z then mret fd
        else sys_close fd ;! connect_loop addrs (-1)
  end.

(** [resolve] is [getaddrinfo]: no result, or the addresses it found.  The value
    is the descriptor of the object returned. *)
Definition connect_to (resolve : bytes → bytes → option (list bytes)) (host : bytes) (port : Z)
    : stateM Os Z :=
  let port_str := to_string_int port in
  match resolve host port_str with
  | None | Some [] => lift (Throw (runtime_error (str "DNS/address resolution failed for " ++ host)))
  | Some addrs =>
      let! fd := connect_loop addrs (-1) in
      if decide (fd < 0)%Z
      then lift (Throw (runtime_error (str "failed to connect to " ++ host ++ str ":" ++ port_str)))
      else mret fd
  end.

(** ** [TcpSocket::accept_once] *)

(** [static_cast<uint16_t>(port)]; [htons] and the socket option have no effect
    on what follows. *)
Definition to_uint16 (port : Z) : N := Z.to_N (port `mod` 2 ^ 16).

Definition accept_once (port : Z) : stateM Os Z :=
  let! listen_fd := sys_open in
  if decide (listen_fd < 0)%Z then lift (Throw (runtime_error (str "socket() failed")))
  else
    let! b := sys_bind (to_uint16 port) in
    if decide (b < 0)%Z then
      sys_close listen_fd ;!
      lift (Throw (runtime_error (str "bind() failed on port " ++ to_string_int port)))
    else
      let! l := sys_status in
      if decide (l < 0)%Z then
        sys_close listen_fd ;! lift (Throw (runtime_error (str "listen() failed")))
      else
        let! conn_fd := sys_open in
        sys_close listen_fd ;!
        if decide (conn_fd < 0)%Z then lift (Throw (runtime_error (str "accept() failed")))
        else mret conn_fd.

(** ** Objects *)

(** A process: the system and the [TcpSocket] objects alive, by place, each with
    its [fd_]. *)
Record Sockets := mkSockets { sys : Os; objects : gmap nat Z }.

Definition on_sys {A} (m : stateM Os A) : stateM Sockets A := λ s,
  let '(r, o) := m (sys s) in (r, mkSockets o (objects s)).

(** [fd_] of the object at [l]; a default-constructed one has -1. *)
Definition fd_ (s : Sockets) (l : nat) : Z := default (-1)%Z (objects s !! l).
Definition set_fd (l : nat) (fd : Z) : stateM Sockets unit :=
  modify (λ s, mkSockets (sys s) (<[l := fd]> (objects s))).

Definition close_if_open (l : nat) : stateM Sockets unit :=
  let! s := get_state in
  if decide (0 ≤ fd_ s l)%Z then on_sys (sys_close (fd_ s l)) else mret tt.

(** [~TcpSocket()] *)
Definition sock_destroy (l : nat) : stateM Sockets unit :=
  close_if_open l ;! modify (λ s, mkSockets (sys s) (delete l (objects s))).

(** [TcpSocket(TcpSocket&& other)] at the place [l]. *)
Definition sock_move (l other : nat) : stateM Sockets unit :=
  let! s := get_state in
  set_fd l (fd_ s other) ;! set_fd other (-1).

(** [operator=(TcpSocket&& other)] *)
Definition sock_assign (this other : nat) : stateM Sockets unit :=
  if decide (this = other) then mret tt
  else
    close_if_open this ;!
    let! s := get_state in
    set_fd this (fd_ s other) ;! set_fd other (-1).

(** [TcpSocket sock = <a call that returns one>;]: copy elision constructs the
    object in place, or not at all when the call throws. *)
Definition sock_init (l : nat) (m : stateM Os Z) : stateM Sockets unit :=
  let! fd := on_sys m in set_fd l fd.

(** ** Descriptors are fresh *)

Definition os_ok (o : Os) : Prop :=
  (0 ≤ next_fd o)%Z ∧ bad_close o = false ∧ ∀ fd, fd ∈ open_fds o → (0 ≤ fd < next_fd o)%Z.

(** A computation that opens at most the descriptor it returns: [r] is its
    result. *)
Definition opens (o : Os) (r : outcome Z) (o' : Os) : Prop :=
  os_ok o' ∧
  match r with
  | Ok fd =>
      if decide (0 ≤ fd)%Z then fd ∉ open_fds o ∧ open_fds o' = {[fd]} ∪ open_fds o
      else open_fds o' = open_fds o
  | _ => open_fds o' = open_fds o
  end.

Lemma pop_answer_ok o : os_ok o → os_ok (pop_answer o).2 ∧ open_fds (pop_answer o).2 = open_fds o.
Proof. unfold pop_answer. by destruct (answers o). Qed.

Lemma sys_status_ok o :
  os_ok o → ∃ r o', sys_status o = (Ok r, o') ∧ os_ok o' ∧ open_fds o' = open_fds o ∧ (r = 0 ∨ r = -1)%Z.
Proof.
  intros Ho. unfold sys_status. pose proof (pop_answer_ok o Ho) as [H1 H2].
  destruct (pop_answer o) as [[] o']; naive_solver.
Qed.

Lemma sys_open_ok o :
  os_ok o → ∃ fd o', sys_open o = (Ok fd, o') ∧ opens o (Ok fd) o' ∧ (fd = -1 ∨ 0 ≤ fd)%Z.
Proof.
  intros Ho. unfold sys_open. pose proof (pop_answer_ok o Ho) as [H1 H2].
  destruct (pop_answer o) as [[] o'] eqn:E; cbn [snd] in *.
  - destruct H1 as (Hn & Hb & Hf). exists (next_fd o'). eexists. split; [done|].
    split; [|right; done]. unfold opens. rewrite decide_True by done. split.
    + split_and!; simpl; [lia|done|]. intros fd [->%elem_of_singleton|H%Hf]%elem_of_union; lia.
    + simpl. rewrite <- H2. split; [|done]. intros H%Hf. lia.
  - exists (-1)%Z, o'. split; [done|]. split; [by split|by left].
Qed.

Lemma sys_close_ok fd o :
  os_ok o → fd ∈ open_fds o →
  ∃ o', sys_close fd o = (Ok tt, o') ∧ os_ok o' ∧ open_fds o' = open_fds o ∖ {[fd]}.
Proof.
  intros (Hn & Hb & Hf) Hin. eexists. split; [done|]. split; [|done]. split_and!; simpl; [done| |].
  - by rewrite Hb, bool_decide_eq_true_2.
  - intros x [Hx _]%elem_of_difference. by apply Hf.
Qed.

Lemma sys_connect_ok a o :
  os_ok o → ∃ r o', sys_connect a o = (Ok r, o') ∧ os_ok o' ∧ open_fds o' = open_fds o ∧
    dialed o' = dialed o ++ [a] ∧ (r = 0 ∨ r = -1)%Z.
Proof.
  intros Ho. unfold sys_connect, mbind, stateM_bind. cbn [modify].
  set (o1 := mkOs _ _ _ _ _ _). destruct (sys_status_ok o1 Ho) as (r & o' & H & Hok & Hf & Hr).
  exists r, o'. split_and!; try done. unfold sys_status in H.
  assert (dialed (pop_answer o1).2 = dialed o1) as Hd by (unfold pop_answer; by destruct (answers o1)).
  destruct (pop_answer o1) as [ok o2]. injection H as _ <-. exact Hd.
Qed.

Lemma sys_bind_ok p o :
  os_ok o → ∃ r o', sys_bind p o = (Ok r, o') ∧ os_ok o' ∧ open_fds o' = open_fds o.
Proof.
  intros Ho. unfold sys_bind, mbind, stateM_bind. cbn [modify].
  set (o1 := mkOs _ _ _ _ _ _). destruct (sys_status_ok o1 Ho) as (r & o' & H & Hok & Hf & _).
  by exists r, o'.
Qed.

Lemma sys_open_dialed o : dialed (sys_open o).2 = dialed o.
Proof. unfold sys_open, pop_answer. by destruct (answers o) as [|[] ?]. Qed.

(** What the loop of [connect_to] does: the addresses it calls [connect] on, in
    order, and that it stops at the first one that answers. *)
Lemma connect_loop_ok addrs o fd0 :
  os_ok o → (fd0 < 0)%Z →
  ∃ fd o' tried, connect_loop addrs fd0 o = (Ok fd, o') ∧ opens o (Ok fd) o' ∧
    dialed o' = dialed o ++ tried ∧
    if decide (0 ≤ fd)%Z
    then ∃ pre a post skipped, addrs = pre ++ a :: post ∧ tried = skipped ++ [a] ∧ skipped `sublist_of` pre
    else tried `sublist_of` addrs.
Proof.
  revert o fd0. induction addrs as [|a addrs IH]; intros o fd0 Ho Hfd0; cbn [connect_loop].
  { exists fd0, o, []. rewrite app_nil_r. unfold opens. rewrite !decide_False by lia. by split_and!. }
  destruct (sys_open_ok o Ho) as (fd & o1 & H1 & [Hok1 Hop1] & Hfd).
  pose proof (sys_open_dialed o) as Hd1. unfold mbind, stateM_bind. rewrite H1 in *. cbn [snd] in Hd1.
  destruct Hfd as [->|Hfd].
  { rewrite decide_True by lia. rewrite decide_False in Hop1 by lia.
    destruct (IH o1 (-1)%Z Hok1 ltac:(lia)) as (fd & o' & tried & -> & [Hok Hop] & Hd & Ht).
    exists fd, o', tried. rewrite <- Hd1. split_and!; [done|split; [done|by rewrite <- Hop1]|done|].
    case_decide; [|by apply sublist_cons]. destruct Ht as (pre & b & post & sk & -> & -> & Hs).
    exists (a :: pre), b, post, sk. split_and!; [done|done|by apply sublist_cons]. }
  rewrite decide_False by lia. rewrite decide_True in Hop1 by lia. destruct Hop1 as [Hnew Hopen].
  destruct (sys_connect_ok a o1 Hok1) as (r & o2 & -> & Hok2 & Hf2 & Hd2 & Hr).
  destruct Hr as [->| ->].
  { rewrite decide_True by done. exists fd, o2, [a]. unfold opens. rewrite !decide_True by lia.
    split_and!; [done|done|done|by rewrite Hf2|by rewrite Hd2, Hd1|]. by exists [], a, addrs, []. }
  rewrite decide_False by lia.
  destruct (sys_close_ok fd o2) as (o3 & H3 & Hok3 & Hf3); [done|rewrite Hf2, Hopen; set_solver|].
  assert (open_fds o3 = open_fds o) as Hback by (rewrite Hf3, Hf2, Hopen; set_solver).
  assert (dialed o3 = dialed o ++ [a]) as Hd3 by (injection H3 as <-; simpl; by rewrite Hd2, Hd1).
  rewrite H3. destruct (IH o3 (-1)%Z Hok3 ltac:(lia)) as (fd' & o' & tried & -> & Hop & Hd & Ht).
  exists fd', o', (a :: tried). split_and!; [done| |by rewrite Hd, Hd3, <- app_assoc|].
  - unfold opens in *. by rewrite Hback in Hop.
  - case_decide; [|by apply sublist_skip]. destruct Ht as (pre & b & post & sk & -> & -> & Hs).
    exists (a :: pre), b, post, (a :: sk). split_and!; [done|done|by apply sublist_skip].
Qed.

Lemma connect_to_ok resolve host port o :
  os_ok o → opens o (connect_to resolve host port o).1 (connect_to resolve host port o).2 ∧
    ∀ fd, (connect_to resolve host port o).1 = Ok fd → (0 ≤ fd)%Z.
Proof.
  intros Ho. unfold connect_to.
  assert (opens o (Throw (runtime_error (str "DNS/address resolution failed for " ++ host))) o) as Hdns
    by done.
  destruct (resolve host _) as [[|a addrs]|]; [done| |done].
  destruct (connect_loop_ok (a :: addrs) o (-1) Ho ltac:(lia)) as (fd & o' & tried & H & [Hok Hop] & _).
  unfold mbind, stateM_bind. rewrite H. destruct (decide (fd < 0)%Z) as [Hfd|Hfd]; simpl.
  - rewrite decide_False in Hop by lia. done.
  - split; [done|]. intros x [= <-]. lia.
Qed.

(** Exchanging the listening descriptor for the connected one. *)
Lemma swap_fd (X : gset Z) l c :
  l ∉ X → c ∉ {[l]} ∪ X → c ∉ X ∧ ({[c]} ∪ ({[l]} ∪ X)) ∖ {[l]} = {[c]} ∪ X.
Proof. intros Hl Hc. split; [set_solver|]. apply set_eq. intros x. set_solver. Qed.

(** The listening socket is closed on every path. *)
Lemma accept_once_ok port o :
  os_ok o → opens o (accept_once port o).1 (accept_once port o).2 ∧
    ∀ fd, (accept_once port o).1 = Ok fd → (0 ≤ fd)%Z.
Proof.
  intros Ho. unfold accept_once.
  destruct (sys_open_ok o Ho) as (lfd & o1 & H1 & [Hok1 Hop1] & Hfd).
  unfold mbind, stateM_bind. rewrite H1. destruct Hfd as [->|Hfd].
  { rewrite decide_True by lia. rewrite decide_False in Hop1 by lia. done. }
  rewrite decide_False by lia. rewrite decide_True in Hop1 by lia. destruct Hop1 as [Hnew Hopen].
  destruct (sys_bind_ok (to_uint16 port) o1 Hok1) as (r & o2 & -> & Hok2 & Hf2).
  assert (∀ o', os_ok o' → open_fds o' = open_fds o1 → ∃ o'', sys_close lfd o' = (Ok tt, o'') ∧ os_ok o'' ∧
    open_fds o'' = open_fds o) as Hclose.
  { intros o' Hok' Hf'. destruct (sys_close_ok lfd o') as (o'' & Hc & Hok & Hf); [done|set_solver|].
    exists o''. split_and!; [done|done|]. set_solver. }
  case_decide; [by destruct (Hclose o2 Hok2 Hf2) as (o3 & -> & ? & ?)|].
  destruct (sys_status_ok o2 Hok2) as (r' & o3 & -> & Hok3 & Hf3 & _). rewrite Hf2 in Hf3.
  case_decide; [by destruct (Hclose o3 Hok3 Hf3) as (o4 & -> & ? & ?)|].
  destruct (sys_open_ok o3 Hok3) as (cfd & o4 & -> & [Hok4 Hop4] & Hc).
  destruct Hc as [->|Hc].
  { rewrite decide_False in Hop4 by lia. destruct (Hclose o4 Hok4) as (o5 & -> & ? & ?); [congruence|]. done. }
  rewrite decide_True in Hop4 by lia. destruct Hop4 as [Hnew4 Hopen4].
  destruct (sys_close_ok lfd o4) as (o5 & -> & Hok5 & Hf5); [done|set_solver|].
  rewrite decide_False by lia. change ((mret cfd : stateM Os Z) o5) with (Ok cfd, o5). cbn [fst snd].
  unfold opens. rewrite decide_True by lia.
  rewrite Hopen4, Hf3, Hopen in Hf5. rewrite Hf3, Hopen in Hnew4.
  destruct (swap_fd (open_fds o) lfd cfd Hnew Hnew4) as [Hc1 Hc2].
  split_and!; [done|done|congruence|]. intros x [= <-]. lia.
Qed.

(** ** Ownership of descriptors *)

Definition owns (objs : gmap nat Z) (fd : Z) : Prop := (0 ≤ fd)%Z ∧ ∃ l, objs !! l = Some fd.

(** Every open descriptor belongs to exactly one live object. *)
Record sockets_ok (s : Sockets) : Prop := {
  so_os : os_ok (sys s);
  so_open : ∀ fd, fd ∈ open_fds (sys s) ↔ owns (objects s) fd;
  so_unique : ∀ l l' fd, (0 ≤ fd)%Z → objects s !! l = Some fd → objects s !! l' = Some fd → l = l';
}.

Lemma sockets_ok_empty o : os_ok o → open_fds o = ∅ → sockets_ok (mkSockets o ∅).
Proof.
  intros Ho Hemp. split; simpl; [done| |]; [|by intros l l' fd _ ?%lookup_empty_Some].
  intros fd. rewrite Hemp. split; [by intros ?%not_elem_of_empty|by intros [_ [l ?%lookup_empty_Some]]].
Qed.

(** The steps of a program that uses [TcpSocket] objects through the class. *)
Inductive sock_step : Sockets → Sockets → Prop :=
| step_default s l : objects s !! l = None → sock_step s (set_fd l (-1) s).2
| step_connect s l resolve host port : objects s !! l = None →
    sock_step s (sock_init l (connect_to resolve host port) s).2
| step_accept s l port : objects s !! l = None → sock_step s (sock_init l (accept_once port) s).2
| step_move s l other : objects s !! l = None → is_Some (objects s !! other) →
    sock_step s (sock_move l other s).2
| step_assign s this other : is_Some (objects s !! this) → is_Some (objects s !! other) →
    sock_step s (sock_assign this other s).2
| step_destroy s l : is_Some (objects s !! l) → sock_step s (sock_destroy l s).2.

(** A new object takes over the descriptor a call returned. *)
Lemma sockets_ok_init s l m :
  sockets_ok s → objects s !! l = None →
  (opens (sys s) (m (sys s)).1 (m (sys s)).2 ∧ ∀ fd, (m (sys s)).1 = Ok fd → (0 ≤ fd)%Z) →
  sockets_ok (sock_init l m s).2.
Proof.
  intros [Ho Hop Hu] Hl [[Hok Hopens] Hpos]. unfold sock_init, on_sys, mbind, stateM_bind.
  destruct (m (sys s)) as [[fd|e|] o]; cbn [fst snd] in *.
  2, 3: split; simpl; [done| |done]; intros fd; rewrite Hopens; apply Hop.
  specialize (Hpos fd eq_refl). rewrite decide_True in Hopens by done. destruct Hopens as [Hnew Hopen].
  split; cbn [set_fd modify snd sys objects]; [done|..].
  - intros x. rewrite Hopen, elem_of_union, elem_of_singleton, Hop. unfold owns. split.
    + intros [->|[Hx [k Hk]]]; [split; [done|exists l; apply lookup_insert_eq]|].
      split; [done|]. exists k. rewrite lookup_insert_ne by congruence. done.
    + intros [Hx [k [[<- ->]|[_ Hk]]%lookup_insert_Some]]; [by left|right; split; [done|by exists k]].
  - assert (∀ k, objects s !! k ≠ Some fd) as Hno
      by (intros k Hk; apply Hnew, Hop; split; [done|by exists k]).
    intros k k' x Hx. rewrite !lookup_insert. repeat case_decide; naive_solver.
Qed.

(** Moving the descriptor of [other] to [l], whose own is closed or negative. *)
Lemma sockets_ok_transfer s l other :
  sockets_ok s → l ≠ other → (fd_ s l < 0)%Z → is_Some (objects s !! other) →
  sockets_ok (mkSockets (sys s) (<[other := (-1)%Z]> (<[l := fd_ s other]> (objects s)))).
Proof.
  intros [Ho Hop Hu] Hne Hl [x Hx].
  assert (fd_ s other = x) as Hfd by (unfold fd_; by rewrite Hx). rewrite Hfd.
  assert (∀ k fd, (0 ≤ fd)%Z → objects s !! k = Some fd → k ≠ l) as Hnl.
  { intros k fd Hpos Hk ->. unfold fd_ in Hl. rewrite Hk in Hl. simpl in Hl. lia. }
  split; simpl; [done|..].
  - intros fd. rewrite Hop. unfold owns. split; intros [Hpos [k Hk]]; (split; [done|]).
    + destruct (decide (k = other)) as [->|Hk'].
      * exists l. rewrite lookup_insert_ne, lookup_insert_eq by done. congruence.
      * exists k. rewrite lookup_insert_ne by done. rewrite lookup_insert_ne; [done|].
        intros <-. by apply (Hnl l fd).
    + apply lookup_insert_Some in Hk as [[_ <-]|[Hk1 Hk]]; [lia|].
      apply lookup_insert_Some in Hk as [[_ <-]|[_ Hk]]; [by exists other|by exists k].
  - intros k k' fd Hpos. rewrite !lookup_insert.
    repeat case_decide; intros; simplify_eq; try done; try lia.
    + assert (k' = other) by (by eapply Hu). congruence.
    + assert (k = other) by (by eapply Hu). congruence.
    + by eapply Hu.
Qed.

(** Closing the descriptor of [l] and resetting the object. *)
Lemma close_if_open_ok s l :
  sockets_ok s →
  ∃ s', close_if_open l s = (Ok tt, s') ∧ objects s' = objects s ∧ bad_close (sys s') = false ∧
    sockets_ok (mkSockets (sys s') (delete l (objects s))) ∧
    sockets_ok (mkSockets (sys s') (<[l := (-1)%Z]> (objects s))).
Proof.
  intros [Ho Hop Hu]. unfold close_if_open. rewrite (bind_ok _ _ _ s s) by done.
  assert (∀ o', os_ok o' →
    (∀ fd, fd ∈ open_fds o' ↔ owns (objects s) fd ∧ fd ≠ fd_ s l) →
    sockets_ok (mkSockets o' (delete l (objects s))) ∧ sockets_ok (mkSockets o' (<[l := (-1)%Z]> (objects s))))
    as Hfin.
  { intros o' Hok Ho'.
    assert (∀ fd, fd ∈ open_fds o' ↔ (0 ≤ fd)%Z ∧ ∃ k, k ≠ l ∧ objects s !! k = Some fd) as Hopen.
    { intros fd. rewrite Ho'. unfold owns, fd_. split.
      - intros [[Hpos [k Hk]] Hne]. split; [done|]. exists k. split; [|done]. intros ->.
        rewrite Hk in Hne. done.
      - intros [Hpos (k & Hkl & Hk)]. split; [split; [done|by exists k]|].
        intros ->. destruct (objects s !! l) as [x|] eqn:E; simpl in *; [|lia].
        apply Hkl. by apply (Hu k l x). }
    split; split; simpl; try done.
    - intros fd. rewrite Hopen. unfold owns. setoid_rewrite lookup_delete_Some. naive_solver.
    - intros k k' fd Hpos [_ Hk]%lookup_delete_Some [_ Hk']%lookup_delete_Some. by eapply Hu.
    - intros fd. rewrite Hopen. unfold owns. setoid_rewrite lookup_insert_Some. split.
      + intros [Hpos (k & Hkl & Hk)]. split; [done|]. exists k. right. done.
      + intros [Hpos [k [[_ <-]|[Hkl Hk]]]]; [lia|]. split; [done|]. by exists k.
    - intros k k' fd Hpos. rewrite !lookup_insert_Some. naive_solver lia. }
  case_decide as Hfd.
  - assert (owns (objects s) (fd_ s l)) as Hown.
    { split; [done|]. exists l. unfold fd_ in *. by destruct (objects s !! l). }
    destruct (sys_close_ok (fd_ s l) (sys s) Ho) as (o' & Hc & Hok & Hf); [by apply Hop|].
    eexists. unfold on_sys. rewrite Hc. split_and!; [done|done|apply Hok|..]; cbn [sys];
      apply Hfin; try done; intros fd; rewrite Hf, elem_of_difference, elem_of_singleton, Hop; done.
  - exists s. split_and!; [done|done|apply Ho|..]; apply Hfin; try done; intros fd; rewrite Hop;
      (split; [intros [Hpos ?]; split; [done|lia]|tauto]).
Qed.

Lemma sock_step_ok s s' : sock_step s s' → sockets_ok s → sockets_ok s'.
Proof.
  intros [s0 l Hl|s0 l resolve host port Hl|s0 l port Hl|s0 l other Hl Hother|s0 this other Hthis Hother|s0 l Hl] Hs.
  - pose proof Hs as [Ho Hop Hu]. split; simpl; [done|..].
    + intros fd. rewrite Hop. unfold owns. setoid_rewrite lookup_insert_Some. split.
      * intros [Hpos [k Hk]]. split; [done|]. exists k. right. split; [congruence|done].
      * intros [Hpos [k [[_ <-]|[_ Hk]]]]; [lia|by split; [|exists k]].
    + intros k k' fd Hpos. rewrite !lookup_insert_Some. naive_solver lia.
  - apply sockets_ok_init; [done|done|]. apply connect_to_ok, Hs.
  - apply sockets_ok_init; [done|done|]. apply accept_once_ok, Hs.
  - refine (sockets_ok_transfer s0 l other Hs _ _ Hother).
    + intros ->. rewrite Hl in Hother. by destruct Hother.
    + unfold fd_. rewrite Hl. simpl. lia.
  - unfold sock_assign. case_decide as Hne; [done|].
    destruct (close_if_open_ok s0 this Hs) as (s1 & Hc & Hobj & _ & _ & Hins).
    rewrite (bind_ok _ _ _ _ _ Hc). rewrite (bind_ok _ _ _ s1 s1) by done.
    destruct (objects s0 !! other) as [x|] eqn:Hx; [|by destruct Hother].
    pose proof (sockets_ok_transfer _ this other Hins Hne) as Ht. simpl in Ht.
    unfold fd_ in *; simpl in *. rewrite lookup_insert_eq, lookup_insert_ne in Ht by done.
    rewrite insert_insert_eq in Ht. rewrite Hobj, Hx in *. simpl in *. apply Ht; [lia|done].
  - destruct (close_if_open_ok s0 l Hs) as (s1 & Hc & Hobj & _ & Hdel & _).
    unfold sock_destroy. rewrite (bind_ok _ _ _ _ _ Hc). simpl. by rewrite Hobj.
Qed.

(** ** Properties *)

(** C25: No descriptor is leaked or closed twice.  However a program constructs,
    connects, accepts, moves, assigns and destroys [TcpSocket] objects, and
    whichever of the system calls fail, the open descriptors are exactly those
    of the live objects, each owned by one of them, and only open descriptors
    are ever closed; once every object is destroyed none is open. *)
Theorem no_descriptor_leak o s :
  os_ok o → open_fds o = ∅ → rtc sock_step (mkSockets o ∅) s →
  (∀ fd, fd ∈ open_fds (sys s) ↔ owns (objects s) fd) ∧
  (∀ l l' fd, (0 ≤ fd)%Z → objects s !! l = Some fd → objects s !! l' = Some fd → l = l') ∧
  bad_close (sys s) = false ∧ (objects s = ∅ → open_fds (sys s) = ∅).
Proof.
  intros Ho Hemp Hsteps. pose proof (sockets_ok_empty o Ho Hemp) as H0.
  assert (sockets_ok s) as [Hok Hop Hu].
  { revert H0. induction Hsteps as [|s0 s1 s2 Hstep _ IH]; [done|]. intros H0. by eapply IH, sock_step_ok. }
  split_and!; [done|done|apply Hok|]. intros Hobj. apply set_eq. intros fd. rewrite Hop, Hobj.
  split; [by intros [_ [l ?%lookup_empty_Some]]|by intros ?%not_elem_of_empty].
Qed.

(** A system whose second call, the first [connect], fails. *)
Definition sample_os : Os := mkOs [true; false] 3 ∅ false [] [].
Definition sample_resolve (host port : bytes) : option (list bytes) := Some [str "::1"; str "127.0.0.1"].

Lemma no_descriptor_leak_witness :
  let s := (sock_assign 2 1 (sock_init 2 (accept_once 9001)
    (sock_init 1 (connect_to sample_resolve (str "localhost") 9001) (mkSockets sample_os ∅)).2).2).2 in
  objects s = {[ 1 := (-1)%Z; 2 := 4%Z ]} ∧ ∀ fd, fd ∈ open_fds (sys s) ↔ owns (objects s) fd.
Proof.
  split; [vm_compute; reflexivity|].
  refine (proj1 (no_descriptor_leak sample_os _ _ _ _)).
  - split; [done|split; [reflexivity|]]. by intros fd ?%not_elem_of_empty.
  - reflexivity.
  - eapply rtc_l; [apply (step_connect (mkSockets sample_os ∅) 1 sample_resolve (str "localhost") 9001); reflexivity|].
    eapply rtc_l; [apply (step_accept _ 2 9001); vm_compute; reflexivity|].
    apply rtc_once, (step_assign _ 2 1); vm_compute; by eexists.
Defined.

(** [connect_to] connects to the first address of the host that answers: it
    calls [connect] on addresses in the order of the resolver, returns a fresh
    open descriptor as soon as one succeeds, closes those that failed, and
    otherwise throws the error that names host and port with nothing left open. *)
Theorem connect_to_first_reachable resolve host port o addrs :
  os_ok o → resolve host (to_string_int port) = Some addrs → addrs ≠ [] →
  (∃ fd o' pre a post skipped, connect_to resolve host port o = (Ok fd, o') ∧ (0 ≤ fd)%Z ∧
     addrs = pre ++ a :: post ∧ skipped `sublist_of` pre ∧ dialed o' = dialed o ++ skipped ++ [a] ∧
     fd ∉ open_fds o ∧ open_fds o' = {[fd]} ∪ open_fds o) ∨
  (∃ o' tried, connect_to resolve host port o =
       (Throw (runtime_error (str "failed to connect to " ++ host ++ str ":" ++ to_string_int port)), o') ∧
     tried `sublist_of` addrs ∧ dialed o' = dialed o ++ tried ∧ open_fds o' = open_fds o).
Proof.
  intros Ho Hres Hne. unfold connect_to. rewrite Hres. destruct addrs as [|x addrs]; [done|].
  destruct (connect_loop_ok (x :: addrs) o (-1) Ho ltac:(lia)) as (fd & o' & tried & H & [Hok Hop] & Hd & Ht).
  rewrite (bind_ok _ _ _ _ _ H). destruct (decide (0 ≤ fd)%Z) as [Hfd|Hfd].
  - left. rewrite decide_False by lia. destruct Ht as (pre & a & post & sk & Ha & -> & Hs).
    destruct Hop as [Hn Hf]. exists fd, o', pre, a, post, sk. by split_and!.
  - right. rewrite decide_True by lia. by exists o', tried.
Qed.

Lemma connect_to_first_reachable_witness :
  ∃ fd o', connect_to sample_resolve (str "localhost") 9001 sample_os = (Ok fd, o') ∧
    dialed o' = [str "::1"; str "127.0.0.1"] ∧ open_fds o' = {[fd]} ∪ open_fds sample_os.
Proof.
  assert (∀ s, (connect_to sample_resolve (str "localhost") 9001 sample_os).1 ≠ Throw s) as Hok
    by (intros s; vm_compute; discriminate).
  assert (dialed (connect_to sample_resolve (str "localhost") 9001 sample_os).2 = [str "::1"; str "127.0.0.1"])
    as Hdial by (vm_compute; reflexivity).
  destruct (connect_to_first_reachable sample_resolve (str "localhost") 9001 sample_os [str "::1"; str "127.0.0.1"])
    as [(fd & o' & pre & a & post & sk & H & _ & _ & _ & _ & _ & Hf)|(o' & tried & H & _)].
  - split; [done|split; [reflexivity|]]. by intros fd ?%not_elem_of_empty.
  - reflexivity.
  - discriminate.
  - exists fd, o'. rewrite H in Hdial. split; [exact H|split; [exact Hdial|exact Hf]].
  - rewrite H in Hok. destruct (Hok _ eq_refl).
Defined.
