(* ===== verification/Node.v ===== *)
(** * Node: one participant ([node.hpp], [node.cpp])

    A node forwards to its engine; to sync, it obtains a [TcpSocket], runs the
    session on it, and the destructor closes it on every path. *)
From S2P Require Import Prelude Text VectorClock Sha256 Chunker FileEntry CrdtStore EntryCodec Fs FileStore SyncEngine Frames Messages Network Socket.

(** [class Node] with what surrounds it: the world its engine runs in, the
    process's sockets, and the byte streams of the connection that [connect_to]
    or [accept_once] will yield. *)
Record Node := mkNode { engine_ : World; sockets_ : Sockets; net_ : Conn }.

Definition on_engine {A} (m : stateM World A) : stateM Node A := λ n,
  let '(r, w) := m (engine_ n) in (r, mkNode w (sockets_ n) (net_ n)).

Definition add_file (logical_path source_path : bytes) : stateM Node unit :=
  on_engine (
    let! w := get_state in
    match read_file (disk w) source_path with
    | None => lift (Throw (runtime_error (str "cannot open source file: " ++ source_path)))
    | Some b => ingest_file logical_path b ;! mret tt
    end).

Definition remove_file (logical_path : bytes) : stateM Node unit :=
  on_engine (delete_file logical_path).

(** What [list_files] prints for one entry. *)
Definition list_line (e : FileEntry) : bytes :=
  if deleted e then
    str "  [deleted]  " ++ path e ++ str "  clock=" ++ to_string (clock e) ++ [newline]
  else
    str "  " ++ path e ++ str "  (" ++ to_dec (size e) ++ str " bytes, "
      ++ size_text (chunk_hashes e) ++ str " chunks)  clock="
      ++ to_string (clock e) ++ str "  last_writer=" ++ last_writer e ++ [newline].

Definition list_files : stateM Node unit :=
  on_engine (λ w, cout (concat (map list_line (all_entries (store_of w)))) w).

(** [TcpSocket sock = m; before; return run_sync_session(sock, engine_);]: the
    object lives at the place 0 of the process and is destroyed when the block is
    left, by a return or by an exception; if a signal kills the process, the system closes
    its descriptor. *)
Definition session_on (m : stateM Os Z) (before : stateM World unit) : stateM Node SyncStats := λ n,
  match sock_init 0 m (sockets_ n) with
  | (Ok _, ss) =>
      let '(r, p) := (on_world before ;! run_sync_session) (mkPeer (engine_ n) (net_ n)) in
      let '(_, ss) := sock_destroy 0 ss in
      (r, mkNode (world p) ss (conn p))
  | (Throw e, ss) => (Throw e, mkNode (engine_ n) ss (net_ n))
  | (UB, ss) => (UB, mkNode (engine_ n) ss (net_ n))
  end.

Definition sync_with (resolve : bytes → bytes → option (list bytes)) (host : bytes) (port : Z)
    : stateM Node SyncStats :=
  session_on (connect_to resolve host port) (mret tt).

Definition listen_and_sync (port : Z) : stateM Node SyncStats :=
  let! n := get_state in
  let tag := str "[" ++ engine_id (engine (engine_ n)) ++ str "] " in
  on_engine (cout (tag ++ str "listening on port " ++ to_string_int port ++ str " ..." ++ [newline])) ;!
  session_on (accept_once port) (cout (tag ++ str "peer connected, syncing..." ++ [newline])).

(** ** The socket of a session *)

(** The objects determine the open descriptors. *)
Lemma sockets_ok_open s s' :
  sockets_ok s → sockets_ok s' → objects s = objects s' → open_fds (sys s) = open_fds (sys s').
Proof.
  intros Hs Hs' Ho. apply set_eq. intros fd. by rewrite (so_open _ Hs), (so_open _ Hs'), Ho.
Qed.

Lemma sock_destroy_ok s l :
  sockets_ok s → ∃ s', sock_destroy l s = (Ok tt, s') ∧ sockets_ok s' ∧ objects s' = delete l (objects s).
Proof.
  intros Hs. destruct (close_if_open_ok s l Hs) as (s1 & Hc & Hobj & _ & Hdel & _).
  unfold sock_destroy. rewrite (bind_ok _ _ _ _ _ Hc). eexists. split; [done|]. simpl. by rewrite Hobj.
Qed.

(** What [connect_to] and [accept_once] promise to their caller. *)
Definition yields_socket (o : Os) (m : stateM Os Z) : Prop :=
  opens o (m o).1 (m o).2 ∧ ∀ fd, (m o).1 = Ok fd → (0 ≤ fd)%Z.

Definition same_sockets (n n' : Node) : Prop :=
  sockets_ok (sockets_ n') ∧ objects (sockets_ n') = objects (sockets_ n) ∧
  open_fds (sys (sockets_ n')) = open_fds (sys (sockets_ n)).

Lemma sock_init_run l m s :
  sock_init l m s = match m (sys s) with
                    | (Ok fd, o) => (Ok tt, mkSockets o (<[l := fd]> (objects s)))
                    | (Throw e, o) => (Throw e, mkSockets o (objects s))
                    | (UB, o) => (UB, mkSockets o (objects s))
                    end.
Proof. unfold sock_init, on_sys, mbind, stateM_bind. by destruct (m (sys s)) as [[fd|e|] o]. Qed.

Lemma session_on_sockets m before n :
  sockets_ok (sockets_ n) → objects (sockets_ n) !! 0 = None →
  yields_socket (sys (sockets_ n)) m → same_sockets n (session_on m before n).2.
Proof.
  intros Hs H0 Hm. pose proof (sockets_ok_init _ 0 m Hs H0 Hm) as Hi.
  assert (∀ ss, sockets_ok ss → objects ss = objects (sockets_ n) →
    same_sockets n (mkNode (engine_ n) ss (net_ n))) as Hfin.
  { intros ss Hss Ho. split; [done|]. split; [done|]. by apply sockets_ok_open. }
  unfold session_on. rewrite sock_init_run in *. destruct (m (sys (sockets_ n))) as [[fd|e|] o]; [|by apply Hfin..].
  cbn [fst snd] in Hi. destruct ((on_world before ;! run_sync_session) _) as [r p].
  destruct (sock_destroy_ok _ 0 Hi) as (s' & -> & Hs' & Ho). cbn [objects] in Ho.
  rewrite delete_insert_id in Ho by done. exact (Hfin s' Hs' Ho).
Qed.

(** The session proper, once there is a connection. *)
Lemma session_on_run m before n fd o :
  m (sys (sockets_ n)) = (Ok fd, o) →
  let res := (on_world before ;! run_sync_session) (mkPeer (engine_ n) (net_ n)) in
  (session_on m before n).1 = res.1 ∧ engine_ (session_on m before n).2 = world res.2 ∧
  net_ (session_on m before n).2 = conn res.2.
Proof.
  intros Hm. unfold session_on. rewrite sock_init_run, Hm. cbv zeta.
  destruct ((on_world before ;! run_sync_session) _) as [r p]. by destruct (sock_destroy 0 _) as [? ss].
Qed.

(** ** A session between two nodes *)

Lemma node_ready_out w o : node_ready w → node_ready (mkWorld (engine w) (disk w) o).
Proof. intros [[W R I S H J F] ? ? ? ?]. split; [by split|done..]. Qed.

(** What one side needs of the other, and of its connection. *)
Record can_sync (a b : World) (c : Conn) : Prop := {
  cs_agree : agree a b;
  cs_paths : syncable a (all_entries (store_of b));
  cs_fit : messages_fit a b;
  cs_willing : willing c;
  cs_in : delivers c (transcript b (all_entries (store_of a)) (request_of a (all_entries (store_of b))));
}.

(** What it has done then: [w] is its world, [c'] its connection. *)
Record synced (a b : World) (c : Conn) (w : World) (c' : Conn) : Prop := {
  sy_out : outbox c' =
    outbox c ++ transcript a (all_entries (store_of b)) (request_of b (all_entries (store_of a)));
  sy_store : store_of w = merge_all (store_of a) (all_entries (store_of b));
  sy_ok : engine_ok w;
  sy_journal : files (disk w) !! journal_path (engine a) = Some (journal_text (store_of w));
  sy_received : received a b w;
}.

Lemma node_session a b m before o n fd os :
  node_ready a → node_ready b → can_sync a b (net_ n) →
  engine_ n = mkWorld (engine a) (disk a) o → (∃ o', before (engine_ n) = (Ok tt, mkWorld (engine a) (disk a) o')) →
  m (sys (sockets_ n)) = (Ok fd, os) →
  ∃ st n', session_on m before n = (Ok st, n') ∧ synced a b (net_ n) (engine_ n') (net_ n').
Proof.
  intros Ha Hb [H1 H2 H3 H4 H5] Hn [o' Hbef] Hm.
  destruct (sync_one_side (mkWorld (engine a) (disk a) o') b (net_ n)) as (a' & st & c' & Hrun & G1 & G2 & G3 & G4 & G5);
    [by apply node_ready_out|done..|].
  destruct (session_on_run m before n fd os Hm) as (R1 & R2 & R3).
  rewrite (bind_ok _ _ _ _ _ (on_world_ok _ _ _ _ _ Hbef)), Hrun in R1, R2, R3. cbn [fst snd world conn] in R1, R2, R3.
  exists st. destruct (session_on m before n) as [r n']. cbn [fst snd] in *. exists n'. subst r. split; [done|].
  rewrite R2, R3. by split.
Qed.

(** ** Properties *)

(** C26: A session releases its socket.  However [sync_with] and [listen_and_sync]
    end (the connection fails, the peer disappears half way, the session
    completes), the process has afterwards exactly the sockets and open descriptors it
    had before; and when no connection comes about, the error is passed on and
    the node's engine, disk and connection are untouched. *)
Theorem session_releases_socket resolve host port n :
  sockets_ok (sockets_ n) → objects (sockets_ n) !! 0 = None →
  same_sockets n (sync_with resolve host port n).2 ∧
  same_sockets n (listen_and_sync port n).2 ∧
  ∀ e, (connect_to resolve host port (sys (sockets_ n))).1 = Throw e →
    (sync_with resolve host port n).1 = Throw e ∧
    engine_ (sync_with resolve host port n).2 = engine_ n ∧ net_ (sync_with resolve host port n).2 = net_ n.
Proof.
  intros Hs H0. split_and!.
  - apply session_on_sockets; [done|done|]. apply connect_to_ok, Hs.
  - unfold listen_and_sync. rewrite (bind_ok _ _ _ n n) by done. cbv zeta.
    erewrite bind_ok by done. apply (session_on_sockets _ _ (mkNode _ (sockets_ n) _)); [done|done|].
    apply accept_once_ok, Hs.
  - intros e He. unfold sync_with, session_on. rewrite sock_init_run.
    destruct (connect_to _ _ _ _) as [r o]. cbn [fst] in He. by subst r.
Qed.

(** A node that is not connected yet, and whose system refuses every connection. *)
Definition sample_alone : Node := mkNode sample_node (mkSockets (mkOs [true; false] 3 ∅ false [] []) ∅) (drip []).

Lemma session_releases_socket_witness :
  (sync_with (λ _ _, Some [str "127.0.0.1"]) (str "localhost") 9001 sample_alone).1 =
    Throw (runtime_error (str "failed to connect to localhost:9001")) ∧
  open_fds (sys (sockets_ (sync_with (λ _ _, Some [str "127.0.0.1"]) (str "localhost") 9001 sample_alone).2)) = ∅ ∧
  open_fds (sys (sockets_ (listen_and_sync 9001 sample_alone).2)) = ∅.
Proof.
  destruct (session_releases_socket (λ _ _, Some [str "127.0.0.1"]) (str "localhost") 9001 sample_alone)
    as ((_ & _ & H1) & (_ & _ & H2) & H3).
  - apply sockets_ok_empty; [|reflexivity]. split; [done|split; [reflexivity|by intros fd ?%not_elem_of_empty]].
  - reflexivity.
  - split; [apply H3; vm_compute; reflexivity|split; [exact H1|exact H2]].
Defined.
