(* ===== verification/Cli.v ===== *)
(** * Cli: the command line ([main.cpp])

    A process is what it shares with its surroundings: the disk, the two output
    streams, its sockets and the bytes of its connection.  [main] reads the
    arguments, constructs a node, dispatches, and turns exceptions into an error
    message and exit code 1.  The theorems cover the arguments, every way a run can
    end, two runs that meet on one disk, and two that meet over a connection. *)
From S2P Require Import Prelude Text VectorClock Sha256 Chunker FileEntry CrdtStore EntryCodec Fs FileStore SyncEngine Frames Messages Network Socket Node.

(** What [print_usage] prints. *)
Definition usage_text : bytes := unlines newline [
  str "Usage: syncnode --id <node_id> --data <data_dir> <command> [args]"; [];
  str "Commands:";
  str "  add <logical_path> <source_file>   Ingest a real file into the sync engine";
  str "  rm  <logical_path>                 Tombstone (delete) a tracked path";
  str "  list                                List all tracked entries and their versions";
  str "  listen --port <port>                Wait for one peer to connect and sync";
  str "  sync  --host <host> --port <port>   Connect to a peer and sync"; [];
  str "Example (two terminals, simulating two offline-then-reconnecting nodes):";
  str "  syncnode --id A --data ./dataA add notes.txt ./notes.txt";
  str "  syncnode --id A --data ./dataA listen --port 9001";
  str "  syncnode --id B --data ./dataB add notes.txt ./notes_editedB.txt";
  str "  syncnode --id B --data ./dataB sync --host 127.0.0.1 --port 9001"].

(** ** Arguments *)

(** [for (size_t i = 0; i + 1 < args.size(); ++i)] *)
Fixpoint arg_value (args : list bytes) (flag : bytes) : bytes :=
  match args with
  | a :: ((v :: _) as args) => if decide (a = flag) then v else arg_value args flag
  | _ => []
  end.

Definition is_flag (a : bytes) : bool :=
  bool_decide (a = str "--id") || bool_decide (a = str "--data")
  || bool_decide (a = str "--host") || bool_decide (a = str "--port").

(** The loop that separates the command and its arguments from the flags. *)
Fixpoint parse_words (args : list bytes) (command : bytes) (rest : list bytes) : bytes * list bytes :=
  match args with
  | [] => (command, rest)
  | a :: args =>
      if is_flag a then
        match args with
        | [] => (command, rest)
        | _ :: args => parse_words args command rest
        end
      else if decide (command = []) then parse_words args a rest
      else parse_words args command (rest ++ [a])
  end.

(** ** The program *)

(** What [print_stats] prints. *)
Definition stats_text (s : SyncStats) : bytes := unlines newline [
  str "--- sync complete ---";
  str "  entries sent:            " ++ to_string_int (entries_sent s);
  str "  applied from remote:     " ++ to_string_int (entries_applied_remote s);
  str "  kept local (we're newer):" ++ to_string_int (entries_kept_local s);
  str "  already in sync:         " ++ to_string_int (entries_no_change s);
  str "  conflicts forked:        " ++ to_string_int (conflicts_forked s);
  str "  chunks fetched:          " ++ to_string_int (chunks_fetched s)].

(** A process: what it shares with its surroundings.  The node exists while
    [main] runs. *)
Record Shell := mkShell {
  sh_disk : fs; sh_out : bytes; sh_err : bytes; sh_sockets : Sockets; sh_net : Conn;
}.

(** The command runs on the node and the error stream. *)
Record Run := mkRun { run_node : Node; run_err : bytes }.
Definition on_node {A} (m : stateM Node A) : stateM Run A := λ r,
  let '(x, n) := m (run_node r) in (x, mkRun n (run_err r)).
Definition out (msg : bytes) : stateM Run unit := on_node (on_engine (cout msg)).
Definition cerr (msg : bytes) : stateM Run unit := modify (λ r, mkRun (run_node r) (run_err r ++ msg)).

Section Program.
(** [getaddrinfo], and the texts [what()] gives for the exceptions of the standard
    library. *)
Context (resolve : bytes → bytes → option (list bytes)) (lib_what : exn → bytes).

Definition what (e : exn) : bytes := match e with runtime_error msg => msg | _ => lib_what e end.

(** The body of the [try] block, after the node's construction: the exit code. *)
Definition run_command (args : list bytes) (command : bytes) (rest : list bytes) : stateM Run Z :=
  if decide (command = str "add") then
    match rest with
    | logical :: source :: _ =>
        on_node (add_file logical source) ;!
        out (str "added " ++ logical ++ [newline]) ;! mret 0%Z
    | _ => cerr (str "usage: add <logical_path> <source_file>" ++ [newline]) ;! mret 1%Z
    end
  else if decide (command = str "rm") then
    match rest with
    | logical :: _ =>
        on_node (remove_file logical) ;!
        out (str "removed " ++ logical ++ [newline]) ;! mret 0%Z
    | [] => cerr (str "usage: rm <logical_path>" ++ [newline]) ;! mret 1%Z
    end
  else if decide (command = str "list") then on_node list_files ;! mret 0%Z
  else if decide (command = str "listen") then
    let port_s := arg_value args (str "--port") in
    if decide (port_s = []) then cerr (str "usage: listen --port <port>" ++ [newline]) ;! mret 1%Z
    else
      let! port := lift (stoi 10 port_s) in
      let! stats := on_node (listen_and_sync port) in
      out (stats_text stats) ;! mret 0%Z
  else if decide (command = str "sync") then
    let host := arg_value args (str "--host") in
    let port_s := arg_value args (str "--port") in
    if decide (host = [] ∨ port_s = []) then
      cerr (str "usage: sync --host <host> --port <port>" ++ [newline]) ;! mret 1%Z
    else
      let! port := lift (stoi 10 port_s) in
      let! stats := on_node (sync_with resolve host port) in
      out (stats_text stats) ;! mret 0%Z
  else out usage_text ;! mret 1%Z.

(** The process after the node is gone. *)
Definition shell_of (r : Run) : Shell :=
  mkShell (disk (engine_ (run_node r))) (stdout (engine_ (run_node r))) (run_err r)
    (sockets_ (run_node r)) (net_ (run_node r)).

(** [main].  The signal of a broken connection ends the process in the middle of its command, with no exit
    code; the system closes its sockets. *)
Definition main (args : list bytes) : stateM Shell Z := λ sh,
  let print_usage (sh : Shell) :=
    mkShell (sh_disk sh) (sh_out sh ++ usage_text) (sh_err sh) (sh_sockets sh) (sh_net sh) in
  let print_error (msg : bytes) (sh : Shell) :=
    mkShell (sh_disk sh) (sh_out sh) (sh_err sh ++ msg) (sh_sockets sh) (sh_net sh) in
  match args with
  | [] => (Ok 1%Z, print_usage sh)
  | _ =>
      let node_id := arg_value args (str "--id") in
      let data_dir := arg_value args (str "--data") in
      if decide (node_id = [] ∨ data_dir = []) then
        (Ok 1%Z, print_usage (print_error (str "error: --id and --data are required" ++ [newline; newline]) sh))
      else
        let '(command, rest) := parse_words args [] [] in
        let caught (e : exn) (sh : Shell) :=
          (Ok 1%Z, print_error (str "error: " ++ what e ++ [newline]) sh) in
        match new_engine node_id data_dir (sh_disk sh) with
        | (Throw e, f) => caught e (mkShell f (sh_out sh) (sh_err sh) (sh_sockets sh) (sh_net sh))
        | (UB, f) => (UB, mkShell f (sh_out sh) (sh_err sh) (sh_sockets sh) (sh_net sh))
        | (Ok eng, f) =>
            let r0 := mkRun (mkNode (mkWorld eng f (sh_out sh)) (sh_sockets sh) (sh_net sh)) (sh_err sh) in
            match run_command args command rest r0 with
            | (Ok code, r) => (Ok code, shell_of r)
            | (Throw e, r) => if decide (e = sigpipe) then (Throw e, shell_of r) else caught e (shell_of r)
            | (UB, r) => (UB, shell_of r)
            end
        end
  end.
End Program.

(** ** Command lines *)

(** What a user means: options with their values, and words. *)
Inductive token := Opt (flag value : bytes) | Word (w : bytes).

Definition render_token (t : token) : list bytes :=
  match t with Opt f v => [f; v] | Word w => [w] end.
Definition render (ts : list token) : list bytes := concat (map render_token ts).

Definition words_of (ts : list token) : list bytes :=
  omap (λ t, match t with Word w => Some w | _ => None end) ts.

(** The value of the first option of that name. *)
Fixpoint value_of (flag : bytes) (ts : list token) : bytes :=
  match ts with
  | [] => []
  | Opt f v :: ts => if decide (f = flag) then v else value_of flag ts
  | Word _ :: ts => value_of flag ts
  end.

(** Neither a value nor a word is the name of an option. *)
Definition token_ok (t : token) : Prop :=
  match t with
  | Opt f v => is_flag f = true ∧ is_flag v = false
  | Word w => is_flag w = false ∧ w ≠ []
  end.
#[export] Instance token_ok_dec t : Decision (token_ok t).
Proof. destruct t; simpl; apply _. Defined.

Lemma arg_value_skip a args flag : a ≠ flag → arg_value (a :: args) flag = arg_value args flag.
Proof. intros Ha. destruct args as [|v args]; [done|]. simpl. by rewrite decide_False. Qed.

Lemma not_flag a flag : is_flag a = false → is_flag flag = true → a ≠ flag.
Proof. by intros H1 H2 ->; rewrite H1 in H2. Qed.

Lemma arg_value_render ts flag :
  Forall token_ok ts → is_flag flag = true → arg_value (render ts) flag = value_of flag ts.
Proof.
  intros Hts Hf. induction Hts as [|[f v|w] ts [H1 H2] _ IH]; [done|..]; cbn [render map concat render_token app value_of].
  - simpl. case_decide; [done|]. rewrite <- IH. exact (arg_value_skip v (render ts) flag (not_flag _ _ H2 Hf)).
  - rewrite <- IH. exact (arg_value_skip w (render ts) flag (not_flag _ _ H1 Hf)).
Qed.

Lemma parse_words_found ts command rest :
  Forall token_ok ts → command ≠ [] → parse_words (render ts) command rest = (command, rest ++ words_of ts).
Proof.
  intros Hts Hc. revert rest. induction Hts as [|[f v|w] ts [H1 H2] _ IH]; intros rest.
  - simpl. by rewrite app_nil_r.
  - simpl. rewrite H1. apply IH.
  - simpl. rewrite H1, decide_False by done. rewrite IH. by rewrite <- app_assoc.
Qed.

Lemma parse_words_render ts :
  Forall token_ok ts → parse_words (render ts) [] [] =
    match words_of ts with [] => ([], []) | w :: ws => (w, ws) end.
Proof.
  induction 1 as [|[f v|w] ts [H1 H2] Hts IH]; [done|..].
  - simpl. rewrite H1. apply IH.
  - simpl. rewrite H1. by apply parse_words_found.
Qed.

(** A command line for a node, a data directory and a list of words. *)
Definition command_line (id dir : bytes) (ws : list bytes) (args : list bytes) : Prop :=
  ∃ ts, args = render ts ∧ Forall token_ok ts ∧
    value_of (str "--id") ts = id ∧ value_of (str "--data") ts = dir ∧ words_of ts = ws.

Lemma command_line_parse id dir w ws args :
  command_line id dir (w :: ws) args →
  arg_value args (str "--id") = id ∧ arg_value args (str "--data") = dir ∧
  parse_words args [] [] = (w, ws).
Proof.
  intros (ts & -> & Hts & H1 & H2 & H3). rewrite !arg_value_render, parse_words_render, H3 by done. done.
Qed.

(** ** What a run can end in *)

Lemma on_node_err {A} (m : stateM Node A) r : run_err (on_node m r).2 = run_err r.
Proof. unfold on_node. by destruct (m (run_node r)). Qed.

Lemma on_node_behaves {A} (m : stateM Node A) r : behaves (m (run_node r)).1 → behaves (on_node m r).1.
Proof. unfold on_node. by destruct (m (run_node r)) as [[] ?]. Qed.

Lemma on_engine_behaves {A} (m : stateM World A) n : behaves (m (engine_ n)).1 → behaves (on_engine m n).1.
Proof. unfold on_engine. by destruct (m (engine_ n)) as [[] ?]. Qed.

Lemma add_file_behaves p src n : behaves (add_file p src n).1.
Proof.
  apply on_engine_behaves. rewrite (bind_ok _ _ _ (engine_ n) (engine_ n)) by done.
  destruct (read_file _ src) as [b|]; [|done]. apply bind_behaves; [apply ingest_behaves|done].
Qed.

Lemma remove_file_behaves p n : behaves (remove_file p n).1.
Proof.
  apply on_engine_behaves. by destruct (delete_file_Ok (engine_ n) p) as [w' ->].
Qed.

(** A computation of [main] that writes nothing to the error stream, throws or exits with 0, and
    behaves if it is [safe]. *)
Definition quiet (safe : Prop) (r : Run) (x : outcome Z * Run) : Prop :=
  run_err x.2 = run_err r ∧ (safe → behaves x.1) ∧ ∀ code, x.1 = Ok code → code = 0%Z.

Lemma quiet_node {A} safe (m : stateM Node A) (k : A → stateM Run Z) r :
  (safe → behaves (m (run_node r)).1) →
  (∀ a r', run_err r' = run_err r → quiet safe r (k a r')) → quiet safe r (mbind k (on_node m) r).
Proof.
  intros Hm Hk. pose proof (on_node_err m r) as He.
  assert (safe → behaves (on_node m r).1) as Hu by (intros Hs; by apply on_node_behaves, Hm).
  unfold mbind, stateM_bind. destruct (on_node m r) as [[a|e|] r']; cbn [fst snd] in *; [by apply Hk|by split..].
Qed.

Lemma quiet_lift {A} safe (o : outcome A) (k : A → stateM Run Z) r :
  behaves o → (∀ a, quiet safe r (k a r)) → quiet safe r (mbind k (lift o) r).
Proof. intros Ho Hk. unfold mbind, stateM_bind, lift. destruct o; [apply Hk|by split|done]. Qed.

Lemma quiet_out safe msg r r' : run_err r' = run_err r → quiet safe r ((out msg ;! mret 0%Z) r').
Proof. intros H. split; [done|]. split; [done|]. by intros code [= <-]. Qed.

(** A run that stops early has said why. *)
Definition complains (r : Run) (x : outcome Z * Run) : Prop :=
  x.1 = Ok 1%Z ∧
  ((∃ msg, msg ≠ [] ∧ run_err x.2 = run_err r ++ msg) ∨
   ∃ o, stdout (engine_ (run_node x.2)) = o ++ usage_text).

Lemma complains_cerr msg r : msg ≠ [] → complains r ((cerr msg ;! mret 1%Z) r).
Proof. intros Hm. split; [done|]. left. by exists msg. Qed.

Definition local_command (command : bytes) : Prop := command ≠ str "listen" ∧ command ≠ str "sync".

Lemma run_command_outcome resolve args command rest r :
  complains r (run_command resolve args command rest r) ∨
  quiet (local_command command) r (run_command resolve args command rest r).
Proof.
  unfold run_command. case_decide as Ha; [|case_decide as Hr; [|case_decide; [|case_decide; [|case_decide]]]].
  - destruct rest as [|p [|src rest]]; [by left; apply complains_cerr..|]. right.
    apply quiet_node; [intros _; apply add_file_behaves|]. intros ? r'. apply quiet_out.
  - destruct rest as [|p rest]; [by left; apply complains_cerr|]. right.
    apply quiet_node; [intros _; apply remove_file_behaves|]. intros ? r'. apply quiet_out.
  - right. apply quiet_node; [intros _; done|]. intros ? r' He. split; [done|]. split; [done|]. by intros code [= <-].
  - cbv zeta. case_decide; [by left; apply complains_cerr|]. right.
    apply quiet_lift; [apply stoi_behaves|]. intros port.
    apply quiet_node; [by intros [? ?]|]. intros stats r'. apply quiet_out.
  - cbv zeta. case_decide; [by left; apply complains_cerr|]. right.
    apply quiet_lift; [apply stoi_behaves|]. intros port.
    apply quiet_node; [by intros [? ?]|]. intros stats r'. apply quiet_out.
  - left. split; [done|]. right. by eexists.
Qed.

(** ** Runs of [main] on a node that starts *)

(** The node of the process's directory, with the standard output so far. *)
Record starts (id dir : bytes) (sh : Shell) (w : World) : Prop := {
  st_engine : new_engine id dir (sh_disk sh) = (Ok (engine w), disk w);
  st_out : stdout w = sh_out sh;
  st_id : id ≠ [];
  st_home : habitable dir (sh_disk sh);
}.

Lemma starts_names id dir sh w : starts id dir sh w → engine_id (engine w) = id ∧ data_dir_ (engine w) = dir.
Proof. intros [Hn _ _ Hh]. by eapply new_engine_names. Qed.

Lemma starts_ok id dir sh w : starts id dir sh w → engine_ok w.
Proof.
  intros [Hn _ _ Hh]. pose proof (new_engine_ok _ _ _ _ _ (stdout w) Hh Hn) as H. by destruct w.
Qed.

(** [main] is its command, run on that node. *)
Lemma main_run resolve lib_what id dir sh w args command rest code r :
  starts id dir sh w → command_line id dir (command :: rest) args →
  run_command resolve args command rest (mkRun (mkNode w (sh_sockets sh) (sh_net sh)) (sh_err sh)) = (Ok code, r) →
  main resolve lib_what args sh = (Ok code, shell_of r).
Proof.
  intros [Hn Ho Hid Hh] Hc Hr. destruct (command_line_parse _ _ _ _ _ Hc) as (H1 & H2 & H3).
  unfold main. destruct args as [|a args]; [by rewrite <- H1 in Hid|].
  rewrite H1, H2, H3, Hn. rewrite decide_False by (intros [?|?]; [done|by destruct Hh]).
  rewrite <- Ho. destruct w as [eng f o]. cbn [engine disk stdout] in *. by rewrite Hr.
Qed.

(** The node's next start, on the disk this one left with its journal. *)
Lemma starts_again id dir sh w w' sh' :
  starts id dir sh w → engine_ok w' → engine_id (engine w') = id → data_dir_ (engine w') = dir →
  printable (store_of w') → files (disk w') !! journal_path (engine w') = Some (journal_text (store_of w')) →
  sh_disk sh' = disk w' →
  ∃ w2, starts id dir sh' w2 ∧ engine w2 = engine w' ∧ files (disk w2) = files (disk w').
Proof.
  intros Hst Hw Hid Hdir Hp Hj Hd. destruct (restart_ok w' [] Hw Hp Hj) as (f' & Hn & Hf & _).
  exists (mkWorld (engine w') f' (sh_out sh')). split; [|done]. split; simpl; [|done|apply Hst|].
  - by rewrite Hd, <- Hid, <- Hdir.
  - rewrite Hd, <- Hdir. by apply engine_ok_habitable.
Qed.

Lemma run_add resolve args p src b e w' ss net err w :
  files (disk w) !! src = Some b → ingest_file p b w = (Ok e, w') →
  run_command resolve args (str "add") [p; src] (mkRun (mkNode w ss net) err) =
    (Ok 0%Z, mkRun (mkNode (mkWorld (engine w') (disk w') (stdout w' ++ str "added " ++ p ++ [newline])) ss net) err).
Proof.
  intros Hsrc Hi. unfold run_command. rewrite decide_True by done.
  assert (add_file p src (mkNode w ss net) = (Ok tt, mkNode w' ss net)) as Hadd.
  { unfold add_file, on_engine. cbn [engine_]. rewrite (bind_ok _ _ _ w w) by done.
    unfold read_file. rewrite Hsrc, (bind_ok _ _ _ _ _ Hi). done. }
  erewrite bind_ok by (unfold on_node; cbn [run_node]; rewrite Hadd; done). done.
Qed.

Lemma run_list resolve args w ss net err :
  run_command resolve args (str "list") [] (mkRun (mkNode w ss net) err) =
    (Ok 0%Z, mkRun (mkNode (mkWorld (engine w) (disk w)
      (stdout w ++ concat (map list_line (all_entries (store_of w))))) ss net) err).
Proof. done. Qed.

Lemma run_listen resolve args port n err st n' :
  arg_value args (str "--port") ≠ [] → stoi 10 (arg_value args (str "--port")) = Ok port →
  listen_and_sync port n = (Ok st, n') →
  ∃ r, run_command resolve args (str "listen") [] (mkRun n err) = (Ok 0%Z, r) ∧ run_err r = err ∧
    disk (engine_ (run_node r)) = disk (engine_ n') ∧ net_ (run_node r) = net_ n'.
Proof.
  intros Hne Hport Hl. unfold run_command. do 3 rewrite decide_False by by_decide.
  rewrite decide_True by done. cbv zeta. rewrite decide_False by done.
  rewrite (bind_ok _ _ _ port _) by (unfold lift; by rewrite Hport).
  rewrite (bind_ok _ _ _ st (mkRun n' err)) by (unfold on_node; cbn [run_node run_err]; by rewrite Hl).
  eexists. split; [done|]. done.
Qed.

Lemma run_sync resolve args port n err st n' :
  arg_value args (str "--host") ≠ [] → arg_value args (str "--port") ≠ [] →
  stoi 10 (arg_value args (str "--port")) = Ok port →
  sync_with resolve (arg_value args (str "--host")) port n = (Ok st, n') →
  ∃ r, run_command resolve args (str "sync") [] (mkRun n err) = (Ok 0%Z, r) ∧ run_err r = err ∧
    disk (engine_ (run_node r)) = disk (engine_ n') ∧ net_ (run_node r) = net_ n'.
Proof.
  intros Hh Hne Hport Hl. unfold run_command. do 4 rewrite decide_False by by_decide.
  rewrite decide_True by done. cbv zeta. rewrite decide_False by (by intros [?|?]).
  rewrite (bind_ok _ _ _ port _) by (unfold lift; by rewrite Hport).
  rewrite (bind_ok _ _ _ st (mkRun n' err)) by (unfold on_node; cbn [run_node run_err]; by rewrite Hl).
  eexists. split; [done|]. done.
Qed.

(** ** Properties *)

(** The command line is understood: for any sequence of options with their
    values and of words, in any order, in which neither a value nor a word has the
    name of an option and no word is empty, the loop of [main] finds the first
    word as the command and the others as its arguments, and [arg_value] returns
    for each option name the value of its first occurrence, or nothing. *)
Theorem parse_command_line ts :
  Forall token_ok ts →
  parse_words (render ts) [] [] =
    match words_of ts with [] => ([], []) | command :: rest => (command, rest) end ∧
  ∀ flag, is_flag flag = true → arg_value (render ts) flag = value_of flag ts.
Proof. intros Hts. split; [by apply parse_words_render|]. intros flag. by apply arg_value_render. Qed.

Lemma parse_command_line_witness :
  parse_words (map str ["--id"; "A"; "add"; "--data"; "./d"; "a.txt"; "src"; "--id"; "B"]%string) [] [] =
    (str "add", [str "a.txt"; str "src"]) ∧
  arg_value (map str ["--id"; "A"; "add"; "--data"; "./d"; "a.txt"; "src"; "--id"; "B"]%string) (str "--id") = str "A".
Proof.
  destruct (parse_command_line [Opt (str "--id") (str "A"); Word (str "add"); Opt (str "--data") (str "./d");
    Word (str "a.txt"); Word (str "src"); Opt (str "--id") (str "B")]) as [H1 H2]; [by_decide|].
  split; [exact H1|]. exact (H2 (str "--id") eq_refl).
Defined.

(** An option that is missing its value takes the next option's name for it, and
    the two readers of the command line disagree about what follows. *)
Example flag_taken_as_value :
  let args := map str ["--id"; "--data"; "d"; "list"]%string in
  arg_value args (str "--id") = str "--data" ∧ arg_value args (str "--data") = str "d" ∧
  parse_words args [] [] = (str "d", [str "list"]).
Proof. vm_compute. done. Qed.

(** C21: How a run of the program can end, whatever the arguments, the journal, the disk and the peer are.
    No exception leaves [main].  It exits with 0, having written nothing to the error stream; or with 1,
    having written a line there or printed the usage.  An end without an exit code, by undefined behaviour or by
    the signal of a broken connection, is possible in the two commands that talk to a peer
    only.  (An exit code of 0 does not mean that everything was stored: see
    [unwritable_journal_unnoticed].) *)
Theorem main_outcome resolve lib_what args sh :
  let '(r, sh') := main resolve lib_what args sh in
  match r with
  | Ok code =>
      (code = 0%Z ∧ sh_err sh' = sh_err sh) ∨
      (code = 1%Z ∧ ((∃ msg, msg ≠ [] ∧ sh_err sh' = sh_err sh ++ msg) ∨
                     ∃ o, sh_out sh' = o ++ usage_text))
  | Throw e => e = sigpipe ∧ ¬ local_command (parse_words args [] []).1
  | UB => ¬ local_command (parse_words args [] []).1
  end.
Proof.
  unfold main. destruct args as [|a args]; [by right; split; [|right; eexists]|].
  set (all := a :: args). case_decide.
  { right. split; [done|]. left. by eexists (str "error: --id and --data are required" ++ [newline; newline]). }
  destruct (parse_words all [] []) as [command rest].
  assert (∀ e sh1, sh_err sh1 = sh_err sh → ∃ msg, msg ≠ [] ∧
    sh_err sh1 ++ str "error: " ++ what lib_what e ++ [newline] = sh_err sh ++ msg) as Hcaught.
  { intros e sh1 ->. by eexists (str "error: " ++ what lib_what e ++ [newline]). }
  pose proof (new_engine_behaves (arg_value all (str "--id")) (arg_value all (str "--data")) (sh_disk sh)) as Hu.
  destruct (new_engine _ _ (sh_disk sh)) as [[eng|e|] f]; [|right; split; [done|left; by apply Hcaught]|done].
  set (r0 := mkRun _ _).
  destruct (run_command_outcome resolve all command rest r0) as [[H1 H2]|(H1 & H2 & H3)];
    destruct (run_command _ _ _ _ r0) as [[code|e|] r]; cbn [fst snd] in *; try done.
  - injection H1 as ->. right. split; [done|exact H2].
  - left. split; [by apply H3|done].
  - case_decide as He; [split; [done|]; intros Hl; by apply (H2 Hl)|].
    right. split; [done|]. left. by apply Hcaught.
Qed.

(** C20: Two runs of the program work together through the disk: [add], with a
    readable source file and a path that nothing is in the way of, exits with 0,
    says what it did, and leaves the new version (this node as last writer, its
    counter bumped) with the source's bytes materialized; a later process that runs
    [list] for the same node and directory exits with 0 and prints exactly the
    entries the first one left, the new one among them, and changes no file. *)
Theorem add_then_list resolve lib_what id dir p src b sh w args args' :
  starts id dir sh w → printable (store_of w) → id_ok id →
  command_line id dir [str "add"; p; src] args → command_line id dir [str "list"] args' →
  files (disk w) !! src = Some b → plain p → tab ∉ p → newline ∉ p →
  placeable (engine w) (disk w) p →
  no_clash (blobs_of w) (disk w) (chunk (chunker_ (engine w)) b) →
  ∃ e sh1 sh2,
    main resolve lib_what args sh = (Ok 0%Z, sh1) ∧ main resolve lib_what args' sh1 = (Ok 0%Z, sh2) ∧
    e = mkEntry p (chunk_hash <$> chunk (chunker_ (engine w)) b) (merkle_root e)
          (increment (clock_at (store_of w) p) id) id false (u64 (N.of_nat (length b))) ∧
    (∃ report, sh_out sh1 = sh_out sh ++ report ++ str "added " ++ p ++ [newline]) ∧
    sh_out sh2 = sh_out sh1 ++ concat (map list_line (all_entries (assign (store_of w) p e))) ∧
    e ∈ all_entries (assign (store_of w) p e) ∧
    sh_err sh2 = sh_err sh ∧ files (sh_disk sh2) = files (sh_disk sh1) ∧
    (b ≠ [] → files (sh_disk sh2) !! target (engine w) p = Some b).
Proof.
  intros Hst Hpr Hid Hadd Hlist Hsrc Hp Htab Hnl Hpl Hcl.
  destruct (starts_names _ _ _ _ Hst) as [Hi Hd]. pose proof (starts_ok _ _ _ _ Hst) as Hw.
  destruct (ingest_ok w p b Hw Hp Hpl Hcl) as (e & w1 & Hrun & Hw1 & He & Heng & Hout & _ & Hfile & Hj).
  rewrite Hi in He.
  assert (store_of w1 = assign (store_of w) p e) as Hs by (unfold store_of at 1; by rewrite Heng).
  pose proof (main_run resolve lib_what id dir sh w args _ _ _ _ Hst Hadd
    (run_add resolve args p src b e w1 _ _ _ w Hsrc Hrun)) as Hmain.
  set (sh1 := shell_of _) in Hmain.
  destruct (starts_again id dir sh w w1 sh1 Hst Hw1) as (w2 & Hst2 & He2 & Hf2).
  { by rewrite Heng. }
  { by rewrite Heng. }
  { rewrite Hs. by apply (printable_assign _ _ _ _ _ _ _ Hpr Hid Htab Hnl He). }
  { unfold journal_path in *. by rewrite Heng. }
  { done. }
  pose proof (main_run resolve lib_what id dir sh1 w2 args' _ _ _ _ Hst2 Hlist (run_list _ _ _ _ _ _)) as Hmain'.
  eexists e, sh1, _. split_and!; [exact Hmain|exact Hmain'|exact He|..].
  - exists (ingest_report id p (get_entry (store_of w) p) (chunk (chunker_ (engine w)) b)).
    unfold sh1, shell_of. cbn [sh_out run_node engine_ stdout]. rewrite Hout, (st_out _ _ _ _ Hst), Hi.
    symmetry. apply app_assoc.
  - unfold shell_of at 1. cbn [sh_out run_node engine_ stdout]. rewrite (st_out _ _ _ _ Hst2).
    unfold store_of at 1. by rewrite He2, <- Hs.
  - apply elem_of_all_entries. exists p. apply lookup_insert_eq.
  - done.
  - exact Hf2.
  - intros Hb. cbn [shell_of sh_disk run_node engine_ disk]. rewrite Hf2. by apply Hfile.
Qed.

(** A shell in a directory that holds one file. *)
Definition sample_shell : Shell :=
  mkShell (mkFs {[ str "notes.txt" := str "hello" ]} ∅) [] [] (mkSockets (mkOs [] 3 ∅ false [] []) ∅) (drip []).
Definition sample_started : World :=
  match new_engine (str "A") (str "d") (sh_disk sample_shell) with
  | (Ok e, f) => mkWorld e f []
  | _ => sample_node
  end.
Definition args_of (words : list string) : list bytes := map str (["--id"; "A"; "--data"; "d"]%string ++ words).

Lemma sample_starts : starts (str "A") (str "d") sample_shell sample_started ∧ store_of sample_started = new_store (str "A")
  ∧ files (disk sample_started) = {[ str "notes.txt" := str "hello" ]}.
Proof.
  assert (habitable (str "d") (sh_disk sample_shell)) as Hh.
  { split; [by_decide|by apply Forall_forall; by_decide|..].
    - intros x. apply not_elem_of_empty.
    - apply not_elem_of_empty.
    - intros x d _ Hx. change (files (sh_disk sample_shell)) with ({[ str "notes.txt" := str "hello" ]} : gmap bytes bytes) in Hx.
      apply lookup_singleton_Some in Hx as [E _]. discriminate E. }
  destruct (new_engine_eq (str "A") (str "d") _ Hh) as (f & Hn & Hf & _).
  assert (journal_store (str "A") (str "d") (sh_disk sample_shell) = Ok (new_store (str "A"))) as Hj by done.
  rewrite Hj in Hn.
  change (new_engine (str "A") (str "d") (sh_disk sample_shell)
    = (Ok (engine_with (str "A") (str "d") (new_store (str "A"))), f)) in Hn.
  unfold sample_started. rewrite Hn. split_and!; [|done|exact Hf].
  split; [done|done|by_decide|exact Hh].
Qed.

Lemma add_then_list_witness :
  ∃ sh1 sh2,
    main (λ _ _, None) (λ _, []) (args_of ["add"; "a.txt"; "notes.txt"]%string) sample_shell = (Ok 0%Z, sh1) ∧
    main (λ _ _, None) (λ _, []) (args_of ["list"]%string) sh1 = (Ok 0%Z, sh2) ∧
    files (sh_disk sh2) !! str "d/files/a.txt" = Some (str "hello").
Proof.
  destruct sample_starts as (Hst & Hs & Hf).
  assert (chunk default_chunker (str "hello") = [mkChunk 0 (str "hello") (hash (str "hello"))]) as Hc
    by (vm_compute; reflexivity).
  destruct (add_then_list (λ _ _, None) (λ _, []) (str "A") (str "d") (str "a.txt") (str "notes.txt") (str "hello")
    sample_shell sample_started (args_of ["add"; "a.txt"; "notes.txt"]%string) (args_of ["list"]%string))
    as (e & sh1 & sh2 & H1 & H2 & _ & _ & _ & _ & _ & _ & H3).
  - exact Hst.
  - rewrite Hs. apply map_Forall_empty.
  - split; [unfold node_ok; by_decide|by_decide].
  - exists [Opt (str "--id") (str "A"); Opt (str "--data") (str "d"); Word (str "add"); Word (str "a.txt"); Word (str "notes.txt")].
    split; [reflexivity|split; [by_decide|split; [reflexivity|split; reflexivity]]].
  - exists [Opt (str "--id") (str "A"); Opt (str "--data") (str "d"); Word (str "list")].
    split; [reflexivity|split; [by_decide|split; [reflexivity|split; reflexivity]]].
  - rewrite Hf. reflexivity.
  - by_decide.
  - by_decide.
  - by_decide.
  - split; [vm_compute; by_decide|]. intros q Hq. rewrite Hf, dom_singleton, elem_of_singleton. revert q Hq.
    apply Forall_forall. by_decide.
  - change (chunker_ (engine sample_started)) with default_chunker. rewrite Hc.
    intros c ->%list_elem_of_singleton. split.
    + intros d Hd. rewrite Hf in Hd. apply lookup_singleton_Some in Hd as [E _]. discriminate E.
    + intros c' ->%list_elem_of_singleton _. reflexivity.
  - exists sh1, sh2. split; [exact H1|split; [exact H2|]]. apply H3. by_decide.
Defined.

(** C5: Two terminals, as in the usage text: one process runs [listen], the other
    [sync], with ports that parse and system calls that give each a socket.  When both
    nodes are sound and the bytes one sends are what the other receives, both
    processes exit with 0 and nothing on the error stream; on disk each
    journal is then the text of the merge of its own store with the other's
    entries, every adopted or forked file has the peer's bytes, and if no two
    versions of a path were concurrent both journals list the same entries. *)
Theorem listen_and_sync_processes resolve lib_what ida idb dira dirb sha shb a b argsa argsb porta portb fda fdb osa osb :
  starts ida dira sha a → starts idb dirb shb b → node_ready a → node_ready b →
  can_sync a b (sh_net sha) → can_sync b a (sh_net shb) →
  command_line ida dira [str "listen"] argsa → command_line idb dirb [str "sync"] argsb →
  arg_value argsa (str "--port") ≠ [] → stoi 10 (arg_value argsa (str "--port")) = Ok porta →
  arg_value argsb (str "--host") ≠ [] →
  arg_value argsb (str "--port") ≠ [] → stoi 10 (arg_value argsb (str "--port")) = Ok portb →
  accept_once porta (sys (sh_sockets sha)) = (Ok fda, osa) →
  connect_to resolve (arg_value argsb (str "--host")) portb (sys (sh_sockets shb)) = (Ok fdb, osb) →
  ∃ sha' shb' a' b',
    main resolve lib_what argsa sha = (Ok 0%Z, sha') ∧ main resolve lib_what argsb shb = (Ok 0%Z, shb') ∧
    sh_err sha' = sh_err sha ∧ sh_err shb' = sh_err shb ∧
    sh_disk sha' = disk a' ∧ sh_disk shb' = disk b' ∧
    synced a b (sh_net sha) a' (sh_net sha') ∧ synced b a (sh_net shb) b' (sh_net shb') ∧
    (causally_ordered (all_entries (store_of a) ++ all_entries (store_of b)) →
       journal_text (store_of a') = journal_text (store_of b')).
Proof.
  intros Hsa Hsb Ha Hb Hca Hcb Hla Hlb Hpa Hpa' Hhb Hpb Hpb' Hacc Hcon.
  set (na := mkNode a (sh_sockets sha) (sh_net sha)). set (nb := mkNode b (sh_sockets shb) (sh_net shb)).
  assert (∃ st n', listen_and_sync porta na = (Ok st, n') ∧ synced a b (sh_net sha) (engine_ n') (net_ n'))
    as (sta & na' & Hra & Hya).
  { unfold listen_and_sync. rewrite (bind_ok _ _ _ na na) by done. cbv zeta. erewrite bind_ok by done.
    eapply (node_session a b _ _ _ (mkNode _ (sh_sockets sha) (sh_net sha))); [done..|by eexists|exact Hacc]. }
  destruct (node_session b a (connect_to resolve (arg_value argsb (str "--host")) portb) (mret tt : stateM World unit) (stdout b) nb fdb osb)
    as (stb & nb' & Hrb & Hyb); [done|done|done|by destruct b|by exists (stdout b); destruct b|done|].
  destruct (run_listen resolve argsa porta na (sh_err sha) sta na' Hpa Hpa' Hra) as (ra & Hma & Hea & Hda & Hna).
  destruct (run_sync resolve argsb portb nb (sh_err shb) stb nb' Hhb Hpb Hpb' Hrb) as (rb & Hmb & Heb & Hdb & Hnb).
  exists (shell_of ra), (shell_of rb), (engine_ na'), (engine_ nb').
  rewrite <- Hna in Hya. rewrite <- Hnb in Hyb.
  split_and!; [by eapply main_run|by eapply main_run|done..|].
  intros Hord. unfold journal_text, all_entries. do 2 f_equal. f_equal. f_equal.
  rewrite (sy_store _ _ _ _ _ Hya), (sy_store _ _ _ _ _ Hyb).
  apply merge_all_converge; [apply Ha|apply Hb|exact Hord].
Qed.

(** The second sample node, started again, and its process; and the first one's. *)
Definition sample_again : World :=
  mkWorld (engine sample_peer) (new_engine (str "B") (str "e") (disk sample_peer)).2 [].
Definition shell_on (f : fs) (c : Conn) : Shell := mkShell f [] [] (mkSockets (mkOs [] 3 ∅ false [] []) ∅) c.
Definition sample_sha : Shell := shell_on empty_fs
  (drip (transcript sample_again [] (request_of sample_node (all_entries (store_of sample_again))))).
Definition sample_shb : Shell := shell_on (disk sample_peer)
  (drip (transcript sample_node (all_entries (store_of sample_again)) [])).

Lemma sample_again_ok : starts (str "B") (str "e") sample_shb sample_again ∧ node_ready sample_again.
Proof.
  pose proof sample_peer_ready as [Hok Hid Hpr Hsm Hco].
  assert (files (disk sample_peer) !! journal_path (engine sample_peer) = Some (journal_text (store_of sample_peer)))
    as Hj by by_decide.
  destruct (restart_ok sample_peer [] Hok Hpr Hj) as (f' & Hn & Hf & Hok').
  change (engine_id (engine sample_peer)) with (str "B") in Hn.
  change (data_dir_ (engine sample_peer)) with (str "e") in Hn.
  unfold sample_again. rewrite Hn. cbn [snd]. split.
  - split; [exact Hn|reflexivity|by_decide|exact (engine_ok_habitable _ Hok)].
  - split; [done|done|done|..]; cbn [disk].
    + unfold small_chunks. rewrite Hf. exact Hsm.
    + rewrite Hf. exact Hco.
Qed.

Lemma sample_node_starts : starts (str "A") (str "d") sample_sha sample_node.
Proof.
  destruct (new_engine_empty (str "A") (str "d") []) as (f' & H & _); [by_decide|].
  split; [unfold sample_node; by rewrite H|reflexivity|by_decide|apply habitable_empty; by_decide].
Qed.

Lemma listen_and_sync_processes_witness :
  ∃ sha' shb',
    main sample_resolve (λ _, []) (args_of ["listen"; "--port"; "9001"]%string) sample_sha = (Ok 0%Z, sha') ∧
    main sample_resolve (λ _, []) (map str ["--id"; "B"; "--data"; "e"; "sync"; "--host"; "localhost"; "--port"; "9001"]%string)
      sample_shb = (Ok 0%Z, shb').
Proof.
  set (b := sample_again). set (argsb := map str _).
  assert (can_sync sample_node b (sh_net sample_sha)) as Hab.
  { split; [| |unfold messages_fit, fits; by_decide|apply drip_ok|apply drip_ok].
    - intros x da db _ Hd. destruct sample_node_ok as [_ E]. rewrite E in Hd. destruct (lookup_empty_Some _ _ Hd).
    - split; by_decide. }
  assert (can_sync b sample_node (sh_net sample_shb)) as Hba.
  { split; [| |unfold messages_fit, fits; by_decide|apply drip_ok|].
    - intros x db da _ _ Hd. destruct sample_node_ok as [_ E]. rewrite E in Hd. destruct (lookup_empty_Some _ _ Hd).
    - split; by_decide.
    - apply drip_ok. }
  destruct (listen_and_sync_processes sample_resolve (λ _, []) (str "A") (str "B") (str "d") (str "e")
    sample_sha sample_shb sample_node b (args_of ["listen"; "--port"; "9001"]%string) argsb 9001 9001 4 3
    (accept_once 9001 (sys (sh_sockets sample_sha))).2
    (connect_to sample_resolve (str "localhost") 9001 (sys (sh_sockets sample_shb))).2)
    as (sha' & shb' & a' & b' & H1 & H2 & _).
  - exact sample_node_starts.
  - apply sample_again_ok.
  - exact sample_node_ready.
  - apply sample_again_ok.
  - exact Hab.
  - exact Hba.
  - exists [Opt (str "--id") (str "A"); Opt (str "--data") (str "d"); Word (str "listen"); Opt (str "--port") (str "9001")].
    split; [reflexivity|split; [by_decide|split; [reflexivity|split; reflexivity]]].
  - exists [Opt (str "--id") (str "B"); Opt (str "--data") (str "e"); Word (str "sync");
      Opt (str "--host") (str "localhost"); Opt (str "--port") (str "9001")].
    split; [reflexivity|split; [by_decide|split; [reflexivity|split; reflexivity]]].
  - by_decide.
  - vm_compute. reflexivity.
  - by_decide.
  - by_decide.
  - vm_compute. reflexivity.
  - vm_compute. reflexivity.
  - vm_compute. reflexivity.
  - exists sha', shb'. split; [exact H1|exact H2].
Defined.
