(* ===== verification/Faults.v ===== *)
(** * Faults: sessions with a peer that may do anything

    [Network] shows that a session between two sound nodes works.  Here the bytes
    that arrive are arbitrary: the peer may stop, lie or send nonsense at any point. *)
From S2P Require Import Prelude Text VectorClock Sha256 Chunker FileEntry CrdtStore EntryCodec Fs FileStore SyncEngine Frames Messages Network.

(** ** Postconditions

    [m s] returns in a state that satisfies [Q], or stops in one that satisfies
    [E]. *)
Definition ends_in {S A} (E : S → Prop) (Q : A → S → Prop) (x : outcome A * S) : Prop :=
  match x.1 with Ok a => Q a x.2 | _ => E x.2 end.

Lemma ends_bind {S A B} E (R : A → S → Prop) (Q : B → S → Prop) (m : stateM S A) (k : A → stateM S B) s :
  ends_in E R (m s) → (∀ a s', R a s' → ends_in E Q (k a s')) → ends_in E Q (mbind k m s).
Proof.
  unfold ends_in, mbind, stateM_bind. destruct (m s) as [[a|e|] s']; cbn [fst snd]; intros Hm Hk; [|done|done].
  by apply Hk.
Qed.

Lemma ends_any {S A} (E : S → Prop) (Q : A → S → Prop) x : E x.2 → (∀ a, Q a x.2) → ends_in E Q x.
Proof. intros HE HQ. unfold ends_in. destruct x.1; auto. Qed.

Lemma ends_lift {S A} (E : S → Prop) (Q : A → S → Prop) (o : outcome A) s :
  E s → (∀ a, o = Ok a → Q a s) → ends_in E Q (lift o s).
Proof. intros HE HQ. unfold ends_in, lift. destruct o; cbn; auto. Qed.

Lemma ends_eq {S A} (E : S → Prop) (Q : A → S → Prop) (m : stateM S A) s :
  ends_in E Q (m s) → ends_in E (λ a s', m s = (Ok a, s') ∧ Q a s') (m s).
Proof. unfold ends_in. destruct (m s) as [[a|e|] s']; cbn; auto. Qed.

(** Whatever the connection does, the node's world is not touched by it. *)
Lemma ends_conn {A} (E : Peer → Prop) (Q : A → Peer → Prop) (m : stateM Conn A) p :
  (∀ c, E (mkPeer (world p) c)) → (∀ a c, Q a (mkPeer (world p) c)) → ends_in E Q (on_conn m p).
Proof. intros HE HQ. apply ends_any; unfold on_conn; destruct (m (conn p)) as [r c]; cbn; auto. Qed.

Lemma ends_expect (E : Peer → Prop) (Q : bytes → Peer → Prop) t msg p :
  (∀ c, E (mkPeer (world p) c)) → (∀ a c, Q a (mkPeer (world p) c)) → ends_in E Q (expect t msg p).
Proof.
  intros HE HQ. unfold expect. apply (ends_bind _ (λ _ p', world p' = world p)); [by apply ends_conn|].
  intros r [w c] Hw. cbn [world] in Hw. subst w.
  destruct r as [[t' d]|]; [case_decide|]; [apply HQ|apply HE..].
Qed.

Lemma ends_world {A} (E : Peer → Prop) (Q : A → Peer → Prop) (m : stateM World A) p :
  (E (mkPeer (m (world p)).2 (conn p))) → (∀ a, Q a (mkPeer (m (world p)).2 (conn p))) →
  ends_in E Q (on_world m p).
Proof. intros HE HQ. apply ends_any; unfold on_world; destruct (m (world p)) as [r w]; cbn in *; auto. Qed.

(** One statement of the session, which leaves the world at [w]: [lem] says so. *)
Tactic Notation "stays" constr(w) uconstr(lem) ident(x) :=
  apply (ends_bind _ (λ _ p, world p = w)); [by apply lem|];
  let w' := fresh "w" in let c' := fresh "c" in let E := fresh "E" in
  intros x [w' c'] E; cbn [world] in E; subst w'.

(** ** The journal file through the parts of a session *)

Lemma put_chunk_frame b c f q : q ≠ chunk_path b (chunk_hash c) → files (put_chunk b c f).2 !! q = files f !! q.
Proof.
  intros Hq. unfold put_chunk. destruct (exists_ _ _); [done|].
  destruct (write_file_Ok (chunk_path b (chunk_hash c)) (data c) f) as (f' & -> & _ & Hf). by apply Hf.
Qed.

Lemma receive_loop_frame fuel b rest k f q :
  (∀ x, q ≠ chunk_path b x) → files (receive_loop fuel b rest k f).2 !! q = files f !! q.
Proof.
  intros Hq. revert rest k f. induction fuel as [|fuel IH]; intros rest k f; [done|]. cbn [receive_loop].
  case_decide; [|done]. cbv zeta. case_decide; [|done]. unfold mbind, stateM_bind.
  pose proof (put_chunk_frame b (mkChunk 0 (take (N.to_nat (read_len (drop 32 rest))) (drop 36 rest)) (take 32 rest))
    f q (Hq _)) as Hp.
  destruct (put_chunk _ _ f) as [[[]| |] f1]; cbn [snd] in Hp; [|done|done]. by rewrite IH.
Qed.

Lemma materialize_frame w p q :
  engine (materialize p w).2 = engine w ∧
  (q ≠ target (engine w) p → files (disk (materialize p w).2) !! q = files (disk w) !! q).
Proof.
  unfold materialize. destruct (get_entry (store_of w) p) as [e|]; [|done].
  destruct (has_content e); [|done]. unfold on_disk.
  pose proof (materialize_to_frame (blobs_of w) (materialized_dir_ (engine w)) p (chunk_hashes e) (disk w)) as (_ & Hf & _).
  destruct (materialize_to _ _ _ _ _) as [r f']. split; [done|]. apply Hf.
Qed.

Lemma materialize_all_frame w ps q :
  engine (for_each ps materialize w).2 = engine w ∧
  ((∀ p, p ∈ ps → q ≠ target (engine w) p) →
    files (disk (for_each ps materialize w).2) !! q = files (disk w) !! q).
Proof.
  revert w. induction ps as [|p ps IH]; intros w; [done|]. cbn [for_each]. unfold mbind, stateM_bind.
  destruct (materialize_frame w p q) as [He Hf].
  destruct (materialize p w) as [[[]| |] w1]; cbn [snd] in *.
  - destruct (IH w1) as [He' Hf']. split; [congruence|]. intros Hq. rewrite Hf', Hf; [done|apply Hq; by left|].
    intros p' Hp'. rewrite He. apply Hq. by right.
  - split; [done|]. intros Hq. apply Hf, Hq. by left.
  - split; [done|]. intros Hq. apply Hf, Hq. by left.
Qed.

Lemma save_journal_frame w :
  engine (save_journal w).2 = engine w ∧
  (files (disk (save_journal w).2) !! journal_path (engine w) = files (disk w) !! journal_path (engine w) ∨
   files (disk (save_journal w).2) !! journal_path (engine w) = Some (journal_text (store_of w))).
Proof.
  unfold save_journal, on_disk, write_file. destruct (_ && _); cbn; [|by split; [|left]].
  split; [done|]. right. apply lookup_insert_eq.
Qed.

(** ** Properties *)

(** The entries of the manifest the peer sends, if it sends one. *)
Definition manifest_received (w : World) (c : Conn) : option (list FileEntry) :=
  match (on_conn (send_frame FRAME_MANIFEST (serialize_manifest (engine w))) ;!
         expect FRAME_MANIFEST (str "expected MANIFEST frame from peer")) (mkPeer w c) with
  | (Ok payload, _) => match parse_manifest payload with Ok l => Some l | _ => None end
  | _ => None
  end.

(** The node [w'] after a session that received the entries [l]: its store is the
    old one or the merge with all of them, and the journal on disk is the old one or the
    text of that merge; nothing in between. *)
Definition all_or_nothing (w : World) (l : list FileEntry) (w' : World) : Prop :=
  let merged_store := merge_all (store_of w) l in
  (engine w' = engine w ∨ engine w' = with_store merged_store (engine w)) ∧
  (Forall plain (materialize_paths (merged w l).2) →
     files (disk w') !! journal_path (engine w) = files (disk w) !! journal_path (engine w) ∨
     files (disk w') !! journal_path (engine w) = Some (journal_text merged_store)).

Lemma all_or_nothing_old w l w' :
  engine w' = engine w ∨ engine w' = with_store (merge_all (store_of w) l) (engine w) →
  (Forall plain (materialize_paths (merged w l).2) →
     files (disk w') !! journal_path (engine w) = files (disk w) !! journal_path (engine w)) →
  all_or_nothing w l w'.
Proof. intros He Hj. split; [done|]. left. by apply Hj. Qed.

(** C14: A session is atomic for the metadata, whatever the peer does.  For any
    bytes the connection delivers, any way [send] and [recv] behave, and however the
    session ends (normally, by an exception at any point, or in the
    out-of-range read), the store in memory is the old one or has merged all the
    entries of the manifest received, and, as long as every path that would be materialized
    is plain (relative, with no empty, . or .. component), the journal on disk is the old
    one or exactly the text of that merged store.  Other paths can name any file, the
    journal too ([absolute_path_escapes]). *)
Theorem session_atomic w c :
  wired (engine w) →
  all_or_nothing w (default [] (manifest_received w c)) (world (run_sync_session (mkPeer w c)).2).
Proof.
  intros Hwi. pose proof (journal_not_chunk (engine w)) as Hjc. set (l0 := default [] (manifest_received w c)).
  set (good := λ (w' : World), all_or_nothing w l0 w').
  assert (ends_in (good ∘ world) (λ _, good ∘ world) (run_sync_session (mkPeer w c))) as H;
    [|unfold ends_in in H; by destruct (run_sync_session (mkPeer w c)) as [[]]].
  assert (good w) as H0 by (apply all_or_nothing_old; [by left|done]).
  unfold run_sync_session. rewrite (bind_ok _ _ _ w (mkPeer w c)) by done. cbv zeta.
  apply (ends_bind _ (λ u p, on_conn (send_frame FRAME_MANIFEST (serialize_manifest (engine w))) (mkPeer w c)
    = (Ok u, p) ∧ world p = w)); [apply ends_eq; by apply ends_conn|].
  intros u [w0 c0] [E1 E]. cbn [world] in E. subst w0.
  apply (ends_bind _ (λ m p, expect FRAME_MANIFEST (str "expected MANIFEST frame from peer") (mkPeer w c0)
    = (Ok m, p) ∧ world p = w)); [apply ends_eq; by apply ends_expect|].
  intros m [w0 c1] [E2 E]. cbn [world] in E. subst w0.
  apply (ends_bind _ (λ l p, parse_manifest m = Ok l ∧ world p = w)); [by apply ends_lift|].
  intros l [w0 c2] [E3 E]. cbn [world] in E. subst w0.
  assert (l0 = l) as El.
  { unfold l0, manifest_received. by rewrite (bind_ok _ _ _ _ _ E1), E2, E3. }
  clearbody l0. subst l0.
  fold (merged w l). set (w1 := set_store (merge_all (store_of w) l) w).
  assert ((merged w l).1 = merge_all (store_of w) l) as Hst by apply merge_loop_store. rewrite Hst.
  rewrite (bind_ok _ _ _ tt (mkPeer w1 c2)) by done.
  set (ps := materialize_paths (merged w l).2).
  assert (∀ w', engine w' = engine w1 → (Forall plain ps →
    files (disk w') !! journal_path (engine w) = files (disk w) !! journal_path (engine w)) → good w') as Hgood.
  { intros w' He Hj. apply all_or_nothing_old; [right; by rewrite He|done]. }
  assert (good w1) as H1 by by apply Hgood.
  stays w1 ends_lift hs.
  stays w1 ends_conn u1.
  stays w1 ends_expect rq.
  stays w1 ends_lift their.
  stays w1 ends_lift cd.
  stays w1 ends_conn u2.
  stays w1 ends_expect pl.
  set (w2 := (on_disk (receive_chunks (blobs_of w) pl) w1).2).
  assert (engine w2 = engine w1) as He2 by apply on_disk_engine.
  assert (files (disk w2) !! journal_path (engine w) = files (disk w) !! journal_path (engine w)) as Hj2.
  { unfold w2, on_disk. pose proof (receive_loop_frame (S (length pl)) (blobs_of w) pl 0 (disk w)
      (journal_path (engine w)) (λ x, Hjc x Hwi)) as Hf. fold (receive_chunks (blobs_of w) pl) in Hf.
    change (disk w1) with (disk w). by destruct (receive_chunks (blobs_of w) pl (disk w)). }
  apply (ends_bind _ (λ _ p, world p = w2)); [apply ends_world; [by apply Hgood|done]|].
  intros fetched [w0 c10] E. cbn in E. subst w0.
  set (w3 := (for_each ps materialize w2).2).
  destruct (materialize_all_frame w2 ps (journal_path (engine w))) as [He3 Hj3]. fold w3 in He3, Hj3.
  assert (Forall plain ps →
    files (disk w3) !! journal_path (engine w) = files (disk w) !! journal_path (engine w)) as Hj3'.
  { intros Hps. rewrite Forall_forall in Hps. rewrite Hj3; [done|].
    intros p Hp E. rewrite He2 in E. by apply (target_not_journal (engine w) p Hwi (Hps p Hp)). }
  assert (good w3) as H3 by (apply Hgood; [congruence|done]).
  stays w3 ends_world u3.
  set (w4 := (save_journal w3).2). destruct (save_journal_frame w3) as [He4 Hj4]. fold w4 in He4, Hj4.
  assert (engine w3 = engine w1) as He31 by congruence.
  change (journal_path (engine w3)) with (journal_path (engine w3)) in Hj4.
  rewrite He31 in Hj4. change (journal_path (engine w1)) with (journal_path (engine w)) in Hj4.
  assert (store_of w3 = merge_all (store_of w) l) as Hs3 by (unfold store_of at 1; by rewrite He31).
  assert (good w4) as H4.
  { split; [right; by rewrite He4, He31|]. intros Hps. rewrite Hs3 in Hj4.
    destruct Hj4 as [->|?]; [left; by apply Hj3'|by right]. }
  stays w4 ends_world u4.
  stays w4 ends_conn u5.
  stays w4 ends_conn r. done.
Qed.

(** A peer that sends its manifest and then something else. *)
Definition sample_lost : Conn :=
  drip (frame FRAME_MANIFEST (serialize_manifest (engine sample_peer)) ++ str "garbage").

Lemma session_atomic_witness :
  manifest_received sample_node sample_lost = Some (all_entries (store_of sample_peer)) ∧
  all_or_nothing sample_node (all_entries (store_of sample_peer))
    (world (run_sync_session (mkPeer sample_node sample_lost)).2).
Proof.
  assert (manifest_received sample_node sample_lost = Some (all_entries (store_of sample_peer))) as E
    by (vm_compute; reflexivity).
  split; [exact E|].
  pose proof (session_atomic sample_node sample_lost (ok_wired _ (proj1 sample_node_ok))) as H.
  rewrite E in H. exact H.
Defined.
