(* ===== verification/Cut.v ===== *)
(** * Cut: sessions that are cut off

    The peer is sound but may stop at any point: what arrives is a prefix of what it
    sends in a whole session, [recv] may fail after that, and [send] may fail at any
    call.  Such a session has done nothing to the disk, or everything. *)
From S2P Require Import Prelude Text VectorClock Sha256 Chunker FileEntry CrdtStore EntryCodec Fs FileStore SyncEngine Frames Messages Network Faults.

(** ** Postconditions of code that does nothing undefined *)
Definition goes {S A} (E : S → Prop) (Q : A → S → Prop) (x : outcome A * S) : Prop := x.1 ≠ UB ∧ ends_in E Q x.

Lemma goes_bind {S A B} E (R : A → S → Prop) (Q : B → S → Prop) (m : stateM S A) (k : A → stateM S B) s :
  goes E R (m s) → (∀ a s', R a s' → goes E Q (k a s')) → goes E Q (mbind k m s).
Proof.
  intros [Hu Hm] Hk. split.
  - apply bind_not_UB; [done|]. intros a s' E'. apply Hk. unfold ends_in in Hm. by rewrite E' in Hm.
  - eapply ends_bind; [exact Hm|]. intros a s' Ha. by apply Hk.
Qed.

Lemma goes_ok {S A} (E : S → Prop) (Q : A → S → Prop) (m : stateM S A) s a s' :
  m s = (Ok a, s') → Q a s' → goes E Q (m s).
Proof. intros ->. by split. Qed.

Lemma goes_weaken {S A} (E : S → Prop) (Q Q' : A → S → Prop) x :
  goes E Q x → (∀ a s, Q a s → Q' a s) → goes E Q' x.
Proof. intros [Hu H] HQ. split; [done|]. unfold ends_in in *. destruct x.1; auto. Qed.

(** ** A connection that may end *)

Lemma recv_loop_cut fuel len got c s :
  delivers c s → length got ≤ len → len - length got < fuel →
  goes (λ _, True) (λ r c', match r with
      | Some x => x = got ++ take (len - length got) s ∧ len - length got ≤ length s ∧
                  delivers c' (drop (len - length got) s)
      | None => True
      end) (recv_loop fuel len got c).
Proof.
  revert got c s. induction fuel as [|fuel IH]; intros got c s Hd Hl Hf; [lia|]. cbn [recv_loop].
  case_decide as Hlt.
  2:{ replace (len - length got) with 0 by lia. split; [done|]. cbn. rewrite app_nil_r, drop_0. split_and!; [done|lia|done]. }
  destruct (decide (s = [])) as [->|Hs].
  - destruct Hd as [Hc Hn]. unfold recv. destruct (inbox c) as [|seg rest]; [by destruct (in_error c); split|].
    inversion_clear Hn as [|?? Hseg _]. simpl in Hc. by apply app_nil in Hc as [? _].
  - destruct (recv_delivers (len - length got) c s Hd Hs) as (k & c1 & -> & Hk & Hks & _ & _ & Hd1); [lia|].
    assert (length (got ++ take k s) = length got + k) as Hlk by (rewrite length_app, length_take_le; lia).
    eapply goes_weaken; [apply (IH (got ++ take k s) c1 _ Hd1)|]; [lia|lia|].
    intros [x|] c' H; [|done]. destruct H as (-> & Hlen & Hd'). rewrite length_drop in Hlen. rewrite Hlk in *.
    replace (len - length got) with (k + (len - (length got + k))) by lia. split_and!; [|lia|].
    + rewrite <- app_assoc. f_equal. by rewrite <- take_take_drop.
    + by rewrite <- drop_drop.
Qed.

Lemma recv_all_cut len c s :
  delivers c s →
  goes (λ _, True) (λ r c', match r with
      | Some x => x = take len s ∧ len ≤ length s ∧ delivers c' (drop len s)
      | None => True
      end) (recv_all len c).
Proof.
  intros Hd. pose proof (recv_loop_cut (S len) len [] c s Hd) as H. cbn [length app] in H.
  rewrite Nat.sub_0_r in H. apply H; lia.
Qed.

(** A frame arrives whole or not at all. *)
Lemma recv_frame_cut t p rest c s :
  delivers c s → s `prefix_of` frame t p ++ rest → (N.of_nat (length p) < 2 ^ 32)%N →
  goes (λ _, True) (λ r c', match r with
      | Some x => x = (t, p) ∧ ∃ s', delivers c' s' ∧ s' `prefix_of` rest
      | None => True
      end) (recv_frame c).
Proof.
  intros Hd [z Hz] Hp. unfold frame in Hz. rewrite wrap_small in Hz by done. set (n := N.of_nat (length p)) in *.
  assert (s ++ z = (len_bytes n ++ [t]) ++ p ++ rest) as Hz' by (rewrite <- Hz, <- !app_assoc; done).
  clear Hz. unfold recv_frame.
  eapply goes_bind; [apply (recv_all_cut 5 c s Hd)|]. intros [h|] c1; [|done]. intros (-> & H5 & Hd1).
  assert (take 5 s = len_bytes n ++ [t]) as ->.
  { apply (f_equal (take 5)) in Hz'. rewrite take_app_le in Hz' by done. by rewrite take_app_length' in Hz' by done. }
  assert (drop 5 s ++ z = p ++ rest) as Hz1.
  { apply (f_equal (drop 5)) in Hz'. rewrite drop_app_le in Hz' by done. by rewrite drop_app_length' in Hz' by done. }
  cbv zeta. rewrite read_len_bytes, wrap_small by done. change (default _ _) with t. case_decide as Hn.
  - assert (p = []) as -> by (destruct p; [done|unfold n in Hn; simpl in Hn; lia]).
    split; [done|]. cbn. split; [done|]. exists (drop 5 s). split; [done|]. by exists z.
  - eapply goes_bind; [apply (recv_all_cut (N.to_nat n) c1 _ Hd1)|]. intros [x|] c2; [|done].
    unfold n. rewrite Nat2N.id. intros (-> & Hl & Hd2). split; [done|]. cbn.
    assert (take (length p) (drop 5 s) = p) as ->.
    { apply (f_equal (take (length p))) in Hz1. rewrite take_app_le in Hz1 by done. by rewrite take_app_length in Hz1. }
    split; [done|]. exists (drop (length p) (drop 5 s)). split; [done|]. exists z.
    apply (f_equal (drop (length p))) in Hz1. rewrite drop_app_le in Hz1 by done. by rewrite drop_app_length in Hz1.
Qed.

(** Sending does not change what arrives, however it ends. *)
Lemma send_loop_cut fuel data sent c s :
  delivers c s → goes (λ _, True) (λ _ c', delivers c' s) (send_loop fuel data sent c).
Proof.
  revert sent c. induction fuel as [|fuel IH]; intros sent c Hd; [done|]. cbn [send_loop]. case_decide; [|done].
  assert (inbox (send (drop sent data) c).2 = inbox c) as Hi by (unfold send; by destruct (accepts c)).
  destruct (send (drop sent data) c) as [n c1]. cbn [snd] in Hi.
  destruct (n =? - EPIPE)%Z; [done|]. destruct (n <=? 0)%Z; [done|]. apply IH. unfold delivers. by rewrite Hi.
Qed.

Lemma send_frame_cut t p c s :
  delivers c s → goes (λ _, True) (λ _ c', delivers c' s) (send_frame t p c).
Proof.
  intros Hd. unfold send_frame. cbv zeta. eapply goes_bind; [by apply send_loop_cut|]. intros u c' Hd'.
  case_decide; [done|]. by apply send_loop_cut.
Qed.

(** ** The session *)

Lemma goes_conn {A} (E : Peer → Prop) (Q : A → Peer → Prop) (R : A → Conn → Prop) (m : stateM Conn A) w c :
  goes (λ _, True) R (m c) → (∀ c', E (mkPeer w c')) → (∀ a c', R a c' → Q a (mkPeer w c')) →
  goes E Q (on_conn m (mkPeer w c)).
Proof.
  unfold goes, ends_in, on_conn. cbn [conn world]. destruct (m c) as [[a|e|] c']; cbn; intros [Hu H] HE HQ; [|done|done].
  by split; [|apply HQ].
Qed.

Lemma goes_expect (E : Peer → Prop) t p msg rest w c s :
  delivers c s → s `prefix_of` frame t p ++ rest → (N.of_nat (length p) < 2 ^ 32)%N → (∀ c', E (mkPeer w c')) →
  goes E (λ d q, d = p ∧ world q = w ∧ ∃ s', delivers (conn q) s' ∧ s' `prefix_of` rest) (expect t msg (mkPeer w c)).
Proof.
  intros Hd Hs Hp HE. unfold expect. eapply goes_bind.
  - eapply (goes_conn E (λ r q, world q = w ∧ match r with
      | Some x => x = (t, p) ∧ ∃ s', delivers (conn q) s' ∧ s' `prefix_of` rest | None => True end));
      [by eapply recv_frame_cut|done|]. intros r c' Hr. by split.
  - intros [[t' d]|] [w' c'] [Hw Hr]; cbn [world conn] in *; subst w'; [|by split; [|apply HE]].
    destruct Hr as [[= -> ->] Hr]. rewrite decide_True by done. by split.
Qed.

(** The statements of a session, one frame sent or received. *)
Lemma cut_send {A} E Q t p w c s (k : unit → stateM Peer A) :
  delivers c s → (∀ c', E (mkPeer w c')) → (∀ c', delivers c' s → goes E Q (k tt (mkPeer w c'))) →
  goes E Q (mbind k (on_conn (send_frame t p)) (mkPeer w c)).
Proof.
  intros Hd HE Hk. apply (goes_bind _ (λ _ q, world q = w ∧ delivers (conn q) s)).
  - eapply goes_conn; [by apply send_frame_cut|done|]. by intros a c' Hd'.
  - intros [] [w' c'] [Hw Hd']. cbn [world conn] in *. subst w'. by apply Hk.
Qed.

Lemma cut_expect {A} E Q t p msg rest w c s (k : bytes → stateM Peer A) :
  delivers c s → s `prefix_of` frame t p ++ rest → (N.of_nat (length p) < 2 ^ 32)%N → (∀ c', E (mkPeer w c')) →
  (∀ c' s', delivers c' s' → s' `prefix_of` rest → goes E Q (k p (mkPeer w c'))) →
  goes E Q (mbind k (expect t msg) (mkPeer w c)).
Proof.
  intros Hd Hs Hp HE Hk. eapply goes_bind; [by eapply goes_expect|].
  intros d [w' c'] (-> & Hw & s' & Hd' & Hs'). cbn [world conn] in *. subst w'. by apply (Hk c' s').
Qed.

(** What a session that is cut off leaves: the old world, which may have merged the
    manifest in memory, or the world after the whole session. *)
Definition nothing_or_all (w : World) (l : list FileEntry) (w3 w' : World) : Prop :=
  w' = w ∨ w' = set_store (merge_all (store_of w) l) w ∨ w' = w3.

Lemma session_cut_goes w m l hs recs f1 w2 w3 c s :
  session_setting w m l hs recs f1 w2 w3 → delivers c s → s `prefix_of` peer_stream m hs recs →
  goes (λ q, nothing_or_all w l w3 (world q)) (λ _ q, world q = w3) (run_sync_session (mkPeer w c)).
Proof.
  intros [Hr Hsm Hm Hhs Hrecs (Hf1 & Hf2 & Hf3) Hput Hmat Hsave] Hd Hs.
  pose proof (parse_manifest_wf m l Hm) as Hwf. destruct (request_of_ok w l Hwf) as (Hreq & _).
  unfold peer_stream in Hs. unfold run_sync_session.
  rewrite (bind_ok _ _ _ w (mkPeer w c)) by done. cbv zeta.
  set (E := λ q, nothing_or_all w l w3 (world q)). set (w1 := set_store (merge_all (store_of w) l) w).
  assert (∀ c', E (mkPeer w c')) as E0 by (by left).
  assert (∀ c', E (mkPeer w1 c')) as E1 by (by right; left).
  assert (∀ c', E (mkPeer w3 c')) as E3 by (by right; right).
  apply (cut_send _ _ _ _ _ _ s _ Hd E0). intros c1 Hd1.
  eapply cut_expect; [exact Hd1|exact Hs|done|exact E0|]. intros c2 s2 Hd2 Hs2.
  rewrite (bind_ok _ _ _ l (mkPeer w c2)) by (unfold lift; by rewrite Hm).
  fold (merged w l). rewrite (merge_loop_store _ _ _ _ l : (merged w l).1 = _).
  rewrite (bind_ok _ _ _ tt (mkPeer w1 c2)) by done.
  rewrite (bind_ok _ _ _ (request_of w l) (mkPeer w1 c2)) by (unfold lift; by rewrite Hreq).
  apply (cut_send _ _ _ _ _ _ s2 _ Hd2 E1). intros c3 Hd3.
  eapply cut_expect; [exact Hd3|exact Hs2|done|exact E1|]. intros c4 s4 Hd4 Hs4.
  rewrite (bind_ok _ _ _ hs _) by (unfold lift; by rewrite parse_hash_list_serialize).
  rewrite (bind_ok _ _ _ (records (reply_of w hs)) _)
    by (unfold lift; by rewrite collect_chunks_stored).
  apply (cut_send _ _ _ _ _ _ s4 _ Hd4 E1). intros c5 Hd5.
  eapply cut_expect; [exact Hd5|exact Hs4|done|exact E1|]. intros c6 s6 Hd6 Hs6.
  rewrite (bind_ok _ _ _ _ _ (on_world_ok _ _ c6 _ _ (on_disk_ok _ w1 _ _
    (receive_chunks_records _ recs _ _ Hrecs Hput)))).
  rewrite (bind_ok _ _ _ _ _ (on_world_ok _ _ c6 _ _ Hmat)).
  rewrite (bind_ok _ _ _ _ _ (on_world_ok _ _ c6 _ _ Hsave)).
  apply (cut_send _ _ _ _ _ _ s6 _ Hd6 E3). intros c7 Hd7.
  apply (goes_bind _ (λ _ q, world q = w3)); [|by intros r [w' c'] Hw].
  rewrite <- (app_nil_r (frame FRAME_DONE [])) in Hs6.
  eapply goes_conn; [by eapply recv_frame_cut|done|done].
Qed.

(** ** Properties *)

(** C15: A session with a sound peer that is cut off does nothing to the disk, or
    everything.  Whatever prefix of the peer's bytes arrives, however it is cut into segments,
    whether [recv] then finds the connection closed or fails, and whichever calls of [send] fail, by an
    exception or by the signal that kills the process, nothing undefined happens, and there is one world [a'], with the merged store saved
    in the journal and the peer's bytes in every adopted file, such that the session ends in it or leaves
    the disk as it was; if it returns normally it ends in [a']. *)
Theorem session_cut a b c s :
  let eb := all_entries (store_of b) in
  node_ready a → node_ready b → agree a b → syncable a eb → messages_fit a b →
  delivers c s → s `prefix_of` transcript b (all_entries (store_of a)) (request_of a eb) →
  let '(r, p) := run_sync_session (mkPeer a c) in
  r ≠ UB ∧ ∃ a', store_of a' = merge_all (store_of a) eb ∧ engine_ok a' ∧ received a b a' ∧
    files (disk a') !! journal_path (engine a) = Some (journal_text (store_of a')) ∧
    (world p = a' ∨ disk (world p) = disk a) ∧ ∀ st, r = Ok st → world p = a'.
Proof.
  intros eb Ha Hb Hag Hsync Hfit Hd Hs.
  destruct (session_between a b Ha Hb Hsync Hfit) as (Hrec & f1 & w2 & Hset & Heff).
  pose proof (session_cut_goes a _ _ _ _ _ _ _ c s Hset Hd Hs) as H.
  destruct (run_sync_session (mkPeer a c)) as [r p]. destruct H as [Hu H]. split; [done|].
  exists (journal_written w2). split; [unfold store_of; cbn [journal_written engine]; by rewrite (se_engine _ _ _ _ Heff)|].
  split; [apply save_journal_ok, Heff|]. split; [by apply effect_received|]. split.
  { cbn [journal_written disk files]. rewrite (se_engine _ _ _ _ Heff). apply lookup_insert_eq. }
  unfold ends_in in H. cbn [fst snd] in H, Hu. destruct r as [st|e|]; [|split; [|done]|done].
  - split; [by left|done].
  - destruct H as [->|[->| ->]]; [by right|by right|by left].
Qed.

(** The peer dies after its manifest and three more bytes. *)
Definition sample_cut : bytes := frame FRAME_MANIFEST (serialize_manifest (engine sample_peer)) ++ take 3 (frame FRAME_CHUNK_REQUEST []).

Lemma session_cut_witness :
  let '(r, p) := run_sync_session (mkPeer sample_node (drip sample_cut)) in
  r ≠ UB ∧ ∃ a', received sample_node sample_peer a' ∧ (world p = a' ∨ disk (world p) = disk sample_node).
Proof.
  pose proof (session_cut sample_node sample_peer (drip sample_cut) sample_cut) as H.
  destruct (run_sync_session (mkPeer sample_node (drip sample_cut))) as [r p].
  destruct H as (Hu & a' & _ & _ & Hrec & _ & Hw & _).
  - apply sample_node_ready.
  - apply sample_peer_ready.
  - intros x da db _ Hd. destruct sample_node_ok as [_ E]. rewrite E in Hd. destruct (lookup_empty_Some _ _ Hd).
  - split; by_decide.
  - unfold messages_fit, fits. by_decide.
  - apply drip_ok.
  - eexists. vm_compute. reflexivity.
  - split; [exact Hu|]. exists a'. split; [exact Hrec|exact Hw].
Defined.
