(* ===== verification/Transport.v ===== *)
(** * Transport: can two sessions wait for each other forever?

    [Network] runs a session against bytes that are on their way.  Here the two
    sessions run side by side over two byte channels of bounded capacity (the
    buffers of the sockets): [::send] waits while the channel is full and
    [::recv] while it is empty.  A session is its script: it sends a frame, then
    waits for the peer's frame of the same kind, four times over. *)
From S2P Require Import Prelude Text VectorClock Sha256 Chunker FileEntry CrdtStore EntryCodec Fs FileStore SyncEngine Frames Messages Network.

(** ** Scripts and their interleaving *)
Inductive op := Send (n : nat) | Recv (n : nat).

(** What is left of the two scripts, and the bytes in the channel from the first
    side to the second and back. *)
Record Link := mkLink { script_a : list op; script_b : list op; chan_ab : nat; chan_ba : nat }.

Section Capacity.
Context (cap : nat).

(** One step of the side with script [q], which sends into [o] and receives from
    [i]: a byte is sent when there is room, a byte is received when there is
    one, and a call whose bytes are through returns. *)
Inductive side_step : list op → nat → nat → list op → nat → nat → Prop :=
| side_send n q o i : o < cap → side_step (Send (S n) :: q) o i (Send n :: q) (S o) i
| side_sent q o i : side_step (Send 0 :: q) o i q o i
| side_recv n q o i : side_step (Recv (S n) :: q) o (S i) (Recv n :: q) o i
| side_received q o i : side_step (Recv 0 :: q) o i q o i.

Inductive link_step : Link → Link → Prop :=
| step_a qa qb ab ba qa' ab' ba' :
    side_step qa ab ba qa' ab' ba' → link_step (mkLink qa qb ab ba) (mkLink qa' qb ab' ba')
| step_b qa qb ab ba qb' ab' ba' :
    side_step qb ba ab qb' ba' ab' → link_step (mkLink qa qb ab ba) (mkLink qa qb' ab' ba').

(** Both scripts are through. *)
Definition complete (s : Link) : Prop := script_a s = [] ∧ script_b s = [].
(** Neither side can move, and not because both are through. *)
Definition deadlocked (s : Link) : Prop := ¬ complete s ∧ ∀ s', ¬ link_step s s'.

(** The scripts for rounds of frames of the given lengths. *)
Definition script (l : list (nat * nat)) : list op := concat (map (λ r, [Send r.1; Recv r.2]) l).
Definition swap (r : nat * nat) : nat * nat := (r.2, r.1).
Definition start (l : list (nat * nat)) : Link := mkLink (script l) (script (map swap l)) 0 0.

(** ** What is left to send and to receive *)
Definition sends (q : list op) : nat := sum_list_with (λ o, match o with Send n => n | Recv _ => 0 end) q.
Definition recvs (q : list op) : nat := sum_list_with (λ o, match o with Send _ => 0 | Recv n => n end) q.

Lemma side_step_counts q o i q' o' i' :
  side_step q o i q' o' i' →
  sends q' + o' = sends q + o ∧ recvs q' + i = recvs q + i' ∧ (o ≤ cap → o' ≤ cap) ∧
  sends q' + recvs q' + length q' < sends q + recvs q + length q.
Proof. destruct 1; simpl; lia. Qed.

(** [q] is what is left of the script of [l]. *)
Inductive left_of : list (nat * nat) → list op → Prop :=
| left_start l : left_of l (script l)
| left_sending s a b l : s ≤ a → left_of ((a, b) :: l) (Send s :: Recv b :: script l)
| left_receiving r a b l : r ≤ b → left_of ((a, b) :: l) (Recv r :: script l).

Lemma side_step_left l k q o i q' o' i' :
  side_step q o i q' o' i' → left_of (drop k l) q → ∃ k', left_of (drop k' l) q'.
Proof.
  intros Hs Hl. remember (drop k l) as l0 eqn:E.
  assert (∀ a b t, drop k l = (a, b) :: t → drop (S k) l = t) as Hd.
  { intros a b t H. by rewrite <- Nat.add_1_r, <- drop_drop, H. }
  destruct Hl as [l0|s a b t Hle|r a b t Hle].
  - destruct l0 as [|[a b] t]; simpl in Hs; inversion Hs; subst; exists k; rewrite <- E; constructor; lia.
  - inversion Hs; subst; exists k; rewrite <- E; constructor; lia.
  - inversion Hs; subst.
    + exists k. rewrite <- E. constructor. lia.
    + exists (S k). rewrite (Hd a b t) by done. constructor.
Qed.

(** ** The invariant *)
Record link_inv (l : list (nat * nat)) (s : Link) : Prop := {
  li_a : ∃ i, left_of (drop i l) (script_a s);
  li_b : ∃ j, left_of (drop j (map swap l)) (script_b s);
  li_ab : recvs (script_b s) = chan_ab s + sends (script_a s);
  li_ba : recvs (script_a s) = chan_ba s + sends (script_b s);
  li_cap : chan_ab s ≤ cap ∧ chan_ba s ≤ cap;
}.

Lemma sends_script l : sends (script l) = sum_list_with fst l.
Proof. induction l as [|[a b] l IH]; [done|]. simpl. by f_equal. Qed.
Lemma recvs_script l : recvs (script l) = sum_list_with snd l.
Proof. induction l as [|[a b] l IH]; [done|]. simpl. by f_equal. Qed.
Lemma sends_swap l : sum_list_with fst (map swap l) = sum_list_with snd l.
Proof. induction l as [|[a b] l IH]; simpl; lia. Qed.
Lemma recvs_swap l : sum_list_with snd (map swap l) = sum_list_with fst l.
Proof. induction l as [|[a b] l IH]; simpl; lia. Qed.

Lemma link_inv_start l : link_inv l (start l).
Proof.
  split; simpl; [exists 0; constructor|exists 0; constructor|..|lia];
    by rewrite sends_script, recvs_script, ?sends_swap, ?recvs_swap.
Qed.

Lemma link_inv_step l s s' : link_step s s' → link_inv l s → link_inv l s'.
Proof.
  intros Hs [[i Hi] [j Hj] Hab Hba [Hca Hcb]].
  destruct Hs as [qa qb ab ba qa' ab' ba' H|qa qb ab ba qb' ab' ba' H]; simpl in *;
    pose proof (side_step_counts _ _ _ _ _ _ H) as (H1 & H2 & H3 & _);
    destruct (side_step_left _ _ _ _ _ _ _ _ H ltac:(eassumption)) as [k Hk];
    split; simpl; eauto; try lia.
  - inversion H; subst; lia.
  - inversion H; subst; lia.
Qed.

Lemma link_inv_reachable l s : rtc link_step (start l) s → link_inv l s.
Proof.
  intros Hr. pose proof (link_inv_start l) as H0. revert H0.
  induction Hr as [|s0 s1 s2 Hstep _ IH]; [done|]. intros H0. by eapply IH, link_inv_step.
Qed.

(** ** Why neither side can move *)

(** A side that cannot move: it is through, its channel is full, or nothing has
    arrived. *)
Inductive waiting (l : list (nat * nat)) (o i : nat) : list op → Prop :=
| waiting_through : l = [] → waiting l o i []
| waiting_send s a b t q : l = (a, b) :: t → 0 < s ≤ a → o = cap →
    sends q = s + sum_list_with fst t → recvs q = b + sum_list_with snd t → waiting l o i q
| waiting_recv r a b t q : l = (a, b) :: t → 0 < r ≤ b → i = 0 →
    sends q = sum_list_with fst t → recvs q = r + sum_list_with snd t → waiting l o i q.

Lemma stuck_waiting l q o i :
  left_of l q → o ≤ cap → (∀ q' o' i', ¬ side_step q o i q' o' i') → waiting l o i q.
Proof.
  intros Hl Ho Hs.
  assert (∀ n k, q = Send n :: k → 0 < n ∧ o = cap) as Hsend.
  { intros [|n] k ->; [by destruct (Hs _ _ _ (side_sent _ _ _))|]. split; [lia|].
    destruct (decide (o < cap)) as [Hlt|]; [|lia]. by destruct (Hs _ _ _ (side_send _ _ _ i Hlt)). }
  assert (∀ n k, q = Recv n :: k → 0 < n ∧ i = 0) as Hrecv.
  { intros [|n] k ->; [by destruct (Hs _ _ _ (side_received _ _ _))|]. split; [lia|].
    destruct i as [|i]; [done|]. by destruct (Hs _ _ _ (side_recv _ _ _ _)). }
  destruct Hl as [[|[a b] l]|s a b l Hle|r a b l Hle]; [by constructor|..].
  - destruct (Hsend a _ eq_refl). apply (waiting_send _ _ _ a a b l); [done|lia|done|..];
      by rewrite <- ?sends_script, <- ?recvs_script.
  - destruct (Hsend s _ eq_refl). apply (waiting_send _ _ _ s a b l); [done|lia|done|..];
      by rewrite <- ?sends_script, <- ?recvs_script.
  - destruct (Hrecv r _ eq_refl). apply (waiting_recv _ _ _ r a b l); [done|lia|done|..];
      by rewrite <- ?sends_script, <- ?recvs_script.
Qed.

Lemma sum_drop_le {A} (f : A → nat) k l : sum_list_with f (drop k l) ≤ sum_list_with f l.
Proof. revert k. induction l as [|x l IH]; intros [|k]; simpl; [lia..|]. specialize (IH k). lia. Qed.

Lemma sum_later {A} (f : A → nat) i j l x t :
  drop i l = x :: t → i < j → sum_list_with f (drop j l) ≤ sum_list_with f t.
Proof.
  intros Hd Hij. replace j with (i + (1 + (j - i - 1))) by lia. rewrite <- drop_drop, Hd.
  change (drop (1 + (j - i - 1)) (x :: t)) with (drop (j - i - 1) t). apply sum_drop_le.
Qed.

Lemma drop_swap j l : drop j (map swap l) = map swap (drop j l).
Proof. revert j. induction l as [|x l IH]; intros [|j]; [done..|apply IH]. Qed.

(** In a deadlock both sides are sending, in the same round. *)
Lemma deadlock_round l s :
  0 < cap → link_inv l s → deadlocked s → ∃ i a b, l !! i = Some (a, b) ∧ cap < a ∧ cap < b.
Proof.
  intros Hcap [[i Hi] [j Hj] Hab Hba [Hca Hcb]] [Hnc Hno]. destruct s as [qa qb ab ba]; simpl in *.
  assert (waiting (drop i l) ab ba qa) as Ha.
  { apply stuck_waiting; [done|done|]. intros q' o' i' H. by eapply Hno, step_a. }
  assert (waiting (drop j (map swap l)) ba ab qb) as Hb.
  { apply stuck_waiting; [done|done|]. intros q' o' i' H. by eapply Hno, step_b. }
  rewrite drop_swap in Hb. clear Hi Hj Hno.
  assert (∀ b a t, map swap (drop j l) = (b, a) :: t → ∃ u, drop j l = (a, b) :: u ∧
    sum_list_with fst t = sum_list_with snd u ∧ sum_list_with snd t = sum_list_with fst u) as Hu.
  { intros b a t. destruct (drop j l) as [|[a' b'] u]; [done|]. intros [= <- <- <-].
    exists u. by rewrite sends_swap, recvs_swap. }
  destruct Ha as [Ea|sa a b t q Ea Hsa Hfa Hs1 Hr1|ra a b t q Ea Hra Hfa Hs1 Hr1],
    Hb as [Eb|sb b' a' t' q' Eb Hsb Hfb Hs2 Hr2|rb b' a' t' q' Eb Hrb Hfb Hs2 Hr2]; simpl in *.
  - by destruct Hnc.
  - lia.
  - lia.
  - lia.
  - destruct (Hu _ _ _ Eb) as (u & Eu & H1 & H2).
    destruct (lt_eq_lt_dec i j) as [[Hij| <-]|Hij].
    + pose proof (sum_later fst i j l _ _ Ea Hij) as H. rewrite Eu in H. simpl in H. lia.
    + rewrite Ea in Eu. injection Eu as <- <- <-. exists i, a, b. split; [|lia].
      by rewrite <- (Nat.add_0_r i), <- lookup_drop, Ea.
    + pose proof (sum_later snd j i l _ _ Eu Hij) as H. rewrite Ea in H. simpl in H. lia.
  - destruct (Hu _ _ _ Eb) as (u & Eu & H1 & H2). lia.
  - lia.
  - lia.
  - destruct (Hu _ _ _ Eb) as (u & Eu & H1 & H2).
    destruct (lt_eq_lt_dec i j) as [[Hij| <-]|Hij].
    + pose proof (sum_later snd i j l _ _ Ea Hij) as H. rewrite Eu in H. simpl in H.
      pose proof (sum_later fst i j l _ _ Ea Hij) as H'. rewrite Eu in H'. simpl in H'. lia.
    + rewrite Ea in Eu. injection Eu as <- <- <-. lia.
    + pose proof (sum_later fst j i l _ _ Eu Hij) as H. rewrite Ea in H. simpl in H.
      pose proof (sum_later snd j i l _ _ Eu Hij) as H'. rewrite Ea in H'. simpl in H'. lia.
Qed.

(** ** Every run ends *)

Definition weight (s : Link) : nat :=
  (sends (script_a s) + recvs (script_a s) + length (script_a s)) +
  (sends (script_b s) + recvs (script_b s) + length (script_b s)).

Lemma link_step_weight s s' : link_step s s' → weight s' < weight s.
Proof. intros [? ? ? ? ? ? ? H|? ? ? ? ? ? ? H]; apply side_step_counts in H; unfold weight; simpl; lia. Qed.

Lemma nsteps_weight n s s' : nsteps link_step n s s' → n + weight s' ≤ weight s.
Proof. induction 1 as [|n s0 s1 s2 H%link_step_weight _ IH]; [done|lia]. Qed.

(** Whether a side can move is decidable. *)
Lemma side_step_dec q o i : (∃ q' o' i', side_step q o i q' o' i') ∨ ∀ q' o' i', ¬ side_step q o i q' o' i'.
Proof.
  destruct q as [|[[|n]|[|n]] q].
  - right. intros ? ? ? H. inversion H.
  - left. eexists _, _, _. constructor.
  - destruct (decide (o < cap)); [left; eexists _, _, _; by constructor|right].
    intros ? ? ? H. inversion H. lia.
  - left. eexists _, _, _. constructor.
  - destruct i as [|i]; [right; intros ? ? ? H; inversion H|left; eexists _, _, _; constructor].
Qed.

Lemma progress s : (∃ s', link_step s s') ∨ complete s ∨ deadlocked s.
Proof.
  destruct s as [qa qb ab ba].
  destruct (side_step_dec qa ab ba) as [(? & ? & ? & H)|Ha]; [left; eexists; by apply step_a|].
  destruct (side_step_dec qb ba ab) as [(? & ? & ? & H)|Hb]; [left; eexists; by apply step_b|].
  right. destruct (decide (qa = [] ∧ qb = [])) as [Hc|Hc]; [by left|right].
  split; [done|]. intros s' H. inversion H; subst; naive_solver.
Qed.

(** From any state a run reaches one that is complete or deadlocked. *)
Lemma run_ends s : ∃ s', rtc link_step s s' ∧ (complete s' ∨ deadlocked s').
Proof.
  induction s as [s IH] using (well_founded_induction (well_founded_ltof _ weight)).
  destruct (progress s) as [[s1 H]|H]; [|by exists s].
  destruct (IH s1) as (s' & Hr & Hs'); [by apply link_step_weight|]. exists s'. split; [by eapply rtc_l|done].
Qed.

(** ** Reaching a deadlock *)

Lemma side_step_frame q o i q' o' i' r : side_step q o i q' o' i' → side_step (q ++ r) o i (q' ++ r) o' i'.
Proof. destruct 1; by constructor. Qed.

Lemma link_step_frame s s' ra rb :
  rtc link_step s s' →
  rtc link_step (mkLink (script_a s ++ ra) (script_b s ++ rb) (chan_ab s) (chan_ba s))
    (mkLink (script_a s' ++ ra) (script_b s' ++ rb) (chan_ab s') (chan_ba s')).
Proof.
  induction 1 as [|s0 s1 s2 H _ IH]; [done|]. eapply rtc_l; [|exact IH].
  destruct H; simpl; [apply step_a|apply step_b]; by apply side_step_frame.
Qed.

Lemma fill_a k a qa qb ab ba :
  ab + k ≤ cap →
  rtc link_step (mkLink (Send (k + a) :: qa) qb ab ba) (mkLink (Send a :: qa) qb (ab + k) ba).
Proof.
  revert ab. induction k as [|k IH]; intros ab Hk; [by rewrite Nat.add_0_r|].
  eapply rtc_l; [apply step_a, side_send; lia|]. replace (ab + S k) with (S ab + k) by lia. apply IH. lia.
Qed.

Lemma fill_b k b qa qb ab ba :
  ba + k ≤ cap →
  rtc link_step (mkLink qa (Send (k + b) :: qb) ab ba) (mkLink qa (Send b :: qb) ab (ba + k)).
Proof.
  revert ba. induction k as [|k IH]; intros ba Hk; [by rewrite Nat.add_0_r|].
  eapply rtc_l; [apply step_b, side_send; lia|]. replace (ba + S k) with (S ba + k) by lia. apply IH. lia.
Qed.

Lemma both_full a b l :
  cap < a → cap < b → ∃ s, rtc link_step (start ((a, b) :: l)) s ∧ deadlocked s.
Proof.
  intros Ha Hb.
  change (start ((a, b) :: l))
    with (mkLink (Send a :: Recv b :: script l) (Send b :: Recv a :: script (map swap l)) 0 0).
  assert (Send a = Send (cap + (a - cap))) as -> by (f_equal; lia).
  assert (Send b = Send (cap + (b - cap))) as -> by (f_equal; lia).
  eexists. split.
  - etrans; [apply (fill_a cap (a - cap)); lia|]. apply (fill_b cap (b - cap)). lia.
  - split; [by intros [? ?]|]. simpl.
    destruct (a - cap) eqn:E1, (b - cap) eqn:E2; try lia.
    intros s' H. inversion H as [? ? ? ? ? ? ? H'|? ? ? ? ? ? ? H']; subst; inversion H'; lia.
Qed.

Definition too_large (r : nat * nat) : Prop := cap < r.1 ∧ cap < r.2.
#[local] Instance too_large_dec r : Decision (too_large r).
Proof. unfold too_large. apply _. Defined.

Lemma completed_channels l s : link_inv l s → complete s → s = mkLink [] [] 0 0.
Proof.
  intros [_ _ Hab Hba _] [Ha Hb]. destruct s as [qa qb ab ba]; simpl in *. subst. simpl in *. f_equal; lia.
Qed.

Lemma no_deadlock l s :
  0 < cap → Forall (λ r, ¬ too_large r) l → rtc link_step (start l) s → ¬ deadlocked s.
Proof.
  intros Hcap Hl Hr Hd. destruct (deadlock_round l s Hcap (link_inv_reachable l s Hr) Hd) as (i & a & b & Hi & H1 & H2).
  rewrite Forall_lookup in Hl. by apply (Hl i (a, b)).
Qed.

Lemma deadlock_reachable l :
  0 < cap → Exists too_large l → ∃ s, rtc link_step (start l) s ∧ deadlocked s.
Proof.
  intros Hcap. induction l as [|[a b] l IH]; intros Hl; [inversion Hl|].
  destruct (decide (too_large (a, b))) as [[Ha Hb]|Hn]; [by apply both_full|].
  inversion_clear Hl as [|? ? Hl']; [done|]. destruct (IH Hl') as (s & Hs & Hd).
  exists s. split; [|done]. etrans; [|exact Hs].
  destruct (run_ends (start [(a, b)])) as (s1 & Hr & Hend).
  assert (complete s1) as Hc.
  { destruct Hend as [?|Hd1]; [done|]. exfalso. by apply (no_deadlock [(a, b)] s1 Hcap ltac:(by repeat constructor) Hr). }
  pose proof (completed_channels _ _ (link_inv_reachable _ _ Hr) Hc) as ->.
  exact (link_step_frame _ _ (script l) (script (map swap l)) Hr).
Qed.

(** Every run can be completed, and no run is longer than the weight of the start. *)
Definition always_completes (l : list (nat * nat)) : Prop :=
  ∀ s, rtc link_step (start l) s → ∃ s', rtc link_step s s' ∧ complete s'.

Lemma always_completes_iff l :
  0 < cap → (always_completes l ↔ Forall (λ r, ¬ too_large r) l).
Proof.
  intros Hcap. split.
  - intros Hall. apply Forall_forall. intros r Hr Hbig.
    destruct (deadlock_reachable l Hcap) as (s & Hs & Hnc & Hno).
    { apply Exists_exists. by exists r. }
    destruct (Hall s Hs) as (s' & Hr' & Hc). inversion Hr' as [|? s1 ? Hstep]; subst; [done|]. by apply (Hno s1).
  - intros Hl s Hs. destruct (run_ends s) as (s' & Hr & [Hc|Hd]); [by exists s'|].
    exfalso. apply (no_deadlock l s' Hcap Hl); [by etrans|done].
Qed.
End Capacity.

(** ** The script of a session

    A session that runs out of bytes stops at the receive it has come to: it has
    sent one frame more than it was given. *)

Definition outgoing (w : World) (l : list FileEntry) (hs : list Digest) : list bytes := [
  frame FRAME_MANIFEST (serialize_manifest (engine w));
  frame FRAME_CHUNK_REQUEST (serialize_hash_list (request_of w l));
  frame FRAME_CHUNK_DATA (records (reply_of w hs)); frame FRAME_DONE []].
Definition incoming (m : bytes) (hs : list Digest) (recs : list (Digest * bytes)) : list bytes := [
  frame FRAME_MANIFEST m; frame FRAME_CHUNK_REQUEST (serialize_hash_list hs);
  frame FRAME_CHUNK_DATA (records recs); frame FRAME_DONE []].

Lemma recv_frame_blocked c : delivers c [] → (recv_frame c).2 = c ∧ ∀ x, (recv_frame c).1 ≠ Ok (Some x).
Proof.
  intros [Hs Hne]. assert (inbox c = []) as Hi.
  { destruct (inbox c) as [|seg rest]; [done|]. apply app_nil in Hs as [-> _]. by inversion Hne. }
  unfold recv_frame, recv_all, mbind, stateM_bind. cbn [recv_loop]. rewrite decide_True by (simpl; lia).
  unfold recv. rewrite Hi. by destruct (in_error c).
Qed.

Lemma expect_blocked {A} t msg w c (k : bytes → stateM Peer A) :
  delivers c [] → (mbind k (expect t msg) (mkPeer w c)).2 = mkPeer w c.
Proof.
  intros Hd. destruct (recv_frame_blocked c Hd) as [H1 H2]. unfold expect, on_conn, mbind, stateM_bind.
  cbn [conn world]. destruct (recv_frame c) as [[[x|]|e|] c']; cbn [fst snd] in *; subst; try done.
  by destruct (H2 x).
Qed.

Ltac next_send c' M Hd Hw :=
  match goal with |- context [mbind ?k (on_conn (send_frame ?t ?p)) (mkPeer ?w ?c)] =>
    destruct (send_frame_step t p w c _ k Hd Hw) as (c' & -> & M) end.
Ltac next_recv c' M Hd Hw Hf :=
  match goal with |- context [mbind ?k (expect ?t ?msg) (mkPeer ?w ?c)] =>
    destruct (expect_step t msg _ w c _ k Hd Hw Hf) as (c' & -> & M) end.

Lemma session_prefix w c m l hs recs f1 w2 w3 k :
  session_setting w m l hs recs f1 w2 w3 → delivers c (concat (take k (incoming m hs recs))) → willing c →
  outbox (conn (run_sync_session (mkPeer w c)).2) = outbox c ++ concat (take (S k) (outgoing w l hs)).
Proof.
  intros [Hr Hsm Hm Hhs Hrecs (Hf1 & Hf2 & Hf3) Hput Hmat Hsave] Hd Hw.
  destruct (request_of_ok w l (parse_manifest_wf m l Hm)) as (Hreq & _).
  unfold run_sync_session, incoming, outgoing in *. rewrite (bind_ok _ _ _ w (mkPeer w c)) by done. cbv zeta.
  next_send c1 M1 Hd Hw. destruct M1 as [O1 D1 W1]. destruct k as [|k]; cbn [take concat] in *.
  { rewrite expect_blocked by done. cbn [conn]. by rewrite O1, app_nil_r. }
  next_recv c2 M2 D1 W1 Hf1. destruct M2 as [O2 D2 W2].
  rewrite (bind_ok _ _ _ l (mkPeer w c2)) by (unfold lift; by rewrite Hm). fold (merged w l).
  rewrite (bind_ok _ _ _ tt _ (on_world_ok (modify (set_store (merged w l).1)) w c2 (Ok tt) _ eq_refl)).
  rewrite (bind_ok _ _ _ (request_of w l) (mkPeer (set_store (merged w l).1 w) c2))
    by (unfold lift; by rewrite Hreq).
  next_send c3 M3 D2 W2. destruct M3 as [O3 D3 W3]. destruct k as [|k]; cbn [take concat] in *.
  { rewrite expect_blocked by done. cbn [conn]. by rewrite O3, O2, O1, !app_nil_r, <- app_assoc. }
  next_recv c4 M4 D3 W3 Hf2. destruct M4 as [O4 D4 W4].
  rewrite (bind_ok _ _ _ hs _) by (unfold lift; by rewrite parse_hash_list_serialize).
  rewrite (bind_ok _ _ _ (records (reply_of w hs)) _) by (unfold lift; by rewrite collect_chunks_stored).
  next_send c5 M5 D4 W4. destruct M5 as [O5 D5 W5]. destruct k as [|k]; cbn [take concat] in *.
  { rewrite expect_blocked by done. cbn [conn]. by rewrite O5, O4, O3, O2, O1, !app_nil_r, <- !app_assoc. }
  next_recv c6 M6 D5 W5 Hf3. destruct M6 as [O6 D6 W6].
  rewrite (bind_ok _ _ _ _ _ (on_world_ok _ _ c6 _ _ (on_disk_ok _ (set_store (merged w l).1 w) _ _
    (receive_chunks_records _ recs _ _ Hrecs Hput)))).
  assert ((merged w l).1 = merge_all (store_of w) l) as Hst by apply merge_loop_store. rewrite Hst.
  rewrite (bind_ok _ _ _ _ _ (on_world_ok _ _ c6 _ _ Hmat)).
  rewrite (bind_ok _ _ _ _ _ (on_world_ok _ _ c6 _ _ Hsave)).
  next_send c7 M7 D6 W6. destruct M7 as [O7 D7 W7].
  assert (outbox (recv_frame c7).2 = outbox c7) as O8.
  { destruct k as [|k]; cbn [take concat] in *; [by rewrite (proj1 (recv_frame_blocked c7 D7))|].
    destruct (recv_frame_moved FRAME_DONE [] c7 []) as (c8 & -> & [O8 _ _]); [|done|done|cbn [snd]; by rewrite O8, app_nil_r].
    by rewrite take_nil in D7. }
  rewrite take_nil. unfold on_conn at 1, mbind at 1, stateM_bind at 1. cbn [conn].
  destruct (recv_frame c7) as [[x|e|] c8]; cbv [mret stateM_ret]; cbn [snd conn] in *;
    by rewrite O8, O7, O6, O5, O4, O3, O2, O1, !app_nil_r, <- !app_assoc.
Qed.

(** ** Properties *)

(** The frames [a] sends in its session with [b], and the rounds of the two. *)
Definition frames_of (a b : World) : list bytes :=
  outgoing a (all_entries (store_of b)) (request_of b (all_entries (store_of a))).
Definition rounds (a b : World) : list (nat * nat) := zip (length <$> frames_of a b) (length <$> frames_of b a).

(** C27: A session speaks and listens in turn: a sound node that has been given the first
    [k] of its peer's frames, cut up in any way, has sent exactly the first [k + 1]
    frames of its own, whatever [send] takes per call; it sends the whole of a
    frame before it receives the peer's frame of the same kind. *)
Theorem session_alternates a b c k :
  node_ready a → node_ready b → syncable a (all_entries (store_of b)) → messages_fit a b →
  willing c → delivers c (concat (take k (frames_of b a))) →
  outbox (conn (run_sync_session (mkPeer a c)).2) = outbox c ++ concat (take (S k) (frames_of a b)).
Proof.
  intros Ha Hb Hs Hf Hw Hd. destruct (session_between a b Ha Hb Hs Hf) as (_ & f1 & w2 & Hset & _).
  exact (session_prefix _ _ _ _ _ _ _ _ _ k Hset Hd Hw).
Qed.

Lemma session_alternates_witness :
  outbox (conn (run_sync_session (mkPeer sample_node (drip (concat (take 2 (frames_of sample_peer sample_node)))))).2)
    = concat (take 3 (frames_of sample_node sample_peer)).
Proof.
  apply (session_alternates sample_node sample_peer (drip _) 2).
  - apply sample_node_ready.
  - apply sample_peer_ready.
  - split; by_decide.
  - unfold messages_fit, fits. by_decide.
  - apply drip_ok.
  - apply drip_ok.
Defined.

(** C13: Two sessions cannot wait for each other forever unless both frames of one
    round are larger than a channel: over channels of [cap] bytes, every run of the two
    scripts, however their steps interleave, can be completed, exactly when in
    each round one of the two frames fits the channel; and no run has more steps
    than bytes and calls. *)
Theorem sessions_complete_iff cap a b :
  0 < cap →
  (always_completes cap (rounds a b) ↔
    ∀ i x y, frames_of a b !! i = Some x → frames_of b a !! i = Some y → length x ≤ cap ∨ length y ≤ cap) ∧
  ∀ n s, nsteps (link_step cap) n (start (rounds a b)) s → n ≤ weight (start (rounds a b)).
Proof.
  intros Hcap. split; [|intros n s H; pose proof (nsteps_weight cap _ _ _ H); lia].
  rewrite (always_completes_iff cap _ Hcap), Forall_lookup. split.
  - intros H i x y Hx Hy. specialize (H i (length x, length y)). unfold too_large in H. cbn [fst snd] in H.
    destruct (decide (length x ≤ cap)); [by left|right]. apply not_lt. intros Hy'.
    apply H; [|lia]. unfold rounds. apply lookup_zip_Some. by rewrite !list_lookup_fmap, Hx, Hy.
  - intros H i [n m] [Hn Hm]%lookup_zip_Some [H1 H2]. cbn [fst snd] in *.
    apply list_lookup_fmap_Some in Hn as (x & -> & Hx). apply list_lookup_fmap_Some in Hm as (y & -> & Hy).
    destruct (H i x y Hx Hy); lia.
Qed.

(** Two nodes that each have a file the other lacks. *)
Definition sample_large_a : World := (ingest_file (str "a.txt") (replicate 300 "a"%char) sample_node).2.
Definition sample_large_b : World := (ingest_file (str "b.txt") (replicate 400 "b"%char) sample_start).2.

Lemma sessions_complete_iff_witness :
  always_completes 8 (rounds sample_node sample_peer) ∧
  ¬ always_completes 250 (rounds sample_large_a sample_large_b).
Proof.
  split.
  - apply (sessions_complete_iff 8 sample_node sample_peer); [lia|].
    assert (Forall (λ r, length r.1 ≤ 8 ∨ length r.2 ≤ 8)
      (zip (frames_of sample_node sample_peer) (frames_of sample_peer sample_node))) as H by by_decide.
    intros i x y Hx Hy. rewrite Forall_lookup in H. apply (H i (x, y)). apply lookup_zip_Some. done.
  - intros H. pose proof (proj1 (proj1 (sessions_complete_iff 250 sample_large_a sample_large_b ltac:(lia))) H) as H'.
    assert (length <$> frames_of sample_large_a sample_large_b !! 2 = Some 341) as Hx by (vm_compute; reflexivity).
    assert (length <$> frames_of sample_large_b sample_large_a !! 2 = Some 441) as Hy by (vm_compute; reflexivity).
    apply fmap_Some in Hx as (x & Hx & Ex). apply fmap_Some in Hy as (y & Hy & Ey).
    destruct (H' 2 x y Hx Hy); lia.
Defined.
