(* ===== verification/Replica.v ===== *)
(** * Replica: what a node promises, and that the engine keeps the promise

    The specification forgets chunks, hashes, trees, journal and disk: a replica
    is a map from paths to versions, an operation changes one version at once, and
    a restart or a crash in the middle of an operation changes nothing.  The
    engine of [SyncEngine] is shown to implement it. *)
From S2P Require Import Prelude Text VectorClock Sha256 Chunker MerkleTree FileEntry CrdtStore EntryCodec Fs FileStore SyncEngine.

(** ** The specification *)

(** A version of a file; no content is a deletion. *)
Record Version := mkVersion { content : option bytes; vclock : VectorClock; writer : bytes }.
Abbreviation Replica := (gmap bytes Version).

(** Where a crash hits [ingest_file]: after some chunks were stored, or after the
    file was materialized, before the journal is saved. *)
Inductive crash_point := after_chunks (k : nat) | before_journal.

Inductive local_op :=
| Write (p b : bytes)
| Remove (p : bytes)
| Reopen
| CrashedWrite (p b : bytes) (at_ : crash_point).

Definition clock_of (σ : Replica) (p : bytes) : VectorClock :=
  match σ !! p with Some v => vclock v | None => empty_clock end.

Definition spec_step (id : bytes) (σ : Replica) (o : local_op) : Replica :=
  match o with
  | Write p b => <[p := mkVersion (Some b) (increment (clock_of σ p) id) id]> σ
  | Remove p => <[p := mkVersion None (increment (clock_of σ p) id) id]> σ
  | Reopen | CrashedWrite _ _ _ => σ
  end.

(** ** The implementation *)

(** A new process in the node's directory; the old one's memory is gone. *)
Definition reopen (w : World) : option World :=
  match new_engine (engine_id (engine w)) (data_dir_ (engine w)) (disk w) with
  | (Ok e, f) => Some (mkWorld e f (stdout w))
  | _ => None
  end.

(** The state in which [ingest_file] is interrupted. *)
Definition crashed (p b : bytes) (at_ : crash_point) (w : World) : World :=
  match at_ with
  | after_chunks k =>
      (on_disk (for_each (take k (chunk (chunker_ (engine w)) b)) (put_chunk (blobs_of w))) w).2
  | before_journal => ((ingest_record p b ;! materialize p) w).2
  end.

Definition exec (w : World) (o : local_op) : option World :=
  match o with
  | Write p b => match ingest_file p b w with (Ok _, w') => Some w' | _ => None end
  | Remove p => match delete_file p w with (Ok _, w') => Some w' | _ => None end
  | Reopen => reopen w
  | CrashedWrite p b at_ => reopen (crashed p b at_ w)
  end.

Fixpoint exec_all (w : World) (ops : list local_op) : option World :=
  match ops with
  | [] => Some w
  | o :: ops => w ← exec w o; exec_all w ops
  end.

Section Refinement.
(** The node's id, the paths in use, and the chunk contents among which the hash has
    no collision. *)
Context (id : bytes) (ps : list bytes) (stored_data : bytes → Prop).
Context (id_text : id_ok id).
Context (ps_plain : Forall plain ps) (ps_text : Forall (λ p, tab ∉ p ∧ newline ∉ p) ps).
Context (no_collision : ∀ d d', stored_data d → stored_data d' → hash d = hash d' → d = d').

(** The operations considered. *)
Definition op_ok (ck : Chunker) (o : local_op) : Prop :=
  match o with
  | Write p b | CrashedWrite p b _ => p ∈ ps ∧ ∀ c, c ∈ chunk ck b → stored_data (data c)
  | Remove p => p ∈ ps
  | Reopen => True
  end.

(** An entry stands for a version: its chunks are stored and make up the content. *)
Definition represents (b : FileStore) (f : fs) (e : FileEntry) (v : Version) : Prop :=
  clock e = vclock v ∧ last_writer e = writer v ∧
  match content v with
  | None => deleted e = true ∧ chunk_hashes e = []
  | Some d => deleted e = false ∧ reassemble b f (chunk_hashes e) = Ok d ∧ size e = u64 (N.of_nat (length d))
  end.

(** The node implements the replica: entries stand for versions, the disk holds
    what the next start will load, and there is room for every path. *)
Record implements (w : World) (σ : Replica) : Prop := {
  im_ok : engine_ok w;
  im_id : engine_id (engine w) = id;
  im_text : printable (store_of w);
  im_durable : journal_store (engine_id (engine w)) (data_dir_ (engine w)) (disk w) = Ok (store_of w);
  im_data : ∀ x d, length x = 32 → files (disk w) !! chunk_path (blobs_of w) x = Some d → stored_data d;
  im_room : placeable_all (engine w) (disk w) ps;
  im_versions : ∀ p, option_Forall2 (represents (blobs_of w) (disk w)) (entries_ (store_of w) !! p) (σ !! p);
}.

(** ** States between the steps of an operation *)

Lemma represents_mono b f f' e v :
  (∀ x d, files f !! chunk_path b x = Some d → files f' !! chunk_path b x = Some d) →
  represents b f e v → represents b f' e v.
Proof.
  intros Hf (H1 & H2 & H3). split; [done|]. split; [done|]. destruct (content v) as [d|]; [|done].
  destruct H3 as (? & Hr & ?). split_and!; [done|by eapply reassemble_mono|done].
Qed.

(** The same node later: its memory may be ahead of the disk. *)
Record evolves (w w' : World) : Prop := {
  ev_engine : ∃ s, engine w' = with_store s (engine w);
  ev_ok : engine_ok w';
  ev_chunks : ∀ x d, files (disk w) !! chunk_path (blobs_of w) x = Some d →
    files (disk w') !! chunk_path (blobs_of w) x = Some d;
  ev_data : ∀ x d, length x = 32 → files (disk w') !! chunk_path (blobs_of w) x = Some d → stored_data d;
  ev_room : placeable_all (engine w) (disk w') ps;
}.

Definition same_journal (w w' : World) : Prop :=
  files (disk w') !! journal_path (engine w) = files (disk w) !! journal_path (engine w).

Lemma evolves_blobs w w' : evolves w w' → blobs_of w' = blobs_of w.
Proof. intros [[s He] _ _ _ _]. unfold blobs_of. by rewrite He. Qed.

Lemma journal_written_evolves w w' : engine_ok w → evolves w w' → evolves w (journal_written w').
Proof.
  intros Hw [[s He] Hok Hc Hd Hr]. pose proof (ok_wired _ Hw) as Hwi.
  assert (∀ q, q ≠ journal_path (engine w) →
    files (disk (journal_written w')) !! q = files (disk w') !! q) as Hsame.
  { intros q Hq. cbn [journal_written disk files]. rewrite He. by rewrite lookup_insert_ne. }
  assert (∀ x, journal_path (engine w) ≠ chunk_path (blobs_of w) x) as Hj
    by (intros x; by apply (journal_not_chunk (engine w))).
  split; [by exists s|by apply save_journal_ok| | |].
  - intros x d Hx. rewrite Hsame by done. auto.
  - intros x d Hx. rewrite Hsame by done. by apply Hd.
  - eapply placeable_all_frame; [done|done|exact Hr|by left|]. intros q _ Hq. by apply Hsame.
Qed.

(** Saving the journal of a state that stands for [σ'] implements [σ']. *)
Lemma implements_saved w w' σ' :
  engine_ok w → engine_id (engine w) = id → evolves w w' → printable (store_of w') →
  (∀ p, option_Forall2 (represents (blobs_of w) (disk w')) (entries_ (store_of w') !! p) (σ' !! p)) →
  save_journal w' = (Ok tt, journal_written w') ∧ implements (journal_written w') σ'.
Proof.
  intros Hw Hid Hev Hp Hv. pose proof (journal_written_evolves w w' Hw Hev) as [[s He] Hok Hc Hd Hr].
  pose proof (evolves_blobs w w' Hev) as Hb. pose proof (ev_ok _ _ Hev) as Hok'.
  split; [by apply save_journal_ok|]. pose proof (ok_wired _ Hok) as Hwi.
  split; [done|by rewrite He|done| | | |].
  - unfold journal_store. cbn [journal_written disk files engine].
    change (data_dir_ (engine w') ++ str "/store.meta") with (journal_path (engine w')). rewrite lookup_insert_eq.
    pose proof (wired_id _ (ok_wired _ Hok')) as Hn. rewrite <- Hn. by apply load_journal_text; [apply Hok'|].
  - change (blobs_of (journal_written w')) with (blobs_of w'). by rewrite Hb.
  - rewrite He. destruct Hr as [Hr1 Hr2]. by split.
  - intros p. change (blobs_of (journal_written w')) with (blobs_of w'). rewrite Hb.
    specialize (Hv p). change (store_of (journal_written w')) with (store_of w').
    destruct (entries_ (store_of w') !! p), (σ' !! p); inversion Hv; subst; constructor.
    eapply represents_mono; [|done]. intros x d Hx.
    cbn [journal_written disk files]. rewrite lookup_insert_ne; [done|]. rewrite <- Hb.
    by apply journal_not_chunk, Hok'.
Qed.

(** A new process finds what the journal says, whatever was in memory. *)
Lemma reopen_ok w w' σ :
  implements w σ → evolves w w' → same_journal w w' →
  ∃ w'', reopen w' = Some w'' ∧ implements w'' σ ∧ store_of w'' = store_of w.
Proof.
  intros [Hok Hid Ht Hdur _ _ Hv] [[s He] Hok' Hc Hd Hr] Hj. pose proof (ok_wired _ Hok) as Hwi.
  pose proof (engine_ok_habitable _ Hok') as Hh.
  destruct (new_engine_eq (engine_id (engine w')) (data_dir_ (engine w')) (disk w') Hh)
    as (f & Hn & Hf & _ & _ & _ & Hdirs).
  assert (journal_store (engine_id (engine w')) (data_dir_ (engine w')) (disk w') = Ok (store_of w)) as Hjs.
  { rewrite <- Hdur, He. unfold journal_store. cbn [with_store engine_id data_dir_].
    unfold same_journal, journal_path in Hj. by rewrite Hj. }
  assert (engine_with (engine_id (engine w')) (data_dir_ (engine w')) (store_of w) = engine w) as Heq.
  { rewrite He. destruct Hwi as [H1 H2 H3 _ _]. unfold engine_with. cbn [with_store engine_id data_dir_]. rewrite <- H1, <- H2, <- H3.
    by destruct w as [[]]. }
  rewrite Hjs in Hn. simpl in Hn. rewrite Heq in Hn.
  pose proof (new_engine_ok _ _ _ _ _ (stdout w') Hh Hn) as Hok2.
  unfold reopen. rewrite Hn. eexists. split; [done|]. split; [|done].
  split; cbn [engine disk]; try done.
  - unfold journal_store in *. rewrite Hf, He in *. cbn [with_store engine_id data_dir_] in *. done.
  - intros x d Hx. change (blobs_of _) with (blobs_of w). rewrite Hf. by apply Hd.
  - eapply placeable_all_frame; [done|done|exact Hr| |by intros; rewrite Hf].
    intros q. rewrite Hdirs, elem_of_union, elem_of_list_to_set, He. cbn [with_store data_dir_].
    unfold chunk_dir. rewrite (wired_blobs _ Hwi). cbn [store_root]. rewrite <- app_assoc. tauto.
  - intros p. change (blobs_of _) with (blobs_of w). specialize (Hv p).
    change (store_of (mkWorld (engine w) f (stdout w'))) with (store_of w).
    destruct (entries_ (store_of w) !! p), (σ !! p); inversion Hv; subst; constructor.
    eapply represents_mono; [|done]. intros x d Hx. rewrite Hf. by apply Hc.
Qed.

(** ** Chunks of the operations *)

Lemma chunks_no_clash w σ cs :
  implements w σ → Forall (λ c, chunk_hash c = hash (data c)) cs → (∀ c, c ∈ cs → stored_data (data c)) →
  no_clash (blobs_of w) (disk w) cs.
Proof.
  intros Him Hh Hcs c Hc. rewrite Forall_forall in Hh. split.
  - intros d Hd E. apply no_collision; [|by apply Hcs|done].
    apply (im_data _ _ Him (chunk_hash c)); [rewrite (Hh c Hc); apply length_hash|done].
  - intros c' Hc' E. apply no_collision; [by apply Hcs..|done].
Qed.

Lemma chunks_grow_data w σ cs f :
  implements w σ → (∀ c, c ∈ cs → stored_data (data c)) → chunks_grow (blobs_of w) (disk w) cs f →
  ∀ x d, length x = 32 → files f !! chunk_path (blobs_of w) x = Some d → stored_data d.
Proof.
  intros Him Hcs [_ Hg] x d Hx [Hd|(c & Hc & _ & ->)]%Hg; [by apply (im_data _ _ Him x)|by apply Hcs].
Qed.

(** A disk that differs in its chunks only. *)
Lemma chunks_evolve w σ cs w' s :
  implements w σ → (∀ c, c ∈ cs → stored_data (data c)) → engine_ok w' → engine w' = with_store s (engine w) →
  dirs (disk w') = dirs (disk w) →
  (∀ q, (∀ x, q ≠ chunk_path (blobs_of w) x) → files (disk w') !! q = files (disk w) !! q) →
  chunks_grow (blobs_of w) (disk w) cs (disk w') → evolves w w' ∧ same_journal w w'.
Proof.
  intros Him Hcs Hok He Hd Hf Hg. pose proof (ok_wired _ (im_ok _ _ Him)) as Hwi. split.
  - split; [by exists s|done|intros x d; apply Hg|by eapply chunks_grow_data|].
    eapply placeable_all_frame; [done|done|apply Him|rewrite Hd; by left|]. intros q Hq _. by apply Hf.
  - apply Hf. intros x. by apply (journal_not_chunk (engine w)).
Qed.

(** A disk that differs in materialized files only. *)
Lemma evolves_targets w w1 w2 qs :
  engine_ok w → Forall plain qs → evolves w w1 → same_journal w w1 → engine w2 = engine w1 → engine_ok w2 →
  placeable_all (engine w) (disk w2) ps →
  (∀ q, (∀ p, p ∈ qs → q ≠ target (engine w) p) → files (disk w2) !! q = files (disk w1) !! q) →
  evolves w w2 ∧ same_journal w w2.
Proof.
  intros Hw Hp [[s He] _ Hc Hd _] Hj He2 Hok Hr Hf. pose proof (ok_wired _ Hw) as Hwi.
  rewrite Forall_forall in Hp.
  assert (∀ x, files (disk w2) !! chunk_path (blobs_of w) x = files (disk w1) !! chunk_path (blobs_of w) x) as Hch.
  { intros x. apply Hf. intros p Hin E. apply (target_not_chunk (engine w) p x); auto. }
  split.
  - split; [exists s; congruence|done| | |done]; intros x d; rewrite Hch; [apply Hc|apply Hd].
  - unfold same_journal. rewrite Hf; [done|]. intros p Hin E. apply (target_not_journal (engine w) p); auto.
Qed.

(** The states [ingest_file] passes through. *)
Lemma write_passes w σ p b :
  implements w σ → op_ok (chunker_ (engine w)) (Write p b) →
  ∃ r w1 w2, ingest_record p b w = (Ok tt, w1) ∧ materialize p w1 = (Ok tt, w2) ∧
    engine w2 = with_store (ingested w p b r) (engine w) ∧
    evolves w w2 ∧ same_journal w w2 ∧
    reassemble (blobs_of w) (disk w2) (chunk_hash <$> chunk (chunker_ (engine w)) b) = Ok b.
Proof.
  intros Him [Hp Hcs]. pose proof (im_ok _ _ Him) as Hw. pose proof (ok_wired _ Hw) as Hwi.
  pose proof (proj1 (Forall_forall _ _) ps_plain p Hp) as Hpl.
  destruct (ingest_prefix w p b Hw) as (r & f1 & _ & Hrec & Hw1 & Hd & Hf & Hre & Hg).
  set (w1 := mkWorld _ _ _) in *. cbv zeta in Hre, Hg.
  specialize (Hre (chunks_no_clash w σ _ Him (chunk_hashes_ok _ b) Hcs)).
  destruct (chunks_evolve w σ _ w1 (ingested w p b r) Him Hcs Hw1) as [Hev Hj]; [done..|].
  assert (get_entry (store_of w1) p = Some (mkEntry p (chunk_hash <$> chunk (chunker_ (engine w)) b) r
    (increment (clock_at (store_of w) p) (node_id_ (store_of w))) (node_id_ (store_of w)) false
    (u64 (N.of_nat (length b))))) as Hget by apply lookup_insert_eq.
  destruct (materialize_step w1 p ps Hw1 Hpl Hp (ev_room _ _ Hev)) as (w2 & Hm & He2 & Hw2 & Hr2 & Hf2 & _).
  { intros e He. rewrite Hget in He. injection He as <-. by exists b. }
  destruct (evolves_targets w w1 w2 [p] Hw) as [Hev2 Hj2]; try done; [by constructor| |].
  { intros q Hq. apply Hf2, Hq. by left. }
  exists r, w1, w2. split_and!; try done.
  rewrite <- Hre. apply reassemble_ext, Forall_true. intros x. apply Hf2. intros E.
  by apply (target_not_chunk (engine w) p x).
Qed.

Lemma node_id_implements w σ : implements w σ → node_id_ (store_of w) = id.
Proof. intros Him. rewrite <- (im_id _ _ Him). apply (wired_id _ (ok_wired _ (im_ok _ _ Him))). Qed.

Lemma clock_at_implements w σ p : implements w σ → clock_at (store_of w) p = clock_of σ p.
Proof.
  intros Him. unfold clock_at, clock_of. pose proof (im_versions _ _ Him p) as Hv.
  inversion Hv as [e v (Hc & _)|]; [done|done].
Qed.

(** Assigning a version to a path. *)
Lemma versions_assign w σ w' p e v :
  implements w σ → (∀ x d, files (disk w) !! chunk_path (blobs_of w) x = Some d →
    files (disk w') !! chunk_path (blobs_of w) x = Some d) →
  represents (blobs_of w) (disk w') e v →
  ∀ q, option_Forall2 (represents (blobs_of w) (disk w')) ((<[p := e]> (entries_ (store_of w))) !! q) ((<[p := v]> σ) !! q).
Proof.
  intros Him Hc He q. destruct (decide (p = q)) as [->|Hq]; [rewrite !lookup_insert_eq; by constructor|].
  rewrite !lookup_insert_ne by done. pose proof (im_versions _ _ Him q) as Hv.
  destruct (entries_ (store_of w) !! q), (σ !! q); inversion Hv; subst; constructor. by eapply represents_mono.
Qed.

(** ** Every operation implements its step *)

(** What an operation makes of the store. *)
Definition store_after (w : World) (o : local_op) (s : CrdtStore) : Prop :=
  match o with
  | Write p b => ∃ r, s = ingested w p b r
  | Remove p => s = delete_local (store_of w) p
  | Reopen | CrashedWrite _ _ _ => s = store_of w
  end.

Lemma exec_write w σ p b :
  implements w σ → op_ok (chunker_ (engine w)) (Write p b) →
  ∃ w', exec w (Write p b) = Some w' ∧ implements w' (spec_step id σ (Write p b)) ∧
    store_after w (Write p b) (store_of w').
Proof.
  intros Him Hop. pose proof (im_ok _ _ Him) as Hw. pose proof (ok_wired _ Hw) as Hwi.
  destruct (write_passes w σ p b Him Hop) as (r & w1 & w2 & Hrec & Hm & He & Hev & _ & Hre).
  destruct Hop as [Hp _]. destruct (proj1 (Forall_forall _ _) ps_text p Hp) as [Htab Hnl].
  assert (store_of w2 = ingested w p b r) as Hst by (unfold store_of; by rewrite He).
  destruct (implements_saved w w2 (spec_step id σ (Write p b)) Hw (im_id _ _ Him) Hev)
    as [Hs Hi].
  - rewrite Hst. unfold ingested, put_local. fold (clock_at (store_of w) p).
    eapply (printable_assign _ _ _ _ _ _ id); [apply Him|done|done|done|]. by rewrite (node_id_implements w σ Him).
  - rewrite Hst. apply (versions_assign w σ); [done|apply Hev|].
    split; [|split]; cbn; fold (clock_at (store_of w) p).
    + by rewrite (clock_at_implements w σ p Him), (node_id_implements w σ Him).
    + apply (node_id_implements w σ Him).
    + by split_and!.
  - exists (journal_written w2). split; [|split; [done|by exists r]]. unfold exec, ingest_file.
    rewrite (bind_ok _ _ _ _ _ Hrec), (bind_ok _ _ _ _ _ Hm), (bind_ok _ _ _ _ _ Hs).
    unfold deref_entry, get_entry. change (store_of (journal_written w2)) with (store_of w2).
    rewrite Hst. unfold ingested, put_local, assign. cbn [entries_]. by rewrite lookup_insert_eq.
Qed.

Lemma evolves_refl w σ s :
  implements w σ → node_id_ s = node_id_ (store_of w) → store_inv s → evolves w (set_store s w).
Proof.
  intros Him Hn Hs. split; [by exists s|apply engine_ok_store; [apply Him|done|done]|done|apply Him|apply Him].
Qed.

Lemma exec_remove w σ p :
  implements w σ → p ∈ ps →
  ∃ w', exec w (Remove p) = Some w' ∧ implements w' (spec_step id σ (Remove p)) ∧
    store_after w (Remove p) (store_of w').
Proof.
  intros Him Hp. pose proof (im_ok _ _ Him) as Hw. destruct (proj1 (Forall_forall _ _) ps_text p Hp) as [Htab Hnl].
  set (w1 := set_store (delete_local (store_of w) p) w).
  assert (evolves w w1) as Hev by (apply (evolves_refl w σ); [done|done|apply store_inv_delete, Hw]).
  assert (clock (match entries_ (store_of w) !! p with Some e => e | None => default_entry end)
    = clock_at (store_of w) p) as Hclk by (unfold clock_at; by destruct (entries_ (store_of w) !! p)).
  destruct (implements_saved w w1 (spec_step id σ (Remove p)) Hw (im_id _ _ Him) Hev) as [Hs Hi].
  - apply map_Forall_insert_2; [|apply Him].
    destruct id_text as [Hio Hin]. pose proof (printable_clock_at _ p (im_text _ _ Him)) as Hk.
    rewrite <- Hclk in Hk. rewrite (node_id_implements w σ Him).
    assert (map_Forall (λ n _, id_ok n) (counters_ (increment (clock_at (store_of w) p) id))) as Hk'.
    { rewrite <- Hclk. apply map_Forall_insert_2; [done|exact Hk]. }
    rewrite Hclk. split; [split; cbn; [done|apply Hio|]|split_and!; cbn; [done|done|]];
      intros n v Hv; by apply (Hk' n v).
  - apply (versions_assign w σ w1); [done|done|]. split; [|split]; cbn.
    + by rewrite Hclk, (clock_at_implements w σ p Him), (node_id_implements w σ Him).
    + apply (node_id_implements w σ Him).
    + done.
  - exists (journal_written w1). split; [|by split]. unfold exec, delete_file.
    erewrite bind_ok by done. fold w1. by rewrite Hs.
Qed.

Lemma exec_crashed w σ p b at_ :
  implements w σ → op_ok (chunker_ (engine w)) (Write p b) →
  ∃ w', exec w (CrashedWrite p b at_) = Some w' ∧ implements w' σ ∧ store_of w' = store_of w.
Proof.
  intros Him Hop. pose proof (im_ok _ _ Him) as Hw. cbn [exec].
  assert (evolves w (crashed p b at_ w) ∧ same_journal w (crashed p b at_ w)) as [Hev Hj];
    [|by apply (reopen_ok w)].
  destruct at_ as [k|]; cbn [crashed].
  - set (cs := take k (chunk (chunker_ (engine w)) b)).
    assert (Forall (λ c, chunk_hash c = hash (data c)) cs) as Hh by apply Forall_take, chunk_hashes_ok.
    destruct (store_chunks_ok w cs Hw Hh) as (f & Hl & Hok & Hd & Hf & _ & Hg).
    rewrite (on_disk_ok _ w _ _ Hl). cbn [snd].
    apply (chunks_evolve w σ cs _ (store_of w)); try done; [|by destruct w as [[]]].
    intros c Hc. apply (proj2 Hop). rewrite <- (take_drop k (chunk _ b)). apply elem_of_app. by left.
  - destruct (write_passes w σ p b Him Hop) as (r & w1 & w2 & Hrec & Hm & _ & Hev & Hj & _).
    rewrite (bind_ok _ _ _ _ _ Hrec), Hm. by split.
Qed.

Lemma exec_ok w σ o :
  implements w σ → op_ok default_chunker o →
  ∃ w', exec w o = Some w' ∧ implements w' (spec_step id σ o) ∧ store_after w o (store_of w').
Proof.
  intros Him. rewrite <- (wired_chunker _ (ok_wired _ (im_ok _ _ Him))). destruct o as [p b|p| |p b at_]; intros Hop.
  - by apply exec_write.
  - by apply exec_remove.
  - apply (reopen_ok w); [done| |done]. split; [|apply Him|done|apply Him|apply Him].
    exists (store_of w). by destruct w as [[]].
  - by apply (exec_crashed w σ p b).
Qed.
End Refinement.

(** ** Properties *)

(** C3: A node implements the replica specification.  Whatever sequence of writes,
    removals, restarts and crashes (a process killed while it ingests, after any
    number of chunks or before the journal) runs on a node, every step succeeds and
    the node ends up standing for what the specification says: every path has the
    specified version (content that the stored chunks make up, clock,
    writer) or is absent; an interrupted write leaves no trace in it, and what was
    written is what the next process finds.  The paths are plain, free of tabs and
    newlines and not in each other's way, and no two of the chunks ever written
    collide. *)
Theorem node_implements_replica id ps stored_data ops w σ :
  id_ok id → Forall plain ps → Forall (λ p, tab ∉ p ∧ newline ∉ p) ps →
  (∀ d d', stored_data d → stored_data d' → hash d = hash d' → d = d') →
  Forall (op_ok ps stored_data default_chunker) ops →
  implements id ps stored_data w σ →
  ∃ w', exec_all w ops = Some w' ∧ implements id ps stored_data w' (foldl (spec_step id) σ ops).
Proof.
  intros Hid Hpl Htx Hnc Hops. revert w σ. induction Hops as [|o ops Ho _ IH]; intros w σ Him; [by exists w|].
  destruct (exec_ok id ps stored_data Hid Hpl Htx Hnc w σ o Him Ho) as (w1 & H1 & Him1 & _).
  destruct (IH w1 _ Him1) as (w' & H2 & Him'). exists w'. split; [|done]. cbn [exec_all]. by rewrite H1.
Qed.

(** A node that has just been started stands for the empty replica. *)
Lemma new_node_implements id dir ps (data : bytes → Prop) :
  dir ≠ [] → let w := mkWorld (engine_with id dir (new_store id)) (new_engine id dir empty_fs).2 [] in
  placeable_all (engine w) (disk w) ps → implements id ps data w ∅.
Proof.
  intros Hd w Hpl. destruct (new_engine_empty id dir [] Hd) as (f & H & Hf & Hok).
  subst w. rewrite H in *. cbn [snd] in *. split; [exact Hok|reflexivity|..].
  - apply map_Forall_empty.
  - unfold journal_store. cbn [disk]. rewrite Hf, lookup_empty. reflexivity.
  - intros x d _ Hx. cbn [disk] in Hx. rewrite Hf in Hx. destruct (lookup_empty_Some _ _ Hx).
  - exact Hpl.
  - intros p. unfold store_of; simpl. rewrite !lookup_empty. constructor.
Qed.

Lemma sample_implements (data : bytes → Prop) :
  implements (str "A") [str "a.txt"; str "b.txt"] data sample_node ∅.
Proof.
  pose proof (new_node_implements (str "A") (str "d") [str "a.txt"; str "b.txt"] data) as H.
  destruct (new_engine_empty (str "A") (str "d") []) as (f & E & _ & _); [by_decide|].
  unfold sample_node. rewrite E in *. apply H; [by_decide|].
  change f with (Ok (engine_with (str "A") (str "d") (new_store (str "A"))), f).2. rewrite <- E. by_decide.
Qed.

Lemma node_implements_replica_witness :
  ∃ w', exec_all sample_node [CrashedWrite (str "a.txt") (str "x") before_journal; Write (str "a.txt") (str "hello");
      Remove (str "b.txt"); CrashedWrite (str "a.txt") (str "x") (after_chunks 1); Reopen] = Some w' ∧
    ∃ e, entries_ (store_of w') !! str "a.txt" = Some e ∧
      reassemble (blobs_of w') (disk w') (chunk_hashes e) = Ok (str "hello").
Proof.
  assert (chunk default_chunker (str "hello") = [mkChunk 0 (str "hello") (hash (str "hello"))] ∧
    chunk default_chunker (str "x") = [mkChunk 0 (str "x") (hash (str "x"))]) as [Hc Hc']
    by (split; vm_compute; reflexivity).
  destruct (node_implements_replica (str "A") [str "a.txt"; str "b.txt"] (λ d, d ∈ [str "hello"; str "x"])
    [CrashedWrite (str "a.txt") (str "x") before_journal; Write (str "a.txt") (str "hello");
      Remove (str "b.txt"); CrashedWrite (str "a.txt") (str "x") (after_chunks 1); Reopen] sample_node ∅)
    as (w' & H & Him).
  - split; [unfold node_ok; by_decide|by_decide].
  - by_decide.
  - by_decide.
  - assert (Forall (λ d, Forall (λ d', hash d = hash d' → d = d') [str "hello"; str "x"]) [str "hello"; str "x"]) as H
      by by_decide.
    intros d d' Hd Hd'. exact (proj1 (Forall_forall _ _) (proj1 (Forall_forall _ _) H d Hd) d' Hd').
  - assert (∀ c, c ∈ chunk default_chunker (str "hello") → data c ∈ [str "hello"; str "x"]) as H1.
    { rewrite Hc. intros c ->%list_elem_of_singleton. by_decide. }
    assert (∀ c, c ∈ chunk default_chunker (str "x") → data c ∈ [str "hello"; str "x"]) as H2.
    { rewrite Hc'. intros c ->%list_elem_of_singleton. by_decide. }
    repeat (apply Forall_cons; split); [split; [by_decide|exact H2]|split; [by_decide|exact H1]|right; left
      |split; [by_decide|exact H2]|exact I|constructor].
  - apply sample_implements.
  - exists w'. split; [exact H|]. pose proof (im_versions _ _ _ _ _ Him (str "a.txt")) as Hv.
    match type of Hv with option_Forall2 _ _ ?v =>
      assert (∃ c n, v = Some (mkVersion (Some (str "hello")) c n)) as (c & n & Ev)
        by (eexists _, _; vm_compute; reflexivity) end.
    rewrite Ev in Hv. inversion Hv as [e v Hrep He Ev'|]. subst v.
    destruct Hrep as (_ & _ & Hd). cbn [content] in Hd. exists e. split; [done|exact (proj1 (proj2 Hd))].
Defined.

(** C30: The journal is not replaced atomically, and a torn one is not noticed.
    [save_journal] truncates the file and writes line by line; if the process is
    killed after [k] lines, what is on disk is a prefix of the journal, and the next
    start succeeds with exactly those [k] entries: all others are gone. *)
Theorem torn_journal_loses_entries dir s k f :
  let kept := take k (all_entries s) in
  let text := unlines newline (entry_to_line <$> kept) in
  store_inv s → printable s → habitable dir f → files f !! (dir ++ str "/store.meta") = Some text →
  text `prefix_of` journal_text s ∧
  ∃ e f', new_engine (node_id_ s) dir f = (Ok e, f') ∧
    ∀ x, x ∈ all_entries (store_ e) ↔ x ∈ kept.
Proof.
  intros kept text Hs Hp Hh Hj.
  assert (Forall (λ e, wf_entry e ∧ line_ok e) kept) as Hl by apply Forall_take, (printable_entries s Hs Hp).
  assert (NoDup (path <$> kept)) as Hnd.
  { apply (sublist_NoDup _ (path <$> all_entries s)).
    - rewrite all_entries_paths by done. apply map_listing_NoDup.
    - unfold kept. rewrite fmap_take. apply sublist_take. }
  split.
  - unfold text, journal_text, kept, unlines. rewrite <- (take_drop k (all_entries s)) at 2.
    rewrite fmap_app, map_app, concat_app. by eexists.
  - destruct (new_engine_eq (node_id_ s) dir f Hh) as (f' & Hn & _).
    assert (journal_store (node_id_ s) dir f = Ok (foldl load_entry (new_store (node_id_ s)) kept)) as E.
    { unfold journal_store. rewrite Hj. unfold text. by rewrite getlines_entries, load_lines_entries. }
    rewrite E in Hn. eexists _, f'. split; [exact Hn|]. intros x. cbn [engine_with store_].
    rewrite foldl_load_entries by done. rewrite elem_of_all_entries. cbn [entries_ new_store].
    rewrite (right_id_L ∅ (∪)). split.
    + intros [p Hx%elem_of_list_to_map_2]. apply list_elem_of_fmap in Hx as (y & [= _ ->] & Hy). done.
    + intros Hx. exists (path x). apply elem_of_list_to_map_1.
      * by rewrite <- list_fmap_compose.
      * apply list_elem_of_fmap. by exists x.
Qed.

(** The first sample node's journal, cut off before its only line. *)
Definition sample_torn : fs :=
  mkFs {[ str "d/store.meta" := [] ]} ∅.

Lemma torn_journal_loses_entries_witness :
  ∃ e f', new_engine (str "A") (str "d") sample_torn = (Ok e, f') ∧
    ∀ x, x ∈ all_entries (store_ e) ↔ x ∈ ([] : list FileEntry).
Proof.
  destruct (torn_journal_loses_entries (str "d") (store_of sample_full) 0 sample_torn) as (_ & e & f' & H).
  - apply sample_full_ok.
  - apply sample_full_ok.
  - assert (∀ x (P : Prop), (x = str "d/store.meta" → P) → x ∈ dom (files sample_torn) → P) as Hdom.
    { intros x P HP Hx. apply HP. change (files sample_torn) with ({[ str "d/store.meta" := [] ]} : gmap bytes bytes) in Hx.
      rewrite dom_singleton in Hx. by apply elem_of_singleton in Hx. }
    split; [by_decide|by apply Forall_forall; by_decide|..].
    + intros x. apply not_elem_of_empty.
    + apply not_elem_of_empty.
    + intros x d _ Hx. assert (chunk_path (mkFileStore (str "d" ++ str "/blobstore")) x ∈ dom (files sample_torn)) as Hd
        by (apply elem_of_dom; by eexists).
      revert Hd. apply Hdom. intros E. discriminate E.
  - reflexivity.
  - exists e, f'. exact H.
Defined.
