(* ===== verification/Gossip.v ===== *)
(** * Gossip: many replicas

    A network of any number of stores, each changed locally and merged with others in any
    order: pairwise sessions, and one-sided ones, where the peer was lost after
    this side had merged.  Beside the stores the state records which versions have reached
    each replica, directly or through others, and every version ever made. *)
From S2P Require Import Prelude Text VectorClock Sha256 FileEntry CrdtStore.
From stdpp Require Import functions list.

Record Net := mkNet {
  stores : nat → CrdtStore;
  known : nat → list FileEntry;
  history : list FileEntry;
}.

(** Replicas that have just been created. *)
Definition fresh (ids : nat → bytes) : Net := mkNet (λ i, new_store (ids i)) (λ _, []) [].

(** A local change of a path, which leaves the version [e] there. *)
Definition edits (s : CrdtStore) (p : bytes) (e : FileEntry) (s' : CrdtStore) : Prop :=
  ((∃ hashes root sz, s' = put_local s p hashes root sz) ∨ s' = delete_local s p) ∧ get_entry s' p = Some e.

(** [i] merges what [j] has in its manifest. *)
Definition pull (n : Net) (i j : nat) : CrdtStore := merge_all (stores n i) (all_entries (stores n j)).

Inductive net_step : Net → Net → Prop :=
| net_edit n i p e s' :
    edits (stores n i) p e s' →
    (get (clock_at (stores n i) p) (node_id_ (stores n i)) + 1 < 2 ^ 64)%N →
    net_step n (mkNet (<[i := s']> (stores n)) (<[i := known n i ++ [e]]> (known n)) (history n ++ [e]))
| net_sync n i j :
    i ≠ j →
    net_step n (mkNet (<[i := pull n i j]> (<[j := pull n j i]> (stores n)))
      (<[i := known n i ++ known n j]> (<[j := known n j ++ known n i]> (known n))) (history n))
| net_pull n i j :
    net_step n (mkNet (<[i := pull n i j]> (stores n)) (<[i := known n i ++ known n j]> (known n)) (history n)).

(** ** Each replica holds the newest versions it knows *)

Lemma causally_ordered_sub l l' : causally_ordered l → (∀ v, v ∈ l' → v ∈ l) → causally_ordered l'.
Proof. rewrite !causally_ordered_alt. intros H Hs v w Hv Hw. apply H; auto. Qed.

Lemma holds_elem s l e : holds s l → e ∈ all_entries s → e ∈ l.
Proof. intros Hs [p He]%elem_of_all_entries. specialize (Hs p). rewrite He in Hs. by destruct Hs. Qed.

(** What is merged from a store counts for all the versions it stands for. *)
Lemma holds_pull sa sb la lb :
  causally_ordered (la ++ lb) → holds sa la → holds sb lb → holds (merge_all sa (all_entries sb)) (la ++ lb).
Proof.
  intros Hord Ha Hb.
  assert (causally_ordered (la ++ all_entries sb)) as Hord'.
  { eapply causally_ordered_sub; [exact Hord|]. intros v [Hv|Hv]%elem_of_app; apply elem_of_app; [by left|right].
    by eapply holds_elem. }
  pose proof (holds_merge_all sa la (all_entries sb) Hord' Ha) as H.
  assert (∀ p v, v ∈ lb → path v = p → ∃ e, e ∈ all_entries sb ∧ path e = p ∧ clock v ⊑ clock e) as Hnew.
  { intros p v Hv Hp. specialize (Hb p). destruct (entries_ sb !! p) as [e|] eqn:He; [|by destruct (Hb v Hv)].
    destruct Hb as (_ & Hpe & Hmax). exists e. split; [apply elem_of_all_entries; eauto|auto]. }
  intros p. specialize (H p). destruct (entries_ (merge_all sa (all_entries sb)) !! p) as [e|].
  - destruct H as (H1 & H2 & H3). split_and!; [|done|].
    + apply elem_of_app in H1 as [?|?]; apply elem_of_app; [by left|right; by eapply holds_elem].
    + intros v [Hv|Hv]%elem_of_app Hp; [apply H3; [apply elem_of_app; by left|done]|].
      destruct (Hnew p v Hv Hp) as (x & Hx & Hpx & Hvx). etrans; [exact Hvx|].
      apply H3; [apply elem_of_app; by right|done].
  - intros v [Hv|Hv]%elem_of_app Hp; [apply (H v); [apply elem_of_app; by left|done]|].
    destruct (Hnew p v Hv Hp) as (x & Hx & Hpx & _). apply (H x); [apply elem_of_app; by right|done].
Qed.

(** A local change is newer than all its replica knows. *)
Lemma edits_entry s p e s' :
  edits s p e s' → entries_ s' = <[p := e]> (entries_ s) ∧ path e = p ∧ clock e = increment (clock_at s p) (node_id_ s).
Proof.
  intros [[(hashes & root & sz & ->)| ->] He]; unfold get_entry in He; cbn in He;
    rewrite lookup_insert_eq in He; injection He as <-; split_and!; try done.
  cbn. unfold clock_at. by destruct (entries_ s !! p).
Qed.

Lemma edits_newer s l p e s' v :
  (get (clock_at s p) (node_id_ s) + 1 < 2 ^ 64)%N → edits s p e s' → holds s l → v ∈ l → path v = p →
  clock v ⊑ clock e ∧ ¬ clock e ⊑ clock v.
Proof.
  intros Hlt He Hs Hv Hp. destruct (edits_entry _ _ _ _ He) as (_ & _ & ->).
  pose proof (increment_above _ _ Hlt) as [Hle Hn]. specialize (Hs p).
  assert (clock v ⊑ clock_at s p) as Hvc
    by (unfold clock_at; destruct (entries_ s !! p) as [x|]; [by apply Hs|by destruct (Hs v Hv)]).
  split; [by etrans|]. intros H. apply Hn. by etrans.
Qed.

Lemma holds_edit s l p e s' :
  (get (clock_at s p) (node_id_ s) + 1 < 2 ^ 64)%N → edits s p e s' → holds s l → holds s' (l ++ [e]).
Proof.
  intros Hlt He Hs. destruct (edits_entry _ _ _ _ He) as (Hent & Hp & _).
  intros q. rewrite Hent. destruct (decide (p = q)) as [<-|Hq].
  - rewrite lookup_insert_eq. split_and!; [apply elem_of_app; right; by left|done|].
    intros v [Hv| ->%list_elem_of_singleton]%elem_of_app Hvp; [|done]. by eapply edits_newer.
  - specialize (Hs q). rewrite lookup_insert_ne by done. destruct (entries_ s !! q) as [x|].
    + destruct Hs as (H1 & H2 & H3). split_and!; [apply elem_of_app; by left|done|].
      intros v [Hv| ->%list_elem_of_singleton]%elem_of_app Hvp; [by apply H3|congruence].
    + intros v [Hv| ->%list_elem_of_singleton]%elem_of_app Hvp; [by apply (Hs v)|congruence].
Qed.

(** A change whose replica knows every version of the path keeps the history in causal order. *)
Lemma edit_ordered s l h p e s' :
  (get (clock_at s p) (node_id_ s) + 1 < 2 ^ 64)%N → edits s p e s' → holds s l →
  (∀ v, v ∈ h → path v = p → v ∈ l) → causally_ordered h → causally_ordered (h ++ [e]).
Proof.
  intros Hlt He Hs Hh. destruct (edits_entry _ _ _ _ He) as (_ & Hp & _).
  rewrite !causally_ordered_alt. intros Hord.
  assert (∀ v, v ∈ h → path v = path e → clock v ⊑ clock e ∧ ¬ clock e ⊑ clock v) as Hnew.
  { intros v Hv Hpv. apply (edits_newer s l p e s'); [done..|apply Hh; congruence|congruence]. }
  intros v w [Hv| ->%list_elem_of_singleton]%elem_of_app [Hw| ->%list_elem_of_singleton]%elem_of_app Hvw.
  - by apply Hord.
  - destruct (Hnew v Hv Hvw) as [H1 H2]. split; [by left|]. intros E. destruct H2. by rewrite E.
  - destruct (Hnew w Hw (eq_sym Hvw)) as [H1 H2]. split; [by right|]. intros E. destruct H2. by rewrite <- E.
  - split; [by left|done].
Qed.

(** ** The invariant of the network *)
Record net_inv (n : Net) : Prop := {
  ni_holds : ∀ i, holds (stores n i) (known n i);
  ni_known : ∀ i v, v ∈ known n i → v ∈ history n;
}.

Lemma net_step_history n n' v : net_step n n' → v ∈ history n → v ∈ history n'.
Proof. destruct 1; simpl; [|done|done]. intros. apply elem_of_app. by left. Qed.

Lemma holds_pull_net n i j :
  causally_ordered (history n) → net_inv n → holds (pull n i j) (known n i ++ known n j).
Proof.
  intros Hord [Hh Hk]. apply holds_pull; [|apply Hh..]. eapply causally_ordered_sub; [exact Hord|].
  intros v [?|?]%elem_of_app; eauto.
Qed.

Lemma net_step_inv n n' : net_step n n' → causally_ordered (history n) → net_inv n → net_inv n'.
Proof.
  intros Hstep Hord Hn. pose proof Hn as [Hh Hk].
  destruct Hstep as [n i p e s' He Hlt|n i j Hij|n i j]; split; simpl; intros k.
  - destruct (decide (i = k)) as [->|]; [rewrite !fn_lookup_insert; by eapply holds_edit|].
    by rewrite !fn_lookup_insert_ne.
  - intros v. rewrite elem_of_app. destruct (decide (i = k)) as [->|]; [rewrite fn_lookup_insert|
      rewrite fn_lookup_insert_ne by done; eauto]. rewrite elem_of_app. intros [?|?]; [left; eauto|by right].
  - destruct (decide (i = k)) as [->|]; [rewrite !fn_lookup_insert; by apply holds_pull_net|].
    rewrite !(fn_lookup_insert_ne _ i) by done.
    destruct (decide (j = k)) as [->|]; [rewrite !fn_lookup_insert; by apply holds_pull_net|].
    by rewrite !fn_lookup_insert_ne.
  - intros v. destruct (decide (i = k)) as [->|]; [rewrite fn_lookup_insert, elem_of_app; naive_solver|].
    rewrite fn_lookup_insert_ne by done. destruct (decide (j = k)) as [->|];
      [rewrite fn_lookup_insert, elem_of_app; naive_solver|rewrite fn_lookup_insert_ne by done; eauto].
  - destruct (decide (i = k)) as [->|]; [rewrite !fn_lookup_insert; by apply holds_pull_net|].
    by rewrite !fn_lookup_insert_ne.
  - intros v. destruct (decide (i = k)) as [->|]; [rewrite fn_lookup_insert, elem_of_app; naive_solver|].
    rewrite fn_lookup_insert_ne by done. eauto.
Qed.

Lemma net_inv_reachable ids n :
  rtc net_step (fresh ids) n → causally_ordered (history n) → net_inv n.
Proof.
  intros Hr. refine (rtc_ind_r (λ n, causally_ordered (history n) → net_inv n) (fresh ids) _ _ n Hr).
  - split; simpl; [|by intros i v ?%not_elem_of_nil]. intros i p. simpl. rewrite lookup_empty.
    by intros v ?%not_elem_of_nil.
  - intros n1 n2 _ Hstep IH Hord2.
    assert (causally_ordered (history n1)) as Hord1
      by (eapply causally_ordered_sub; [exact Hord2|]; intros v; by apply net_step_history).
    apply (net_step_inv n1 n2 Hstep Hord1). by apply IH.
Qed.

(** ** A schedule that reaches everyone *)

(** The hub syncs with each of the others in turn. *)
Definition sync (n : Net) (i j : nat) : Net :=
  mkNet (<[i := pull n i j]> (<[j := pull n j i]> (stores n)))
    (<[i := known n i ++ known n j]> (<[j := known n j ++ known n i]> (known n))) (history n).
Definition gossip (hub : nat) (ks : list nat) (n : Net) : Net := foldl (λ n k, sync n hub k) n ks.

Lemma gossip_steps hub ks n :
  hub ∉ ks → rtc net_step n (gossip hub ks n) ∧ history (gossip hub ks n) = history n.
Proof.
  revert n. induction ks as [|k ks IH]; intros n; [by split|]. intros [Hk Hks]%not_elem_of_cons.
  destruct (IH (sync n hub k) Hks) as [H1 H2]. split; [|exact H2].
  eapply rtc_l; [by apply net_sync|exact H1].
Qed.

Lemma known_sync n i j k v :
  i ≠ j → v ∈ known (sync n i j) k ↔
    if decide (k = i ∨ k = j) then v ∈ known n i ∨ v ∈ known n j else v ∈ known n k.
Proof.
  intros Hij. unfold sync; simpl. destruct (decide (i = k)) as [<-|Hik].
  - rewrite fn_lookup_insert, elem_of_app, decide_True by tauto. done.
  - rewrite fn_lookup_insert_ne by done. destruct (decide (j = k)) as [<-|Hjk].
    + rewrite fn_lookup_insert, elem_of_app, decide_True by tauto. tauto.
    + rewrite fn_lookup_insert_ne, decide_False by naive_solver. done.
Qed.

(** After one pass the hub knows what anyone knew; after it, all others do too. *)
Lemma gossip_collects hub ks n v :
  hub ∉ ks → NoDup ks → v ∈ known (gossip hub ks n) hub ↔ ∃ k, k ∈ hub :: ks ∧ v ∈ known n k.
Proof.
  revert n. induction ks as [|k ks IH]; intros n.
  { intros _ _. simpl. split; [intros H; exists hub; split; [by left|done]|].
    intros (k & ->%list_elem_of_singleton & H). done. }
  intros [Hk Hks]%not_elem_of_cons [Hkn Hnd]%NoDup_cons. simpl. rewrite IH by done.
  split.
  - intros (x & Hx & H). rewrite known_sync in H by done. case_decide as Hd.
    + destruct H; [exists hub|exists k]; (split; [|done]); rewrite !elem_of_cons; tauto.
    + exists x. split; [|done]. revert Hx. rewrite !elem_of_cons. tauto.
  - intros (x & Hx & H). destruct (decide (x = hub ∨ x = k)) as [Hd|Hd].
    + exists hub. split; [by left|]. rewrite known_sync, decide_True by (done || tauto).
      destruct Hd as [->| ->]; tauto.
    + exists x. rewrite known_sync, decide_False by done. split; [|done].
      revert Hx. rewrite !elem_of_cons. tauto.
Qed.

(** Nothing is known after a pass that nobody knew before. *)
Lemma gossip_knows hub ks n k v :
  hub ∉ ks → k ∈ hub :: ks → v ∈ known (gossip hub ks n) k → ∃ k, k ∈ hub :: ks ∧ v ∈ known n k.
Proof.
  intros Hhub. assert (∀ js n x, js ⊆ ks → x ∈ hub :: ks → v ∈ known (gossip hub js n) x →
    ∃ k, k ∈ hub :: ks ∧ v ∈ known n k) as H; [|intros Hk; by apply H].
  clear n k. induction js as [|y js IH]; intros n x Hjs Hx Hv; [by exists x|]. simpl in Hv.
  assert (y ∈ ks) as Hy by (apply Hjs; by left).
  destruct (IH (sync n hub y) x) as (k & Hk & Hkv); [intros z Hz; apply Hjs; by right|done|done|].
  rewrite known_sync in Hkv by (by intros ->). case_decide; [|by exists k].
  destruct Hkv; [exists hub; split; [by left|done]|exists y; split; [by right|done]].
Qed.

Lemma gossip_spreads hub ks n k v :
  hub ∉ ks → NoDup ks → k ∈ hub :: ks → (∀ k v, k ∈ ks → v ∈ known n k → v ∈ known n hub) →
  v ∈ known (gossip hub ks n) k ↔ v ∈ known n hub.
Proof.
  revert n. induction ks as [|x ks IH]; intros n.
  { intros _ _ ->%list_elem_of_singleton. done. }
  intros [Hk Hks]%not_elem_of_cons [Hkn Hnd]%NoDup_cons Hin Hall. simpl.
  assert (∀ v, v ∈ known (sync n hub x) hub ↔ v ∈ known n hub) as Hhub.
  { intros v'. rewrite known_sync, decide_True by (done || tauto). split; [|tauto].
    intros [?|?]; [done|]. apply (Hall x); [by left|done]. }
  destruct (decide (k ∈ hub :: ks)) as [Hk'|Hk'].
  - rewrite IH; [apply Hhub|done..|]. intros k' v' Hk1 Hv. apply Hhub. revert Hv.
    rewrite known_sync by done. rewrite decide_False by (intros [->| ->]; done). intros Hv.
    apply (Hall k'); [by right|done].
  - assert (k = x) as -> by (apply elem_of_cons in Hin as [->|[->|?]%elem_of_cons]; [|done|]; destruct Hk'; set_solver).
    assert (∀ n, v ∈ known (gossip hub ks n) x ↔ v ∈ known n x) as Hout.
    { clear -Hk' Hks. revert Hk'. induction ks as [|y ks IH]; intros Hk' n; [done|]. simpl.
      rewrite IH by set_solver. rewrite known_sync by set_solver. rewrite decide_False; [done|set_solver]. }
    rewrite Hout, known_sync, decide_True by (done || tauto). split; [|tauto].
    intros [?|?]; [done|]. apply (Hall x); [by left|done].
Qed.

Lemma gossip_twice hub ks n k v :
  hub ∉ ks → NoDup ks → k ∈ hub :: ks →
  v ∈ known (gossip hub ks (gossip hub ks n)) k ↔ ∃ k, k ∈ hub :: ks ∧ v ∈ known n k.
Proof.
  intros Hhub Hnd Hk. set (n1 := gossip hub ks n).
  assert (∀ k v, k ∈ ks → v ∈ known n1 k → v ∈ known n1 hub) as Hall.
  { intros x u Hx Hu. apply gossip_collects; [done|done|]. apply (gossip_knows hub ks n x u); [done|by right|done]. }
  rewrite gossip_spreads by done. by apply gossip_collects.
Qed.

(** ** Properties *)

(** C9: Strong eventual consistency of the whole system: however replicas edit,
    delete and sync, in pairs or one-sidedly and in any order, two replicas that
    have heard of the same versions, directly or through others, hold the same
    entries, namely the newest version of every path they have heard of, as long as
    no two versions of a path in the history are concurrent. *)
Theorem strong_eventual_consistency ids n i j :
  rtc net_step (fresh ids) n → causally_ordered (history n) →
  (∀ v, v ∈ known n i ↔ v ∈ known n j) →
  entries_ (stores n i) = entries_ (stores n j) ∧
  ∀ p e, entries_ (stores n i) !! p = Some e → greatest (known n i) p e.
Proof.
  intros Hr Hord Hij. destruct (net_inv_reachable ids n Hr Hord) as [Hh Hk]. split.
  - apply (holds_agree _ _ (known n i) (known n j)); [|done|apply Hh..].
    eapply causally_ordered_sub; [exact Hord|]. apply Hk.
  - intros p e He. pose proof (Hh i p) as H. by rewrite He in H.
Qed.

(** Syncing spreads everything: when one replica syncs with each of the others in
    turn, twice, then all of them hold the same entries, and every version that any
    of them knew before is known to all. *)
Theorem gossip_converges ids n hub ks :
  rtc net_step (fresh ids) n → causally_ordered (history n) → hub ∉ ks → NoDup ks →
  let n' := gossip hub ks (gossip hub ks n) in
  ∀ i j, i ∈ hub :: ks → j ∈ hub :: ks →
    entries_ (stores n' i) = entries_ (stores n' j) ∧
    ∀ v, v ∈ known n' i ↔ ∃ k, k ∈ hub :: ks ∧ v ∈ known n k.
Proof.
  intros Hr Hord Hhub Hnd n' i j Hi Hj. set (n1 := gossip hub ks n).
  destruct (gossip_steps hub ks n Hhub) as [S1 E1]. destruct (gossip_steps hub ks n1 Hhub) as [S2 E2].
  assert (rtc net_step (fresh ids) n') as Hr' by (etrans; [exact Hr|etrans; [exact S1|exact S2]]).
  assert (history n' = history n) as En by (transitivity (history n1); [exact E2|exact E1]).
  destruct (net_inv_reachable ids n' Hr') as [Hh Hk]; [by rewrite En|].
  split.
  - apply (holds_agree _ _ (known n' i) (known n' j)); [|intros v; unfold n'; rewrite !gossip_twice by done; done|apply Hh..].
    eapply causally_ordered_sub; [exact Hord|]. intros v Hv. apply Hk in Hv. by rewrite En in Hv.
  - intros v. by apply gossip_twice.
Qed.

(** Three replicas: the first writes, the second adopts, deletes, and tells the
    third; then the first learns from the third. *)
Definition sample_ids (i : nat) : bytes := match i with 0 => str "A" | 1 => str "B" | _ => str "C" end.
Definition sample_edit (n : Net) (i : nat) (s' : CrdtStore) (e : FileEntry) : Net :=
  mkNet (<[i := s']> (stores n)) (<[i := known n i ++ [e]]> (known n)) (history n ++ [e]).
Definition sample_v1 : FileEntry := mkEntry (str "a.txt") [] zero_digest (mkClock {[ str "A" := 1%N ]}) (str "A") false 5.
Definition sample_v2 : FileEntry :=
  mkEntry (str "a.txt") [] zero_digest (mkClock (<[str "B" := 1%N]> {[ str "A" := 1%N ]})) (str "B") true 5.
Definition sample_net : Net :=
  let n := sample_edit (fresh sample_ids) 0 (put_local (new_store (str "A")) (str "a.txt") [] zero_digest 5) sample_v1 in
  let n := sync n 0 1 in
  let n := sample_edit n 1 (delete_local (stores n 1) (str "a.txt")) sample_v2 in
  let n := sync n 1 2 in sync n 0 2.

Lemma sample_net_steps : rtc net_step (fresh sample_ids) sample_net ∧ causally_ordered (history sample_net).
Proof.
  split; [|unfold causally_ordered; by_decide]. unfold sample_net. cbv zeta.
  eapply rtc_l; [apply (net_edit _ 0 (str "a.txt") sample_v1)|eapply rtc_l; [by apply (net_sync _ 0 1)|
    eapply rtc_l; [apply (net_edit _ 1 (str "a.txt") sample_v2)|eapply rtc_l; [by apply (net_sync _ 1 2)|
      apply rtc_once; by apply (net_sync _ 0 2)]]]].
  - split; [left; by eexists _, _, _|vm_compute; reflexivity].
  - vm_compute. reflexivity.
  - split; [by right|vm_compute; reflexivity].
  - vm_compute. reflexivity.
Qed.

Lemma strong_eventual_consistency_witness :
  entries_ (stores sample_net 0) = entries_ (stores sample_net 2) ∧
  get_entry (stores sample_net 0) (str "a.txt") = Some sample_v2.
Proof.
  destruct (strong_eventual_consistency sample_ids sample_net 0 2) as [H _].
  - apply sample_net_steps.
  - apply sample_net_steps.
  - assert (Forall (λ v, v ∈ known sample_net 2) (known sample_net 0)) as H1 by by_decide.
    assert (Forall (λ v, v ∈ known sample_net 0) (known sample_net 2)) as H2 by by_decide.
    rewrite Forall_forall in H1, H2. intros v. split; [apply H1|apply H2].
  - split; [exact H|vm_compute; reflexivity].
Defined.

Lemma gossip_converges_witness :
  entries_ (stores (gossip 1 [0; 2] (gossip 1 [0; 2] sample_net)) 0) =
  entries_ (stores (gossip 1 [0; 2] (gossip 1 [0; 2] sample_net)) 2).
Proof.
  apply (gossip_converges sample_ids sample_net 1 [0; 2]).
  - apply sample_net_steps.
  - apply sample_net_steps.
  - by_decide.
  - by_decide.
  - by_decide.
  - by_decide.
Defined.
