(* ===== verification/Meeting.v ===== *)
(** * Meeting: two nodes meet, and what that means for their replicas

    The merge of the specification's replicas ([Replica]), that the merge of the
    stores is the same, and how a session of one node with another can end: cut off, killed,
    or whole; the next process of the node then stands for what its replica was
    or for the merge of both. *)
From S2P Require Import Prelude Text VectorClock Sha256 Chunker MerkleTree FileEntry CrdtStore EntryCodec Fs FileStore SyncEngine Frames Messages Network Faults Cut Replica.

(** ** The specification *)

(** Merging one version of a path. *)
Definition merge_version (σ : Replica) (pv : bytes * Version) : Replica :=
  let '(p, v) := pv in
  match σ !! p with
  | None => <[p := v]> σ
  | Some u =>
      match compare (vclock u) (vclock v) with
      | EQUAL | AFTER => σ
      | BEFORE => <[p := v]> σ
      | CONCURRENT =>
          <[p := mkVersion (content u) (merge (vclock u) (vclock v)) (writer u)]>
            (<[make_conflict_path p (writer v) := v]> σ)
      end
  end.
Definition merge_replica (σ τ : Replica) : Replica := foldl merge_version σ (map_listing τ).

(** ** The store's merge is the specification's *)

Section Merging.
Context (stored_data : bytes → Prop).

(** The chunk hashes [hs] are those of chunks that make up [d]. *)
Definition names (hs : list Digest) (d : bytes) : Prop :=
  ∃ ds, hs = hash <$> ds ∧ d = concat ds ∧ Forall stored_data ds.

(** What of [represents] does not depend on a disk. *)
Definition stands (e : FileEntry) (v : Version) : Prop :=
  clock e = vclock v ∧ last_writer e = writer v ∧
  match content v with
  | None => deleted e = true ∧ chunk_hashes e = []
  | Some d => deleted e = false ∧ names (chunk_hashes e) d ∧ size e = u64 (N.of_nat (length d))
  end.

Definition related (m : gmap bytes FileEntry) (σ : Replica) : Prop :=
  ∀ p, option_Forall2 stands (m !! p) (σ !! p).

Lemma related_insert m σ p e v : related m σ → stands e v → related (<[p := e]> m) (<[p := v]> σ).
Proof. intros Hm He q. rewrite !lookup_insert. case_decide; [by constructor|done]. Qed.

Lemma merge_remote_related s σ e v :
  related (entries_ s) σ → stands e v → related (entries_ (merge_remote s e).2) (merge_version σ (path e, v)).
Proof.
  intros Hs He. pose proof (Hs (path e)) as Hp. pose proof He as (Hc & Hw & Hd). unfold merge_remote, merge_version.
  destruct (entries_ s !! path e) as [l|] eqn:El, (σ !! path e) as [u|]; inversion Hp as [?? Hl|]; subst;
    [|by apply related_insert].
  pose proof Hl as (Hcl & Hwl & Hdl). rewrite Hc, Hcl.
  destruct (compare (vclock u) (vclock v)); cbn [snd entries_ assign]; [done|by apply related_insert|done|].
  rewrite Hw. assert (make_conflict_path (path e) (writer v) ≠ path e) as Hne by apply make_conflict_path_ne.
  rewrite (alter_present _ _ _ l) by (by rewrite lookup_insert_ne).
  apply related_insert; [by apply related_insert|]. split; [|done]. cbn. by rewrite Hcl.
Qed.

Lemma merge_all_related s σ l vs :
  Forall2 (λ e pv, path e = pv.1 ∧ stands e pv.2) l vs → related (entries_ s) σ →
  related (entries_ (merge_all s l)) (foldl merge_version σ vs).
Proof.
  intros Hl. revert s σ. induction Hl as [|e [p v] l vs [Hp He] _ IH]; intros s σ Hs; [done|].
  cbn [fst snd] in *. subst p. apply IH. by apply merge_remote_related.
Qed.

Lemma listing_related s τ :
  store_inv s → related (entries_ s) τ →
  Forall2 (λ e pv, path e = pv.1 ∧ stands e pv.2) (all_entries s) (map_listing τ).
Proof.
  intros Hs Hr. unfold all_entries. apply Forall2_fmap_l. pose proof (map_listing_Forall2 _ _ _ Hr) as H.
  apply Forall2_same_length_lookup. split; [by eapply Forall2_length|]. intros i [p e] pv He Hpv.
  destruct (Forall2_lookup_lr _ _ _ _ _ _ H He Hpv) as [Hk Hv]. cbn in *. split; [|done].
  apply list_elem_of_lookup_2, elem_of_map_listing in He. by rewrite <- Hk, (proj1 (Hs _ _ He)).
Qed.

(** Merging a store into another is merging what they stand for. *)
Lemma merge_all_replica sa sb σ τ :
  store_inv sb → related (entries_ sa) σ → related (entries_ sb) τ →
  related (entries_ (merge_all sa (all_entries sb))) (merge_replica σ τ).
Proof. intros Hb Hsa Hsb. apply merge_all_related; [by apply listing_related|done]. Qed.

(** *** What stands for a version, and the chunks on a disk *)

Record chunks_known (b : FileStore) (f : fs) : Prop := {
  ck_intact : intact b f;
  ck_data : ∀ x d, length x = 32 → files f !! chunk_path b x = Some d → stored_data d;
}.
Definition present (b : FileStore) (f : fs) (hs : list Digest) : Prop :=
  ∀ h, h ∈ hs → is_Some (files f !! chunk_path b h).

Lemma reassemble_names b f hs d :
  chunks_known b f → digests hs → reassemble b f hs = Ok d → names hs d ∧ present b f hs.
Proof.
  intros [Hi Hk] Hh. revert d. induction Hh as [|x hs Hx _ IH]; intros d.
  { intros [= <-]. split; [exists []; by split_and!|by intros h ?%not_elem_of_nil]. }
  rewrite reassemble_cons. destruct (get_chunk b f x) as [c| |] eqn:Hc; simpl; try done.
  destruct (reassemble b f hs) as [d'| |]; simpl; try done. intros [= <-]. apply get_chunk_Ok in Hc.
  destruct (IH d' eq_refl) as [(ds & -> & -> & Hds) Hp]. split.
  - exists (c :: ds). csimpl. split_and!; [|done|constructor; [by eapply Hk|done]]. f_equal. symmetry. by apply Hi.
  - intros h [->|Hin]%elem_of_cons; [by exists c|by apply Hp].
Qed.

Context (no_collision : ∀ d d', stored_data d → stored_data d' → hash d = hash d' → d = d').

Lemma names_reassemble b f hs d :
  chunks_known b f → names hs d → present b f hs → reassemble b f hs = Ok d.
Proof.
  intros [Hi Hk] (ds & -> & -> & Hds) Hp. apply reassemble_Ok, Forall2_fmap_l, Forall_Forall2_diag.
  rewrite Forall_forall in *. intros c Hc. destruct (Hp (hash c)) as [c' Hc']; [by apply list_elem_of_fmap_2|].
  pose proof (length_hash c) as Hl. change (files f !! chunk_path b (hash c) = Some c). rewrite Hc'. f_equal. apply no_collision; [by eapply Hk|by apply Hds|by apply Hi].
Qed.

Lemma represents_iff b f e v :
  chunks_known b f → wf_entry e →
  represents b f e v ↔ stands e v ∧ present b f (chunk_hashes e).
Proof.
  intros Hk Hwf. unfold represents, stands. destruct (content v) as [d|].
  - split.
    + intros (Hc & Hw & Hd & Hr & Hs). apply reassemble_names in Hr as [? ?]; [|done|apply Hwf]. by split_and!.
    + intros [(Hc & Hw & Hd & Hn & Hs) Hp]. split_and!; try done. by apply names_reassemble.
  - split; [|by intros [? _]]. intros (Hc & Hw & Hd & Hh). rewrite Hh. split_and!; try done.
    by intros h ?%not_elem_of_nil.
Qed.
End Merging.

(** ** What the merge writes can be saved *)

(** Writer and clock of an entry survive text. *)
Definition names_ok (e : FileEntry) : Prop :=
  tab ∉ last_writer e ∧ newline ∉ last_writer e ∧ map_Forall (λ n _, id_ok n) (counters_ (clock e)).

Lemma line_ok_names e : line_ok e ↔ names_ok e ∧ tab ∉ path e ∧ newline ∉ path e.
Proof.
  unfold line_ok, names_ok. split.
  - intros ([H1 H2 H3] & Hp & Hw & Hn). split_and!; try done. intros n v Hv. split; [by apply (H3 n v)|by apply (Hn n v)].
  - intros ((H1 & H2 & H3) & H4 & H5). split; [split; [done|done|]|split_and!; [done|done|]]; intros n v Hv; by apply (H3 n v).
Qed.

Lemma names_ok_merged_clock c e :
  names_ok e → map_Forall (λ n _, id_ok n) (counters_ c) → names_ok (with_merged_clock c e).
Proof.
  intros (H1 & H2 & H3) Hc. split_and!; [done|done|]. cbn. rewrite counters_merge. intros n v Hv.
  apply lookup_union_with_Some in Hv as [[Hv _]|[[_ Hv]|(x & y & Hv & _ & _)]]; eauto.
Qed.

Lemma merge_all_names s l :
  (∀ p e, entries_ s !! p = Some e → names_ok e) → Forall names_ok l →
  ∀ p e, entries_ (merge_all s l) !! p = Some e → names_ok e.
Proof.
  intros Hs Hl. revert s Hs. induction Hl as [|r l Hr _ IH]; intros s Hs; [done|]. apply IH. intros p e.
  destruct (merge_remote_case s r) as [H|x H _ _|x H _ _|x H _ _|x H _ _]; cbn [entries_ assign]; try apply Hs;
    intros He; apply lookup_insert_Some in He as [[_ <-]|[_ He]]; try done; try by apply (Hs p).
  - apply names_ok_merged_clock; [by apply (Hs (path r))|apply Hr].
  - apply lookup_insert_Some in He as [[_ <-]|[_ He]]; [exact Hr|by apply (Hs p)].
Qed.

Lemma printable_merge w l :
  engine_ok w → Forall wf_entry l → printable (store_of w) → Forall line_ok l →
  Forall (λ p, tab ∉ p ∧ newline ∉ p) (materialize_paths (merged w l).2) → printable (merge_all (store_of w) l).
Proof.
  intros Hw Hwf Hp Hl Hps p e He. apply line_ok_names. split.
  - eapply merge_all_names; [|eapply Forall_impl; [exact Hl|by intros x [? _]%line_ok_names]|exact He].
    intros q x Hx. by apply line_ok_names, (Hp q).
  - destruct (store_inv_merge_all (store_of w) l) as [Hs _]; [apply Hw|done|].
    destruct (Hs p e He) as [-> _]. rewrite Forall_forall in Hps.
    destruct (decide (p ∈ materialize_paths (merged w l).2)) as [Hin|Hin]; [by apply Hps|].
    rewrite <- (merge_loop_store (blobs_of w) (disk w) _ (MerkleTree.to_int (length (all_entries (store_of w)))) l) in He.
    destruct (merge_loop_kept _ _ _ _ _ _ _ Hin He) as (e0 & H0 & _).
    destruct (ok_store w Hw p e0 H0) as [Hpe _]. rewrite <- Hpe. by apply line_ok_names, (Hp p).
Qed.

(** ** Two nodes meet *)

(** The paths in use and the contents of all chunks: the paths are plain, fit a line of the journal, and
    the chunks do not collide and fit a record. *)
Record universe (ps : list bytes) (stored_data : bytes → Prop) : Prop := {
  un_plain : Forall plain ps;
  un_text : Forall (λ p, tab ∉ p ∧ newline ∉ p) ps;
  un_collision : ∀ d d', stored_data d → stored_data d' → hash d = hash d' → d = d';
  un_small : ∀ d, stored_data d → (N.of_nat (length d) < 2 ^ 32)%N;
}.

(** Where a process that takes part in a session may be killed: after some of the
    chunks it received were stored, or after some files were materialized; before
    that its disk is unchanged. *)
Inductive kill_point := while_receiving (k : nat) | while_materializing (k : nat).

Definition killed (a b : World) (at_ : kill_point) : World :=
  let l := all_entries (store_of b) in
  let recs := chunk_of <$> reply_of b (request_of a l) in
  let w := set_store (merge_all (store_of a) l) a in
  match at_ with
  | while_receiving k => (on_disk (for_each (take k recs) (put_chunk (blobs_of a))) w).2
  | while_materializing k =>
      ((on_disk (for_each recs (put_chunk (blobs_of a))) ;!
        for_each (take k (materialize_paths (merged a l).2)) materialize) w).2
  end.

(** All that [b] sends to [a] in a session. *)
Abbreviation told a b :=
  (transcript b (all_entries (store_of a)) (request_of a (all_entries (store_of b)))).

(** How the process of [a] that meets [b] ends, and the next one in its place: the session
    ran on a connection that brought a prefix of what [b] sends, or it was
    killed. *)
Inductive meets (a b : World) : World → Prop :=
| meets_session c s r p a' :
    delivers c s → s `prefix_of` told a b →
    run_sync_session (mkPeer a c) = (r, p) → reopen (world p) = Some a' → meets a b a'
| meets_killed at_ a' : reopen (killed a b at_) = Some a' → meets a b a'.

Section Meeting.
Context (ps : list bytes) (stored_data : bytes → Prop) (un : universe ps stored_data).
Abbreviation implements id := (implements id ps stored_data).
Abbreviation evolves := (evolves ps stored_data).

(** The paths [a] would materialize are among those in use. *)
Definition in_use (a b : World) : Prop := materialize_paths (merged a (all_entries (store_of b))).2 ⊆ ps.

Lemma implements_known id w σ : implements id w σ → chunks_known stored_data (blobs_of w) (disk w).
Proof. intros Him. split; [apply Him|]. by apply Him. Qed.

Lemma implements_stands id w σ p :
  implements id w σ → option_Forall2 (λ e v, stands stored_data e v ∧ present (blobs_of w) (disk w) (chunk_hashes e))
    (entries_ (store_of w) !! p) (σ !! p).
Proof.
  intros Him. pose proof (im_versions _ _ _ _ _ Him p) as Hv. pose proof (ok_store w (im_ok _ _ _ _ _ Him)) as Hs.
  destruct (entries_ (store_of w) !! p) as [e|] eqn:He; inversion Hv as [? v Hrep|]; subst; constructor.
  apply (represents_iff stored_data); [apply un|by eapply implements_known|by destruct (Hs p e He)|done].
Qed.

Lemma implements_related id w σ : implements id w σ → related stored_data (entries_ (store_of w)) σ.
Proof. intros Him p. pose proof (implements_stands id w σ p Him) as H. inversion H as [?? [? _]|]; by constructor. Qed.

Lemma implements_ready id w σ : id_ok id → implements id w σ → node_ready w.
Proof.
  intros [_ Hid] Him. split; [apply Him|by rewrite (im_id _ _ _ _ _ Him)|apply Him| |].
  - intros x d Hx Hd. apply un. by eapply (im_data _ _ _ _ _ Him).
  - intros e h [p He]%elem_of_all_entries Hh. pose proof (implements_stands id w σ p Him) as H. rewrite He in H.
    inversion H as [?? [_ Hp]|]; subst. by apply Hp.
Qed.

Lemma implements_agree ida idb a b σ τ : implements ida a σ → implements idb b τ → agree a b.
Proof.
  intros Ha Hb x da db Hx Hda Hdb. apply un; [by eapply (im_data _ _ _ _ _ Ha)|by eapply (im_data _ _ _ _ _ Hb)|].
  rewrite (ok_intact a (im_ok _ _ _ _ _ Ha) x da Hx Hda). symmetry. by apply (ok_intact b (im_ok _ _ _ _ _ Hb)).
Qed.

Lemma implements_syncable id a b σ : implements id a σ → in_use a b → syncable a (all_entries (store_of b)).
Proof.
  intros Ha Hu. split.
  - apply Forall_forall. intros p Hp%Hu. apply (proj1 (Forall_forall _ _) (un_plain _ _ un) p Hp).
  - eapply placeable_all_sub; [apply Ha|exact Hu].
Qed.

(** What [b] sends are chunks of the universe. *)
Lemma reply_data idb a b τ x d :
  implements idb b τ → digests (request_of a (all_entries (store_of b))) →
  (x, d) ∈ reply_of b (request_of a (all_entries (store_of b))) → stored_data d.
Proof.
  intros Hb Hd [Hx Hxd]%elem_of_stored. eapply (im_data _ _ _ _ _ Hb); [|done].
  unfold digests in Hd. rewrite Forall_forall in Hd. by apply Hd.
Qed.

Lemma effect_evolves ida idb a b σ τ w2 :
  implements ida a σ → implements idb b τ → in_use a b →
  session_effect a (all_entries (store_of b)) (reply_of b (request_of a (all_entries (store_of b)))) w2 →
  evolves a w2 ∧ chunks_known stored_data (blobs_of a) (disk w2).
Proof.
  intros Ha Hb Hu Heff. pose proof (all_entries_wf b (im_ok _ _ _ _ _ Hb)) as Hwf.
  destruct (request_of_ok a _ Hwf) as (_ & Hdig & _).
  assert (∀ x d, length x = 32 → files (disk w2) !! chunk_path (blobs_of a) x = Some d → stored_data d) as Hdata.
  { intros x d Hx [Hd|Hd]%(se_new_chunks _ _ _ _ Heff); [by eapply (im_data _ _ _ _ _ Ha)|by eapply reply_data|done]. }
  split.
  - split; [by eexists; apply Heff|apply Heff|apply Heff|done|].
    apply (se_room _ _ _ _ Heff); [done|apply Ha|apply un].
  - split; [|done]. pose proof (ok_intact w2 (se_ok _ _ _ _ Heff)) as Hi. unfold blobs_of in Hi.
    by rewrite (se_engine _ _ _ _ Heff) in Hi.
Qed.

(** Every entry of the merged store has its chunks. *)
Lemma effect_present ida a b σ w2 p e :
  let eb := all_entries (store_of b) in
  implements ida a σ → engine_ok b → chunks_known stored_data (blobs_of a) (disk w2) →
  session_effect a eb (reply_of b (request_of a eb)) w2 →
  entries_ (merge_all (store_of a) eb) !! p = Some e → present (blobs_of a) (disk w2) (chunk_hashes e).
Proof.
  intros eb Ha Hb Hk Heff He. pose proof (all_entries_wf b Hb) as Hwf.
  destruct (decide (p ∈ materialize_paths (merged a eb).2)) as [Hin|Hin].
  - destruct (se_adopted _ _ _ _ Heff p Hin) as (e' & r & d & He' & _ & _ & Hd & _).
    rewrite He in He'. injection He' as <-.
    apply (reassemble_names stored_data) in Hd as [_ ?]; [done|done|].
    destruct (store_inv_merge_all (store_of a) eb) as [Hs _]; [apply Ha|done|]. by destruct (Hs p e He) as [_ [? _ _ _]].
  - rewrite <- (merge_loop_store (blobs_of a) (disk a) _ (MerkleTree.to_int (length (all_entries (store_of a)))) eb) in He.
    destruct (merge_loop_kept _ _ _ _ _ _ _ Hin He) as (e0 & H0 & -> & _). intros h Hh.
    pose proof (implements_stands _ _ _ p Ha) as H. rewrite H0 in H. inversion H as [?? [_ Hp]|]; subst.
    destruct (Hp h Hh) as [d Hd]. exists d. by apply (se_old_chunks _ _ _ _ Heff).
Qed.

(** A whole session takes the node to the merge of what both stood for. *)
Lemma meeting ida idb a b σ τ :
  let eb := all_entries (store_of b) in let recs := reply_of b (request_of a eb) in
  id_ok ida → id_ok idb → implements ida a σ → implements idb b τ → in_use a b → messages_fit a b →
  ∃ f1 w2, session_setting a (serialize_manifest (engine b)) eb (request_of b (all_entries (store_of a))) recs
      f1 w2 (journal_written w2) ∧ session_effect a eb recs w2 ∧
    implements ida (journal_written w2) (merge_replica σ τ) ∧
    store_of (journal_written w2) = merge_all (store_of a) eb.
Proof.
  intros eb recs Hida Hidb Ha Hb Hu Hfit.
  destruct (session_between a b) as (_ & f1 & w2 & Hset & Heff);
    [by apply (implements_ready ida a σ)|by apply (implements_ready idb b τ)|by eapply implements_syncable|done|].
  destruct (effect_evolves ida idb a b σ τ w2 Ha Hb Hu Heff) as [Hev Hk].
  pose proof (im_ok _ _ _ _ _ Ha) as Hoka. pose proof (im_ok _ _ _ _ _ Hb) as Hokb.
  pose proof (all_entries_wf b Hokb) as Hwf.
  assert (store_of w2 = merge_all (store_of a) eb) as Hst by (unfold store_of at 1; by rewrite (se_engine _ _ _ _ Heff)).
  exists f1, w2. split; [done|]. split; [done|]. split; [|exact Hst].
  apply (implements_saved ida ps stored_data Hida (un_plain _ _ un) a w2 _ Hoka (im_id _ _ _ _ _ Ha) Hev).
  - rewrite Hst. apply printable_merge; [done|done|apply Ha| |].
    + eapply Forall_impl; [apply (printable_entries (store_of b)); apply Hb|]. by intros e [_ ?].
    + apply Forall_forall. intros p Hp%Hu. apply (proj1 (Forall_forall _ _) (un_text _ _ un) p Hp).
  - intros p. rewrite Hst.
    pose proof (merge_all_replica stored_data (store_of a) (store_of b) σ τ (ok_store _ Hokb)
      (implements_related _ _ _ Ha) (implements_related _ _ _ Hb) p) as Hrel. fold eb in Hrel.
    destruct (entries_ (merge_all (store_of a) eb) !! p) as [e|] eqn:He; inversion Hrel as [? v Hv|]; subst; constructor.
    destruct (store_inv_merge_all (store_of a) eb) as [Hs _]; [apply Hoka|done|].
    apply (represents_iff stored_data); [apply un|done|by destruct (Hs p e He)|]. split; [done|].
    by apply (effect_present ida a b σ w2 p e).
Qed.

(** The peer has everything it is asked for. *)
Lemma replied idb b τ a h :
  id_ok idb → implements idb b τ → Forall wf_entry (all_entries (store_of b)) →
  h ∈ request_of a (all_entries (store_of b)) → ∃ d, (h, d) ∈ reply_of b (request_of a (all_entries (store_of b))).
Proof.
  intros Hidb Hb Hwf Hh. destruct (request_of_ok a _ Hwf) as (_ & _ & _ & Hfrom).
  destruct (Hfrom h Hh) as (r & Hr & Hhr).
  destruct (nr_complete b (implements_ready idb b τ Hidb Hb) r h Hr Hhr) as [d Hd]. exists d. by apply elem_of_stored.
Qed.

(** The process killed in the middle has changed chunks and materialized files only. *)
Lemma killed_evolves ida idb a b σ τ at_ :
  id_ok ida → id_ok idb → implements ida a σ → implements idb b τ → in_use a b → messages_fit a b →
  evolves a (killed a b at_) ∧ same_journal a (killed a b at_).
Proof.
  intros Hida Hidb Ha Hb Hu Hfit. pose proof (im_ok _ _ _ _ _ Ha) as Hoka.
  pose proof (all_entries_wf b (im_ok _ _ _ _ _ Hb)) as Hwf.
  set (eb := all_entries (store_of b)) in *. set (w := set_store (merge_all (store_of a) eb) a).
  destruct (store_inv_merge_all (store_of a) eb) as [Hs Hn]; [apply Hoka|done|].
  assert (engine_ok w) as Hw by by apply engine_ok_store.
  destruct (request_of_ok a eb Hwf) as (_ & Hdig & _).
  destruct (reply_of_ok b (request_of a eb)) as (_ & Hh & _); [by apply (implements_ready idb b τ)|done|].
  set (recs := reply_of b (request_of a eb)) in *.
  assert (∀ cs, (∀ c, c ∈ cs → c ∈ chunk_of <$> recs) → ∃ f, for_each cs (put_chunk (blobs_of a)) (disk a) = (Ok tt, f) ∧
    evolves a (mkWorld (engine w) f (stdout a)) ∧ same_journal a (mkWorld (engine w) f (stdout a))) as Hrecv.
  { intros cs Hcs. destruct (store_chunks_ok w cs Hw) as (f & Hl & Hok & Hd & Hf & _ & Hg).
    - apply Forall_forall. intros c Hc%Hcs. apply list_elem_of_fmap in Hc as (x & -> & Hx).
      rewrite Forall_forall in Hh. symmetry. by apply Hh.
    - exists f. split; [done|].
      apply (chunks_evolve ida ps stored_data (un_plain _ _ un) a σ cs _ (merge_all (store_of a) eb)); try done.
      intros c Hc%Hcs. apply list_elem_of_fmap in Hc as ([x d] & -> & Hx). by eapply reply_data. }
  destruct at_ as [k|k]; cbn [killed]; fold eb recs w.
  - destruct (Hrecv (take k (chunk_of <$> recs))) as (f & Hl & Hev & Hj).
    { intros c Hc. rewrite <- (take_drop k (chunk_of <$> recs)). apply elem_of_app. by left. }
    rewrite (on_disk_ok _ w _ _ Hl). by split.
  - destruct (Hrecv (chunk_of <$> recs)) as (f & Hl & Hev & Hj); [done|].
    rewrite (bind_ok _ _ _ _ _ (on_disk_ok _ w _ _ Hl)). set (w1 := mkWorld (engine w) f (stdout w)).
    destruct (implements_syncable ida a b σ Ha Hu) as [Hpl _]. fold eb in Hpl.
    assert (∀ p, p ∈ take k (materialize_paths (merged a eb).2) → p ∈ materialize_paths (merged a eb).2) as Htake.
    { intros p Hp. rewrite <- (take_drop k (materialize_paths _)). apply elem_of_app. by left. }
    destruct (materialize_all_ok w1 (take k (materialize_paths (merged a eb).2)) ps (ev_ok _ _ _ _ Hev))
      as (w2 & Hm & He2 & Hok2 & Hr2 & Hf2 & _); [by apply Forall_take|intros p Hp; by apply Hu, Htake|apply Hev| |].
    { intros p e Hp He. apply (covered_present a eb recs f p e Hoka Hwf); [|apply Hev| |by apply Htake|done].
      - intros h Hhr. by apply (replied idb b τ).
      - intros x d Hx. destruct (put_chunks_ready (blobs_of a) (chunk_of <$> recs) (disk a) (ok_ready _ Hoka))
          as (f' & Hl' & _ & _ & _ & _ & Hin). rewrite Hl in Hl'. injection Hl' as <-.
        by apply (Hin (chunk_of (x, d))), list_elem_of_fmap_2. }
    rewrite Hm. apply (evolves_targets ps stored_data a w1 w2 (take k (materialize_paths (merged a eb).2))); try done.
    by apply Forall_take.
Qed.

Lemma reopened id w w' σ a' :
  id_ok id → implements id w σ → evolves w w' → same_journal w w' → reopen w' = Some a' →
  implements id a' σ ∧ store_of a' = store_of w.
Proof.
  intros Hid Him Hev Hj Hre. destruct (reopen_ok id ps stored_data Hid (un_plain _ _ un) w w' σ Him Hev Hj) as (w'' & H & ? & ?).
  rewrite Hre in H. by injection H as <-.
Qed.

Lemma evolves_self id w σ : implements id w σ → evolves w w ∧ same_journal w w.
Proof.
  intros Him. split; [|done]. split; [|apply Him|done|apply Him|apply Him]. exists (store_of w). by destruct w as [[]].
Qed.

Lemma meets_ok ida idb a b σ τ a' :
  id_ok ida → id_ok idb → implements ida a σ → implements idb b τ → in_use a b → messages_fit a b → meets a b a' →
  (implements ida a' σ ∧ store_of a' = store_of a) ∨
  (implements ida a' (merge_replica σ τ) ∧ store_of a' = merge_all (store_of a) (all_entries (store_of b))).
Proof.
  intros Hida Hidb Ha Hb Hu Hfit [c s r p a'' Hd Hs Hrun Hre|at_ a'' Hre].
  - destruct (meeting ida idb a b σ τ Hida Hidb Ha Hb Hu Hfit) as (f1 & w2 & Hset & Heff & Him & Hst).
    pose proof (session_cut_goes a _ _ _ _ _ _ _ c s Hset Hd Hs) as [Hur H]. rewrite Hrun in H, Hur.
    assert (nothing_or_all a (all_entries (store_of b)) (journal_written w2) (world p)) as Hw.
    { unfold ends_in in H. cbn [fst snd] in *. destruct r; [by right; right|done|done]. }
    destruct Hw as [Ew|[Ew|Ew]]; rewrite Ew in Hre.
    + left. destruct (evolves_self ida a σ Ha). by eapply reopened.
    + left. destruct (store_inv_merge_all (store_of a) (all_entries (store_of b))) as [Hs1 Hs2];
        [apply (im_ok _ _ _ _ _ Ha)|apply all_entries_wf, (im_ok _ _ _ _ _ Hb)|].
      eapply reopened; [done|exact Ha| | |exact Hre]; [|done].
      by apply (evolves_refl ida ps stored_data a σ).
    + right. rewrite <- Hst. destruct (evolves_self ida _ _ Him). by eapply reopened.
  - left. destruct (killed_evolves ida idb a b σ τ at_) as [Hev Hj]; try done. by eapply reopened.
Qed.

(** A session that returned normally has merged. *)
Lemma session_Ok ida idb a b σ τ c st p :
  id_ok ida → id_ok idb → implements ida a σ → implements idb b τ → in_use a b → messages_fit a b →
  delivers c (told a b) →
  run_sync_session (mkPeer a c) = (Ok st, p) →
  implements ida (world p) (merge_replica σ τ) ∧ store_of (world p) = merge_all (store_of a) (all_entries (store_of b)).
Proof.
  intros Hida Hidb Ha Hb Hu Hfit Hd Hrun.
  destruct (meeting ida idb a b σ τ Hida Hidb Ha Hb Hu Hfit) as (f1 & w2 & Hset & Heff & Him & Hst).
  pose proof (session_cut_goes a _ _ _ _ _ _ _ c _ Hset Hd (reflexivity _)) as [_ H]. rewrite Hrun in H.
  unfold ends_in in H. cbn [fst snd] in H. by rewrite H.
Qed.

(** A session on a willing connection that brings everything is a meeting, and a whole one. *)
Lemma meets_whole ida idb a b σ τ c :
  id_ok ida → id_ok idb → implements ida a σ → implements idb b τ → in_use a b → messages_fit a b → willing c →
  delivers c (told a b) →
  ∃ st p a', run_sync_session (mkPeer a c) = (Ok st, p) ∧ reopen (world p) = Some a' ∧ meets a b a' ∧
    implements ida a' (merge_replica σ τ) ∧ store_of a' = merge_all (store_of a) (all_entries (store_of b)).
Proof.
  intros Hida Hidb Ha Hb Hu Hfit Hw Hd.
  destruct (meeting ida idb a b σ τ Hida Hidb Ha Hb Hu Hfit) as (f1 & w2 & Hset & Heff & Him & Hst).
  destruct (session_run a c _ _ _ _ _ _ _ Hset Hd Hw) as (c' & Hrun & _).
  destruct (evolves_self ida _ _ Him) as [Hev Hj].
  destruct (reopen_ok ida ps stored_data Hida (un_plain _ _ un) _ _ _ Him Hev Hj) as (a' & Hre & Him' & Hst').
  eexists _, _, a'. split; [exact Hrun|]. split; [exact Hre|]. split; [by eapply meets_session|]. by rewrite Hst', Hst.
Qed.
End Meeting.
