(* ===== verification/Cluster.v ===== *)
(** * Cluster: what many nodes promise together, and that they keep it

    The specification: every node is a map from paths to versions ([Replica]); an
    operation changes one version of one node, a meeting of two nodes merges the map of
    one into that of the other, on either side or on none ([Meeting]).  The implementation: every
    node is an engine with a disk of its own that runs the operations of [SyncEngine] and
    sessions of [Network], may be killed in the middle of either and is started again (a
    process killed while it writes its journal may lose entries: [torn_journal_loses_entries]). *)
From stdpp Require Import functions.
From S2P Require Import Prelude Text VectorClock Sha256 Chunker MerkleTree FileEntry CrdtStore EntryCodec Fs FileStore SyncEngine Frames Messages Network Faults Cut Replica Meeting Gossip.

(** ** The system *)

#[export] Instance CrdtStore_eq_dec : EqDecision CrdtStore.
Proof. solve_decision. Defined.

(** The nodes with their disks; beside them, for the statements only, the versions that have
    reached each node, and all that were ever made. *)
Record System := mkSystem {
  nodes : nat → World;
  heard : nat → list FileEntry;
  made : list FileEntry;
}.

(** The path an operation changes. *)
Definition edited (o : local_op) : option bytes :=
  match o with Write p _ | Remove p => Some p | Reopen | CrashedWrite _ _ _ => None end.

(** What [a] has heard once it is [a']: also what [b] had heard, if the new store is the merge of both. *)
Definition heard_from (a b a' : World) (la lb : list FileEntry) : list FileEntry :=
  if decide (store_of a' = merge_all (store_of a) (all_entries (store_of b))) then la ++ lb else la.

Section System.
Context (ids : nat → bytes) (ps : list bytes) (stored_data : bytes → Prop).

(** One event: a change of a path (no counter is exhausted), a restart or a write that crashed, or
    two nodes that meet. *)
Inductive system_step : System → System → Prop :=
| sys_edit s i o p w' e :
    edited o = Some p → op_ok ps stored_data default_chunker o →
    (get (clock_at (store_of (nodes s i)) p) (ids i) + 1 < 2 ^ 64)%N →
    exec (nodes s i) o = Some w' → get_entry (store_of w') p = Some e →
    system_step s (mkSystem (<[i := w']> (nodes s)) (<[i := heard s i ++ [e]]> (heard s)) (made s ++ [e]))
| sys_quiet s i o w' :
    edited o = None → op_ok ps stored_data default_chunker o → exec (nodes s i) o = Some w' →
    system_step s (mkSystem (<[i := w']> (nodes s)) (heard s) (made s))
| sys_meet s i j a' b' :
    i ≠ j → in_use ps (nodes s i) (nodes s j) → in_use ps (nodes s j) (nodes s i) →
    messages_fit (nodes s i) (nodes s j) → messages_fit (nodes s j) (nodes s i) →
    meets (nodes s i) (nodes s j) a' → meets (nodes s j) (nodes s i) b' →
    system_step s (mkSystem (<[i := a']> (<[j := b']> (nodes s)))
      (<[i := heard_from (nodes s i) (nodes s j) a' (heard s i) (heard s j)]>
        (<[j := heard_from (nodes s j) (nodes s i) b' (heard s j) (heard s i)]> (heard s))) (made s)).

(** The specification of all nodes. *)
Inductive replicas_step : (nat → Replica) → (nat → Replica) → Prop :=
| rep_local Σ i o : replicas_step Σ (<[i := spec_step (ids i) (Σ i) o]> Σ)
| rep_meet Σ i j (left right : bool) :
    i ≠ j → replicas_step Σ (<[i := if left then merge_replica (Σ i) (Σ j) else Σ i]>
      (<[j := if right then merge_replica (Σ j) (Σ i) else Σ j]> Σ)).

Definition all_implement (c : nat → World) (Σ : nat → Replica) : Prop :=
  ∀ i, implements (ids i) ps stored_data (c i) (Σ i).

Context (un : universe ps stored_data) (ids_ok : ∀ i, id_ok (ids i)).

Lemma all_implement_insert c Σ i w σ :
  all_implement c Σ → implements (ids i) ps stored_data w σ → all_implement (<[i := w]> c) (<[i := σ]> Σ).
Proof.
  intros Hs Hw k. destruct (decide (i = k)) as [<-|Hk]; [by rewrite !fn_lookup_insert|].
  rewrite !fn_lookup_insert_ne by done. apply Hs.
Qed.

Lemma system_step_implements s s' Σ :
  system_step s s' → all_implement (nodes s) Σ → ∃ Σ', replicas_step Σ Σ' ∧ all_implement (nodes s') Σ'.
Proof.
  intros [s0 i o p w' e Ho Hop Hc He Hp|s0 i o w' Ho Hop He|s0 i j a' b' Hij Hu1 Hu2 Hf1 Hf2 Ha Hb] Hs.
  1,2: destruct (exec_ok (ids i) ps stored_data (ids_ok i) (un_plain _ _ un) (un_text _ _ un) (un_collision _ _ un)
         (nodes s0 i) (Σ i) o (Hs i) Hop) as (w'' & He' & Him & _);
       rewrite He in He'; injection He' as <-; eexists; (split; [apply (rep_local Σ i o)|]); by apply all_implement_insert.
  pose proof (meets_ok ps stored_data un (ids i) (ids j) _ _ (Σ i) (Σ j) a' (ids_ok i) (ids_ok j) (Hs i) (Hs j) Hu1 Hf1 Ha) as H1.
  pose proof (meets_ok ps stored_data un (ids j) (ids i) _ _ (Σ j) (Σ i) b' (ids_ok j) (ids_ok i) (Hs j) (Hs i) Hu2 Hf2 Hb) as H2.
  assert (∃ left : bool, implements (ids i) ps stored_data a' (if left then merge_replica (Σ i) (Σ j) else Σ i)) as [left Hl]
    by (destruct H1 as [[? _]|[? _]]; [by exists false|by exists true]).
  assert (∃ right : bool, implements (ids j) ps stored_data b' (if right then merge_replica (Σ j) (Σ i) else Σ j)) as [right Hr]
    by (destruct H2 as [[? _]|[? _]]; [by exists false|by exists true]).
  eexists. split; [by apply (rep_meet Σ i j left right)|].
  apply all_implement_insert; [by apply all_implement_insert|done].
Qed.

Lemma system_steps_implement s s' Σ :
  rtc system_step s s' → all_implement (nodes s) Σ → ∃ Σ', rtc replicas_step Σ Σ' ∧ all_implement (nodes s') Σ'.
Proof.
  intros Hr. revert Σ. induction Hr as [s|s1 s2 s3 Hstep _ IH]; intros Σ Hs; [by exists Σ|].
  destruct (system_step_implements s1 s2 Σ Hstep Hs) as (Σ2 & H2 & Hs2).
  destruct (IH Σ2 Hs2) as (Σ3 & H3 & Hs3). exists Σ3. split; [by eapply rtc_l|done].
Qed.

(** *** The stores of the nodes are the stores of [Gossip] *)

Definition accounts (s : System) (n : Net) : Prop :=
  (∀ i, stores n i = store_of (nodes s i)) ∧ (∀ i, known n i = heard s i) ∧ history n = made s.

Ltac by_cases i j := let k := fresh "k" in intros k; cbn [nodes heard stores known];
  destruct (decide (i = k)), (decide (j = k)); subst;
  repeat first [rewrite fn_lookup_insert|rewrite fn_lookup_insert_ne by done]; try congruence; auto.

Lemma edit_edits s Σ i o p w' e :
  all_implement (nodes s) Σ → edited o = Some p → op_ok ps stored_data default_chunker o →
  exec (nodes s i) o = Some w' → get_entry (store_of w') p = Some e →
  edits (store_of (nodes s i)) p e (store_of w') ∧ node_id_ (store_of (nodes s i)) = ids i.
Proof.
  intros Hs Ho Hop He Hp. split; [|by eapply node_id_implements].
  destruct (exec_ok (ids i) ps stored_data (ids_ok i) (un_plain _ _ un) (un_text _ _ un) (un_collision _ _ un)
         (nodes s i) (Σ i) o (Hs i) Hop) as (w'' & He' & _ & Hafter). rewrite He in He'. injection He' as <-.
  split; [|done]. destruct o as [q b|q| |]; try done; injection Ho as ->; cbn [store_after] in Hafter.
  - left. destruct Hafter as [r ->]. unfold ingested. by eexists _, _, _.
  - by right.
Qed.

Lemma quiet_store s Σ i o w' :
  all_implement (nodes s) Σ → edited o = None → op_ok ps stored_data default_chunker o → exec (nodes s i) o = Some w' →
  store_of w' = store_of (nodes s i).
Proof.
  intros Hs Ho Hop He.
  destruct (exec_ok (ids i) ps stored_data (ids_ok i) (un_plain _ _ un) (un_text _ _ un) (un_collision _ _ un)
         (nodes s i) (Σ i) o (Hs i) Hop) as (w'' & He' & _ & Hafter). rewrite He in He'. injection He' as <-.
  by destruct o.
Qed.

(** What one side of a meeting has heard is what its store says. *)
Lemma side_accounted s Σ i j a' :
  all_implement (nodes s) Σ → in_use ps (nodes s i) (nodes s j) → messages_fit (nodes s i) (nodes s j) →
  meets (nodes s i) (nodes s j) a' →
  (store_of a' = merge_all (store_of (nodes s i)) (all_entries (store_of (nodes s j))) ∧
   heard_from (nodes s i) (nodes s j) a' (heard s i) (heard s j) = heard s i ++ heard s j) ∨
  (store_of a' = store_of (nodes s i) ∧ heard_from (nodes s i) (nodes s j) a' (heard s i) (heard s j) = heard s i).
Proof.
  intros Hs Hu Hf Ha. unfold heard_from. case_decide as Hd; [by left|right]. split; [|done].
  by destruct (meets_ok ps stored_data un (ids i) (ids j) _ _ (Σ i) (Σ j) a' (ids_ok i) (ids_ok j) (Hs i) (Hs j) Hu Hf Ha)
    as [[_ ?]|[_ ?]].
Qed.

Lemma system_step_accounted s s' Σ n :
  system_step s s' → all_implement (nodes s) Σ → accounts s n → ∃ n', rtc net_step n n' ∧ accounts s' n'.
Proof.
  intros [s0 i o p w' e Ho Hop Hc He Hp|s0 i o w' Ho Hop He|s0 i j a' b' Hij Hu1 Hu2 Hf1 Hf2 Ha Hb] Hs Hn;
    pose proof Hn as (Hst & Hk & Hm).
  - destruct (edit_edits s0 Σ i o p w' e Hs Ho Hop He Hp) as [Hed Hid].
    eexists. split; [apply rtc_once, (net_edit n i p e (store_of w')); rewrite Hst; [done|by rewrite Hid]|].
    split; [by_cases i i|split; [by_cases i i; by rewrite Hk|cbn; by rewrite Hm]].
  - exists n. split; [done|]. pose proof (quiet_store _ _ _ _ _ Hs Ho Hop He) as Hq. split; [|by split]. by_cases i i.
  - destruct (side_accounted s0 Σ i j a' Hs Hu1 Hf1 Ha) as [[Hsa ->]|[Hsa ->]],
      (side_accounted s0 Σ j i b' Hs Hu2 Hf2 Hb) as [[Hsb ->]|[Hsb ->]].
    + eexists. split; [apply rtc_once; by apply (net_sync n i j)|]. split; [|split; [|done]]; by_cases i j;
        unfold pull; rewrite ?Hst, ?Hk, ?Hsa, ?Hsb; done.
    + eexists. split; [apply rtc_once; by apply (net_pull n i j)|]. split; [|split; [|done]]; by_cases i j;
        unfold pull; rewrite ?Hst, ?Hk, ?Hsa, ?Hsb; done.
    + eexists. split; [apply rtc_once; by apply (net_pull n j i)|]. split; [|split; [|done]]; by_cases i j;
        unfold pull; rewrite ?Hst, ?Hk, ?Hsa, ?Hsb; done.
    + exists n. split; [done|]. split; [|split; [|done]]; by_cases i j; rewrite ?Hst, ?Hk, ?Hsa, ?Hsb; done.
Qed.

Lemma system_steps_accounted s s' Σ n :
  rtc system_step s s' → all_implement (nodes s) Σ → accounts s n →
  ∃ Σ' n', all_implement (nodes s') Σ' ∧ rtc net_step n n' ∧ accounts s' n'.
Proof.
  intros Hr. revert Σ n. induction Hr as [s|s1 s2 s3 Hstep _ IH]; intros Σ n Hs Hn; [by exists Σ, n|].
  destruct (system_step_implements s1 s2 Σ Hstep Hs) as (Σ2 & _ & Hs2).
  destruct (system_step_accounted s1 s2 Σ n Hstep Hs Hn) as (n2 & Hn2 & Ha2).
  destruct (IH Σ2 n2 Hs2 Ha2) as (Σ3 & n3 & H3 & Hn3 & Ha3). exists Σ3, n3. split_and!; [done|by etrans|done].
Qed.

(** Nodes that have just been started, in directories of their own. *)
Definition started (s : System) : Prop :=
  all_implement (nodes s) (λ _, ∅) ∧ (∀ i, heard s i = []) ∧ made s = [].

Lemma started_accounted s : started s → accounts s (fresh ids).
Proof.
  intros (Hs & Hh & Hm). split; [|by split]. intros i. cbn [fresh stores]. specialize (Hs i).
  pose proof (node_id_implements _ _ _ _ _ Hs) as Hid. destruct (store_of (nodes s i)) as [id m] eqn:E.
  cbn in Hid. subst id. unfold new_store. f_equal. symmetry. apply map_eq. intros p. rewrite lookup_empty.
  pose proof (im_versions _ _ _ _ _ Hs p) as Hv. rewrite E in Hv. cbn in Hv. rewrite lookup_empty in Hv. by inversion Hv.
Qed.

(** *** Informed changes *)

(** If the step from [s] to [s'] changes a path on some node, that node has heard of all versions of the path. *)
Definition informed (s s' : System) : Prop :=
  ∀ i e v, heard s' i = heard s i ++ [e] → made s' = made s ++ [e] → v ∈ made s → path v = path e → v ∈ heard s i.

Lemma quiet_informed s s' : made s' = made s → informed s s'.
Proof. intros E i e v _ H. rewrite E in H. apply (f_equal length) in H. rewrite length_app in H. simpl in H. lia. Qed.

Definition informed_step (s s' : System) : Prop := system_step s s' ∧ informed s s'.

Lemma informed_step_ordered s s' Σ n :
  informed_step s s' → all_implement (nodes s) Σ → accounts s n → net_inv n →
  causally_ordered (made s) → causally_ordered (made s').
Proof.
  intros [Hstep Hin] Hs (Hst & Hk & Hm) Hn Hord.
  destruct Hstep as [s0 i o p w' e Ho Hop Hc He Hp| |]; [|done|done].
  destruct (edit_edits s0 Σ i o p w' e Hs Ho Hop He Hp) as [Hed Hid].
  apply (edit_ordered (store_of (nodes s0 i)) (heard s0 i) (made s0) p e (store_of w')); [by rewrite Hid|done| | |done].
  - rewrite <- Hst, <- Hk. apply Hn.
  - intros v Hv Hvp. apply (Hin i e v); [|done|done|].
    + cbn [heard]. by rewrite fn_lookup_insert.
    + by destruct (edits_entry _ _ _ _ Hed) as (_ & -> & _).
Qed.

Lemma informed_steps_ordered s0 s :
  started s0 → rtc informed_step s0 s → rtc system_step s0 s ∧ causally_ordered (made s).
Proof.
  intros Hs0 Hr. refine (rtc_ind_r (λ s, rtc system_step s0 s ∧ causally_ordered (made s)) s0 _ _ s Hr).
  - split; [done|]. destruct Hs0 as (_ & _ & ->). constructor.
  - intros s1 s2 _ Hstep [H1 Hord]. split; [eapply rtc_r; [exact H1|apply Hstep]|].
    destruct (system_steps_accounted s0 s1 _ _ H1 (proj1 Hs0) (started_accounted s0 Hs0)) as (Σ & n & Hs & Hn & Ha).
    apply (informed_step_ordered s1 s2 Σ n); try done. apply (net_inv_reachable ids); [done|].
    destruct Ha as (_ & _ & ->). done.
Qed.

(** *** Whole meetings *)

(** The nodes [i] and [j] meet, all bytes arrive and both sessions return normally. *)
Inductive whole_meeting (i j : nat) (s : System) : System → Prop :=
| whole_meeting_intro ca cb sta stb pa pb a' b' :
    i ≠ j → in_use ps (nodes s i) (nodes s j) → in_use ps (nodes s j) (nodes s i) →
    messages_fit (nodes s i) (nodes s j) → messages_fit (nodes s j) (nodes s i) →
    delivers ca (told (nodes s i) (nodes s j)) →
    delivers cb (told (nodes s j) (nodes s i)) →
    run_sync_session (mkPeer (nodes s i) ca) = (Ok sta, pa) → run_sync_session (mkPeer (nodes s j) cb) = (Ok stb, pb) →
    reopen (world pa) = Some a' → reopen (world pb) = Some b' →
    whole_meeting i j s (mkSystem (<[i := a']> (<[j := b']> (nodes s)))
      (<[i := heard s i ++ heard s j]> (<[j := heard s j ++ heard s i]> (heard s))) (made s)).

(** The hub meets the others one after the other. *)
Inductive tour (hub : nat) : list nat → System → System → Prop :=
| tour_nil s : tour hub [] s s
| tour_cons k ks s s1 s2 : whole_meeting hub k s s1 → tour hub ks s1 s2 → tour hub (k :: ks) s s2.

Lemma whole_side s Σ i j c st p a' :
  all_implement (nodes s) Σ → in_use ps (nodes s i) (nodes s j) → messages_fit (nodes s i) (nodes s j) →
  delivers c (told (nodes s i) (nodes s j)) →
  run_sync_session (mkPeer (nodes s i) c) = (Ok st, p) → reopen (world p) = Some a' →
  meets (nodes s i) (nodes s j) a' ∧ store_of a' = merge_all (store_of (nodes s i)) (all_entries (store_of (nodes s j))).
Proof.
  intros Hs Hu Hf Hd Hrun Hre. split; [by eapply meets_session|].
  destruct (session_Ok ps stored_data un (ids i) (ids j) _ _ _ _ c st p (ids_ok i) (ids_ok j) (Hs i) (Hs j) Hu Hf Hd Hrun)
    as [Him <-].
  destruct (evolves_self ps stored_data (ids i) _ _ Him) as [Hev Hj]. by eapply reopened.
Qed.

Lemma whole_meeting_step s s' Σ n i j :
  whole_meeting i j s s' → all_implement (nodes s) Σ → accounts s n → system_step s s' ∧ accounts s' (sync n i j).
Proof.
  intros [ca cb sta stb pa pb a' b' Hij Hu1 Hu2 Hf1 Hf2 Hda Hdb Ha Hb Hra Hrb] Hs (Hst & Hk & Hm).
  destruct (whole_side s Σ i j ca sta pa a') as [Hma Ea]; try done.
  destruct (whole_side s Σ j i cb stb pb b') as [Hmb Eb]; try done. split.
  - pose proof (sys_meet s i j a' b' Hij Hu1 Hu2 Hf1 Hf2 Hma Hmb) as H.
    unfold heard_from in H. by rewrite !decide_True in H by done.
  - split; [|split; [|done]]; unfold sync; by_cases i j; unfold pull; rewrite ?Hst, ?Hk, ?Ea, ?Eb; done.
Qed.

Lemma tour_gossip hub ks s s' Σ n :
  tour hub ks s s' → all_implement (nodes s) Σ → accounts s n →
  rtc system_step s s' ∧ accounts s' (gossip hub ks n).
Proof.
  intros Ht. revert Σ n. induction Ht as [s|k ks s s1 s2 Hw _ IH]; intros Σ n Hs Ha; [by split|].
  destruct (whole_meeting_step s s1 Σ n hub k Hw Hs Ha) as [Hstep Ha1].
  destruct (system_step_implements s s1 Σ Hstep Hs) as (Σ1 & _ & Hs1).
  destruct (IH Σ1 _ Hs1 Ha1) as [Hr H2]. split; [by eapply rtc_l|done].
Qed.

(** Two nodes that can reach each other can have a whole meeting. *)
Lemma whole_meeting_possible s Σ i j :
  all_implement (nodes s) Σ → i ≠ j → in_use ps (nodes s i) (nodes s j) → in_use ps (nodes s j) (nodes s i) →
  messages_fit (nodes s i) (nodes s j) → messages_fit (nodes s j) (nodes s i) → ∃ s', whole_meeting i j s s'.
Proof.
  intros Hs Hij Hu1 Hu2 Hf1 Hf2.
  destruct (meets_whole ps stored_data un (ids i) (ids j) (nodes s i) (nodes s j) (Σ i) (Σ j) (drip (told (nodes s i) (nodes s j))) (ids_ok i) (ids_ok j)
    (Hs i) (Hs j) Hu1 Hf1) as (sta & pa & a' & Ha & Hra & _); [apply drip_ok..|].
  destruct (meets_whole ps stored_data un (ids j) (ids i) (nodes s j) (nodes s i) (Σ j) (Σ i) (drip (told (nodes s j) (nodes s i))) (ids_ok j) (ids_ok i)
    (Hs j) (Hs i) Hu2 Hf2) as (stb & pb & b' & Hb & Hrb & _); [apply drip_ok..|].
  eexists. eapply whole_meeting_intro; try done; apply drip_ok.
Qed.

(** The bytes of a path that is not deleted. *)
Definition content_of (w : World) (p : bytes) : option bytes :=
  match get_entry (store_of w) p with
  | Some e => if deleted e then None
              else match reassemble (blobs_of w) (disk w) (chunk_hashes e) with Ok d => Some d | _ => None end
  | None => None
  end.

Lemma content_of_implements id w σ p :
  implements id ps stored_data w σ → content_of w p = v ← σ !! p; content v.
Proof.
  intros Him. unfold content_of, get_entry. pose proof (im_versions _ _ _ _ _ Him p) as Hv.
  inversion Hv as [e v (_ & _ & Hc) He Hs|]; subst; [|done]. cbn.
  destruct (content v) as [d|]; [destruct Hc as (-> & -> & _); done|by destruct Hc as [-> _]].
Qed.

(** A version has one content, whatever the disk. *)
Lemma same_entry_same_content ida idb a b σ τ p :
  implements ida ps stored_data a σ → implements idb ps stored_data b τ →
  entries_ (store_of a) !! p = entries_ (store_of b) !! p → content_of a p = content_of b p.
Proof.
  intros Ha Hb E. rewrite (content_of_implements ida a σ p Ha), (content_of_implements idb b τ p Hb).
  pose proof (implements_stands ps stored_data un ida a σ p Ha) as H1.
  pose proof (implements_stands ps stored_data un idb b τ p Hb) as H2. rewrite E in H1.
  inversion H1 as [e u [(H11 & H12 & Hu) Hp] He Hs|He Hs]; rewrite <- He in H2;
    inversion H2 as [e' v [(H21 & H22 & Hv) Hp'] He' Ht|He' Ht]; subst; [|done]. cbn.
  destruct (content u) as [d|], (content v) as [d'|]; [|by destruct Hu, Hv; congruence..|done].
  destruct Hu as (_ & Hn & _), Hv as (_ & Hn' & _). f_equal.
  pose proof (implements_known ps stored_data ida a σ Ha) as Hk.
  apply (names_reassemble stored_data (un_collision _ _ un) _ _ _ _ Hk) in Hn; [|done].
  apply (names_reassemble stored_data (un_collision _ _ un) _ _ _ _ Hk) in Hn'; [|done]. congruence.
Qed.
(** Nodes that have heard of the same versions have the same entries and contents. *)
Lemma same_heard_same_files s0 s i j :
  started s0 → rtc system_step s0 s → causally_ordered (made s) → (∀ v, v ∈ heard s i ↔ v ∈ heard s j) →
  entries_ (store_of (nodes s i)) = entries_ (store_of (nodes s j)) ∧
  ∀ p, content_of (nodes s i) p = content_of (nodes s j) p.
Proof.
  intros Hs0 Hr Hord Hij.
  destruct (system_steps_accounted s0 s _ _ Hr (proj1 Hs0) (started_accounted _ Hs0)) as (Σ & n & Hs & Hn & Hst & Hk & Hm).
  rewrite <- Hm in Hord. destruct (net_inv_reachable ids n Hn Hord) as [Hh Hkn].
  assert (entries_ (store_of (nodes s i)) = entries_ (store_of (nodes s j))) as E.
  { rewrite <- !Hst. apply (holds_agree _ _ (known n i) (known n j)); [|by rewrite !Hk|apply Hh..].
    eapply causally_ordered_sub; [exact Hord|]. apply Hkn. }
  split; [done|]. intros p. eapply same_entry_same_content; [apply Hs..|]. by rewrite E.
Qed.
End System.

(** ** Properties *)

(** C4: A cluster of nodes implements its specification.  However the nodes write, remove, restart
    and crash, however they meet, and wherever a meeting is cut or one of its processes is killed, on every node
    engine, journal and disk stand for what the specification gives that node, in which a meeting merges one
    side into the other or leaves it; and from then on, a session that gets
    all its peer's bytes returns normally, and restarted from its disk the node stands for the merge of
    both. *)
Theorem cluster_implements_replicas ids ps stored_data s s' Σ :
  universe ps stored_data → (∀ i, id_ok (ids i)) → all_implement ids ps stored_data (nodes s) Σ →
  rtc (system_step ids ps stored_data) s s' →
  ∃ Σ', rtc (replicas_step ids) Σ Σ' ∧ all_implement ids ps stored_data (nodes s') Σ' ∧
    ∀ i j c, let a := nodes s' i in let b := nodes s' j in
      in_use ps a b → messages_fit a b → willing c →
      delivers c (told a b) →
      ∃ st p a', run_sync_session (mkPeer a c) = (Ok st, p) ∧ reopen (world p) = Some a' ∧
        implements (ids i) ps stored_data a' (merge_replica (Σ' i) (Σ' j)).
Proof.
  intros un Hids Hs Hr. destruct (system_steps_implement ids ps stored_data un Hids s s' Σ Hr Hs) as (Σ' & Hr' & Hs').
  exists Σ'. split; [done|]. split; [done|]. intros i j c a b Hu Hf Hw Hd.
  destruct (meets_whole ps stored_data un (ids i) (ids j) a b (Σ' i) (Σ' j) c (Hids i) (Hids j) (Hs' i) (Hs' j) Hu Hf Hw Hd)
    as (st & p & a' & Hrun & Hre & _ & Him & _). by exists st, p, a'.
Qed.

(** C10: Files converge.  After any history of writes, removals, restarts, crashes and meetings, whole
    or cut, that starts with newly started nodes and in which no two versions of a path are concurrent, two
    nodes that have heard of the same versions have the same entries, and for every
    path the same bytes are reassembled from the chunks on either disk, or the path is
    absent or deleted on both. *)
Theorem files_converge ids ps stored_data s0 s i j :
  universe ps stored_data → (∀ i, id_ok (ids i)) → started ids ps stored_data s0 →
  rtc (system_step ids ps stored_data) s0 s → causally_ordered (made s) →
  (∀ v, v ∈ heard s i ↔ v ∈ heard s j) →
  entries_ (store_of (nodes s i)) = entries_ (store_of (nodes s j)) ∧
  ∀ p, content_of (nodes s i) p = content_of (nodes s j) p.
Proof.
  intros un Hids. by apply same_heard_same_files.
Qed.

(** C12: Editing what one has seen is enough.  If every change of a path, in such a history, is made
    on a node that has heard of all versions of that path so far, as when each path has one
    writer or its writers take turns and sync in between, then no two
    versions of a path are ever concurrent, so that two nodes that have heard of the same versions
    have the same entries and the same bytes of every path. *)
Theorem informed_changes_converge ids ps stored_data s0 s i j :
  universe ps stored_data → (∀ i, id_ok (ids i)) → started ids ps stored_data s0 →
  rtc (informed_step ids ps stored_data) s0 s → (∀ v, v ∈ heard s i ↔ v ∈ heard s j) →
  causally_ordered (made s) ∧
  entries_ (store_of (nodes s i)) = entries_ (store_of (nodes s j)) ∧
  ∀ p, content_of (nodes s i) p = content_of (nodes s j) p.
Proof.
  intros un Hids Hs0 Hr Hij. destruct (informed_steps_ordered ids ps stored_data un Hids s0 s Hs0 Hr) as [Hr' Hord].
  split; [done|]. by apply (same_heard_same_files ids ps stored_data un Hids s0 s).
Qed.

(** C11: A tour brings everyone up to date.  After any such history without concurrent versions, let one
    node meet each of the others in turn, twice, with whole sessions: then all of them have
    the same entries and the same bytes of every path, and each has heard of exactly the versions
    that any of them had heard of before.  Nothing but oversized messages or paths outside the
    universe stands in the way of the next meeting. *)
Theorem tours_converge ids ps stored_data s0 s s' hub ks :
  universe ps stored_data → (∀ i, id_ok (ids i)) → started ids ps stored_data s0 →
  rtc (system_step ids ps stored_data) s0 s → causally_ordered (made s) →
  hub ∉ ks → NoDup ks → tour ps hub (ks ++ ks) s s' →
  (∀ i j, i ∈ hub :: ks → j ∈ hub :: ks →
    entries_ (store_of (nodes s' i)) = entries_ (store_of (nodes s' j)) ∧
    (∀ p, content_of (nodes s' i) p = content_of (nodes s' j) p) ∧
    ∀ v, v ∈ heard s' i ↔ ∃ k, k ∈ hub :: ks ∧ v ∈ heard s k) ∧
  ∀ i j, i ≠ j → in_use ps (nodes s' i) (nodes s' j) → in_use ps (nodes s' j) (nodes s' i) →
    messages_fit (nodes s' i) (nodes s' j) → messages_fit (nodes s' j) (nodes s' i) →
    ∃ s'', whole_meeting ps i j s' s''.
Proof.
  intros un Hids Hs0 Hr Hord Hhub Hnd Ht.
  destruct (system_steps_accounted ids ps stored_data un Hids s0 s _ _ Hr (proj1 Hs0) (started_accounted _ _ _ s0 Hs0))
    as (Σ & n & Hs & Hn & Ha).
  destruct (tour_gossip ids ps stored_data un Hids hub (ks ++ ks) s s' Σ n Ht Hs Ha) as [Hr' Ha'].
  destruct (system_steps_implement ids ps stored_data un Hids s s' Σ Hr' Hs) as (Σ' & _ & Hs').
  split; [|intros i j; by apply (whole_meeting_possible ids ps stored_data un Hids s' Σ')].
  assert (∀ k v, k ∈ hub :: ks → v ∈ heard s' k ↔ ∃ k, k ∈ hub :: ks ∧ v ∈ heard s k) as Hheard.
  { intros k v Hk. destruct Ha as (_ & Hkn & _), Ha' as (_ & Hkn' & _). rewrite <- Hkn'.
    unfold gossip. rewrite foldl_app. setoid_rewrite <- Hkn. by apply gossip_twice. }
  assert (made s' = made s) as Em by (clear -Ht; induction Ht as [|???? s2 Hw _ IH]; [done|by rewrite IH; destruct Hw]).
  intros i j Hi Hj.
  destruct (same_heard_same_files ids ps stored_data un Hids s0 s' i j) as [H1 H2];
    [done|by etrans|by rewrite Em|intros v; by rewrite !Hheard|].
  split; [done|]. split; [done|]. intros v. by apply Hheard.
Qed.

(** Node 1 writes a file, and node 0 meets it; the other nodes do nothing. *)
Definition cluster_ids (i : nat) : bytes := match i with 1 => str "B" | _ => str "A" end.
Definition sample_paths : list bytes := [str "a.txt"; str "b.txt"].
Definition sample_data (d : bytes) : Prop := d ∈ [str "hello"].
Definition sample_cluster : System :=
  mkSystem (λ i, match i with 1 => sample_start | _ => sample_node end) (λ _, []) [].

Lemma sample_universe : universe sample_paths sample_data ∧ ∀ i, id_ok (cluster_ids i).
Proof.
  split.
  - split; [by_decide|by_decide|..].
    + by intros d d' ->%list_elem_of_singleton ->%list_elem_of_singleton.
    + intros d ->%list_elem_of_singleton. by_decide.
  - intros [|[|i]]; (split; [unfold node_ok; by_decide|by_decide]).
Qed.

Lemma sample_cluster_started : started cluster_ids sample_paths sample_data sample_cluster.
Proof.
  split; [|done]. assert (implements (str "B") sample_paths sample_data sample_start ∅) as HB
    by (apply new_node_implements; by_decide).
  intros [|[|i]]; [apply sample_implements|exact HB|apply sample_implements].
Qed.

(** How the meeting of [a] with [b] ends when all bytes come one by one. *)
Definition meeting_end (a b : World) :=
  run_sync_session (mkPeer a (drip (told a b))).
Definition after_meeting (a b : World) : World := default a (reopen (world (meeting_end a b).2)).

Lemma after_meeting_meets a b : is_Some (reopen (world (meeting_end a b).2)) → meets a b (after_meeting a b).
Proof.
  intros [w' Hw]. unfold after_meeting. rewrite Hw. destruct (meeting_end a b) as [r p] eqn:E.
  eapply meets_session; [apply drip_ok|done|exact E|exact Hw].
Qed.

(** The entry that the write leaves. *)
Definition sample_written_entry : FileEntry :=
  default sample_v1 (get_entry (store_of sample_peer) (str "a.txt")).
Definition sample_written : System :=
  mkSystem (<[1 := sample_peer]> (nodes sample_cluster)) (<[1 := [] ++ [sample_written_entry]]> (λ _, []))
    ([] ++ [sample_written_entry]).
Definition sample_met : System :=
  let a := sample_node in let b := sample_peer in let e := sample_written_entry in
  let a' := after_meeting a b in let b' := after_meeting b a in
  mkSystem (<[0 := a']> (<[1 := b']> (nodes sample_written)))
    (<[0 := heard_from a b a' [] [e]]> (<[1 := heard_from b a b' [e] []]> (heard sample_written))) [e].

Lemma sample_first_step : informed_step cluster_ids sample_paths sample_data sample_cluster sample_written.
Proof.
  split; [apply (sys_edit _ _ _ sample_cluster 1 (Write (str "a.txt") (str "hello")) (str "a.txt") sample_peer sample_written_entry)|intros k e v _ _ []%not_elem_of_nil].
  - reflexivity.
  - split; [by_decide|]. assert (chunk default_chunker (str "hello") = [mkChunk 0 (str "hello") (hash (str "hello"))]) as ->
      by (vm_compute; reflexivity). intros c ->%list_elem_of_singleton. by_decide.
  - vm_compute. reflexivity.
  - unfold exec. change (nodes sample_cluster 1) with sample_start. unfold sample_peer.
    assert (match (ingest_file (str "a.txt") (str "hello") sample_start).1 with Ok _ => true | _ => false end = true) as H
      by (vm_compute; reflexivity).
    destruct (ingest_file (str "a.txt") (str "hello") sample_start) as [[] w']; done.
  - vm_compute. reflexivity.
Qed.

Lemma sample_second_step : informed_step cluster_ids sample_paths sample_data sample_written sample_met.
Proof.
  split; [|by apply quiet_informed].
  apply (sys_meet _ _ _ sample_written 0 1 (after_meeting sample_node sample_peer) (after_meeting sample_peer sample_node)).
  - done.
  - unfold in_use. change (nodes sample_written 0) with sample_node. change (nodes sample_written 1) with sample_peer. by_decide.
  - unfold in_use. change (nodes sample_written 0) with sample_node. change (nodes sample_written 1) with sample_peer. by_decide.
  - change (messages_fit sample_node sample_peer). unfold messages_fit, fits. by_decide.
  - change (messages_fit sample_peer sample_node). unfold messages_fit, fits. by_decide.
  - apply after_meeting_meets. change (nodes sample_written 0) with sample_node. change (nodes sample_written 1) with sample_peer. by_decide.
  - apply after_meeting_meets. change (nodes sample_written 0) with sample_node. change (nodes sample_written 1) with sample_peer. by_decide.
Qed.

Lemma sample_informed_steps :
  rtc (informed_step cluster_ids sample_paths sample_data) sample_cluster sample_met.
Proof. eapply rtc_l; [exact sample_first_step|apply rtc_once, sample_second_step]. Qed.

Lemma sample_steps : rtc (system_step cluster_ids sample_paths sample_data) sample_cluster sample_met.
Proof. refine (rtc_subrel _ _ _ _ _ sample_informed_steps). by intros x y [H _]. Qed.

Lemma sample_heard v : v ∈ heard sample_met 0 ↔ v ∈ heard sample_met 1.
Proof.
  assert (heard sample_met 0 = [sample_written_entry]) as -> by (vm_compute; reflexivity).
  assert (heard sample_met 1 = [sample_written_entry]) as -> by (vm_compute; reflexivity). done.
Qed.

Lemma cluster_implements_replicas_witness :
  ∃ Σ, rtc (replicas_step cluster_ids) (λ _, ∅) Σ ∧
    all_implement cluster_ids sample_paths sample_data (nodes sample_met) Σ ∧
    ∃ st p a', meeting_end (nodes sample_met 2) (nodes sample_met 1) = (Ok st, p) ∧ reopen (world p) = Some a' ∧
      implements (str "A") sample_paths sample_data a' (merge_replica (Σ 2) (Σ 1)) ∧
      content_of a' (str "a.txt") = Some (str "hello").
Proof.
  destruct sample_universe as [un Hids].
  destruct (cluster_implements_replicas cluster_ids sample_paths sample_data sample_cluster sample_met (λ _, ∅))
    as (Σ & HΣ & Hs & Hmeet).
  - exact un.
  - exact Hids.
  - apply sample_cluster_started.
  - exact sample_steps.
  - exists Σ. split; [exact HΣ|]. split; [exact Hs|].
    destruct (Hmeet 2 1 (drip (told (nodes sample_met 2) (nodes sample_met 1)))) as (st & p & a' & Hrun & Hre & Him).
    + unfold in_use. by_decide.
    + unfold messages_fit, fits. by_decide.
    + apply drip_ok.
    + apply drip_ok.
    + exists st, p, a'. split; [exact Hrun|]. split; [exact Hre|]. split; [exact Him|].
      fold (meeting_end (nodes sample_met 2) (nodes sample_met 1)) in Hrun.
      assert (a' = after_meeting (nodes sample_met 2) (nodes sample_met 1)) as ->
        by (unfold after_meeting; rewrite Hrun; cbn [snd]; by rewrite Hre).
      vm_compute. reflexivity.
Defined.

Lemma files_converge_witness :
  content_of (nodes sample_met 0) (str "a.txt") = Some (str "hello") ∧
  content_of (nodes sample_met 0) (str "a.txt") = content_of (nodes sample_met 1) (str "a.txt").
Proof.
  destruct (files_converge cluster_ids sample_paths sample_data sample_cluster sample_met 0 1) as [_ H].
  - apply sample_universe.
  - apply sample_universe.
  - exact sample_cluster_started.
  - exact sample_steps.
  - unfold causally_ordered. by_decide.
  - exact sample_heard.
  - split; [vm_compute; reflexivity|apply H].
Defined.

Lemma informed_changes_converge_witness :
  causally_ordered (made sample_met) ∧
  content_of (nodes sample_met 0) (str "a.txt") = content_of (nodes sample_met 1) (str "a.txt").
Proof.
  destruct (informed_changes_converge cluster_ids sample_paths sample_data sample_cluster sample_met 0 1) as (H1 & _ & H2).
  - apply sample_universe.
  - apply sample_universe.
  - exact sample_cluster_started.
  - exact sample_informed_steps.
  - exact sample_heard.
  - split; [exact H1|apply H2].
Defined.

(** A tour that is computed, one byte at a time on every connection. *)
Definition can_meet (ps : list bytes) (i j : nat) (s : System) : Prop :=
  let a := nodes s i in let b := nodes s j in
  i ≠ j ∧ (in_use ps a b ∧ in_use ps b a) ∧ (messages_fit a b ∧ messages_fit b a) ∧
  (match (meeting_end a b).1, (meeting_end b a).1 with Ok _, Ok _ => True | _, _ => False end) ∧
  is_Some (reopen (world (meeting_end a b).2)) ∧ is_Some (reopen (world (meeting_end b a).2)).
#[export] Instance can_meet_dec ps i j s : Decision (can_meet ps i j s).
Proof.
  unfold can_meet, in_use, messages_fit, fits. repeat (apply and_dec; [apply _|]). apply and_dec; [|apply _].
  destruct (meeting_end (nodes s i) (nodes s j)).1, (meeting_end (nodes s j) (nodes s i)).1; apply _.
Defined.

Definition meet_whole (i j : nat) (s : System) : System :=
  let a := nodes s i in let b := nodes s j in
  mkSystem (<[i := after_meeting a b]> (<[j := after_meeting b a]> (nodes s)))
    (<[i := heard s i ++ heard s j]> (<[j := heard s j ++ heard s i]> (heard s))) (made s).
Fixpoint tour_run (ps : list bytes) (hub : nat) (ks : list nat) (s : System) : option System :=
  match ks with
  | [] => Some s
  | k :: ks => if decide (can_meet ps hub k s) then tour_run ps hub ks (meet_whole hub k s) else None
  end.

Lemma tour_run_tour ps hub ks s s' : tour_run ps hub ks s = Some s' → tour ps hub ks s s'.
Proof.
  revert s. induction ks as [|k ks IH]; intros s; cbn [tour_run]; [intros [= ->]; constructor|].
  case_decide as Hd; [|done]. intros Hr. eapply tour_cons; [|by apply IH].
  destruct Hd as (Hij & [? ?] & [? ?] & Hok & [wa Ha] & [wb Hb]). unfold meet_whole, after_meeting. rewrite Ha, Hb. cbn [default].
  unfold meeting_end in *.
  destruct (run_sync_session (mkPeer (nodes s hub) (drip (told (nodes s hub) (nodes s k))))) as [ra pa] eqn:Ea, (run_sync_session (mkPeer (nodes s k) (drip (told (nodes s k) (nodes s hub))))) as [rb pb] eqn:Eb.
  cbn [fst snd] in *. destruct ra, rb; try done.
  by eapply whole_meeting_intro; first [exact Ea|exact Eb|exact Ha|exact Hb|apply drip_ok|done].
Qed.

Definition sample_toured : System := default sample_written (tour_run sample_paths 0 [1; 2; 1; 2] sample_written).

Lemma tours_converge_witness :
  content_of (nodes sample_toured 2) (str "a.txt") = Some (str "hello") ∧
  (∀ p, content_of (nodes sample_toured 1) p = content_of (nodes sample_toured 2) p) ∧
  sample_written_entry ∈ heard sample_toured 2.
Proof.
  destruct (tours_converge cluster_ids sample_paths sample_data sample_cluster sample_written sample_toured 0 [1; 2]) as [H _].
  - apply sample_universe.
  - apply sample_universe.
  - exact sample_cluster_started.
  - apply rtc_once, sample_first_step.
  - unfold causally_ordered. by_decide.
  - by_decide.
  - by_decide.
  - apply tour_run_tour. assert (is_Some (tour_run sample_paths 0 [1; 2; 1; 2] sample_written)) as [s' Hs'] by by_decide.
    unfold sample_toured. by rewrite Hs'.
  - split; [vm_compute; reflexivity|]. destruct (H 1 2) as (_ & Hc & _); [by_decide|by_decide|]. split; [exact Hc|].
    destruct (H 2 1) as (_ & _ & Hh); [by_decide|by_decide|]. apply Hh. exists 1. split; [by_decide|].
    change (heard sample_written 1) with [sample_written_entry]. by left.
Defined.
