(* ===== verification/Tests.v ===== *)
(** * Tests: the program's own test programs ([test_crdt.cpp], [test_merkle.cpp],
    [test_chunker.cpp])

    They are translated statement by statement.  The first two are run on the
    definitions of this library.  The third draws its data from a generator: the
    Mersenne twister of the C++ standard is written out, the algorithm of
    [std::uniform_int_distribution], which the standard leaves open, is a parameter,
    and what the program does is proved for every such algorithm. *)
From S2P Require Import Prelude Text VectorClock Sha256 Chunker MerkleTree FileEntry CrdtStore.

(** A test program writes to [std::cout]; a failed [assert] ends it. *)
Definition assert_ (b : bool) : stateM bytes unit :=
  if b then mret tt else lift (Throw (runtime_error (str "assertion failed"))).
Definition say (msg : string) : stateM bytes unit := modify (λ o, o ++ str msg ++ [byte_of 10]).
(** [*o] and [v[0]] *)
Definition deref {A} (o : option A) : stateM bytes A :=
  lift (match o with Some x => Ok x | None => UB end).
Definition front {A} (v : list A) : stateM bytes A := deref (v !! 0).

Definition h (s : string) : Digest := hash (str s).

(** ** [test_crdt.cpp] *)

Definition scenario_1 : stateM bytes unit :=
  let node_a := put_local (new_store (str "A")) (str "notes.txt") [h "v1"] zero_digest 2 in
  let! v1 := deref (get_entry node_a (str "notes.txt")) in
  let '(r0, node_b) := merge_remote (new_store (str "B")) v1 in
  assert_ (bool_decide (outcome_ r0 = APPLIED_REMOTE)) ;!
  let node_a := put_local node_a (str "notes.txt") [h "v2"] zero_digest 2 in
  let! v2 := deref (get_entry node_a (str "notes.txt")) in
  let '(r1, node_b) := merge_remote node_b v2 in
  assert_ (bool_decide (outcome_ r1 = APPLIED_REMOTE)) ;!
  let! e := deref (get_entry node_b (str "notes.txt")) in
  let! x := front (chunk_hashes e) in
  assert_ (bool_decide (x = h "v2")) ;!
  say "[ok] causal edit propagates cleanly, no false conflict".

Definition scenario_2 : stateM bytes unit :=
  let node_a := put_local (new_store (str "A")) (str "shared.txt") [h "base"] zero_digest 4 in
  let! base := deref (get_entry node_a (str "shared.txt")) in
  let '(_, node_b) := merge_remote (new_store (str "B")) base in
  let node_a := put_local node_a (str "shared.txt") [h "edit-by-A"] zero_digest 9 in
  let node_b := put_local node_b (str "shared.txt") [h "edit-by-B"] zero_digest 9 in
  let! from_a := deref (get_entry node_a (str "shared.txt")) in
  let! from_b := deref (get_entry node_b (str "shared.txt")) in
  let '(r, node_b) := merge_remote node_b from_a in
  assert_ (bool_decide (outcome_ r = CONFLICT_FORKED)) ;!
  let! e := deref (get_entry node_b (str "shared.txt")) in
  let! x := front (chunk_hashes e) in
  assert_ (bool_decide (x = h "edit-by-B")) ;!
  let forked := get_entry node_b (conflict_path r) in
  assert_ (match forked with Some _ => true | None => false end) ;!
  let! f := deref forked in
  let! y := front (chunk_hashes f) in
  assert_ (bool_decide (y = h "edit-by-A")) ;!
  modify (λ o, o ++ str "[ok] concurrent edits detected and both versions preserved (no silent data loss): "
    ++ conflict_path r ++ [byte_of 10]) ;!
  let '(r2, node_a) := merge_remote node_a from_b in
  assert_ (bool_decide (outcome_ r2 = CONFLICT_FORKED)) ;!
  say "[ok] merge is commutative: both replicas converge to base + 2 forks regardless of order".

Definition scenario_3 : stateM bytes unit :=
  let node_a := put_local (new_store (str "A")) (str "temp.txt") [h "data"] zero_digest 4 in
  let! e := deref (get_entry node_a (str "temp.txt")) in
  let '(_, node_b) := merge_remote (new_store (str "B")) e in
  let node_a := delete_local node_a (str "temp.txt") in
  let! e := deref (get_entry node_a (str "temp.txt")) in
  let '(r, node_b) := merge_remote node_b e in
  assert_ (bool_decide (outcome_ r = APPLIED_REMOTE)) ;!
  let! e := deref (get_entry node_b (str "temp.txt")) in
  assert_ (deleted e) ;!
  say "[ok] tombstoned delete propagates via the same causal merge rule".

Definition test_crdt : stateM bytes Z :=
  scenario_1 ;! scenario_2 ;! scenario_3 ;! say "All CRDT tests passed." ;! mret 0%Z.

(** ** [test_merkle.cpp] *)

Definition test_chunk (s : string) (offset : N) : Chunk := mkChunk offset (str s) (hash (str s)).

(** [chunks[i] = c;], in range in these programs. *)
Definition replaced (i : nat) (c : Chunk) (chunks : list Chunk) : list Chunk := <[i := c]> chunks.

Definition test_merkle : stateM bytes Z :=
  let chunks := [test_chunk "alpha" 0; test_chunk "bravo" 5; test_chunk "charlie" 10;
                 test_chunk "delta" 17; test_chunk "echo" 22] in
  let tree_a := build chunks in
  let tree_b := build chunks in
  let! ra := lift (root tree_a) in
  let! rb := lift (root tree_b) in
  assert_ (bool_decide (ra = rb)) ;!
  say "[ok] identical content -> identical Merkle root" ;!
  let tree_c := build (replaced 2 (test_chunk "CHARLIE-EDITED" 10) chunks) in
  let! rc := lift (root tree_c) in
  assert_ (negb (bool_decide (ra = rc))) ;!
  let diffs := diff_leaf_indices tree_a tree_c in
  assert_ (bool_decide (length diffs = 1)) ;!
  let! d := front diffs in
  assert_ (bool_decide (d = 2%Z)) ;!
  say "[ok] single-chunk edit isolated to exactly one leaf index" ;!
  let tree_d := build (replaced 4 (test_chunk "ECHO-EDITED" 22)
    (replaced 0 (test_chunk "ALPHA-EDITED" 0) chunks)) in
  let diffs2 := diff_leaf_indices tree_a tree_d in
  assert_ (bool_decide (length diffs2 = 2)) ;!
  say "[ok] multiple edits isolated to their respective leaves" ;!
  let tree_e := build (chunks ++ [test_chunk "foxtrot" 27]) in
  let diffs3 := diff_leaf_indices tree_a tree_e in
  assert_ (bool_decide (diffs3 = [])) ;!
  say "[ok] leaf-count mismatch correctly reported as unalignable" ;!
  say "All Merkle tree tests passed." ;! mret 0%Z.

(** ** [test_chunker.cpp] *)

(** *** [std::mt19937], as the standard defines it: the state is the last 624 words. *)
Abbreviation mt19937 := (list N).

(** The words after [x], which is word [i - 1]. *)
Fixpoint mt_fill (k : nat) (i x : N) : mt19937 :=
  x :: match k with
       | 0 => []
       | S k => mt_fill k (i + 1) (u32 (1812433253 * N.lxor x (N.shiftr x 30) + i))
       end.
Definition mt_seed (value : N) : mt19937 := mt_fill 623 1 (u32 value).

Definition mt_temper (x : N) : N :=
  let z := N.lxor x (N.land (N.shiftr x 11) 0xffffffff) in
  let z := N.lxor z (N.land (N.shiftl z 7) 0x9d2c5680) in
  let z := N.lxor z (N.land (N.shiftl z 15) 0xefc60000) in
  N.lxor z (N.shiftr z 18).

Definition mt_next (rng : mt19937) : N * mt19937 :=
  match rng with
  | x0 :: (x1 :: _) as rest =>
      let y := N.lor (N.land x0 0x80000000) (N.land x1 0x7fffffff) in
      let x := N.lxor (N.lxor (default 0%N (rng !! 397)) (N.shiftr y 1))
                      (if N.testbit y 0 then 0x9908b0df else 0) in
      (mt_temper x, rest ++ [x])
  | _ => (0%N, rng)
  end.

(** [dist(rng)] for the distribution over 0..255. *)
Abbreviation distribution := (mt19937 → Z * mt19937).

(** [for (auto& b : out) b = static_cast<uint8_t>(dist(rng));] *)
Fixpoint draw_bytes (dist : distribution) (n : nat) (rng : mt19937) : bytes :=
  match n with
  | 0 => []
  | S n => let '(x, rng) := dist rng in byte_of_int x :: draw_bytes dist n rng
  end.
Definition random_bytes (dist : distribution) (n : nat) (seed : N) : bytes :=
  draw_bytes dist n (mt_seed seed).

(** [edited[i] = static_cast<uint8_t>(~edited[i]);] *)
Definition invert (b : byte) : byte := byte_of (N.lxor (byte_val b) 0xff).
Definition invert_at (i : nat) (d : bytes) : outcome bytes :=
  match d !! i with Some b => Ok (<[i := invert b]> d) | None => UB end.
Fixpoint invert_range (from count : nat) (d : bytes) : outcome bytes :=
  match count with
  | 0 => Ok d
  | S count => let! d := invert_at from d in invert_range (S from) count d
  end.

(** [for (size_t i = 0; i < c1.size(); ++i) assert(c1[i].hash == c2[i].hash);] *)
Fixpoint assert_same_hashes (c1 c2 : list Chunk) : stateM bytes unit :=
  match c1 with
  | [] => mret tt
  | x :: c1 =>
      let! y := front c2 in
      assert_ (bool_decide (chunk_hash x = chunk_hash y)) ;! assert_same_hashes c1 (tail c2)
  end.

(** The loop that counts [common_prefix]. *)
Fixpoint common_prefix (c1 c3 : list Chunk) : nat :=
  match c1, c3 with
  | x :: c1, y :: c3 => if decide (chunk_hash x = chunk_hash y) then S (common_prefix c1 c3) else 0
  | _, _ => 0
  end.

Definition test_chunker (dist : distribution) : stateM bytes Z :=
  let chunker := new_chunker 256 1024 4096 in
  let data_ := random_bytes dist (N.to_nat 100000) 1 in
  let c1 := chunk chunker data_ in
  let c2 := chunk chunker data_ in
  assert_ (bool_decide (length c1 = length c2)) ;!
  assert_same_hashes c1 c2 ;!
  modify (λ o, o ++ str "[ok] deterministic chunking (" ++ to_dec (N.of_nat (length c1)) ++ str " chunks)" ++ [byte_of 10]) ;!
  let rebuilt := foldl (λ r c, r ++ data c) [] c1 in
  assert_ (bool_decide (rebuilt = data_)) ;!
  say "[ok] chunk reassembly reproduces original bytes" ;!
  for_each c1 (λ c, assert_ (N.of_nat (length (data c)) <=? 4096)%N) ;!
  say "[ok] chunk sizes respect max bound" ;!
  let! edited := lift (invert_range (N.to_nat 50000) 10 data_) in
  let c3 := chunk chunker edited in
  let common := common_prefix c1 c3 in
  let total := length c1 `max` length c3 in
  assert_ (total - common <? total / 2) ;!
  modify (λ o, o ++ str "[ok] localized edit only perturbs a small chunk region (" ++
    to_dec (N.of_nat (total - common)) ++ str "/" ++ to_dec (N.of_nat total) ++
    str " diverge before re-sync)" ++ [byte_of 10]) ;!
  say "All chunker tests passed." ;! mret 0%Z.

(** *** Its steps *)

Lemma assert_same_hashes_refl cs o : assert_same_hashes cs cs o = (Ok tt, o).
Proof.
  induction cs as [|c cs IH]; [done|]. cbn [assert_same_hashes].
  rewrite (bind_ok (front (c :: cs)) _ o c o) by done. rewrite bool_decide_true by done. exact IH.
Qed.

Lemma rebuilt_bytes_of r cs : foldl (λ r c, r ++ data c) r cs = r ++ bytes_of cs.
Proof.
  revert r. induction cs as [|c cs IH]; intros r; [by rewrite app_nil_r|]. cbn [foldl].
  by rewrite IH, bytes_of_cons, app_assoc.
Qed.

Lemma assert_all {A} (P : A → bool) xs (o : bytes) :
  Forall (λ x, P x = true) xs → for_each xs (λ x, assert_ (P x)) o = (Ok tt, o).
Proof.
  induction 1 as [|x xs Hx _ IH]; [done|]. cbn [for_each]. unfold mbind, stateM_bind, assert_. rewrite Hx. exact IH.
Qed.

Lemma length_draw_bytes dist n rng : length (draw_bytes dist n rng) = n.
Proof. revert rng. induction n as [|n IH]; intros rng; [done|]. simpl. destruct (dist rng). simpl. by rewrite IH. Qed.

(** The edit stays in range and touches nothing before it. *)
Lemma invert_range_ok from count d :
  from + count ≤ length d →
  ∃ d', invert_range from count d = Ok d' ∧ length d' = length d ∧ take from d' = take from d.
Proof.
  revert from d. induction count as [|count IH]; intros from d Hd; [by exists d|]. cbn [invert_range].
  destruct (lookup_lt_is_Some_2 d from) as [b Hb]; [lia|]. unfold invert_at. rewrite Hb. simpl.
  destruct (IH (S from) (<[from := invert b]> d)) as (d' & H1 & H2 & H3); [rewrite length_insert; lia|].
  exists d'. split; [done|]. rewrite length_insert in H2. split; [done|].
  assert (∀ l : bytes, take from (take (S from) l) = take from l) as Ht
    by (intros l; rewrite take_take; f_equal; lia).
  rewrite <- Ht, H3, Ht. by apply take_insert_ge.
Qed.

Lemma common_prefix_app cs c1 c3 : common_prefix (cs ++ c1) (cs ++ c3) = length cs + common_prefix c1 c3.
Proof. induction cs as [|c cs IH]; [done|]. cbn [common_prefix app]. rewrite decide_True by done. by rewrite IH. Qed.

(** What has been printed when the last assertion is reached. *)
Definition three_lines (cs : list Chunk) : bytes :=
  str "[ok] deterministic chunking (" ++ to_dec (N.of_nat (length cs)) ++ str " chunks)" ++ [byte_of 10] ++
  unlines (byte_of 10) [str "[ok] chunk reassembly reproduces original bytes"; str "[ok] chunk sizes respect max bound"].
Definition last_lines (differ total : nat) : bytes :=
  str "[ok] localized edit only perturbs a small chunk region (" ++ to_dec (N.of_nat differ) ++ str "/" ++
  to_dec (N.of_nat total) ++ str " diverge before re-sync)" ++ [byte_of 10] ++
  unlines (byte_of 10) [str "All chunker tests passed."].

Definition test_config : Chunker := new_chunker 256 1024 4096.
Definition test_data (dist : distribution) : bytes := random_bytes dist (N.to_nat 100000) 1.

Lemma test_chunker_run dist edited :
  let c1 := chunk test_config (test_data dist) in let c3 := chunk test_config edited in
  let total := length c1 `max` length c3 in let differ := total - common_prefix c1 c3 in
  invert_range (N.to_nat 50000) 10 (test_data dist) = Ok edited →
  test_chunker dist [] =
    if differ <? total / 2 then (Ok 0%Z, three_lines c1 ++ last_lines differ total)
    else (Throw (runtime_error (str "assertion failed")), three_lines c1).
Proof.
  intros c1 c3 total differ He. unfold test_chunker. fold (test_data dist) test_config. cbv zeta. fold c1.
  rewrite (bool_decide_true (length c1 = length c1)) by done.
  rewrite (bind_ok _ _ _ tt []) by done. rewrite (bind_ok _ _ _ tt []) by apply assert_same_hashes_refl.
  erewrite bind_ok by done. rewrite rebuilt_bytes_of, app_nil_l.
  rewrite (bool_decide_true (bytes_of c1 = test_data dist)) by apply bytes_of_chunk. erewrite bind_ok by done. erewrite bind_ok by done.
  erewrite bind_ok by (apply assert_all; eapply Forall_impl; [apply (chunk_Forall_ok test_config)|];
    intros c (_ & Hmax & _); apply N.leb_le; exact Hmax).
  erewrite bind_ok by done. rewrite He. erewrite bind_ok by done. fold c3 total differ.
  destruct (differ <? total / 2).
  - unfold assert_, say, mbind, stateM_bind, modify, mret, stateM_ret. f_equal.
    unfold three_lines, last_lines, unlines. cbn [map concat].
    by rewrite !app_nil_r, <- !app_assoc.
  - unfold assert_, mbind, stateM_bind, lift. f_equal.
    unfold three_lines, unlines. cbn [map concat]. by rewrite !app_nil_r, <- !app_assoc.
Qed.

(** *** Data on which the last assertion fails *)

Lemma common_prefix_shift j k c1 c3 : common_prefix (shift j <$> c1) (shift k <$> c3) = common_prefix c1 c3.
Proof.
  revert c3. induction c1 as [|x c1 IH]; intros [|y c3]; [done..|]. csimpl. case_decide; [|done]. by rewrite IH.
Qed.

(** A block that is cut off whatever follows it. *)
Definition cut_off (ck : Chunker) (z : bytes) : Prop := ∀ x, x ≠ [] → cut ck (z ++ x) = length z.

Lemma cut_off_chunk ck z x :
  cut_off ck z → x ≠ [] → chunk ck (z ++ x) = mkChunk 0 z (hash z) :: (shift (N.of_nat (length z)) <$> chunk ck x).
Proof.
  intros Hz Hx. rewrite chunk_cons by (by intros [_ ?]%app_nil).
  by rewrite Hz, take_app_length, drop_app_length by done.
Qed.

Lemma cut_off_chunks ck z x k :
  cut_off ck z → x ≠ [] → ∃ cs, length cs = k ∧
    chunk ck (concat (replicate k z) ++ x) = cs ++ (shift (N.of_nat (k * length z)) <$> chunk ck x).
Proof.
  intros Hz Hx. induction k as [|k (cs & Hl & IH)]; [exists []; by rewrite shift_0|].
  cbn [replicate concat]. rewrite <- app_assoc, cut_off_chunk, IH by (done || by intros [_ ?]%app_nil).
  exists (mkChunk 0 z (hash z) :: (shift (N.of_nat (length z)) <$> cs)).
  split; [csimpl; by rewrite length_fmap, Hl|]. rewrite fmap_app, shift_shift. cbn [app]. do 4 f_equal. lia.
Qed.

Lemma cut_off_same ck z x y k :
  cut_off ck z → x ≠ [] → y ≠ [] →
  common_prefix (chunk ck (concat (replicate k z) ++ x)) (chunk ck (concat (replicate k z) ++ y)) =
    k + common_prefix (chunk ck x) (chunk ck y).
Proof.
  intros Hz Hx Hy. induction k as [|k IH]; [done|]. cbn [replicate concat]. rewrite <- !app_assoc.
  rewrite !(cut_off_chunk ck z) by (done || by intros [_ ?]%app_nil).
  cbn [common_prefix chunk_hash]. by rewrite decide_True, common_prefix_shift, IH.
Qed.

(** One block in the middle is changed. *)
Lemma one_block_changed ck z z' s k :
  cut_off ck z → cut_off ck z' → s ≠ [] → hash z ≠ hash z' →
  let c1 := chunk ck (concat (replicate k z) ++ z ++ s) in
  let c3 := chunk ck (concat (replicate k z) ++ z' ++ s) in
  common_prefix c1 c3 = k ∧ length c1 = k + S (length (chunk ck s)) ∧ length c3 = k + S (length (chunk ck s)).
Proof.
  intros Hz Hz' Hs Hne. assert (∀ y, y ++ s ≠ []) as Hys by (by intros y [_ ?]%app_nil).
  assert (∀ y, cut_off ck y → length (chunk ck (concat (replicate k z) ++ y ++ s)) = k + S (length (chunk ck s))) as Hl.
  { intros y Hy. destruct (cut_off_chunks ck z (y ++ s) k Hz (Hys y)) as (cs & Hc & E).
    rewrite E, cut_off_chunk by done. by rewrite length_app, Hc, length_fmap, length_cons, length_fmap. }
  cbv zeta. split; [|by split; apply Hl].
  rewrite cut_off_same, !cut_off_chunk by done. cbn [common_prefix chunk_hash]. rewrite decide_False by done. lia.
Qed.

(** 254 zeros and two bytes that make the low ten bits of the rolling hash zero. *)
Definition block : bytes := replicate 254 (byte_of 0) ++ [byte_of 2; byte_of 211].
Definition edited_block : bytes :=
  replicate 80 (byte_of 0) ++ replicate 10 (byte_of 255) ++ replicate 164 (byte_of 0) ++ [byte_of 2; byte_of 211].

(** A distribution that repeats the block; it counts its calls in the state of the generator. *)
Definition periodic : distribution := λ rng,
  let n := match rng with [n] => n | _ => 0%N end in
  (if (n mod 256 =? 254)%N then 2%Z else if (n mod 256 =? 255)%N then 211%Z else 0%Z, [(n + 1)%N]).

Lemma block_cut_off : cut_off test_config block ∧ cut_off test_config edited_block.
Proof.
  assert (∀ z y, cut test_config (z ++ [byte_of 0]) = length z → y ≠ [] →
    cut test_config (z ++ y) = length z) as H.
  { intros z y Hz Hy. by rewrite (cut_prefix _ z [byte_of 0] y), Hz by (done || by rewrite Hz). }
  split; intros x Hx; (apply H; [vm_compute; reflexivity|exact Hx]).
Qed.

Definition periodic_at (n : nat) : byte := byte_of_int (periodic [N.of_nat n]).1.

Lemma draw_periodic n m : draw_bytes periodic m [N.of_nat n] = periodic_at <$> seq n m.
Proof.
  revert n. induction m as [|m IH]; intros n; [done|]. csimpl. rewrite <- IH.
  by replace (N.of_nat (S n)) with (N.of_nat n + 1)%N by lia.
Qed.

Lemma periodic_block q m : periodic_at <$> seq (256 * q) m = periodic_at <$> seq 0 m.
Proof.
  rewrite <- (Nat.add_0_r (256 * q)), <- fmap_add_seq, <- list_fmap_compose.
  apply list_fmap_ext. intros _ n _. unfold compose, periodic_at, periodic. cbn [fst].
  replace (N.of_nat (256 * q + n)) with (N.of_nat n + N.of_nat q * 256)%N by lia.
  by rewrite N.Div0.mod_add.
Qed.

Lemma draw_blocks k r :
  periodic_at <$> seq 0 (k * 256 + r) = concat (replicate k block) ++ (periodic_at <$> seq 0 r).
Proof.
  assert (block = periodic_at <$> seq 0 256) as -> by (vm_compute; reflexivity).
  induction k as [|k IH]; [done|]. cbn [replicate concat]. rewrite <- app_assoc, <- IH.
  replace (S k * 256 + r) with (256 + (k * 256 + r)) by lia. rewrite seq_app, fmap_app. f_equal.
  apply (periodic_block 1).
Qed.

Lemma length_blocks k z : length (concat (replicate k z) : bytes) = k * length z.
Proof. induction k as [|k IH]; [done|]. cbn [replicate concat]. rewrite length_app, IH. lia. Qed.

Lemma periodic_data : test_data periodic = concat (replicate 390 block) ++ take 160 block.
Proof.
  assert (N.to_nat 100000 = S (N.to_nat 99999)) as E by lia.
  unfold test_data, random_bytes. rewrite E. cbn [draw_bytes]. change (periodic (mt_seed 1)) with (0%Z, [1%N]).
  cbv beta iota. change 1%N with (N.of_nat 1). rewrite draw_periodic.
  change (byte_of_int 0 :: (periodic_at <$> seq 1 (N.to_nat 99999))) with (periodic_at <$> seq 0 (S (N.to_nat 99999))).
  replace (S (N.to_nat 99999)) with (390 * 256 + 160) by lia. rewrite draw_blocks. f_equal.
Qed.

(** An edit inside a part of a buffer leaves the rest alone. *)
Lemma invert_range_app p l r i count l' :
  invert_range i count l = Ok l' → invert_range (length p + i) count (p ++ l ++ r) = Ok (p ++ l' ++ r).
Proof.
  revert i l. induction count as [|count IH]; intros i l; cbn [invert_range]; [by intros [= ->]|].
  unfold invert_at. rewrite lookup_app_r, Nat.add_comm, Nat.add_sub by lia.
  destruct (l !! i) as [b|] eqn:E; [|done]. rewrite (lookup_app_l_Some _ _ _ _ E). simpl. intros H.
  rewrite <- (IH (S i) (<[i := invert b]> l) H). f_equal; [lia|].
  rewrite Nat.add_comm, insert_app_r. f_equal. by rewrite insert_app_l by (by apply lookup_lt_Some in E).
Qed.

Lemma periodic_edited :
  invert_range (N.to_nat 50000) 10 (test_data periodic) =
    Ok (concat (replicate 195 block) ++ edited_block ++ concat (replicate 194 block) ++ take 160 block).
Proof.
  rewrite periodic_data. change 390 with (195 + (1 + 194)). rewrite !replicate_add, !concat_app, <- !app_assoc.
  assert (N.to_nat 50000 = length (concat (replicate 195 block)) + 80) as ->
    by (rewrite length_blocks; change (length block) with 256; lia).
  apply invert_range_app. vm_compute. reflexivity.
Qed.

Lemma edited_block_differs : hash block ≠ hash edited_block.
Proof. vm_compute. discriminate. Qed.

(** All chunks are blocks, so half of them lie behind the edit. *)
Lemma periodic_fails :
  let c1 := chunk test_config (test_data periodic) in
  let c3 := chunk test_config (concat (replicate 195 block) ++ edited_block ++ concat (replicate 194 block) ++ take 160 block) in
  common_prefix c1 c3 = 195 ∧ length c1 = 391 ∧ length c3 = 391.
Proof.
  destruct block_cut_off as [Hz Hz']. cbv zeta. rewrite periodic_data.
  change 390 with (195 + (1 + 194)). rewrite !replicate_add, !concat_app, <- !app_assoc.
  change (concat (replicate 1 block)) with block.
  set (s := concat (replicate 194 block) ++ take 160 block).
  assert (s ≠ []) as Hs by (by intros [_ ?]%app_nil).
  assert (length (chunk test_config s) = 195) as Hl.
  { destruct (cut_off_chunks test_config block (take 160 block) 194 Hz) as (cs & Hc & E); [done|].
    unfold s. rewrite E, length_app, length_fmap, Hc. vm_compute. reflexivity. }
  pose proof (one_block_changed test_config block edited_block s 195 Hz Hz' Hs edited_block_differs) as H.
  rewrite Hl in H. exact H.
Qed.

(** ** Properties *)

(** The program's own tests pass on the definitions of this library: [test_crdt]
    and [test_merkle] run to their ends, no assertion fails, nothing
    undefined happens, they print what the C++ programs print, the name of the
    conflict copy included, and exit with 0. *)
Theorem own_tests_pass :
  test_crdt [] = (Ok 0%Z, unlines (byte_of 10) (map str [
    "[ok] causal edit propagates cleanly, no false conflict";
    "[ok] concurrent edits detected and both versions preserved (no silent data loss): shared.conflict-A.txt";
    "[ok] merge is commutative: both replicas converge to base + 2 forks regardless of order";
    "[ok] tombstoned delete propagates via the same causal merge rule";
    "All CRDT tests passed."]%string)) ∧
  test_merkle [] = (Ok 0%Z, unlines (byte_of 10) (map str [
    "[ok] identical content -> identical Merkle root";
    "[ok] single-chunk edit isolated to exactly one leaf index";
    "[ok] multiple edits isolated to their respective leaves";
    "[ok] leaf-count mismatch correctly reported as unalignable";
    "All Merkle tree tests passed."]%string)).
Proof. split; vm_compute; reflexivity. Qed.

(** C40: What [test_chunker] asserts, and what it does not.  Whatever the
    distribution draws, the first three assertions hold, nothing undefined
    happens, and the chunks that end before the edited bytes, all but the last 4096
    bytes before them, are shared; the program then exits with 0 exactly if the chunks after
    the common prefix are less than half of all.  Since the edit is in the middle
    and every later chunk counts as diverged, that depends on the data: there are
    values of the distribution for which the assertion fails although one chunk only differs. *)
Theorem chunker_test_outcome :
  (∀ dist, ∃ edited before after after',
    let c1 := chunk test_config (test_data dist) in let c3 := chunk test_config edited in
    let total := length c1 `max` length c3 in let differ := total - common_prefix c1 c3 in
    invert_range (N.to_nat 50000) 10 (test_data dist) = Ok edited ∧
    c1 = before ++ after ∧ c3 = before ++ after' ∧
    (50000 - 4096 < N.of_nat (length (bytes_of before)) ≤ 50000)%N ∧
    length before ≤ common_prefix c1 c3 ∧
    test_chunker dist [] =
      if differ <? total / 2 then (Ok 0%Z, three_lines c1 ++ last_lines differ total)
      else (Throw (runtime_error (str "assertion failed")), three_lines c1)) ∧
  (∃ dist, (∀ rng, (0 ≤ (dist rng).1 < 256)%Z) ∧ (test_chunker dist []).1 = Throw (runtime_error (str "assertion failed"))).
Proof.
  split.
  - intros dist.
    assert (length (test_data dist) = N.to_nat 100000) as Hl by apply length_draw_bytes.
    destruct (invert_range_ok (N.to_nat 50000) 10 (test_data dist)) as (edited & He & Hle & Ht); [lia|].
    destruct (chunk_shared test_config (test_data dist) (N.to_nat 50000)) as (before & after & H1 & H2 & H3 & H4); [lia|].
    destruct (H4 edited) as [after' H5]; [done|lia|].
    exists edited, before, after, after'. cbv zeta. split_and!; try done; [|lia| |by apply test_chunker_run].
    + destruct after as [|c rest].
      { pose proof (bytes_of_chunk test_config (test_data dist)) as Hb. rewrite H1, app_nil_r in Hb. rewrite Hb in H2. lia. }
      specialize (H3 c rest eq_refl). rewrite bytes_of_app, length_app in H3.
      pose proof (chunk_Forall_ok test_config (test_data dist)) as Hok. rewrite H1, Forall_app in Hok.
      destruct Hok as [_ [(_ & Hmax & _) _]%Forall_cons]. change (N.max 1 (max_size_ test_config)) with 4096%N in Hmax.
      unfold bytes_of in H3 at 2. cbn [map concat] in H3. rewrite app_nil_r in H3. lia.
    + rewrite H1, H5, common_prefix_app. lia.
  - exists periodic. split.
    + intros rng. unfold periodic. cbv zeta. cbn [fst]. destruct (_ =? 254)%N; [lia|]. destruct (_ =? 255)%N; lia.
    + destruct periodic_fails as (Hc & H1 & H3). rewrite (test_chunker_run periodic _ periodic_edited).
      cbv zeta in *. by rewrite Hc, H1, H3.
Qed.

(** The generator is the one of the standard: started from the default seed 5489,
    its 10000th value is 4123659995. *)
Lemma mt19937_conforms : (mt_next (Nat.iter (N.to_nat 9999) (λ rng, (mt_next rng).2) (mt_seed 5489))).1 = 4123659995%N.
Proof. vm_compute. reflexivity. Qed.
